(** * ECA (Easier/Enhanced CSS Animations): the visibility-and-timing engine

    A shallow embedding of [src/eca.js]: the [Elem] and [ElemGroup] classes,
    the bootstrap ([readyElementsForAnimation], [addListeners],
    [getEventStyles]), the polling visibility calculator
    ([calculateVisibility], [correctThreshold]), the decision logic
    ([updateOne], [delayGroup], [animate], [deAnimate]) and the scheduler
    ([requestAnimationUpdate]).

    Conventions of the embedding.
    - JavaScript numbers that hold pixel geometry and threshold fractions
      are exact rationals ([Q]); the values produced by [parseInt]
      (stagger multiplier, group delay) are integers ([Z]).  Rounding is
      outside the model; [NaN] and the infinities occur only as what the
      keys of a char-delays object convert to ([CharKey]).
    - [null] / [undefined] fields are [option]s.
    - A member is addressed by its index in [group.elems]; the back
      reference [elem.group] is the group that owns the list.
    - The DOM is an environment: geometry is read from a layout function,
      style and class writes are appended to a log.
    - The polling strategy is the page [World.t] with its events
      ([step], [run]); the observer strategy ([handleIntersect],
      [readEntries], [shouldSkipUpdate], [calculateVisibilityIO],
      [updateEntries]) is the page [Observer.t] with its events
      ([observerStep], [observerRun]), where [None] is an uncaught
      [TypeError]. *)

From Stdlib Require Import ZArith QArith Lqa Lia Bool.
From stdpp Require Import base list strings gmap pretty.

Open Scope Z_scope.

(** ** JavaScript values reaching the boolean setters *)

(** A value assigned to [isVisible] / [isAnimated]: a genuine boolean, or
    any other value, of which only the truthiness matters. *)
Inductive JSVal : Type :=
  | JBool (b : bool)
  | JOther (truthy : bool).

(** [!!v] *)
Definition truthy (v : JSVal) : bool :=
  match v with JBool b => b | JOther t => t end.

(** [v !== prev] where [prev] is a stored boolean *)
Definition strict_neq_bool (v : JSVal) (prev : bool) : bool :=
  match v with
  | JBool b => negb (Bool.eqb b prev)
  | JOther _ => true
  end.

(** ** Rational comparisons as the code writes them *)

Definition Qlt_bool (x y : Q) : bool := negb (Qle_bool y x).

(** a [null] coordinate compares as [0] *)
Definition num_or_null (x : option Q) : Q :=
  match x with Some q => q | None => 0%Q end.

(** ** The data model *)

(** What [getOption] returns under [isStr]: [false], [true], or the
    trimmed lower-case attribute string.  [removesAnimationWhenNotInView]
    holds such a value ("above", "below", or anything the page author
    wrote). *)
Inductive StrOpt : Type :=
  | OptFalse
  | OptTrue
  | OptStr (s : string).

(** truthiness of such a value *)
Definition StrOpt_truthy (o : StrOpt) : bool :=
  match o with
  | OptFalse => false
  | OptTrue => true
  | OptStr s => negb (String.eqb s "")
  end.

Module Elem.
Record t : Type := mk {
  top : option Q;
  bottom : option Q;
  isVisible : bool;
  isAnimated : bool;
  threshold : Q;
  originalThreshold : Q;
  uniqueDelay : option Q;
  target : nat;
  originalInlineStyles : string
}.

Definition with_coords (tp bt : option Q) (e : t) : t :=
  let 'mk _ _ v a th oth ud tg st := e in mk tp bt v a th oth ud tg st.
Definition with_isVisible (b : bool) (e : t) : t :=
  let 'mk tp bt _ a th oth ud tg st := e in mk tp bt b a th oth ud tg st.
Definition with_isAnimated (b : bool) (e : t) : t :=
  let 'mk tp bt v _ th oth ud tg st := e in mk tp bt v b th oth ud tg st.
Definition with_threshold (q : Q) (e : t) : t :=
  let 'mk tp bt v a _ oth ud tg st := e in mk tp bt v a q oth ud tg st.
Definition with_uniqueDelay (d : option Q) (e : t) : t :=
  let 'mk tp bt v a th oth _ tg st := e in mk tp bt v a th oth d tg st.
End Elem.

Module ElemGroup.
Record t : Type := mk {
  elems : list Elem.t;
  groupId : string;
  delayMultiplier : Z;
  staggersFromZero : bool;
  nextStaggeredDelay : option Z;
  duration : option Z;
  groupDelay : Z;
  originalGroupDelay : Z;
  isDelaying : bool;
  delayId : option nat;
  isFinishedAnimating : bool;
  numElemsAnimated : Z;
  playsOnLoad : bool;
  playsReversed : bool;
  animatesAllOnFirstSight : bool;
  upToDateELem : option nat;
  listen : option string;
  listensOnce : bool;
  animatesWithTransitions : bool;
  removesAnimationWhenNotInView : StrOpt;
  isVisible : bool;
  numElemsVisible : Z
}.

Definition with_elems (x : list Elem.t) (g : t) : t :=
  let 'mk _ id dm sz ns du gd od dl di fa na pl pr aa ut li lo tr rm iv nv := g in
  mk x id dm sz ns du gd od dl di fa na pl pr aa ut li lo tr rm iv nv.
Definition with_nextStaggeredDelay (x : option Z) (g : t) : t :=
  let 'mk el id dm sz _ du gd od dl di fa na pl pr aa ut li lo tr rm iv nv := g in
  mk el id dm sz x du gd od dl di fa na pl pr aa ut li lo tr rm iv nv.
Definition with_groupDelay (x : Z) (g : t) : t :=
  let 'mk el id dm sz ns du _ od dl di fa na pl pr aa ut li lo tr rm iv nv := g in
  mk el id dm sz ns du x od dl di fa na pl pr aa ut li lo tr rm iv nv.
Definition with_originalGroupDelay (x : Z) (g : t) : t :=
  let 'mk el id dm sz ns du gd _ dl di fa na pl pr aa ut li lo tr rm iv nv := g in
  mk el id dm sz ns du gd x dl di fa na pl pr aa ut li lo tr rm iv nv.
Definition with_isDelaying (x : bool) (g : t) : t :=
  let 'mk el id dm sz ns du gd od _ di fa na pl pr aa ut li lo tr rm iv nv := g in
  mk el id dm sz ns du gd od x di fa na pl pr aa ut li lo tr rm iv nv.
Definition with_delayId (x : option nat) (g : t) : t :=
  let 'mk el id dm sz ns du gd od dl _ fa na pl pr aa ut li lo tr rm iv nv := g in
  mk el id dm sz ns du gd od dl x fa na pl pr aa ut li lo tr rm iv nv.
Definition with_animationStatus (n : Z) (f : bool) (g : t) : t :=
  let 'mk el id dm sz ns du gd od dl di _ _ pl pr aa ut li lo tr rm iv nv := g in
  mk el id dm sz ns du gd od dl di f n pl pr aa ut li lo tr rm iv nv.
Definition with_listen (x : option string) (g : t) : t :=
  let 'mk el id dm sz ns du gd od dl di fa na pl pr aa ut _ lo tr rm iv nv := g in
  mk el id dm sz ns du gd od dl di fa na pl pr aa ut x lo tr rm iv nv.
Definition with_upToDateELem (x : option nat) (g : t) : t :=
  let 'mk el id dm sz ns du gd od dl di fa na pl pr aa _ li lo tr rm iv nv := g in
  mk el id dm sz ns du gd od dl di fa na pl pr aa x li lo tr rm iv nv.
Definition with_visibility (n : Z) (v : bool) (g : t) : t :=
  let 'mk el id dm sz ns du gd od dl di fa na pl pr aa ut li lo tr rm _ _ := g in
  mk el id dm sz ns du gd od dl di fa na pl pr aa ut li lo tr rm v n.
End ElemGroup.

(** ** [ElemGroup] methods *)

(** [updateVisibility(elemIsVisible)] *)
Definition updateVisibility (elemIsVisible : JSVal) (g : ElemGroup.t) : ElemGroup.t :=
  let n := ElemGroup.numElemsVisible g + (if truthy elemIsVisible then 1 else -1) in
  ElemGroup.with_visibility n (0 <? n) g.

(** [updateAnimationStatus(elemIsAnimated)] *)
Definition updateAnimationStatus (elemIsAnimated : JSVal) (g : ElemGroup.t) : ElemGroup.t :=
  let n := ElemGroup.numElemsAnimated g + (if truthy elemIsAnimated then 1 else -1) in
  ElemGroup.with_animationStatus n (n =? Z.of_nat (length (ElemGroup.elems g))) g.

(** [updateNextStaggeredDelay()] : a number is truthy when it is not [0] *)
Definition updateNextStaggeredDelay (g : ElemGroup.t) : ElemGroup.t :=
  let M := ElemGroup.delayMultiplier g in
  match ElemGroup.nextStaggeredDelay g with
  | Some d =>
      if negb (d =? 0) then ElemGroup.with_nextStaggeredDelay (Some (d + M)) g
      else g
  | None =>
      if negb (M =? 0)
      then ElemGroup.with_nextStaggeredDelay
             (Some (if ElemGroup.staggersFromZero g then M else 2 * M)) g
      else g
  end.

(** ** [Elem] accessors, with the owning group passed explicitly *)

(** The source hands the member object itself to these accessors; here a
    member is named by its index, and an index outside [elems] names no
    member (the group is returned as it is). *)

(** [set isVisible(isVisible)] on member [i] of [g] *)
Definition set_isVisible (v : JSVal) (i : nat) (g : ElemGroup.t) : ElemGroup.t :=
  match ElemGroup.elems g !! i with
  | None => g
  | Some e =>
      let prevIsVisible := Elem.isVisible e in
      let g1 := ElemGroup.with_elems
                  (<[i := Elem.with_isVisible (truthy v) e]> (ElemGroup.elems g)) g in
      if strict_neq_bool v prevIsVisible then updateVisibility v g1 else g1
  end.

(** [set isAnimated(isAnimated)] on member [i] of [g] *)
Definition set_isAnimated (v : JSVal) (i : nat) (g : ElemGroup.t) : ElemGroup.t :=
  match ElemGroup.elems g !! i with
  | None => g
  | Some e =>
      let prevIsAnimated := Elem.isAnimated e in
      let g1 := ElemGroup.with_elems
                  (<[i := Elem.with_isAnimated (truthy v) e]> (ElemGroup.elems g)) g in
      if strict_neq_bool v prevIsAnimated then updateAnimationStatus v g1 else g1
  end.

(** [get isReadyToAnimate()] *)
Definition isReadyToAnimate (g : ElemGroup.t) (e : Elem.t) : bool :=
  if Elem.isAnimated e || ElemGroup.isDelaying g then false
  else Elem.isVisible e
       || ElemGroup.playsOnLoad g
       || (ElemGroup.animatesAllOnFirstSight g && ElemGroup.isVisible g).

(** the member [group.upToDateELem] points at *)
Definition upToDateElem (g : ElemGroup.t) : option Elem.t :=
  i ← ElemGroup.upToDateELem g; ElemGroup.elems g !! i.

(** [get isReadyToDeanimate()]; [windowHeight] is [eca.state.windowHeight].
    A result of [undefined] (an option string other than "above" and
    "below") is falsy.  [group.upToDateELem] is only read on behalf of a
    member, so the group is not empty and the reference is set. *)
Definition isReadyToDeanimate (windowHeight : Q) (g : ElemGroup.t) (e : Elem.t) : bool :=
  if negb (StrOpt_truthy (ElemGroup.removesAnimationWhenNotInView g))
     || ElemGroup.playsOnLoad g
     || negb (Elem.isAnimated e)
  then false
  else
    match ElemGroup.removesAnimationWhenNotInView g with
    | OptTrue =>
        if ElemGroup.animatesAllOnFirstSight g
        then negb (ElemGroup.isVisible g)
        else negb (Elem.isVisible e)
    | OptStr s =>
        if String.eqb s "below" then
          if ElemGroup.animatesAllOnFirstSight g
          then negb (ElemGroup.isVisible g)
               && match upToDateElem g with
                  | Some u => Qlt_bool windowHeight (num_or_null (Elem.bottom u))
                  | None => false
                  end
          else negb (Elem.isVisible e)
               && Qlt_bool windowHeight (num_or_null (Elem.bottom e))
        else if String.eqb s "above" then
          if ElemGroup.animatesAllOnFirstSight g
          then negb (ElemGroup.isVisible g)
               && match upToDateElem g with
                  | Some u => Qlt_bool (num_or_null (Elem.top u)) 0
                  | None => false
                  end
          else negb (Elem.isVisible e)
               && Qlt_bool (num_or_null (Elem.top e)) 0
        else false
    | OptFalse => false
    end.

(** [get delay()]: the unique delay, else the group's next staggered
    delay, else the first staggered delay, else [null].  [uniqueDelay] is
    [Some d] for a number other than [NaN]; [undefined], the empty string
    and [NaN] are all falsy and different from [0]. *)
Definition delay (g : ElemGroup.t) (e : Elem.t) : option Q :=
  match Elem.uniqueDelay e with
  | Some d => Some d
  | None =>
      match ElemGroup.nextStaggeredDelay g with
      | Some d => if negb (d =? 0) then Some (inject_Z d) else None
      | None =>
          if negb (ElemGroup.delayMultiplier g =? 0)
          then Some (inject_Z (if ElemGroup.staggersFromZero g then 0
                               else ElemGroup.delayMultiplier g))
          else None
      end
  end.

(** ** Construction *)

(** The threshold attribute as [getOption(.., {isStr: true})] returns it;
    a string is kept as the number [Number(s)] reads in it ([None] for
    [NaN]). *)
Inductive ThresholdOpt : Type :=
  | ThrFalse
  | ThrTrue
  | ThrStr (n : option Q).

Definition ThresholdOpt_truthy (o : ThresholdOpt) : bool :=
  match o with ThrFalse => false | _ => true end.

(** [Number(threshold)] *)
Definition ThresholdOpt_number (o : ThresholdOpt) : option Q :=
  match o with
  | ThrFalse => Some 0%Q
  | ThrTrue => Some 1%Q
  | ThrStr n => n
  end.

(** the five thresholds the app allows *)
Definition thresholds : list Q := [0%Q; (1#4)%Q; (1#2)%Q; (3#4)%Q; 1%Q].

(** [conversionTable[n]]: the table entry whose key prints the number *)
Definition conversionTable (n : Q) : option Q :=
  find (fun t => Qeq_bool n t) thresholds.

(** [convertThreshold(threshold)] : [conversionTable[Number(threshold)] || 0] *)
Definition convertThreshold (threshold : ThresholdOpt) : Q :=
  match ThresholdOpt_number threshold with
  | Some n => match conversionTable n with Some t => t | None => 0%Q end
  | None => 0%Q
  end.

(** What the constructor of [Elem] reads from one DOM element. *)
Record ElemSpec : Type := mkElemSpec {
  es_target : nat;
  es_threshold : ThresholdOpt;      (* getOption(target, "ecaThreshold", {isStr: true}) *)
  es_delay : option Q;              (* convertToMS(target.dataset.ecaDelay) *)
  es_style : string                 (* target.style.cssText *)
}.

(** [new Elem(target, elemGroup, groupThreshold)] *)
Definition new_Elem (s : ElemSpec) (groupThreshold : ThresholdOpt) : Elem.t :=
  let th := convertThreshold
              (if ThresholdOpt_truthy (es_threshold s) then es_threshold s
               else groupThreshold) in
  Elem.mk None None false false th th (es_delay s) (es_target s) (es_style s).

(** What the constructor of [ElemGroup] reads from the first element of a
    group through [getOption]. *)
Record GroupOptions : Type := mkGroupOptions {
  ecaThresholdAll : ThresholdOpt;
  ecaStagger : Z;
  ecaStaggerFromZero : bool;
  ecaDuration : Z;
  ecaGroupDelay : Z;
  ecaPlayOnLoad : bool;
  ecaReverse : bool;
  ecaAnimateAllOnFirstSight : bool;
  ecaListen : option string;
  ecaListenOnce : bool;
  ecaAnimateWithTransitions : bool;
  ecaRemoveAnimationWhenNotInView : StrOpt
}.

(** [new ElemGroup(htmlElem, groupId)]; [members] is what the class-name
    query (or the "letter" query of a text group) returns. *)
Definition new_ElemGroup (o : GroupOptions) (members : list ElemSpec)
    (groupId : string) : ElemGroup.t :=
  let elems := map (fun s => new_Elem s (ecaThresholdAll o)) members in
  ElemGroup.mk
    elems
    groupId
    (ecaStagger o)
    (ecaStaggerFromZero o)
    None
    (if ecaDuration o =? 0 then None else Some (ecaDuration o))
    (ecaGroupDelay o)
    (ecaGroupDelay o)
    false
    None
    false
    0
    (ecaPlayOnLoad o)
    (ecaReverse o)
    (if ecaPlayOnLoad o then false else ecaAnimateAllOnFirstSight o)
    (match elems with [] => None | _ :: _ => Some 0%nat end)
    (ecaListen o)
    (ecaListenOnce o)
    (ecaAnimateWithTransitions o)
    (ecaRemoveAnimationWhenNotInView o)
    (ecaPlayOnLoad o)
    0.

(** ** The DOM as the engine sees it *)

(** [getBoundingClientRect()] *)
Record Rect : Type := mkRect {
  rect_top : Q;
  rect_bottom : Q;
  rect_height : Q
}.

(** geometry of every target at one instant *)
Definition Layout : Type := nat -> Rect.

(** one write to an element *)
Inductive DomWrite : Type :=
  | SetDelay (target : nat) (transition : bool) (ms : Q)
      (* target.style.transitionDelay / animationDelay = ms + "ms" *)
  | AddAnimatedClass (target : nat)
  | RemoveAnimatedClass (target : nat)
  | ResetInlineStyle (target : nat) (cssText : string).

(** A group together with the log of DOM writes made so far. *)
Definition Written : Type := ElemGroup.t * list DomWrite.

(** ** Visibility calculator (polling) *)

(** the pixel threshold of [calculateVisibility] *)
Definition pixelThreshold (g : ElemGroup.t) (e : Elem.t) (height : Q) : Q :=
  let pixelThreshold :=
    (height * Elem.threshold e - (if Qeq_bool (Elem.threshold e) 1 then 1 else 0))%Q in
  if Elem.isVisible e && negb (ElemGroup.animatesWithTransitions g)
  then 0%Q else pixelThreshold.

(** [calculateVisibility(elem)] *)
Definition calculateVisibility (windowHeight : Q) (lay : Layout) (i : nat)
    (g : ElemGroup.t) : ElemGroup.t :=
  match ElemGroup.elems g !! i with
  | None => g
  | Some e =>
      let r := lay (Elem.target e) in
      let g1 := ElemGroup.with_elems
                  (<[i := Elem.with_coords (Some (rect_top r)) (Some (rect_bottom r)) e]>
                     (ElemGroup.elems g)) g in
      let pT := pixelThreshold g e (rect_height r) in
      set_isVisible
        (JBool (Qlt_bool (rect_top r + pT) windowHeight
                && Qlt_bool 0 (rect_bottom r - pT)))
        i g1
  end.

(** [elems.forEach(f)]: the members in list order *)
Definition forEach_elem {S : Type} (f : nat -> S -> S) (n : nat) (s : S) : S :=
  fold_left (fun acc i => f i acc) (seq 0 n) s.

(** [readOne(elemGroup)] *)
Definition readOne (windowHeight : Q) (lay : Layout) (g : ElemGroup.t) : ElemGroup.t :=
  forEach_elem (calculateVisibility windowHeight lay) (length (ElemGroup.elems g)) g.

(** the loop of [correctThreshold]: from index [i] downwards while
    [winPercentOfEl < nextSmallestThreshold[i]]; [None] is index [-1],
    where the comparison with [undefined] ends the loop. *)
Fixpoint nextSmallestIndex (winPercentOfEl : Q) (i : nat) : option nat :=
  if Qlt_bool winPercentOfEl (nth i thresholds 0%Q) then
    match i with
    | O => None
    | S j => nextSmallestIndex winPercentOfEl j
    end
  else Some i.

(** [correctThreshold(elem)]; [elemHeight] is the height the DOM reports *)
Definition correctThreshold (windowHeight elemHeight : Q) (e : Elem.t) : Elem.t :=
  if Qeq_bool 0 (Elem.originalThreshold e) then e
  else if Qlt_bool windowHeight elemHeight then
    let winPercentOfEl := (windowHeight / elemHeight)%Q in
    match nextSmallestIndex winPercentOfEl (length thresholds - 1) with
    | Some i =>
        let t := nth i thresholds 0%Q in
        Elem.with_threshold
          (if Qle_bool t (Elem.originalThreshold e) then t
           else Elem.originalThreshold e) e
    | None => Elem.with_threshold (Elem.originalThreshold e) e
    end
  else Elem.with_threshold (Elem.originalThreshold e) e.

(** [elems.forEach(correctThreshold)] for one group *)
Definition correctThresholds (windowHeight : Q) (lay : Layout) (g : ElemGroup.t)
    : ElemGroup.t :=
  ElemGroup.with_elems
    (map (fun e => correctThreshold windowHeight (rect_height (lay (Elem.target e))) e)
         (ElemGroup.elems g)) g.

(** ** Decision logic on one group *)

(** [animate(elem)] *)
Definition animate (i : nat) (s : Written) : Written :=
  let '(g, dom) := s in
  match ElemGroup.elems g !! i with
  | None => s
  | Some e =>
      let dom1 :=
        match delay g e with
        | Some d => dom ++ [SetDelay (Elem.target e) (ElemGroup.animatesWithTransitions g) d]
        | None => dom
        end in
      let g1 :=
        match Elem.uniqueDelay e with
        | Some d => if Qeq_bool d 0 then updateNextStaggeredDelay g else g
        | None => updateNextStaggeredDelay g
        end in
      (set_isAnimated (JBool true) i g1, dom1 ++ [AddAnimatedClass (Elem.target e)])
  end.

(** [deAnimate(elem)] *)
Definition deAnimate (i : nat) (s : Written) : Written :=
  let '(g, dom) := s in
  match ElemGroup.elems g !! i with
  | None => s
  | Some e =>
      (set_isAnimated (JBool false) i g,
       dom ++ [RemoveAnimatedClass (Elem.target e);
               ResetInlineStyle (Elem.target e) (Elem.originalInlineStyles e)])
  end.

(** [updateAnimations(elem)] *)
Definition updateAnimations (windowHeight : Q) (i : nat) (s : Written) : Written :=
  match ElemGroup.elems (fst s) !! i with
  | None => s
  | Some e =>
      if isReadyToAnimate (fst s) e then animate i s
      else if isReadyToDeanimate windowHeight (fst s) e then deAnimate i s
      else s
  end.

(** [updateMutableProps(elemGroup)] *)
Definition updateMutableProps (g : ElemGroup.t) : ElemGroup.t :=
  let g1 := ElemGroup.with_nextStaggeredDelay None g in
  if ElemGroup.numElemsAnimated g1 =? 0
  then ElemGroup.with_groupDelay
         (if negb (ElemGroup.groupDelay g1 =? 0) then ElemGroup.groupDelay g1
          else ElemGroup.originalGroupDelay g1) g1
  else g1.

(** the per-member pass of [updateOne]:
    [elems.forEach(updateAnimations); updateMutableProps(elemGroup)] *)
Definition memberPass (windowHeight : Q) (s : Written) : Written :=
  let s1 := forEach_elem (updateAnimations windowHeight)
              (length (ElemGroup.elems (fst s))) s in
  (updateMutableProps (fst s1), snd s1).

(** ** The page: groups, [eca.state], timers and frame callbacks *)

(** a pending [setTimeout] of [delayGroup] *)
Record Timer : Type := mkTimer {
  timer_id : nat;
  timer_ms : Z;
  timer_group : nat
}.

(** the update callbacks handed to [requestAnimationUpdate] *)
Inductive UpdateCb : Type :=
  | UpdateAllCb
  | UpdateEntriesCb (groupSubsets : list (nat * list nat)).

(** what [requestAnimationFrame] has been given *)
Inductive FrameCb : Type :=
  | FrameCycle (updateCb : UpdateCb)   (* ts => { updateCb(ts); updating = false } *)
  | FrameUpdateOne (gi : nat).         (* () => updateOne(elemGroup) *)

Module World.
Record t : Type := mk {
  elemGroups : list ElemGroup.t;            (* eca.animatable.elemGroups *)
  windowHeight : Q;                         (* eca.state.windowHeight *)
  prevWindowHeight : Q;
  updating : bool;                          (* eca.state.updating *)
  groupDelayIds : gmap string (option nat); (* eca.state.groupDelayIds *)
  useScroll : bool;                         (* eca.globals.useScroll *)
  layout : Layout;
  timers : list Timer;
  nextTimerId : nat;
  frameCallbacks : list FrameCb;
  dom : list DomWrite
}.

Definition with_elemGroups (x : list ElemGroup.t) (w : t) : t :=
  let 'mk _ wh pw up ids us ly tm nt fc dm := w in mk x wh pw up ids us ly tm nt fc dm.
Definition with_windowHeights (prev cur : Q) (w : t) : t :=
  let 'mk gs _ _ up ids us ly tm nt fc dm := w in mk gs cur prev up ids us ly tm nt fc dm.
Definition with_updating (x : bool) (w : t) : t :=
  let 'mk gs wh pw _ ids us ly tm nt fc dm := w in mk gs wh pw x ids us ly tm nt fc dm.
Definition with_groupDelayIds (x : gmap string (option nat)) (w : t) : t :=
  let 'mk gs wh pw up _ us ly tm nt fc dm := w in mk gs wh pw up x us ly tm nt fc dm.
Definition with_layout (x : Layout) (w : t) : t :=
  let 'mk gs wh pw up ids us _ tm nt fc dm := w in mk gs wh pw up ids us x tm nt fc dm.
Definition with_timers (x : list Timer) (n : nat) (w : t) : t :=
  let 'mk gs wh pw up ids us ly _ _ fc dm := w in mk gs wh pw up ids us ly x n fc dm.
Definition with_frameCallbacks (x : list FrameCb) (w : t) : t :=
  let 'mk gs wh pw up ids us ly tm nt _ dm := w in mk gs wh pw up ids us ly tm nt x dm.
Definition with_dom (x : list DomWrite) (w : t) : t :=
  let 'mk gs wh pw up ids us ly tm nt fc _ := w in mk gs wh pw up ids us ly tm nt fc x.

(** store group [gi] back *)
Definition with_group (gi : nat) (g : ElemGroup.t) (w : t) : t :=
  with_elemGroups (<[gi := g]> (elemGroups w)) w.
End World.

(** [requestAnimationFrame(cb)] *)
Definition requestAnimationFrame (cb : FrameCb) (w : World.t) : World.t :=
  World.with_frameCallbacks (World.frameCallbacks w ++ [cb]) w.

(** [delayGroup(elemGroup)] *)
Definition delayGroup (gi : nat) (w : World.t) : World.t :=
  match World.elemGroups w !! gi with
  | None => w
  | Some g =>
      let id := World.nextTimerId w in
      let g1 := ElemGroup.with_isDelaying true g in
      let g2 := ElemGroup.with_originalGroupDelay (ElemGroup.groupDelay g1) g1 in
      let g3 := ElemGroup.with_delayId (Some id) g2 in
      let w1 := World.with_timers
                  (World.timers w ++ [mkTimer id (ElemGroup.groupDelay g2) gi])
                  (S id) w in
      World.with_groupDelayIds
        (<[ElemGroup.groupId g3 := Some id]> (World.groupDelayIds w1))
        (World.with_group gi g3 w1)
  end.

(** [updateOne(elemGroup)] *)
Definition updateOne (gi : nat) (w : World.t) : World.t :=
  match World.elemGroups w !! gi with
  | None => w
  | Some g =>
      if (0 <? ElemGroup.groupDelay g) && ElemGroup.isVisible g
      then delayGroup gi w
      else
        let s := memberPass (World.windowHeight w) (g, World.dom w) in
        World.with_dom (snd s) (World.with_group gi (fst s) w)
  end.

(** the callback [delayGroup] hands to [setTimeout] *)
Definition delayElapsed (gi : nat) (w : World.t) : World.t :=
  match World.elemGroups w !! gi with
  | None => w
  | Some g =>
      let w1 := World.with_groupDelayIds
                  (<[ElemGroup.groupId g := None]> (World.groupDelayIds w)) w in
      let g1 := ElemGroup.with_isDelaying false (ElemGroup.with_groupDelay 0 g) in
      let g2 := if World.useScroll w1
                then readOne (World.windowHeight w1) (World.layout w1) g1
                else g1 in
      requestAnimationFrame (FrameUpdateOne gi) (World.with_group gi g2 w1)
  end.

(** the test both [readAll] and [updateAll] make on a group *)
Definition isProcessed (g : ElemGroup.t) : bool :=
  (StrOpt_truthy (ElemGroup.removesAnimationWhenNotInView g)
   || negb (ElemGroup.isFinishedAnimating g))
  && negb (ElemGroup.isDelaying g).

(** [readAll()] *)
Definition readAll (w : World.t) : World.t :=
  World.with_elemGroups
    (map (fun g => if isProcessed g
                   then readOne (World.windowHeight w) (World.layout w) g
                   else g)
         (World.elemGroups w)) w.

(** [updateAll()] *)
Definition updateAll (w : World.t) : World.t :=
  fold_left
    (fun w gi =>
       match World.elemGroups w !! gi with
       | None => w
       | Some g => if isProcessed g then updateOne gi w else w
       end)
    (seq 0 (length (World.elemGroups w))) w.

(** [updateEntries(groupSubsets)]: the update phase of the observer-driven
    strategy; each group comes with the members the observer reported. *)
Definition updateEntries (groupSubsets : list (nat * list nat)) (w : World.t) : World.t :=
  fold_left
    (fun w '(gi, entries) =>
       match World.elemGroups w !! gi with
       | None => w
       | Some g =>
           if ElemGroup.isDelaying g then w
           else if (0 <? ElemGroup.groupDelay g) && ElemGroup.isVisible g
           then delayGroup gi w
           else
             let s0 : Written := (g, World.dom w) in
             let s1 :=
               if ElemGroup.animatesAllOnFirstSight g
               then forEach_elem (updateAnimations (World.windowHeight w))
                      (length (ElemGroup.elems g)) s0
               else fold_left (fun acc i => updateAnimations (World.windowHeight w) i acc)
                      entries s0 in
             World.with_dom (snd s1)
               (World.with_group gi (updateMutableProps (fst s1)) w)
       end)
    groupSubsets w.

(** ** Scheduler *)

Definition runUpdateCb (cb : UpdateCb) (w : World.t) : World.t :=
  match cb with
  | UpdateAllCb => updateAll w
  | UpdateEntriesCb groupSubsets =>
      match groupSubsets with
      | [] => w                            (* groupSubsets.size > 0 && ... *)
      | _ :: _ => updateEntries groupSubsets w
      end
  end.

(** [requestAnimationUpdate(readCb, updateCb)] *)
Definition requestAnimationUpdate (readCb : World.t -> World.t) (updateCb : UpdateCb)
    (w : World.t) : World.t :=
  if negb (World.updating w) then
    let w1 := World.with_updating true w in
    let w2 := readCb w1 in
    requestAnimationFrame (FrameCycle updateCb) w2
  else w.

(** one callback of the frame *)
Definition runFrameCb (cb : FrameCb) (w : World.t) : World.t :=
  match cb with
  | FrameCycle updateCb => World.with_updating false (runUpdateCb updateCb w)
  | FrameUpdateOne gi => updateOne gi w
  end.

(** an animation frame: the callbacks registered so far run in order;
    callbacks registered meanwhile wait for the next frame *)
Definition runFrame (w : World.t) : World.t :=
  fold_left (fun w cb => runFrameCb cb w) (World.frameCallbacks w)
    (World.with_frameCallbacks [] w).

(** a timer comes due *)
Definition fireTimer (id : nat) (w : World.t) : World.t :=
  match find (fun t => Nat.eqb (timer_id t) id) (World.timers w) with
  | None => w
  | Some t =>
      delayElapsed (timer_group t)
        (World.with_timers
           (filter (fun t => timer_id t <> id) (World.timers w))
           (World.nextTimerId w) w)
  end.

(** ** Listeners of the polling strategy *)

(** [ecaHandleScrollAnimations()] *)
Definition ecaHandleScrollAnimations (w : World.t) : World.t :=
  requestAnimationUpdate readAll UpdateAllCb w.

(** [runInitialAnimations()] *)
Definition runInitialAnimations (w : World.t) : World.t :=
  if World.useScroll w then requestAnimationUpdate readAll UpdateAllCb w else w.

(** [ecaHandleResize()]; [clientHeight] is
    [document.documentElement.clientHeight] *)
Definition ecaHandleResize (clientHeight : Q) (w : World.t) : World.t :=
  let w1 := World.with_windowHeights (World.windowHeight w) clientHeight w in
  let w2 := World.with_elemGroups
              (map (correctThresholds (World.windowHeight w1) (World.layout w1))
                   (World.elemGroups w1)) w1 in
  if World.useScroll w2 then requestAnimationUpdate readAll UpdateAllCb w2 else w2.

(** What happens to a page.  The scroll listener modelled is the one of
    the polling strategy, registered when [useScroll] is set; the
    observer's own bookkeeping on scroll is part of [observerStep]. *)
Inductive Event : Type :=
  | EvScroll (lay : Layout)                    (* the page scrolled to this geometry *)
  | EvResize (clientHeight : Q) (lay : Layout) (* the window was resized *)
  | EvTimer (id : nat)                         (* a group-delay timer came due *)
  | EvFrame.                                   (* an animation frame *)

Definition step (ev : Event) (w : World.t) : World.t :=
  match ev with
  | EvScroll lay =>
      if World.useScroll w then ecaHandleScrollAnimations (World.with_layout lay w)
      else World.with_layout lay w
  | EvResize clientHeight lay => ecaHandleResize clientHeight (World.with_layout lay w)
  | EvTimer id => fireTimer id w
  | EvFrame => runFrame w
  end.

Definition run (evs : list Event) (w : World.t) : World.t :=
  fold_left (fun w ev => step ev w) evs w.

(** ** Bootstrap *)

(** A parsed JSON object: its own properties in enumeration order. *)
Definition JSObject : Type := list (string * string).

(** [o.hasOwnProperty(k)] *)
Definition hasOwnProperty (o : JSObject) (k : string) : bool :=
  existsb (fun p => String.eqb (fst p) k) o.

(** [o[k]] *)
Definition js_get (o : JSObject) (k : string) : option string :=
  snd <$> find (fun p => String.eqb (fst p) k) o.

(** [o[k] = v] *)
Fixpoint js_set (o : JSObject) (k v : string) : JSObject :=
  match o with
  | [] => [(k, v)]
  | (k', v') :: rest =>
      if String.eqb k' k then (k', v) :: rest else (k', v') :: js_set rest k v
  end.

(** The call [o.hasOwnProperty(k)] as the source writes it, on an object
    [JSON.parse] made: the method is looked up on [o] itself.  An own
    property named [hasOwnProperty] shadows the method of
    [Object.prototype], and no value [JSON.parse] makes is a function: the
    call then throws a [TypeError] ([None]). *)
Definition call_hasOwnProperty (o : JSObject) (k : string) : option bool :=
  if hasOwnProperty o "hasOwnProperty" then None else Some (hasOwnProperty o k).

(** [getEventStyles(listenerStyles, elemGroup)]; [None] when it throws.  In
    the two last branches the source tests the local [event], which still
    is the empty string. *)
Definition getEventStyles (listenerStyles : JSObject) (g : ElemGroup.t)
    : option JSObject :=
  fold_left
    (fun (acc : option JSObject) (eventAbbrv : string) =>
       stylesToChange ← acc;
       let event := "" in
       let style := default "" (js_get listenerStyles eventAbbrv) in
       call_hasOwnProperty listenerStyles eventAbbrv ≫= fun own : bool =>
       if own
          && negb (String.eqb eventAbbrv "run")
          && negb (String.eqb eventAbbrv "iteration")
       then
         Some (js_set stylesToChange
                 ((if ElemGroup.animatesWithTransitions g then "transition"
                   else "animation")
                    +:+ eventAbbrv)
                 style)
       else
         call_hasOwnProperty listenerStyles event ≫= fun ownRun : bool =>
         if ownRun && String.eqb event "run"
         then Some (js_set stylesToChange "transitionrun" style)
         else
           call_hasOwnProperty listenerStyles event ≫= fun ownIteration : bool =>
           if ownIteration
           then Some (js_set stylesToChange "animationiteration" style)
           else Some stylesToChange)
    (map fst listenerStyles) (Some []).

(** a listener attached by [listenAll]; it sets [style] on its target when
    the event's target is that element *)
Record Listener : Type := mkListener {
  l_target : nat;
  l_event : string;
  l_style : string;
  l_once : bool
}.

Inductive ConsoleMsg : Type :=
  | ErrorObject                (* console.error(error) *)
  | ErrorText (s : string).    (* console.error("...") *)

(** A key of a parsed [data-eca-char-delays] object, as [k - 1] reads it:
    a finite number, [-Infinity], or a key that converts to [NaN] or to
    [Infinity]; the last with its text. *)
Inductive CharKey : Type :=
  | KeyNumber (k : Q)
  | KeyNegInfinity
  | KeyOther (name : string).

(** one entry of a parsed [data-eca-char-delays] object: the key and what
    [convertToMS] makes of the value ([None] when it throws, on a truthy
    value that is not a string) *)
Record CharDelay : Type := mkCharDelay {
  cd_key : CharKey;
  cd_ms : option (option Q)
}.

(** the call [delaysObj.hasOwnProperty(k)] for a key [k] the loop
    enumerates, an own key: [None] when the object has an own property
    named [hasOwnProperty] and the call throws a [TypeError] *)
Definition delays_hasOwnProperty (delaysObj : list CharDelay) : option bool :=
  if existsb
       (fun d => match cd_key d with
                 | KeyOther name => String.eqb name "hasOwnProperty"
                 | _ => false
                 end)
       delaysObj
  then None
  else Some true.

(** [elems[k - 1]] for a number [k]: an index when [k - 1] is a natural
    number *)
Definition index_of_key (k : Q) : option nat :=
  let q := Qred (k - 1) in
  if (Zpos (Qden q) =? 1) && (0 <=? Qnum q) then Some (Z.to_nat (Qnum q)) else None.

(** What [readyElementsForAnimation] finds at one first element. *)
Record FirstElem : Type := mkFirstElem {
  fe_class : string;               (* classList[0], as string concatenation prints it *)
  fe_isText : bool;                (* dataset.ecaAnimateChars is defined *)
  fe_options : GroupOptions;
  fe_members : list ElemSpec;      (* the members, for text after wrapText *)
  fe_charDelays : option string    (* dataset.ecaCharDelays *)
}.

(** properties every object literal inherits: [typeof obj[k]] is not
    "undefined" for them *)
Definition objectPrototypeKeys : list string :=
  ["constructor"; "__defineGetter__"; "__defineSetter__"; "hasOwnProperty";
   "__lookupGetter__"; "__lookupSetter__"; "isPrototypeOf";
   "propertyIsEnumerable"; "toString"; "valueOf"; "__proto__"; "toLocaleString"].

(** [typeof groupsOfAnimatableElems[k] !== "undefined"] *)
Definition isDefinedKey (groupsOfAnimatableElems : gmap string nat) (k : string) : bool :=
  bool_decide (is_Some (groupsOfAnimatableElems !! k))
  || existsb (String.eqb k) objectPrototypeKeys.

(** the id [readyElementsForAnimation] gives the [i]-th first element *)
Definition chooseGroupId (groupsOfAnimatableElems : gmap string nat) (i : nat)
    (fe : FirstElem) : string :=
  let name := fe_class fe +:+ (if fe_isText fe then "-letters" else "") in
  if negb (isDefinedKey groupsOfAnimatableElems name) then name
  else name +:+ pretty i.

(** The page after bootstrap. *)
Record Page : Type := mkPage {
  page_groups : list ElemGroup.t;      (* eca.animatable.elemGroups *)
  page_listeners : list Listener;
  page_console : list ConsoleMsg
}.

Section Bootstrap.

(** [JSON.parse]: [None] when it throws; otherwise the own properties
    of the value (none for [null], a number or a boolean). *)
Variable parseJSON : string -> option JSObject.

(** [JSON.parse] on a [data-eca-char-delays] attribute *)
Variable parseCharDelays : string -> option (list CharDelay).

(** [addListeners(elemGroup)] *)
Definition addListeners (g : ElemGroup.t) : list Listener * list ConsoleMsg :=
  match ElemGroup.listen g with
  | None => ([], [])
  | Some spec =>
      if String.eqb spec "" then ([], [])
      else
        let caught :=
          ([],
           [ErrorObject;
            ErrorText ("Please make sure the data-eca-listen object on "
                       +:+ ElemGroup.groupId g
                       +:+ " is properly formatted JSON.")]) in
        match parseJSON spec with
        | Some listenerStyles =>
            match getEventStyles listenerStyles g with
            | Some stylesToChange =>
                let eventTargets := map Elem.target (ElemGroup.elems g) in
                (flat_map
                   (fun '(event, style) =>
                      map (fun tg => mkListener tg event style (ElemGroup.listensOnce g))
                          eventTargets)
                   stylesToChange,
                 [])
            | None => caught
            end
        | None => caught
        end
  end.

(** the loop of [updateCharUniqueDelays] over the keys [delays] still to
    come of the object [delaysObj]; [false] when it threw.  [k - 1] is
    [-Infinity] for the key [-Infinity], which passes the bound and finds
    no member, and [NaN] or [Infinity] for the keys that fail it. *)
Fixpoint setCharDelaysFrom (delaysObj delays : list CharDelay) (elems : list Elem.t)
    : list Elem.t * bool :=
  match delays with
  | [] => (elems, true)
  | d :: rest =>
      match delays_hasOwnProperty delaysObj with
      | None => (elems, false)
      | Some own =>
          match cd_key d with
          | KeyNumber k =>
              if own && Qle_bool (k - 1) (inject_Z (Z.of_nat (length elems))) then
                match index_of_key k ≫= (fun i => (fun e => (i, e)) <$> elems !! i),
                      cd_ms d with
                | Some (i, e), Some ms =>
                    setCharDelaysFrom delaysObj rest
                      (<[i := Elem.with_uniqueDelay ms e]> elems)
                | _, _ => (elems, false)
                end
              else setCharDelaysFrom delaysObj rest elems
          | KeyNegInfinity => if own then (elems, false)
                              else setCharDelaysFrom delaysObj rest elems
          | KeyOther _ => setCharDelaysFrom delaysObj rest elems
          end
      end
  end.

(** the loop over all the keys of [delays] *)
Definition setCharDelays (delays : list CharDelay) (elems : list Elem.t)
    : list Elem.t * bool :=
  setCharDelaysFrom delays delays elems.

(** [updateCharUniqueDelays(textContainer, elemGroup)] *)
Definition updateCharUniqueDelays (fe : FirstElem) (g : ElemGroup.t)
    : ElemGroup.t * list ConsoleMsg :=
  let failed :=
    [ErrorObject;
     ErrorText ("Please make sure the data-eca-char-delays object on "
                +:+ fe_class fe +:+ " is properly formatted JSON.")] in
  match fe_charDelays fe with
  | None => (g, [])
  | Some spec =>
      if String.eqb spec "" then (g, [])
      else
        match parseCharDelays spec with
        | Some delays =>
            let '(elems, ok) := setCharDelays delays (ElemGroup.elems g) in
            (ElemGroup.with_elems elems g, if ok then [] else failed)
        | None => (g, failed)
        end
  end.

(** [elems.reverse()]; [upToDateELem] keeps pointing at the same member *)
Definition reverseElems (g : ElemGroup.t) : ElemGroup.t :=
  let n := length (ElemGroup.elems g) in
  ElemGroup.with_upToDateELem
    ((fun i => (n - 1 - i)%nat) <$> ElemGroup.upToDateELem g)
    (ElemGroup.with_elems (reverse (ElemGroup.elems g)) g).

(** the body of the loop of [readyElementsForAnimation] once the id is
    chosen: the group, the listeners attached to its members and what
    was logged *)
Definition readyGroup (groupId : string) (fe : FirstElem)
    : ElemGroup.t * list Listener * list ConsoleMsg :=
  let g0 := new_ElemGroup (fe_options fe) (fe_members fe) groupId in
  let r1 := if fe_isText fe then updateCharUniqueDelays fe g0 else (g0, []) in
  let r2 := addListeners (fst r1) in
  let g2 := if ElemGroup.playsReversed (fst r1) then reverseElems (fst r1)
            else fst r1 in
  (g2, fst r2, snd r1 ++ snd r2).

(** one turn of the loop of [readyElementsForAnimation] *)
Definition readyOne (acc : gmap string nat * Page) (ife : nat * FirstElem)
    : gmap string nat * Page :=
  let '(groupsOfAnimatableElems, page) := acc in
  let '(i, fe) := ife in
  let groupId := chooseGroupId groupsOfAnimatableElems i fe in
  let '(g, ls, errs) := readyGroup groupId fe in
  (<[groupId := length (page_groups page)]> groupsOfAnimatableElems,
   mkPage (page_groups page ++ [g])
          (page_listeners page ++ ls)
          (page_console page ++ errs)).

(** [readyElementsForAnimation()] on the first elements the document
    query returns *)
Definition readyElementsForAnimation (firstElemsOfGroups : list FirstElem) : Page :=
  snd (fold_left readyOne (imap (fun i fe => (i, fe)) firstElemsOfGroups)
         (∅, mkPage [] [] [])).

End Bootstrap.

(** the page once the DOM is parsed: [eca.state] as initialised and the
    groups of [readyElementsForAnimation] *)
Definition initialWorld (groups : list ElemGroup.t) (clientHeight : Q)
    (useScroll : bool) (lay : Layout) : World.t :=
  World.mk groups clientHeight clientHeight false ∅ useScroll lay [] 1 [] [].

(** ... then [runInitialAnimations] *)
Definition loadedWorld (groups : list ElemGroup.t) (clientHeight : Q)
    (useScroll : bool) (lay : Layout) : World.t :=
  runInitialAnimations (initialWorld groups clientHeight useScroll lay).

(** the pages the events lead to *)
Definition reachable (w : World.t) : Prop :=
  exists groups clientHeight useScroll lay evs,
    w = run evs (loadedWorld groups clientHeight useScroll lay).

(** ** Vocabulary of the properties *)

(** the operations that touch the animated flag of a member *)
Inductive GroupOp : Type :=
  | OpAnimate (i : nat)
  | OpDeAnimate (i : nat)
  | OpSetIsAnimated (i : nat) (v : JSVal).

Definition applyOp (op : GroupOp) (s : Written) : Written :=
  match op with
  | OpAnimate i => animate i s
  | OpDeAnimate i => deAnimate i s
  | OpSetIsAnimated i v => (set_isAnimated v i (fst s), snd s)
  end.

Definition applyOps (ops : list GroupOp) (s : Written) : Written :=
  fold_left (fun s op => applyOp op s) ops s.

(** the operation assigns a genuine boolean (as [animate] and [deAnimate]
    always do) *)
Definition assignsBoolean (op : GroupOp) : bool :=
  match op with
  | OpSetIsAnimated _ (JOther _) => false
  | _ => true
  end.

(** how many members satisfy [f] *)
Fixpoint countElems (f : Elem.t -> bool) (l : list Elem.t) : Z :=
  match l with
  | [] => 0
  | e :: l' => (if f e then 1 else 0) + countElems f l'
  end.

(** the group's animated-count and finished flag agree with its members *)
Definition countConsistent (g : ElemGroup.t) : Prop :=
  ElemGroup.numElemsAnimated g = countElems Elem.isAnimated (ElemGroup.elems g).

Definition finishedConsistent (g : ElemGroup.t) : Prop :=
  ElemGroup.isFinishedAnimating g = true
  <-> ElemGroup.numElemsAnimated g = Z.of_nat (length (ElemGroup.elems g)).

(** what the operations keep true: the count is exact, and the finished
    flag says "all animated" as soon as the group has a member *)
Definition aggregateInv (g : ElemGroup.t) : Prop :=
  countConsistent g /\ (ElemGroup.elems g <> [] -> finishedConsistent g).

(** the change of a counter when a flag goes from [old] to [new] *)
Definition flagDelta (old new : bool) : Z :=
  if negb old && new then 1 else if old && negb new then -1 else 0.

(** ** Sample pages *)

(** a group of plain elements staggered by 100ms, nothing else set *)
Definition sampleOptions : GroupOptions :=
  mkGroupOptions ThrFalse 100 false 0 0 false false false None false false OptFalse.

Definition sampleMember (target : nat) : ElemSpec :=
  mkElemSpec target ThrFalse None "".

Definition sampleGroup : ElemGroup.t :=
  new_ElemGroup sampleOptions [sampleMember 0; sampleMember 1; sampleMember 2] "box".

(** a text group whose element holds no text: no letter was wrapped *)
Definition emptyTextGroup : ElemGroup.t :=
  new_ElemGroup sampleOptions [] "title-letters".

(** one of the five thresholds *)
Definition validThreshold (q : Q) : Prop := Exists (fun t => q == t) thresholds.

(** Visibility as the specification words it: inside the viewport by the
    pixel threshold, or spanning the viewport. *)
Definition specVisibility (windowHeight : Q) (r : Rect) (pT : Q) : bool :=
  (Qlt_bool (rect_top r + pT) windowHeight && Qlt_bool 0 (rect_bottom r - pT))
  || (Qle_bool (rect_top r) 0 && Qle_bool windowHeight (rect_bottom r)).

(** a section twice as tall as the viewport, to be shown at half its height *)
Definition tallGroup : ElemGroup.t :=
  new_ElemGroup
    (mkGroupOptions (ThrStr (Some (1#2)%Q)) 0 false 0 0 false false false None false
       false OptFalse)
    [sampleMember 0] "hero".

(** it covers the viewport, its top edge at the top of the window *)
Definition tallLayout : Layout := fun _ => mkRect 0 1000 1000.

(** what construction and [correctThreshold] keep true of a member's
    thresholds *)
Definition thresholdInv (e : Elem.t) : Prop :=
  validThreshold (Elem.originalThreshold e)
  /\ validThreshold (Elem.threshold e)
  /\ (Elem.threshold e <= Elem.originalThreshold e)%Q.

(** a member whose group asks for the whole element to be in view *)
Definition strictMember : Elem.t := new_Elem (sampleMember 7) ThrTrue.




(** the fields the readiness of a member and its delay are read from *)
Definition sameDecision (g g' : ElemGroup.t) : Prop :=
  ElemGroup.isDelaying g' = ElemGroup.isDelaying g
  /\ ElemGroup.playsOnLoad g' = ElemGroup.playsOnLoad g
  /\ ElemGroup.animatesAllOnFirstSight g' = ElemGroup.animatesAllOnFirstSight g
  /\ ElemGroup.isVisible g' = ElemGroup.isVisible g
  /\ ElemGroup.delayMultiplier g' = ElemGroup.delayMultiplier g
  /\ ElemGroup.staggersFromZero g' = ElemGroup.staggersFromZero g
  /\ ElemGroup.animatesWithTransitions g' = ElemGroup.animatesWithTransitions g.

(** the three sample members, all in view *)
Definition sampleGroupInView : ElemGroup.t :=
  readOne 500 (fun _ => mkRect 100 200 100) sampleGroup.


(** a first element of plain (not text) kind with the sample options *)
Definition plainFirstElem (cls : string) (members : list ElemSpec) : FirstElem :=
  mkFirstElem cls false sampleOptions members None.

(** three groups on one page: cards of class "a" in two sections, and
    between them a group of class "a2" *)
Definition collidingFirstElems : list FirstElem :=
  [plainFirstElem "a" [sampleMember 0];
   plainFirstElem "a2" [sampleMember 1];
   plainFirstElem "a" [sampleMember 2]].

(** the options with another listener attribute *)
Definition withListenOption (l : option string) (o : GroupOptions) : GroupOptions :=
  let 'mkGroupOptions ta st sz du gd pl rv aa _ lo tr rm := o in
  mkGroupOptions ta st sz du gd pl rv aa l lo tr rm.

(** the first element with another listener attribute *)
Definition withListen (l : option string) (fe : FirstElem) : FirstElem :=
  mkFirstElem (fe_class fe) (fe_isText fe) (withListenOption l (fe_options fe))
    (fe_members fe) (fe_charDelays fe).

(** the two lines [addListeners] logs when its [try] block throws *)
Definition listenDiagnostic (groupId : string) : list ConsoleMsg :=
  [ErrorObject;
   ErrorText ("Please make sure the data-eca-listen object on " +:+ groupId
              +:+ " is properly formatted JSON.")].

(** a parser that accepts nothing, and a first element with a listener
    attribute *)
Definition rejectAll {A : Type} (s : string) : option A := None.

Definition brokenListenFirstElem : FirstElem :=
  withListen (Some "{start: color}") (plainFirstElem "card" [sampleMember 0; sampleMember 1]).

(** Two runs of the bootstrap loop that differ in one thing: the group at
    index [i] has the listener attribute [spec] in the first run ([acc])
    and none in the second ([acc0]), and the first run logged the
    diagnostic of [addListeners] for it. *)
Definition differByListen (i : nat) (spec : string)
    (acc acc0 : gmap string nat * Page) : Prop :=
  fst acc = fst acc0
  /\ (exists g0,
        page_groups (snd acc0) !! i = Some g0
        /\ page_groups (snd acc)
           = <[i := ElemGroup.with_listen (Some spec) g0]> (page_groups (snd acc0))
        /\ exists before after,
             page_console (snd acc0) = before ++ after
             /\ page_console (snd acc)
                = before ++ listenDiagnostic (ElemGroup.groupId g0) ++ after)
  /\ page_listeners (snd acc) = page_listeners (snd acc0).

(** a cycle is in flight: its write phase is registered for the next frame *)
Definition isFrameCycle (cb : FrameCb) : bool :=
  match cb with FrameCycle _ => true | FrameUpdateOne _ => false end.

Definition inFlight (w : World.t) : bool :=
  existsb isFrameCycle (World.frameCallbacks w).

(** what the decision logic leaves alone: the scheduler's lock and queue,
    and what the read phase looks at *)
Definition sameScheduling (w w' : World.t) : Prop :=
  World.updating w' = World.updating w
  /\ World.frameCallbacks w' = World.frameCallbacks w
  /\ World.useScroll w' = World.useScroll w
  /\ World.windowHeight w' = World.windowHeight w
  /\ World.layout w' = World.layout w
  /\ length (World.elemGroups w') = length (World.elemGroups w).

(** a page with the sample group, loaded with its members in view *)
Definition sampleWorld : World.t :=
  loadedWorld [sampleGroup] 500 true (fun _ => mkRect 100 200 100).

(** what [calculateVisibility] makes of a member of [g] *)
Definition derivedElem (windowHeight : Q) (lay : Layout) (g : ElemGroup.t)
    (e : Elem.t) : Elem.t :=
  let r := lay (Elem.target e) in
  let pT := pixelThreshold g e (rect_height r) in
  Elem.with_isVisible
    (Qlt_bool (rect_top r + pT) windowHeight && Qlt_bool 0 (rect_bottom r - pT))
    (Elem.with_coords (Some (rect_top r)) (Some (rect_bottom r)) e).


(** no member was animated or de-animated between [g] and [g'] *)
Definition sameAnimation (g g' : ElemGroup.t) : Prop :=
  map Elem.isAnimated (ElemGroup.elems g') = map Elem.isAnimated (ElemGroup.elems g)
  /\ ElemGroup.numElemsAnimated g' = ElemGroup.numElemsAnimated g
  /\ ElemGroup.isFinishedAnimating g' = ElemGroup.isFinishedAnimating g.




(** the state [delayGroup] leaves the group in *)
Definition delayedGroup (id : nat) (g : ElemGroup.t) : ElemGroup.t :=
  ElemGroup.with_delayId (Some id)
    (ElemGroup.with_originalGroupDelay (ElemGroup.groupDelay g)
       (ElemGroup.with_isDelaying true g)).

(** the state the timer callback leaves the group in before it reads *)
Definition releasedGroup (g : ElemGroup.t) : ElemGroup.t :=
  ElemGroup.with_isDelaying false (ElemGroup.with_groupDelay 0 g).



(** the cards far below the viewport *)
Definition cardsScrolledAway : Layout := fun _ => mkRect 2000 2100 100.

(** a page as the events find it after load: the groups are as their
    constructor built them *)
Definition freshlyLoaded (w : World.t) : Prop :=
  exists (specs : list (GroupOptions * list ElemSpec * string)) clientHeight useScroll lay,
    w = loadedWorld
          (map (fun '(o, members, id) => new_ElemGroup o members id) specs)
          clientHeight useScroll lay.

(** every group of the page satisfies [P] *)
Definition allGroups (P : ElemGroup.t -> Prop) (w : World.t) : Prop :=
  Forall P (World.elemGroups w).

(** ** [eca.helpers.throttle] *)

(** What happens to a throttled handler: it is called with an event, or
    a timeout it has set comes due. *)
Inductive ThrottleEvent (E : Type) : Type :=
  | ThCall (e : E)
  | ThExpire (id : nat).
Arguments ThCall {E} e.
Arguments ThExpire {E} id.

Module Throttle.
(** The variables the closure [throttledHandler] captures, the timeouts
    it has set and the state [fn] works on. *)
Record t (E St : Type) : Type := mk {
  inThrottle : option nat;   (* the id [setTimeout] returned, or [null] *)
  event : option E;          (* the last event received, or [null] *)
  timeouts : list nat;       (* timeouts set and not yet due *)
  nextId : nat;              (* the id the next [setTimeout] returns *)
  state : St
}.
Arguments mk {E St}.
Arguments inThrottle {E St}.
Arguments event {E St}.
Arguments timeouts {E St}.
Arguments nextId {E St}.
Arguments state {E St}.
End Throttle.

Section Throttle.
Context {E St : Type}.

(** the truthiness of what the handler is called with: [if (event)] *)
Variable truthyE : E -> bool.

(** the function that is throttled *)
Variable fn : E -> St -> St.

(** [throttle(fn, limit)]: the closure as it is returned; [setTimeout]
    returns ids greater than zero, which are truthy *)
Definition throttle (s : St) : Throttle.t E St :=
  Throttle.mk None None [] 1 s.

(** [throttledHandler(e)] *)
Definition throttledHandler (e : E) (t : Throttle.t E St) : Throttle.t E St :=
  match Throttle.inThrottle t with
  | None =>
      let id := Throttle.nextId t in
      Throttle.mk (Some id) None (Throttle.timeouts t ++ [id]) (S id)
        (fn e (Throttle.state t))
  | Some _ =>
      Throttle.mk (Throttle.inThrottle t) (Some e) (Throttle.timeouts t)
        (Throttle.nextId t) (Throttle.state t)
  end.

(** the callback given to [setTimeout] *)
Definition throttleElapsed (t : Throttle.t E St) : Throttle.t E St :=
  let t1 := Throttle.mk None (Throttle.event t) (Throttle.timeouts t)
              (Throttle.nextId t) (Throttle.state t) in
  match Throttle.event t1 with
  | Some e => if truthyE e then throttledHandler e t1 else t1
  | None => t1
  end.

(** a timeout comes due; an id that is not pending names no timeout *)
Definition throttleExpire (id : nat) (t : Throttle.t E St) : Throttle.t E St :=
  if bool_decide (id ∈ Throttle.timeouts t) then
    throttleElapsed
      (Throttle.mk (Throttle.inThrottle t) (Throttle.event t)
         (filter (fun i => i <> id) (Throttle.timeouts t))
         (Throttle.nextId t) (Throttle.state t))
  else t.

Definition throttleStep (ev : ThrottleEvent E) (t : Throttle.t E St) : Throttle.t E St :=
  match ev with
  | ThCall e => throttledHandler e t
  | ThExpire id => throttleExpire id t
  end.

Definition throttleRun (evs : list (ThrottleEvent E)) (t : Throttle.t E St)
    : Throttle.t E St :=
  fold_left (fun t ev => throttleStep ev t) evs t.

(** every pending timeout comes due, oldest first *)
Definition throttleDrain (t : Throttle.t E St) : Throttle.t E St :=
  fold_left (fun t id => throttleExpire id t) (Throttle.timeouts t) t.
End Throttle.

(** the events a handler was called with *)
Definition thReceived {E : Type} (evs : list (ThrottleEvent E)) : list E :=
  omap (fun ev => match ev with ThCall e => Some e | ThExpire _ => None end) evs.

(** how many timeouts came due *)
Definition thExpirations {E : Type} (evs : list (ThrottleEvent E)) : nat :=
  length (List.filter (fun ev => match ev with ThExpire _ => true | ThCall _ => false end) evs).

(** a throttled function that records what it is invoked with *)
Definition recordCall {E : Type} (e : E) (log : list E) : list E := log ++ [e].

(** the invocations of the throttled function over a history *)
Definition thInvoked {E : Type} (truthyE : E -> bool) (evs : list (ThrottleEvent E))
    : list E :=
  Throttle.state (throttleRun truthyE recordCall evs (throttle [])).

(** what holds of a recording handler after the history [evs] *)
Record throttleInv {E : Type} (truthyE : E -> bool) (evs : list (ThrottleEvent E))
    (r : Throttle.t E (list E)) : Prop := mkThrottleInv {
  thi_timeouts :
    Throttle.timeouts r = match Throttle.inThrottle r with Some id => [id] | None => [] end;
  thi_count :
    (length (Throttle.state r)
     + match Throttle.inThrottle r with Some _ => 0 | None => 1 end
     <= 1 + thExpirations evs)%nat;
  thi_sub : Throttle.state r `sublist_of` thReceived evs;
  thi_pending : forall e, Throttle.event r = Some e ->
    exists pre, thReceived evs = pre ++ [e] /\ Throttle.state r `sublist_of` pre;
  thi_waiting : forall e, Throttle.event r = Some e ->
    Throttle.inThrottle r = None -> truthyE e = false;
  thi_last : Throttle.event r = None -> last (Throttle.state r) = last (thReceived evs)
}.

(** ** The public lookups *)

(** [s.includes(sub)] *)
Fixpoint includes (s sub : string) : bool :=
  String.prefix sub s
  || match s with
     | EmptyString => false
     | String _ s' => includes s' sub
     end.

(** [getElemGroup(groupId)]: the first tracked group with this id, with
    its position in [elemGroups] (the caller is handed the tracked object
    itself, not a copy); [None] is [undefined].  Sealing adds or removes
    no property and is not modelled. *)
Definition getElemGroup (groupId : string) (elemGroups : list ElemGroup.t)
    : option (nat * ElemGroup.t) :=
  list_find (fun g => ElemGroup.groupId g = groupId) elemGroups.

(** [getAllElemGroups(groupId)] *)
Definition getAllElemGroups (groupId : string) (elemGroups : list ElemGroup.t)
    : list (nat * ElemGroup.t) :=
  filter (fun p => includes (ElemGroup.groupId (snd p)) groupId = true)
         (imap (fun i g => (i, g)) elemGroups).

(** the name [readyElementsForAnimation] looks a first element up by *)
Definition groupName (fe : FirstElem) : string :=
  fe_class fe +:+ (if fe_isText fe then "-letters" else "").

(** the state of the loop of [readyElementsForAnimation] after the first
    elements [fes]: [groupsOfAnimatableElems] and the page so far *)
Definition readyState (parseJSON : string -> option JSObject)
    (parseCharDelays : string -> option (list CharDelay)) (fes : list FirstElem)
    : gmap string nat * Page :=
  fold_left (readyOne parseJSON parseCharDelays) (imap (fun i fe => (i, fe)) fes)
    (∅, mkPage [] [] []).

(** the group [readyElementsForAnimation] builds for a first element
    under the id [groupId] *)
Definition builtGroup (parseJSON : string -> option JSObject)
    (parseCharDelays : string -> option (list CharDelay)) (groupId : string)
    (fe : FirstElem) : ElemGroup.t :=
  fst (fst (readyGroup parseJSON parseCharDelays groupId fe)).

(** the targets of the members, in the order of [elems] *)
Definition memberTargets (g : ElemGroup.t) : list nat :=
  map Elem.target (ElemGroup.elems g).

(** ** Vocabulary of the bootstrap properties *)

(** the member a char-delay entry addresses: [elems[k - 1]] *)
Definition charDelayIndex (d : CharDelay) : option nat :=
  match cd_key d with
  | KeyNumber k => index_of_key k
  | _ => None
  end.

(** an entry [updateCharUniqueDelays] can apply to [n] members *)
Definition charDelayFits (n : nat) (d : CharDelay) : Prop :=
  exists i ms, charDelayIndex d = Some i /\ (i < n)%nat /\ cd_ms d = Some ms.

(** the event name [getEventStyles] makes of an abbreviation *)
Definition eventName (g : ElemGroup.t) (eventAbbrv : string) : string :=
  (if ElemGroup.animatesWithTransitions g then "transition" else "animation")
  +:+ eventAbbrv.

(** the two abbreviations [getEventStyles] sets apart *)
Definition isReservedAbbrv (eventAbbrv : string) : bool :=
  String.eqb eventAbbrv "run" || String.eqb eventAbbrv "iteration".

(** the listeners [listenAll] attaches for one event: one per member, in
    the order of [elems] *)
Definition listenersFor (g : ElemGroup.t) (event style : string) : list Listener :=
  map (fun tg => mkListener tg event style (ElemGroup.listensOnce g)) (memberTargets g).

(** ** Vocabulary of the pass over the members *)

(** what [updateAnimations] makes of a member, read off the group [g] *)
Definition decided (windowHeight : Q) (g : ElemGroup.t) (e : Elem.t) : Elem.t :=
  if isReadyToAnimate g e then Elem.with_isAnimated true e
  else if isReadyToDeanimate windowHeight g e then Elem.with_isAnimated false e
  else e.

(** the class and style writes [updateAnimations] makes for a member *)
Definition decidedWrites (windowHeight : Q) (g : ElemGroup.t) (e : Elem.t)
    : list DomWrite :=
  if isReadyToAnimate g e then [AddAnimatedClass (Elem.target e)]
  else if isReadyToDeanimate windowHeight g e
  then [RemoveAnimatedClass (Elem.target e);
        ResetInlineStyle (Elem.target e) (Elem.originalInlineStyles e)]
  else [].

(** the writes of a log other than delays *)
Definition classWrites (dom : list DomWrite) : list DomWrite :=
  List.filter (fun w => match w with SetDelay _ _ _ => false | _ => true end) dom.

(** the coordinates [isReadyToDeanimate] reads from the up-to-date member *)
Definition upToDateCoords (g : ElemGroup.t) : option (option Q * option Q) :=
  (fun u => (Elem.top u, Elem.bottom u)) <$> upToDateElem g.

(** the fields of the group the two readiness accessors read *)
Definition sameReadiness (g g' : ElemGroup.t) : Prop :=
  sameDecision g g'
  /\ ElemGroup.removesAnimationWhenNotInView g' = ElemGroup.removesAnimationWhenNotInView g
  /\ upToDateCoords g' = upToDateCoords g.

(** a group is visible whenever one of its members is *)
Definition visibleWithMember (g : ElemGroup.t) : Prop :=
  forall e, e ∈ ElemGroup.elems g -> Elem.isVisible e = true -> ElemGroup.isVisible g = true.

(** ** Pages as bootstrap leaves them *)

(** the page once the DOM is parsed and the four [eca.ready] callbacks
    have run: the groups of [readyElementsForAnimation], then
    [runInitialAnimations] *)
Definition bootedWorld (parseJSON : string -> option JSObject)
    (parseCharDelays : string -> option (list CharDelay))
    (firstElemsOfGroups : list FirstElem) (clientHeight : Q) (useScroll : bool)
    (lay : Layout) : World.t :=
  loadedWorld
    (page_groups (readyElementsForAnimation parseJSON parseCharDelays firstElemsOfGroups))
    clientHeight useScroll lay.

(** [e'] is [e] but for its unique delay *)
Definition sameButDelay (e e' : Elem.t) : Prop :=
  e' = Elem.with_uniqueDelay (Elem.uniqueDelay e') e.

(** the visibility counters of a group: the count is exact, and the group
    is visible when a member is; a group that plays on load starts out
    visible without a visible member *)
Definition visibilityInv (g : ElemGroup.t) : Prop :=
  ElemGroup.numElemsVisible g = countElems Elem.isVisible (ElemGroup.elems g)
  /\ (ElemGroup.isVisible g = (0 <? ElemGroup.numElemsVisible g)
      \/ (ElemGroup.playsOnLoad g = true /\ ElemGroup.isVisible g = true)).

(** the removal option is off *)
Definition neverRemoves (g : ElemGroup.t) : Prop :=
  StrOpt_truthy (ElemGroup.removesAnimationWhenNotInView g) = false.

(** the writes [animate] makes *)
Definition isAnimateWrite (d : DomWrite) : bool :=
  match d with
  | SetDelay _ _ _ | AddAnimatedClass _ => true
  | RemoveAnimatedClass _ | ResetInlineStyle _ _ => false
  end.

(** what a pass may make of a member: nothing, animated, or, when
    [removal] is allowed, not animated *)
Definition animationStep (removal : bool) (e e' : Elem.t) : Prop :=
  e' = e
  \/ e' = Elem.with_isAnimated true e
  \/ (removal = true /\ e' = Elem.with_isAnimated false e).

(** member by member, the same element, animated if it was *)
Definition keepsAnimated (g g' : ElemGroup.t) : Prop :=
  Forall2 (fun e e' => Elem.target e' = Elem.target e
                       /\ (Elem.isAnimated e = true -> Elem.isAnimated e' = true))
          (ElemGroup.elems g) (ElemGroup.elems g').

(** a write that addresses a member of [els]; a style reset writes the
    inline style saved for that member *)
Definition memberWrite (els : list Elem.t) (d : DomWrite) : Prop :=
  exists e, e ∈ els
    /\ match d with
       | SetDelay t _ _ | AddAnimatedClass t | RemoveAnimatedClass t => t = Elem.target e
       | ResetInlineStyle t css =>
           t = Elem.target e /\ css = Elem.originalInlineStyles e
       end.

(** the elements bootstrap made members, each with the inline style it
    had then *)
Definition bootMembers (fes : list FirstElem) : list (nat * string) :=
  flat_map (fun fe => map (fun m => (es_target m, es_style m)) (fe_members fe)) fes.

(** a write to a member of [fes] that, if it resets a style, restores
    the style of bootstrap *)
Definition restoresBootStyle (fes : list FirstElem) (d : DomWrite) : Prop :=
  match d with
  | SetDelay t _ _ | AddAnimatedClass t | RemoveAnimatedClass t =>
      t ∈ map fst (bootMembers fes)
  | ResetInlineStyle t css => (t, css) ∈ bootMembers fes
  end.

(** a member made at bootstrap, with the inline style saved then *)
Definition bootMember (fes : list FirstElem) (e : Elem.t) : Prop :=
  (Elem.target e, Elem.originalInlineStyles e) ∈ bootMembers fes.

(** a delaying group waits for a pending timeout, whose id it keeps; when
    the ids of the groups [ids] are distinct, that id is published under
    the id of the group *)
Definition delayPending (ids : list string) (w : World.t) : Prop :=
  forall gi g,
    World.elemGroups w !! gi = Some g -> ElemGroup.isDelaying g = true ->
    exists id ms,
      ElemGroup.delayId g = Some id
      /\ mkTimer id ms gi ∈ World.timers w
      /\ (NoDup ids -> World.groupDelayIds w !! ElemGroup.groupId g = Some (Some id)).

(** the ids of the pending timeouts are distinct and were handed out *)
Definition timersFresh (w : World.t) : Prop :=
  Forall (fun t => (timer_id t < World.nextTimerId w)%nat) (World.timers w)
  /\ NoDup (map timer_id (World.timers w)).

Definition delayInv (ids : list string) (w : World.t) : Prop :=
  map ElemGroup.groupId (World.elemGroups w) = ids
  /\ timersFresh w
  /\ delayPending ids w.

(** a group that waits one second before it animates *)
Definition waitingCards : FirstElem :=
  mkFirstElem "card" false
    (mkGroupOptions ThrFalse 0 false 0 1000 false false false None false false OptFalse)
    [sampleMember 1; sampleMember 2] None.

(** ** The observer strategy: reading the entries *)

(** An [Elem] as the observer's callback finds it: the group it belongs
    to and its place in [elems] ([Elem.getElem(entry.target)]). *)
Definition ElemRef : Type := (nat * nat)%type.

(** An [IntersectionObserverEntry], as far as the callback reads it. *)
Record Entry : Type := mkEntry {
  en_elem : ElemRef;              (* Elem.getElem(entry.target) *)
  en_isIntersecting : bool;
  en_intersectionRatio : Q;
  en_top : Q;                     (* boundingClientRect.top *)
  en_bottom : Q                   (* boundingClientRect.bottom *)
}.

Module Observer.
(** The page under the observer strategy: the page as before, the rest of
    [eca.state], and the targets the observer observes. *)
Record t : Type := mk {
  world : World.t;
  scrollY : Q;                                 (* eca.state.scrollY *)
  prevScrollY : option Q;                      (* eca.state.prevScrollY *)
  elemsUpdatedAtY : list (Q * list ElemRef);   (* eca.state.elemsUpdatedAtY *)
  unobservedElems : list ElemRef;              (* eca.state.unobservedElems *)
  observed : gset nat                          (* targets under observation *)
}.

Definition with_world (x : World.t) (s : t) : t :=
  let 'mk _ y p m u o := s in mk x y p m u o.
Definition with_scroll (y : Q) (p : option Q) (s : t) : t :=
  let 'mk w _ _ m u o := s in mk w y p m u o.
Definition with_elemsUpdatedAtY (x : list (Q * list ElemRef)) (s : t) : t :=
  let 'mk w y p _ u o := s in mk w y p x u o.
Definition with_unobservedElems (x : list ElemRef) (s : t) : t :=
  let 'mk w y p m _ o := s in mk w y p m x o.
Definition with_observed (x : gset nat) (s : t) : t :=
  let 'mk w y p m u _ := s in mk w y p m u x.
End Observer.

(** [elemsUpdatedAtY[y]] *)
Definition updatedAt (y : Q) (m : list (Q * list ElemRef)) : option (list ElemRef) :=
  snd <$> find (fun p => Qeq_bool (fst p) y) m.

(** [elemsUpdatedAtY[y] = v] *)
Fixpoint setUpdatedAt (y : Q) (v : list ElemRef) (m : list (Q * list ElemRef))
    : list (Q * list ElemRef) :=
  match m with
  | [] => [(y, v)]
  | (y', v') :: rest =>
      if Qeq_bool y' y then (y', v) :: rest else (y', v') :: setUpdatedAt y v rest
  end.

(** [prevScrollY === scrollY] *)
Definition sameScrollY (prev : option Q) (y : Q) : bool :=
  match prev with
  | Some p => Qeq_bool p y
  | None => false
  end.

(** the member a reference names, with its group *)
Definition refElem (r : ElemRef) (w : World.t) : option (ElemGroup.t * Elem.t) :=
  g ← World.elemGroups w !! fst r; e ← ElemGroup.elems g !! snd r; Some (g, e).

(** [observer.unobserve(elem.target)] *)
Definition unobserve (target : nat) (s : Observer.t) : Observer.t :=
  Observer.with_observed (Observer.observed s ∖ {[target]}) s.

(** [shouldSkipUpdate(elem, entry, observer)]; [None] is a [TypeError]:
    the entry names no [Elem], or [elemsUpdatedAtY[scrollY]] is
    [undefined] when its [has] is called *)
Definition shouldSkipUpdate (en : Entry) (s : Observer.t) : option (bool * Observer.t) :=
  let w := Observer.world s in
  '(g, e) ← refElem (en_elem en) w;
  if ElemGroup.playsOnLoad g then Some (false, unobserve (Elem.target e) s)
  else if negb (StrOpt_truthy (ElemGroup.removesAnimationWhenNotInView g))
          && Elem.isAnimated e
  then Some (true, unobserve (Elem.target e) s)
  else
    let userDidntScroll := sameScrollY (Observer.prevScrollY s) (Observer.scrollY s) in
    let userDidntResizeWindow :=
      Qeq_bool (World.prevWindowHeight w) (World.windowHeight w) in
    updated ← updatedAt (Observer.scrollY s) (Observer.elemsUpdatedAtY s);
    let elemUpdatedAtThisScrollY := bool_decide (en_elem en ∈ updated) in
    if userDidntScroll && userDidntResizeWindow && elemUpdatedAtThisScrollY then
      let s1 := unobserve (Elem.target e) s in
      let s2 := Observer.with_unobservedElems
                  (Observer.unobservedElems s1 ++ [en_elem en]) s1 in
      Some (true,
            Observer.with_world
              (World.with_group (fst (en_elem en))
                 (ElemGroup.with_upToDateELem (Some (snd (en_elem en))) g) w) s2)
    else
      let elemWasVisible := Elem.isVisible e in
      let elemStillVisible := Qlt_bool (Elem.threshold e) (en_intersectionRatio en) in
      let elemStillNotVisible := Qlt_bool (en_intersectionRatio en) (Elem.threshold e) in
      Some ((elemWasVisible && elemStillVisible)
            || (negb elemWasVisible && elemStillNotVisible), s).

(** [calculateVisibilityIO(elem, entry)] on member [i] of [g] *)
Definition calculateVisibilityIO (windowHeight : Q) (en : Entry) (i : nat)
    (g : ElemGroup.t) : ElemGroup.t :=
  match ElemGroup.elems g !! i with
  | None => g
  | Some e =>
      let elemPartlyOutsideViewport :=
        Qlt_bool (en_top en) 0 || Qlt_bool windowHeight (en_bottom en) in
      let g1 := ElemGroup.with_elems
                  (<[i := Elem.with_coords (Some (en_top en)) (Some (en_bottom en)) e]>
                     (ElemGroup.elems g)) g in
      if en_isIntersecting en then
        if Elem.isVisible e && negb (ElemGroup.animatesWithTransitions g) then g1
        else if Qlt_bool (en_intersectionRatio en) 1 then
          if Qlt_bool (Elem.threshold e) (en_intersectionRatio en)
             && elemPartlyOutsideViewport
          then set_isVisible (JBool true) i g1
          else if Qlt_bool (en_intersectionRatio en) (Elem.threshold e)
                  && elemPartlyOutsideViewport
          then set_isVisible (JBool false) i g1
          else g1
        else set_isVisible (JBool true) i g1
      else set_isVisible (JBool false) i g1
  end.

(** [groupSubsets.has(g) ? groupSubsets.get(g).push(elem)
                         : groupSubsets.set(g, [elem])] *)
Fixpoint pushSubset (r : ElemRef) (groupSubsets : list (nat * list nat))
    : list (nat * list nat) :=
  match groupSubsets with
  | [] => [(fst r, [snd r])]
  | (gi, entries) :: rest =>
      if Nat.eqb gi (fst r) then (gi, entries ++ [snd r]) :: rest
      else (gi, entries) :: pushSubset r rest
  end.

(** [saveElemRefForUpdate(elem, groupSubsets)] *)
Definition saveElemRefForUpdate (r : ElemRef)
    (acc : Observer.t * list (nat * list nat))
    : option (Observer.t * list (nat * list nat)) :=
  let '(s, groupSubsets) := acc in
  let w := Observer.world s in
  g ← World.elemGroups w !! fst r;
  let w1 := World.with_group (fst r) (ElemGroup.with_upToDateELem (Some (snd r)) g) w in
  updated ← updatedAt (Observer.scrollY s) (Observer.elemsUpdatedAtY s);
  Some (Observer.with_elemsUpdatedAtY
          (setUpdatedAt (Observer.scrollY s) (updated ++ [r]) (Observer.elemsUpdatedAtY s))
          (Observer.with_world w1 s),
        pushSubset r groupSubsets).

(** one turn of the loop of [readEntries] *)
Definition readEntry (en : Entry) (acc : Observer.t * list (nat * list nat))
    : option (Observer.t * list (nat * list nat)) :=
  let '(s, groupSubsets) := acc in
  match shouldSkipUpdate en s with
  | None => None
  | Some (true, s1) => Some (s1, groupSubsets)
  | Some (false, s1) =>
      let w := Observer.world s1 in
      match World.elemGroups w !! fst (en_elem en) with
      | None => None
      | Some g =>
          let g1 := calculateVisibilityIO (World.windowHeight w) en (snd (en_elem en)) g in
          saveElemRefForUpdate (en_elem en)
            (Observer.with_world (World.with_group (fst (en_elem en)) g1 w) s1,
             groupSubsets)
      end
  end.

(** [readEntries(entries, groupSubsets, observer)] *)
Fixpoint readEntries (entries : list Entry) (acc : Observer.t * list (nat * list nat))
    : option (Observer.t * list (nat * list nat)) :=
  match entries with
  | [] => Some acc
  | en :: rest => acc1 ← readEntry en acc; readEntries rest acc1
  end.

(** [handleIntersect(entries, observer)]; the call of
    [requestAnimationUpdate] is written out, because its read callback
    writes the observer's part of the state and fills the [groupSubsets]
    its update callback is to use *)
Definition handleIntersect (entries : list Entry) (s : Observer.t) : option Observer.t :=
  let scrollY := Observer.scrollY s in
  let windowHeight := World.windowHeight (Observer.world s) in
  let userHasScrolled := negb (sameScrollY (Observer.prevScrollY s) scrollY) in
  let s1 := if userHasScrolled
            then Observer.with_elemsUpdatedAtY
                   (setUpdatedAt scrollY [] (Observer.elemsUpdatedAtY s)) s
            else s in
  let finish (s2 : Observer.t) : Observer.t :=
    Observer.with_scroll scrollY (Some scrollY)
      (Observer.with_world
         (World.with_windowHeights windowHeight
            (World.windowHeight (Observer.world s2)) (Observer.world s2)) s2) in
  if negb (World.updating (Observer.world s1)) then
    match readEntries entries
            (Observer.with_world (World.with_updating true (Observer.world s1)) s1, [])
    with
    | None => None
    | Some (s3, groupSubsets) =>
        Some (finish
                (Observer.with_world
                   (requestAnimationFrame (FrameCycle (UpdateEntriesCb groupSubsets))
                      (Observer.world s3)) s3))
    end
  else Some (finish s1).

(** [updateScrollY()]; [y] is [window.scrollY] *)
Definition updateScrollY (y : Q) (s : Observer.t) : Observer.t :=
  if Qeq_bool y (Observer.scrollY s) then s
  else
    Observer.with_elemsUpdatedAtY []
      (Observer.with_scroll y
         (match Observer.prevScrollY s with
          | Some _ => Some (Observer.scrollY s)
          | None => None
          end) s).

(** [reobserveElems()] *)
Definition reobserveElems (s : Observer.t) : Observer.t :=
  Observer.with_unobservedElems []
    (Observer.with_observed
       (Observer.observed s
        ∪ list_to_set
            (omap (fun r => (fun ge => Elem.target (snd ge)) <$> refElem r (Observer.world s))
                  (Observer.unobservedElems s))) s).

(** [ecaHandleNewScrollY()] *)
Definition ecaHandleNewScrollY (y : Q) (s : Observer.t) : Observer.t :=
  reobserveElems (updateScrollY y s).

(** What happens to a page under the observer strategy. *)
Inductive ObserverEvent : Type :=
  | ObScroll (y : Q) (lay : Layout)            (* the page scrolled to [y] *)
  | ObResize (clientHeight : Q) (lay : Layout) (* the window was resized *)
  | ObIntersect (entries : list Entry)         (* the observer calls back *)
  | ObTimer (id : nat)                         (* a group-delay timer came due *)
  | ObFrame.                                   (* an animation frame *)

(** the listeners of the observer strategy: on scroll
    [ecaHandleNewScrollY]; on resize [reobserveElems], then
    [ecaHandleResize], here without a throttle limit.  The entries of a
    callback are whatever the browser hands over; nothing ties them to
    the layout or to the targets under observation. *)
Definition observerStep (ev : ObserverEvent) (s : Observer.t) : option Observer.t :=
  match ev with
  | ObScroll y lay =>
      Some (ecaHandleNewScrollY y
              (Observer.with_world (World.with_layout lay (Observer.world s)) s))
  | ObResize clientHeight lay =>
      let s1 := reobserveElems
                  (Observer.with_world (World.with_layout lay (Observer.world s)) s) in
      Some (Observer.with_world (ecaHandleResize clientHeight (Observer.world s1)) s1)
  | ObIntersect entries => handleIntersect entries s
  | ObTimer id => Some (Observer.with_world (fireTimer id (Observer.world s)) s)
  | ObFrame => Some (Observer.with_world (runFrame (Observer.world s)) s)
  end.

Fixpoint observerRun (evs : list ObserverEvent) (s : Observer.t) : option Observer.t :=
  match evs with
  | [] => Some s
  | ev :: rest => s1 ← observerStep ev s; observerRun rest s1
  end.

(** [r] names a member of [groups] *)
Definition validRef (groups : list ElemGroup.t) (r : ElemRef) : bool :=
  match groups !! fst r with
  | Some g => bool_decide (snd r < length (ElemGroup.elems g))%nat
  | None => false
  end.

(** the entries the observer hands over name members of [groups] *)
Definition namesMembers (groups : list ElemGroup.t) (ev : ObserverEvent) : bool :=
  match ev with
  | ObIntersect entries => forallb (fun en => validRef groups (en_elem en)) entries
  | _ => true
  end.

(** the targets of all members *)
Definition allTargets (groups : list ElemGroup.t) : gset nat :=
  list_to_set (flat_map memberTargets groups).

(** the page under the observer strategy when the listeners are set:
    [eca.state] as initialised, every member's target observed *)
Definition observerWorld (w : World.t) : Observer.t :=
  Observer.mk w 0 None [] [] (allTargets (World.elemGroups w)).

(** a page of [groups] under the observer strategy ([useScroll] unset) *)
Definition observerPage (groups : list ElemGroup.t) (clientHeight : Q) (lay : Layout)
    : Observer.t :=
  observerWorld (loadedWorld groups clientHeight false lay).

(** no member is lost: its element is observed, or it is listed in
    [unobservedElems] (the members [reobserveElems] observes again), or
    the observer is done with it, because its group plays on load, or
    because it is animated and the animation is never removed *)
Definition tracked (s : Observer.t) : Prop :=
  forall gi i g e,
    World.elemGroups (Observer.world s) !! gi = Some g ->
    ElemGroup.elems g !! i = Some e ->
    Elem.target e ∈ Observer.observed s
    \/ (gi, i) ∈ Observer.unobservedElems s
    \/ ElemGroup.playsOnLoad g = true
    \/ (neverRemoves g /\ Elem.isAnimated e = true).

(** member by member the same element; the options the observer looks
    at are kept, and a member that is animated stays so when the
    animation is never removed *)
Definition sameMembers (g g' : ElemGroup.t) : Prop :=
  ElemGroup.playsOnLoad g' = ElemGroup.playsOnLoad g
  /\ ElemGroup.removesAnimationWhenNotInView g'
     = ElemGroup.removesAnimationWhenNotInView g
  /\ Forall2 (fun e e' => Elem.target e' = Elem.target e
                          /\ (neverRemoves g -> Elem.isAnimated e = true ->
                              Elem.isAnimated e' = true))
       (ElemGroup.elems g) (ElemGroup.elems g').

(** every group keeps [P] and is related by [R] to the group of [groups]
    in its place, and the log of writes keeps [Qd] *)
Definition keptSince (P : ElemGroup.t -> Prop) (R : ElemGroup.t -> ElemGroup.t -> Prop)
    (Qd : list DomWrite -> Prop) (groups : list ElemGroup.t) (w : World.t) : Prop :=
  allGroups P w /\ Forall2 R groups (World.elemGroups w) /\ Qd (World.dom w).



(** ** Vocabulary of the class writes *)

(** what one write makes of whether element [t] has the animated class *)
Definition classWrite (t : nat) (has : bool) (d : DomWrite) : bool :=
  match d with
  | AddAnimatedClass t' => if Nat.eqb t' t then true else has
  | RemoveAnimatedClass t' => if Nat.eqb t' t then false else has
  | SetDelay _ _ _ | ResetInlineStyle _ _ => has
  end.

(** whether the writes of the log leave the animated class on [t] *)
Definition hasAnimatedClass (dom : list DomWrite) (t : nat) : bool :=
  fold_left (classWrite t) dom false.

(** the element and the animated flag of each member *)
Definition memberFlags (g : ElemGroup.t) : list (nat * bool) :=
  map (fun e => (Elem.target e, Elem.isAnimated e)) (ElemGroup.elems g).

(** the animated flag of every member says whether the writes so far
    leave the class on its element *)
Definition flagsMirrorClasses (groups : list ElemGroup.t) (dom : list DomWrite) : Prop :=
  forall gi i g e,
    groups !! gi = Some g -> ElemGroup.elems g !! i = Some e ->
    hasAnimatedClass dom (Elem.target e) = Elem.isAnimated e.

(** no element is a member twice, and the flags mirror the classes *)
Definition classesMirrored (w : World.t) : Prop :=
  NoDup (flat_map memberTargets (World.elemGroups w))
  /\ flagsMirrorClasses (World.elemGroups w) (World.dom w).

(** ** Vocabulary of the threshold correction *)








(* ===================================================================== *)
(** * Properties *)
(* ===================================================================== *)

(** ** The record updates touch the fields they name, and no other *)

Lemma Elem_with_coords_spec (r : Elem.t) x0 x1 :
  (Elem.top (Elem.with_coords x0 x1 r) = x0 /\ Elem.bottom (Elem.with_coords x0 x1 r) = x1)
  /\ Elem.with_coords (Elem.top r) (Elem.bottom r) r = r.
Proof. destruct r; repeat split. Qed.

Lemma Elem_with_isVisible_spec (r : Elem.t) x0 :
  (Elem.isVisible (Elem.with_isVisible x0 r) = x0)
  /\ Elem.with_isVisible (Elem.isVisible r) r = r.
Proof. destruct r; repeat split. Qed.

Lemma Elem_with_isAnimated_spec (r : Elem.t) x0 :
  (Elem.isAnimated (Elem.with_isAnimated x0 r) = x0)
  /\ Elem.with_isAnimated (Elem.isAnimated r) r = r.
Proof. destruct r; repeat split. Qed.

Lemma Elem_with_threshold_spec (r : Elem.t) x0 :
  (Elem.threshold (Elem.with_threshold x0 r) = x0)
  /\ Elem.with_threshold (Elem.threshold r) r = r.
Proof. destruct r; repeat split. Qed.

Lemma Elem_with_uniqueDelay_spec (r : Elem.t) x0 :
  (Elem.uniqueDelay (Elem.with_uniqueDelay x0 r) = x0)
  /\ Elem.with_uniqueDelay (Elem.uniqueDelay r) r = r.
Proof. destruct r; repeat split. Qed.

Lemma ElemGroup_with_elems_spec (r : ElemGroup.t) x0 :
  (ElemGroup.elems (ElemGroup.with_elems x0 r) = x0)
  /\ ElemGroup.with_elems (ElemGroup.elems r) r = r.
Proof. destruct r; repeat split. Qed.

Lemma ElemGroup_with_nextStaggeredDelay_spec (r : ElemGroup.t) x0 :
  (ElemGroup.nextStaggeredDelay (ElemGroup.with_nextStaggeredDelay x0 r) = x0)
  /\ ElemGroup.with_nextStaggeredDelay (ElemGroup.nextStaggeredDelay r) r = r.
Proof. destruct r; repeat split. Qed.

Lemma ElemGroup_with_groupDelay_spec (r : ElemGroup.t) x0 :
  (ElemGroup.groupDelay (ElemGroup.with_groupDelay x0 r) = x0)
  /\ ElemGroup.with_groupDelay (ElemGroup.groupDelay r) r = r.
Proof. destruct r; repeat split. Qed.

Lemma ElemGroup_with_originalGroupDelay_spec (r : ElemGroup.t) x0 :
  (ElemGroup.originalGroupDelay (ElemGroup.with_originalGroupDelay x0 r) = x0)
  /\ ElemGroup.with_originalGroupDelay (ElemGroup.originalGroupDelay r) r = r.
Proof. destruct r; repeat split. Qed.

Lemma ElemGroup_with_isDelaying_spec (r : ElemGroup.t) x0 :
  (ElemGroup.isDelaying (ElemGroup.with_isDelaying x0 r) = x0)
  /\ ElemGroup.with_isDelaying (ElemGroup.isDelaying r) r = r.
Proof. destruct r; repeat split. Qed.

Lemma ElemGroup_with_delayId_spec (r : ElemGroup.t) x0 :
  (ElemGroup.delayId (ElemGroup.with_delayId x0 r) = x0)
  /\ ElemGroup.with_delayId (ElemGroup.delayId r) r = r.
Proof. destruct r; repeat split. Qed.

Lemma ElemGroup_with_animationStatus_spec (r : ElemGroup.t) x0 x1 :
  (ElemGroup.numElemsAnimated (ElemGroup.with_animationStatus x0 x1 r) = x0 /\ ElemGroup.isFinishedAnimating (ElemGroup.with_animationStatus x0 x1 r) = x1)
  /\ ElemGroup.with_animationStatus (ElemGroup.numElemsAnimated r) (ElemGroup.isFinishedAnimating r) r = r.
Proof. destruct r; repeat split. Qed.

Lemma ElemGroup_with_listen_spec (r : ElemGroup.t) x0 :
  (ElemGroup.listen (ElemGroup.with_listen x0 r) = x0)
  /\ ElemGroup.with_listen (ElemGroup.listen r) r = r.
Proof. destruct r; repeat split. Qed.

Lemma ElemGroup_with_upToDateELem_spec (r : ElemGroup.t) x0 :
  (ElemGroup.upToDateELem (ElemGroup.with_upToDateELem x0 r) = x0)
  /\ ElemGroup.with_upToDateELem (ElemGroup.upToDateELem r) r = r.
Proof. destruct r; repeat split. Qed.

Lemma ElemGroup_with_visibility_spec (r : ElemGroup.t) x0 x1 :
  (ElemGroup.numElemsVisible (ElemGroup.with_visibility x0 x1 r) = x0 /\ ElemGroup.isVisible (ElemGroup.with_visibility x0 x1 r) = x1)
  /\ ElemGroup.with_visibility (ElemGroup.numElemsVisible r) (ElemGroup.isVisible r) r = r.
Proof. destruct r; repeat split. Qed.

Lemma World_with_elemGroups_spec (r : World.t) x0 :
  (World.elemGroups (World.with_elemGroups x0 r) = x0)
  /\ World.with_elemGroups (World.elemGroups r) r = r.
Proof. destruct r; repeat split. Qed.

Lemma World_with_windowHeights_spec (r : World.t) x0 x1 :
  (World.prevWindowHeight (World.with_windowHeights x0 x1 r) = x0 /\ World.windowHeight (World.with_windowHeights x0 x1 r) = x1)
  /\ World.with_windowHeights (World.prevWindowHeight r) (World.windowHeight r) r = r.
Proof. destruct r; repeat split. Qed.

Lemma World_with_updating_spec (r : World.t) x0 :
  (World.updating (World.with_updating x0 r) = x0)
  /\ World.with_updating (World.updating r) r = r.
Proof. destruct r; repeat split. Qed.

Lemma World_with_groupDelayIds_spec (r : World.t) x0 :
  (World.groupDelayIds (World.with_groupDelayIds x0 r) = x0)
  /\ World.with_groupDelayIds (World.groupDelayIds r) r = r.
Proof. destruct r; repeat split. Qed.

Lemma World_with_layout_spec (r : World.t) x0 :
  (World.layout (World.with_layout x0 r) = x0)
  /\ World.with_layout (World.layout r) r = r.
Proof. destruct r; repeat split. Qed.

Lemma World_with_timers_spec (r : World.t) x0 x1 :
  (World.timers (World.with_timers x0 x1 r) = x0 /\ World.nextTimerId (World.with_timers x0 x1 r) = x1)
  /\ World.with_timers (World.timers r) (World.nextTimerId r) r = r.
Proof. destruct r; repeat split. Qed.

Lemma World_with_frameCallbacks_spec (r : World.t) x0 :
  (World.frameCallbacks (World.with_frameCallbacks x0 r) = x0)
  /\ World.with_frameCallbacks (World.frameCallbacks r) r = r.
Proof. destruct r; repeat split. Qed.

Lemma World_with_dom_spec (r : World.t) x0 :
  (World.dom (World.with_dom x0 r) = x0)
  /\ World.with_dom (World.dom r) r = r.
Proof. destruct r; repeat split. Qed.

Lemma Qlt_bool_iff (x y : Q) : Qlt_bool x y = true <-> (x < y)%Q.
Proof.
  unfold Qlt_bool. rewrite negb_true_iff. split.
  - intros H. apply Qnot_le_lt. intros Hle.
    apply Qle_bool_iff in Hle. congruence.
  - intros H. destruct (Qle_bool y x) eqn:E; [|reflexivity].
    apply Qle_bool_iff in E. exfalso. apply (Qlt_not_le _ _ H E).
Qed.

(** ** Counting members through an update in place *)

Lemma countElems_insert (f : Elem.t -> bool) (l : list Elem.t) (i : nat) (e e' : Elem.t) :
  l !! i = Some e ->
  countElems f (<[i := e']> l)
  = countElems f l - (if f e then 1 else 0) + (if f e' then 1 else 0).
Proof.
  revert i. induction l as [|x l IH]; intros [|i] H; simpl in *; try discriminate.
  - injection H as ->. lia.
  - rewrite (IH i H). lia.
Qed.

Lemma countElems_bounds (f : Elem.t -> bool) (l : list Elem.t) :
  0 <= countElems f l <= Z.of_nat (length l).
Proof.
  induction l as [|x l IH]; simpl; [lia|]. destruct (f x); lia.
Qed.

Lemma countElems_all_false (f : Elem.t -> bool) (l : list Elem.t) :
  Forall (fun e => f e = false) l -> countElems f l = 0.
Proof.
  induction 1 as [|x l Hx _ IH]; simpl; [reflexivity|]. rewrite Hx, IH. reflexivity.
Qed.

(** ** The setters and the counters (C10) *)

Section Setters.
Variables (g : ElemGroup.t) (i : nat) (e : Elem.t).
Hypothesis Hi : ElemGroup.elems g !! i = Some e.

Lemma set_isVisible_elems v :
  ElemGroup.elems (set_isVisible v i g)
  = <[i := Elem.with_isVisible (truthy v) e]> (ElemGroup.elems g).
Proof.
  unfold set_isVisible. rewrite Hi.
  destruct (strict_neq_bool v (Elem.isVisible e)); destruct g; reflexivity.
Qed.

Lemma set_isAnimated_elems v :
  ElemGroup.elems (set_isAnimated v i g)
  = <[i := Elem.with_isAnimated (truthy v) e]> (ElemGroup.elems g).
Proof.
  unfold set_isAnimated. rewrite Hi.
  destruct (strict_neq_bool v (Elem.isAnimated e)); destruct g; reflexivity.
Qed.

Lemma set_isVisible_count v :
  ElemGroup.numElemsVisible (set_isVisible v i g)
  = ElemGroup.numElemsVisible g
    + (if strict_neq_bool v (Elem.isVisible e)
       then (if truthy v then 1 else -1) else 0).
Proof.
  unfold set_isVisible. rewrite Hi.
  destruct (strict_neq_bool v (Elem.isVisible e)); destruct g; simpl; lia.
Qed.

Lemma set_isAnimated_count v :
  ElemGroup.numElemsAnimated (set_isAnimated v i g)
  = ElemGroup.numElemsAnimated g
    + (if strict_neq_bool v (Elem.isAnimated e)
       then (if truthy v then 1 else -1) else 0).
Proof.
  unfold set_isAnimated. rewrite Hi.
  destruct (strict_neq_bool v (Elem.isAnimated e)); destruct g; simpl; lia.
Qed.
End Setters.

Lemma strict_neq_bool_delta (b old : bool) :
  (if strict_neq_bool (JBool b) old then (if b then 1 else -1) else 0)
  = flagDelta old b.
Proof. destruct b, old; reflexivity. Qed.

(** C10. Assigning a boolean [b] to [isVisible] (respectively
    [isAnimated]) of a member stores [b] and moves the owning group's
    [numElemsVisible] (respectively [numElemsAnimated]) by [+1] exactly
    when the flag goes from false to true, by [-1] exactly when it goes
    from true to false, and not at all when [b] is the current flag.  The
    comparison is on the raw value: a value that is not a boolean always
    moves the counter, by its truthiness, whatever the flag was. *)
Theorem setter_counter_bookkeeping (g : ElemGroup.t) (i : nat) (e : Elem.t) :
  ElemGroup.elems g !! i = Some e ->
  (forall b : bool,
      ElemGroup.elems (set_isVisible (JBool b) i g) !! i
        = Some (Elem.with_isVisible b e)
      /\ ElemGroup.numElemsVisible (set_isVisible (JBool b) i g)
         = ElemGroup.numElemsVisible g + flagDelta (Elem.isVisible e) b
      /\ ElemGroup.elems (set_isAnimated (JBool b) i g) !! i
        = Some (Elem.with_isAnimated b e)
      /\ ElemGroup.numElemsAnimated (set_isAnimated (JBool b) i g)
         = ElemGroup.numElemsAnimated g + flagDelta (Elem.isAnimated e) b)
  /\ (forall t : bool,
      ElemGroup.numElemsVisible (set_isVisible (JOther t) i g)
        = ElemGroup.numElemsVisible g + (if t then 1 else -1)
      /\ ElemGroup.numElemsAnimated (set_isAnimated (JOther t) i g)
        = ElemGroup.numElemsAnimated g + (if t then 1 else -1)).
Proof.
  intros Hi. pose proof (lookup_lt_Some _ _ _ Hi) as Hlt. split.
  - intros b.
    rewrite (set_isVisible_elems g i e Hi), (set_isAnimated_elems g i e Hi).
    rewrite (set_isVisible_count g i e Hi), (set_isAnimated_count g i e Hi).
    rewrite !strict_neq_bool_delta. simpl truthy.
    rewrite !list_lookup_insert_eq by exact Hlt. auto.
  - intros t.
    rewrite (set_isVisible_count g i e Hi), (set_isAnimated_count g i e Hi).
    simpl. auto.
Qed.

Lemma setter_counter_bookkeeping_witness :
  ElemGroup.elems sampleGroup !! 1%nat = Some (new_Elem (sampleMember 1) ThrFalse)
  /\ ElemGroup.numElemsAnimated (set_isAnimated (JBool true) 1 sampleGroup) = 1
  /\ ElemGroup.numElemsVisible (set_isVisible (JOther false) 1 sampleGroup) = -1.
Proof.
  pose proof (setter_counter_bookkeeping sampleGroup 1
                (new_Elem (sampleMember 1) ThrFalse) eq_refl) as [Hb Ho].
  split; [reflexivity|]. split.
  - destruct (Hb true) as (_ & _ & _ & H). exact H.
  - destruct (Ho false) as [H _]. exact H.
Defined.

(** ** Aggregate consistency (C1) *)

Lemma set_isAnimated_length v i g :
  length (ElemGroup.elems (set_isAnimated v i g)) = length (ElemGroup.elems g).
Proof.
  destruct (ElemGroup.elems g !! i) as [e|] eqn:Hi.
  - rewrite (set_isAnimated_elems g i e Hi). apply length_insert.
  - unfold set_isAnimated. rewrite Hi. reflexivity.
Qed.

Lemma set_isAnimated_bool_inv (b : bool) (i : nat) (g : ElemGroup.t) :
  aggregateInv g -> aggregateInv (set_isAnimated (JBool b) i g).
Proof.
  intros [Hc Hf].
  destruct (ElemGroup.elems g !! i) as [e|] eqn:Hi;
    [| unfold set_isAnimated; rewrite Hi; split; assumption].
  assert (Hne : ElemGroup.elems g <> []) by (intros E; rewrite E in Hi; discriminate).
  specialize (Hf Hne).
  assert (Hcount : countConsistent (set_isAnimated (JBool b) i g)).
  { unfold countConsistent.
    rewrite (set_isAnimated_elems g i e Hi), (set_isAnimated_count g i e Hi).
    rewrite (countElems_insert _ _ _ e _ Hi), Hc.
    destruct e as [? ? ? a ? ? ? ? ?]; simpl. destruct b, a; simpl; lia. }
  split; [exact Hcount|]. intros _.
  unfold finishedConsistent in *.
  rewrite set_isAnimated_length.
  unfold set_isAnimated. rewrite Hi.
  destruct (strict_neq_bool (JBool b) (Elem.isAnimated e)) eqn:Hs.
  - unfold updateAnimationStatus. destruct g; simpl in *.
    rewrite length_insert. rewrite Z.eqb_eq. reflexivity.
  - destruct g; simpl in *. exact Hf.
Qed.

Lemma updateNextStaggeredDelay_agg g :
  ElemGroup.elems (updateNextStaggeredDelay g) = ElemGroup.elems g
  /\ ElemGroup.numElemsAnimated (updateNextStaggeredDelay g) = ElemGroup.numElemsAnimated g
  /\ ElemGroup.isFinishedAnimating (updateNextStaggeredDelay g)
     = ElemGroup.isFinishedAnimating g.
Proof.
  unfold updateNextStaggeredDelay.
  destruct g as [? ? dm ? [d|] ? ? ? ? ? ? ? ? ? ? ? ? ? ? ? ? ?]; simpl.
  - destruct (d =? 0); simpl; auto.
  - destruct (dm =? 0); simpl; auto.
Qed.

Lemma updateNextStaggeredDelay_inv g :
  aggregateInv g -> aggregateInv (updateNextStaggeredDelay g).
Proof.
  destruct (updateNextStaggeredDelay_agg g) as (He & Hn & Hf).
  unfold aggregateInv, countConsistent, finishedConsistent.
  rewrite He, Hn, Hf. auto.
Qed.

Lemma applyOp_inv (op : GroupOp) (s : Written) :
  assignsBoolean op = true -> aggregateInv (fst s) -> aggregateInv (fst (applyOp op s)).
Proof.
  destruct s as [g dom]. destruct op as [i|i|i v]; simpl; intros Hb Hinv.
  - destruct (ElemGroup.elems g !! i) as [e|] eqn:Hi; [|exact Hinv]. simpl.
    apply set_isAnimated_bool_inv.
    destruct (Elem.uniqueDelay e) as [d|];
      [destruct (Qeq_bool d 0)|]; auto using updateNextStaggeredDelay_inv.
  - destruct (ElemGroup.elems g !! i) as [e|] eqn:Hi; [|exact Hinv]. simpl.
    apply set_isAnimated_bool_inv, Hinv.
  - destruct v as [b|t]; [|discriminate]. apply set_isAnimated_bool_inv, Hinv.
Qed.

Lemma applyOp_length (op : GroupOp) (s : Written) :
  length (ElemGroup.elems (fst (applyOp op s))) = length (ElemGroup.elems (fst s)).
Proof.
  destruct s as [g dom]. destruct op as [i|i|i v]; simpl.
  - destruct (ElemGroup.elems g !! i) as [e|] eqn:Hi; [|reflexivity]. simpl.
    rewrite set_isAnimated_length.
    destruct (Elem.uniqueDelay e) as [d|]; [destruct (Qeq_bool d 0)|];
      try reflexivity;
      destruct (updateNextStaggeredDelay_agg g) as (-> & _); reflexivity.
  - destruct (ElemGroup.elems g !! i) as [e|] eqn:Hi; [|reflexivity]. simpl.
    apply set_isAnimated_length.
  - apply set_isAnimated_length.
Qed.

Lemma applyOps_inv (ops : list GroupOp) (s : Written) :
  forallb assignsBoolean ops = true ->
  aggregateInv (fst s) ->
  aggregateInv (fst (applyOps ops s))
  /\ length (ElemGroup.elems (fst (applyOps ops s))) = length (ElemGroup.elems (fst s)).
Proof.
  revert s. induction ops as [|op ops IH]; intros s Hb Hinv; simpl in *.
  - auto.
  - apply andb_true_iff in Hb as [Hop Hops].
    destruct (IH (applyOp op s) Hops (applyOp_inv op s Hop Hinv)) as [H1 H2].
    split; [exact H1|]. rewrite H2. apply applyOp_length.
Qed.

Lemma new_ElemGroup_elems o members id :
  ElemGroup.elems (new_ElemGroup o members id)
  = map (fun s => new_Elem s (ecaThresholdAll o)) members.
Proof. reflexivity. Qed.

Lemma new_ElemGroup_inv o members id : aggregateInv (new_ElemGroup o members id).
Proof.
  split.
  - unfold countConsistent. simpl. symmetry. apply countElems_all_false.
    apply Forall_forall. intros e He. apply list_elem_of_In, in_map_iff in He.
    destruct He as (s & <- & _). reflexivity.
  - intros Hne. unfold finishedConsistent. simpl. split; [discriminate|].
    intros H. destruct members; [contradiction Hne; reflexivity | simpl in H; lia].
Qed.

(** C1, as the code has it.  From a group as its constructor builds it,
    through any sequence of [animate], [deAnimate] and boolean assignments
    to [isAnimated] on any of its members, [numElemsAnimated] is the number
    of members whose [isAnimated] is true; and, for a group with at least
    one member, [isFinishedAnimating] is true exactly when
    [numElemsAnimated] is the member count. *)
Theorem aggregate_consistency (o : GroupOptions) (members : list ElemSpec)
    (id : string) (ops : list GroupOp) (dom : list DomWrite) :
  forallb assignsBoolean ops = true ->
  let g := fst (applyOps ops (new_ElemGroup o members id, dom)) in
  countConsistent g /\ (members <> [] -> finishedConsistent g).
Proof.
  intros Hb g.
  destruct (applyOps_inv ops (new_ElemGroup o members id, dom) Hb
              (new_ElemGroup_inv o members id)) as [[Hc Hf] Hlen].
  split; [exact Hc|]. intros Hne. apply Hf.
  intros E. apply (f_equal length) in E. rewrite Hlen in E. simpl in E.
  rewrite length_map in E. destruct members; [contradiction|discriminate].
Qed.

Lemma aggregate_consistency_witness :
  let g := fst (applyOps [OpAnimate 0; OpAnimate 2; OpDeAnimate 0; OpSetIsAnimated 1 (JBool true)]
                  (sampleGroup, [])) in
  countConsistent g /\ finishedConsistent g /\ ElemGroup.numElemsAnimated g = 2.
Proof.
  pose proof (aggregate_consistency sampleOptions
                [sampleMember 0; sampleMember 1; sampleMember 2] "box"
                [OpAnimate 0; OpAnimate 2; OpDeAnimate 0; OpSetIsAnimated 1 (JBool true)]
                [] eq_refl) as [Hc Hf].
  intros g. split; [exact Hc|]. split; [apply Hf; discriminate | reflexivity].
Defined.

(** The finished flag of a group without members stays false although
    its count equals its member count; and an assignment of a value that
    is not a boolean counts a member twice. *)
Lemma aggregate_consistency_counterexample :
  (let g := fst (applyOps [] (emptyTextGroup, [])) in
   ~ (countConsistent g /\ finishedConsistent g))
  /\ (let g := fst (applyOps [OpSetIsAnimated 0 (JOther true);
                             OpSetIsAnimated 0 (JOther true)] (sampleGroup, [])) in
      ~ (countConsistent g /\ finishedConsistent g)).
Proof.
  split.
  - intros g [_ Hf]. unfold finishedConsistent in Hf. simpl in Hf.
    destruct Hf as [_ Hf]. specialize (Hf eq_refl). discriminate.
  - intros g [Hc _]. unfold countConsistent in Hc. vm_compute in Hc. discriminate.
Qed.

(** ** The polling visibility calculator (C3) *)

Lemma validThreshold_range (q : Q) : validThreshold q -> (0 <= q <= 1)%Q.
Proof.
  unfold validThreshold, thresholds. rewrite !Exists_cons, Exists_nil.
  intros [H|[H|[H|[H|[H|[]]]]]]; rewrite H; split; discriminate.
Qed.

Lemma pixelThreshold_le_height (g : ElemGroup.t) (e : Elem.t) (height : Q) :
  (0 <= Elem.threshold e <= 1)%Q -> (0 <= height)%Q ->
  (pixelThreshold g e height <= height)%Q.
Proof.
  intros [H0 H1] Hh. unfold pixelThreshold.
  destruct (Elem.isVisible e && negb (ElemGroup.animatesWithTransitions g));
    [exact Hh|].
  assert (Hm : (height * Elem.threshold e <= height)%Q) by nra.
  destruct (Qeq_bool (Elem.threshold e) 1); lra.
Qed.

(** C3, as the code has it.  After [calculateVisibility] the member holds
    the coordinates read and [isVisible] is
    [(top + pixelThreshold) < windowHeight && (bottom - pixelThreshold) > 0],
    nothing more; the pixel threshold is the member's fraction of its own
    height (one pixel less for the fraction 1), zero when the member is
    already visible and the group animates without transitions, and never
    more than the height. *)
Theorem calculateVisibility_spec (windowHeight : Q) (lay : Layout) (i : nat)
    (g : ElemGroup.t) (e : Elem.t) :
  ElemGroup.elems g !! i = Some e ->
  let r := lay (Elem.target e) in
  let pT := pixelThreshold g e (rect_height r) in
  let e' := Elem.with_isVisible
              (Qlt_bool (rect_top r + pT) windowHeight
               && Qlt_bool 0 (rect_bottom r - pT))
              (Elem.with_coords (Some (rect_top r)) (Some (rect_bottom r)) e) in
  ElemGroup.elems (calculateVisibility windowHeight lay i g) !! i = Some e'
  /\ (Elem.isVisible e' = true
      <-> (rect_top r + pT < windowHeight)%Q /\ (0 < rect_bottom r - pT)%Q)
  /\ pT = (if Elem.isVisible e && negb (ElemGroup.animatesWithTransitions g)
           then 0
           else rect_height r * Elem.threshold e
                - (if Qeq_bool (Elem.threshold e) 1 then 1 else 0))%Q
  /\ (validThreshold (Elem.threshold e) -> (0 <= rect_height r)%Q ->
      (pT <= rect_height r)%Q).
Proof.
  intros Hi r pT e'. pose proof (lookup_lt_Some _ _ _ Hi) as Hlt.
  split; [|split; [|split]].
  - unfold calculateVisibility. rewrite Hi. fold r. 
    set (e1 := Elem.with_coords (Some (rect_top r)) (Some (rect_bottom r)) e).
    set (g1 := ElemGroup.with_elems (<[i:=e1]> (ElemGroup.elems g)) g).
    assert (H1 : ElemGroup.elems g1 !! i = Some e1).
    { subst g1. destruct g; simpl in *. apply list_lookup_insert_eq, Hlt. }
    rewrite (set_isVisible_elems g1 i e1 H1).
    rewrite list_lookup_insert_eq.
    + reflexivity.
    + subst g1. destruct g; simpl in *. rewrite length_insert. exact Hlt.
  - subst e'. destruct e; simpl. rewrite andb_true_iff, !Qlt_bool_iff. reflexivity.
  - reflexivity.
  - intros Hv Hh. apply pixelThreshold_le_height; [apply validThreshold_range, Hv|exact Hh].
Qed.

Lemma calculateVisibility_spec_witness :
  exists e',
    ElemGroup.elems (calculateVisibility 500 tallLayout 0 tallGroup) !! 0%nat = Some e'
    /\ Elem.isVisible e' = false /\ Elem.top e' = Some 0%Q.
Proof.
  pose proof (calculateVisibility_spec 500 tallLayout 0 tallGroup
                (new_Elem (sampleMember 0) (ThrStr (Some (1#2)%Q))) eq_refl)
    as (H & _).
  eexists. split; [exact H|]. split; reflexivity.
Defined.

(** The member covers the viewport, and is not visible to the code: the
    clause "or the element fully spans the viewport" is not in
    [calculateVisibility].  Its threshold of one half is the one
    [correctThreshold] leaves for this geometry. *)
Lemma calculateVisibility_counterexample :
  let e := new_Elem (sampleMember 0) (ThrStr (Some (1#2)%Q)) in
  let r := tallLayout (Elem.target e) in
  ElemGroup.elems tallGroup !! 0%nat = Some e
  /\ correctThreshold 500 (rect_height r) e = e
  /\ (Elem.isVisible <$> ElemGroup.elems (calculateVisibility 500 tallLayout 0 tallGroup) !! 0%nat)
     = Some false
  /\ specVisibility 500 r (pixelThreshold tallGroup e (rect_height r)) = true.
Proof. vm_compute. repeat split. Qed.

(** ** One call of [correctThreshold] *)

Lemma validThreshold_nth (i : nat) : (i <= 4)%nat -> validThreshold (nth i thresholds 0%Q).
Proof.
  intros Hi. unfold validThreshold, thresholds.
  destruct i as [|[|[|[|[|i]]]]]; simpl; [| | | | |lia];
    rewrite !Exists_cons; auto 10 using Qeq_refl.
Qed.

Lemma convertThreshold_valid (o : ThresholdOpt) : validThreshold (convertThreshold o).
Proof.
  unfold convertThreshold.
  destruct (ThresholdOpt_number o) as [n|]; [|apply (validThreshold_nth 0); lia].
  unfold conversionTable, thresholds. simpl.
  repeat (match goal with
          | |- context [Qeq_bool ?a ?b] => destruct (Qeq_bool a b)
          end; simpl);
    unfold validThreshold, thresholds; rewrite !Exists_cons; auto 10 using Qeq_refl.
Qed.

Lemma new_Elem_thresholdInv (s : ElemSpec) (groupThreshold : ThresholdOpt) :
  thresholdInv (new_Elem s groupThreshold).
Proof.
  unfold thresholdInv, new_Elem. simpl.
  split; [apply convertThreshold_valid|]. split; [apply convertThreshold_valid|].
  apply Qle_refl.
Qed.

Lemma Qlt_bool_false_iff (x y : Q) : Qlt_bool x y = false <-> (y <= x)%Q.
Proof.
  unfold Qlt_bool. rewrite negb_false_iff. apply Qle_bool_iff.
Qed.

(** the loop stops on the largest threshold the window can show *)
Lemma nextSmallestIndex_spec (p : Q) :
  (0 <= p)%Q ->
  exists i, nextSmallestIndex p 4 = Some i /\ (i <= 4)%nat
            /\ (nth i thresholds 0 <= p)%Q
            /\ forall t, validThreshold t -> (t <= p)%Q -> (t <= nth i thresholds 0)%Q.
Proof.
  intros Hp. cbn [nextSmallestIndex nth thresholds].
  assert (Hall : forall b (t : Q), validThreshold t -> (t <= p)%Q ->
                   ((p < 1)%Q \/ (1 <= b)%Q) ->
                   ((p < 3#4)%Q \/ (3#4 <= b)%Q) ->
                   ((p < 1#2)%Q \/ (1#2 <= b)%Q) ->
                   ((p < 1#4)%Q \/ (1#4 <= b)%Q) ->
                   (0 <= b)%Q -> (t <= b)%Q).
  { intros b t Ht Htp H1 H2 H3 H4 H5. unfold validThreshold, thresholds in Ht.
    rewrite !Exists_cons, Exists_nil in Ht.
    destruct Ht as [E|[E|[E|[E|[E|[]]]]]]; rewrite E in *;
      [lra | destruct H4 | destruct H3 | destruct H2 | destruct H1]; lra. }
  destruct (Qlt_bool p 1) eqn:E4;
    [apply Qlt_bool_iff in E4
    | apply Qlt_bool_false_iff in E4; exists 4%nat; repeat split;
      [lia | exact E4 | intros t Ht Htp; apply (Hall 1%Q t Ht Htp); lra]].
  destruct (Qlt_bool p (3#4)) eqn:E3;
    [apply Qlt_bool_iff in E3
    | apply Qlt_bool_false_iff in E3; exists 3%nat; repeat split;
      [lia | exact E3 | intros t Ht Htp; apply (Hall (3#4)%Q t Ht Htp); lra]].
  destruct (Qlt_bool p (1#2)) eqn:E2;
    [apply Qlt_bool_iff in E2
    | apply Qlt_bool_false_iff in E2; exists 2%nat; repeat split;
      [lia | exact E2 | intros t Ht Htp; apply (Hall (1#2)%Q t Ht Htp); lra]].
  destruct (Qlt_bool p (1#4)) eqn:E1;
    [apply Qlt_bool_iff in E1
    | apply Qlt_bool_false_iff in E1; exists 1%nat; repeat split;
      [lia | exact E1 | intros t Ht Htp; apply (Hall (1#4)%Q t Ht Htp); lra]].
  destruct (Qlt_bool p 0) eqn:E0;
    [apply Qlt_bool_iff in E0; lra|].
  exists 0%nat. repeat split; [lia | exact Hp |].
  intros t Ht Htp. apply (Hall 0%Q t Ht Htp); lra.
Qed.

Lemma pixelThreshold_le_window (g : ElemGroup.t) (e : Elem.t) (h wh : Q) :
  (0 <= wh)%Q -> (0 < h)%Q -> (Elem.threshold e <= wh / h)%Q ->
  (pixelThreshold g e h <= wh)%Q.
Proof.
  intros Hwh Hh Ht. unfold pixelThreshold.
  destruct (Elem.isVisible e && negb (ElemGroup.animatesWithTransitions g));
    [exact Hwh|].
  assert (Hm : (h * Elem.threshold e <= wh)%Q).
  { rewrite <- (Qmult_div_r wh h) by lra.
    apply Qmult_le_l; assumption. }
  destruct (Qeq_bool (Elem.threshold e) 1); lra.
Qed.

(** One call of [correctThreshold] keeps the configured threshold as it
    is and leaves the member with one of the five thresholds, never above
    the configured one.  When the member is taller than the (non-negative)
    viewport height, the threshold it leaves is at most
    [windowHeight / height], it is the largest of the five thresholds that
    is at most that ratio and at most the configured one, and the pixel
    threshold [calculateVisibility] derives from it is at most the
    viewport height.  When the member is not taller than the viewport the
    configured threshold is back. *)
Lemma correctThreshold_spec (windowHeight height : Q) (g : ElemGroup.t) (e : Elem.t) :
  (0 <= windowHeight)%Q ->
  thresholdInv e ->
  let e' := correctThreshold windowHeight height e in
  Elem.originalThreshold e' = Elem.originalThreshold e
  /\ thresholdInv e'
  /\ ((windowHeight < height)%Q ->
      (Elem.threshold e' <= windowHeight / height)%Q
      /\ (forall t, validThreshold t -> (t <= windowHeight / height)%Q ->
                    (t <= Elem.originalThreshold e)%Q -> (t <= Elem.threshold e')%Q)
      /\ (pixelThreshold g e' height <= windowHeight)%Q)
  /\ ((height <= windowHeight)%Q ->
      Elem.threshold e' == Elem.originalThreshold e).
Proof.
  intros Hwh (Hvo & Hvt & Hle) e'.
  pose proof (validThreshold_range _ Hvo) as [Ho0 Ho1].
  pose proof (validThreshold_range _ Hvt) as [Ht0 Ht1].
  assert (Hratio : (windowHeight < height)%Q -> (0 < height)%Q /\ (0 <= windowHeight / height)%Q).
  { intros Hlt. assert (Hh : (0 < height)%Q) by lra. split; [exact Hh|].
    apply Qle_shift_div_l; [exact Hh | lra]. }
  subst e'. unfold correctThreshold.
  destruct (Qeq_bool 0 (Elem.originalThreshold e)) eqn:Ez.
  { (* nothing to correct *)
    apply Qeq_bool_iff in Ez.
    assert (Hth : Elem.threshold e == 0) by lra.
    split; [reflexivity|]. split; [repeat split; assumption|]. split.
    - intros Hlt. destruct (Hratio Hlt) as [Hh Hp]. split; [lra|]. split.
      + intros t _ _ Hto. lra.
      + apply pixelThreshold_le_window; [assumption|assumption|lra].
    - intros _. lra. }
  destruct (Qlt_bool windowHeight height) eqn:Elt.
  - apply Qlt_bool_iff in Elt. destruct (Hratio Elt) as [Hh Hp].
    change (length thresholds - 1)%nat with 4%nat.
    destruct (nextSmallestIndex_spec _ Hp) as (i & -> & Hi & Hip & Hmax).
    pose proof (validThreshold_nth i Hi) as Hvi.
    set (t := nth i thresholds 0%Q) in *.
    destruct (Qle_bool t (Elem.originalThreshold e)) eqn:Eto.
    + apply Qle_bool_iff in Eto. destruct e; simpl in *.
      split; [reflexivity|]. split; [repeat split; assumption|]. split.
      * intros _. split; [exact Hip|]. split.
        -- intros t0 Hv0 H0p _. apply Hmax; assumption.
        -- apply pixelThreshold_le_window; simpl; assumption.
      * intros Hge. lra.
    + assert (Hot : (Elem.originalThreshold e < t)%Q).
      { apply Qnot_le_lt. intros H. apply Qle_bool_iff in H. congruence. }
      destruct e; simpl in *.
      split; [reflexivity|]. split; [repeat split; [assumption|assumption|simpl; lra]|]. split.
      * intros _. split; [lra|]. split.
        -- intros t0 _ _ H0o. exact H0o.
        -- apply pixelThreshold_le_window; simpl; [assumption|assumption|lra].
      * intros Hge. lra.
  - apply Qlt_bool_false_iff in Elt. destruct e; simpl in *.
    split; [reflexivity|]. split; [repeat split; [assumption|assumption|simpl; lra]|]. split.
    + intros Hlt. lra.
    + intros _. lra.
Qed.

(** a member that asks to be wholly in view, 700 high, in a viewport of
    500 and then of 800 *)
Lemma correctThreshold_strictMember :
  let e' := correctThreshold 500 700 strictMember in
  Elem.threshold e' = (1#2)%Q
  /\ (Elem.threshold e' <= 500 / 700)%Q
  /\ Elem.threshold (correctThreshold 800 700 e') == 1.
Proof.
  assert (H0 : (0 <= 500)%Q) by discriminate.
  assert (H1 : (0 <= 800)%Q) by discriminate.
  pose proof (correctThreshold_spec 500 700 sampleGroup strictMember H0
                (new_Elem_thresholdInv (sampleMember 7) ThrTrue))
    as (_ & Hinv & Htall & _).
  pose proof (correctThreshold_spec 800 700 sampleGroup _ H1 Hinv) as (_ & _ & _ & Hback).
  intros e'. split; [reflexivity|]. split.
  - apply Htall. reflexivity.
  - apply Hback. discriminate.
Qed.

(** ** Staggered delays (C2) *)

Lemma sameDecision_ready g g' e :
  sameDecision g g' -> isReadyToAnimate g' e = isReadyToAnimate g e.
Proof.
  intros (H1 & H2 & H3 & H4 & _). unfold isReadyToAnimate.
  rewrite H1, H2, H3, H4. reflexivity.
Qed.

Lemma sameDecision_refl g : sameDecision g g.
Proof. repeat split. Qed.

Lemma sameDecision_trans g1 g2 g3 :
  sameDecision g1 g2 -> sameDecision g2 g3 -> sameDecision g1 g3.
Proof.
  unfold sameDecision. intros (A1&A2&A3&A4&A5&A6&A7) (B1&B2&B3&B4&B5&B6&B7).
  repeat split; congruence.
Qed.

Lemma set_isAnimated_sameDecision v i g : sameDecision g (set_isAnimated v i g).
Proof.
  unfold set_isAnimated. destruct (ElemGroup.elems g !! i) as [e|]; [|apply sameDecision_refl].
  destruct (strict_neq_bool v (Elem.isAnimated e)); destruct g; repeat split.
Qed.

Lemma updateNextStaggeredDelay_sameDecision g : sameDecision g (updateNextStaggeredDelay g).
Proof.
  unfold updateNextStaggeredDelay.
  destruct g as [? ? dm ? [d|] ? ? ? ? ? ? ? ? ? ? ? ? ? ? ? ? ?]; simpl.
  - destruct (d =? 0); repeat split.
  - destruct (dm =? 0); repeat split.
Qed.








Section Stagger.
Variables (wh : Q) (g : ElemGroup.t) (dom : list DomWrite).
Hypothesis HM : ElemGroup.delayMultiplier g <> 0.
Hypothesis Hnull : ElemGroup.nextStaggeredDelay g = None.
Hypothesis Huniq : Forall (fun e => Elem.uniqueDelay e = None) (ElemGroup.elems g).


End Stagger.

Lemma updateMutableProps_nextStaggeredDelay g :
  ElemGroup.nextStaggeredDelay (updateMutableProps g) = None.
Proof.
  unfold updateMutableProps. destruct g; simpl.
  destruct (_ =? 0); reflexivity.
Qed.



(** ** Bootstrap: listener wiring and group ids (C8, C7, C9) *)

(** C8, at the inputs where the code departs from it.  A listener mapping
    whose only key is "run", or "iteration", is translated to the empty
    mapping: no "transitionrun" and no "animationiteration" entry is
    produced; in a mapping that also has "start" and "end" only these two
    are translated, prefixed by "transition" or "animation" after the
    group's transitions flag, with their style strings unchanged. *)
Theorem getEventStyles_run_iteration_dropped (g : ElemGroup.t) (s1 s2 s3 s4 : string) :
  getEventStyles [("run", s2)] g = Some []
  /\ getEventStyles [("iteration", s3)] g = Some []
  /\ getEventStyles [("start", s1); ("run", s2); ("iteration", s3); ("end", s4)] g
     = Some (if ElemGroup.animatesWithTransitions g
             then [("transitionstart", s1); ("transitionend", s4)]
             else [("animationstart", s1); ("animationend", s4)]).
Proof.
  unfold getEventStyles. simpl.
  destruct (ElemGroup.animatesWithTransitions g); repeat split; reflexivity.
Qed.

(** C7, at an input where the code departs from it.  For first elements
    whose leading classes are "a", "a2", "a", the third group repeats the
    name "a" and is given the suffix of its index, 2: its id "a2" is the id
    the second group already has, so the ids of the tracked groups are not
    distinct. *)
Theorem groupId_collision (parseJSON : string -> option JSObject)
    (parseCharDelays : string -> option (list CharDelay)) :
  let ids := map ElemGroup.groupId
               (page_groups (readyElementsForAnimation parseJSON parseCharDelays
                               collidingFirstElems)) in
  ids = ["a"; "a2"; "a2"] /\ ~ NoDup ids.
Proof.
  assert (H : map ElemGroup.groupId
               (page_groups (readyElementsForAnimation parseJSON parseCharDelays
                               collidingFirstElems)) = ["a"; "a2"; "a2"]).
  { vm_compute. reflexivity. }
  intros ids. subst ids. rewrite H. split; [reflexivity|].
  intros Hnd. apply NoDup_cons in Hnd as [_ Hnd]. apply NoDup_cons in Hnd as [Hin _].
  apply Hin. constructor.
Qed.

(** An empty listener attribute is no listener specification:
    [addListeners] returns before it parses. *)
Lemma addListeners_empty_spec (parseJSON : string -> option JSObject) (g : ElemGroup.t) :
  ElemGroup.listen g = Some "" -> addListeners parseJSON g = ([], []).
Proof. intros H. unfold addListeners. rewrite H. reflexivity. Qed.

Section MalformedListen.
Variable parseJSON : string -> option JSObject.
Variable parseCharDelays : string -> option (list CharDelay).

Lemma addListeners_malformed (g : ElemGroup.t) (spec : string) :
  ElemGroup.listen g = Some spec -> spec <> "" -> parseJSON spec = None ->
  addListeners parseJSON g = ([], listenDiagnostic (ElemGroup.groupId g)).
Proof.
  intros Hl Hne Hp. unfold addListeners. rewrite Hl.
  destruct (String.eqb_spec spec ""); [contradiction|]. rewrite Hp. reflexivity.
Qed.

Lemma addListeners_none (g : ElemGroup.t) :
  ElemGroup.listen g = None -> addListeners parseJSON g = ([], []).
Proof. intros Hl. unfold addListeners. rewrite Hl. reflexivity. Qed.

Lemma new_ElemGroup_withListen l o members id :
  new_ElemGroup (withListenOption l o) members id
  = ElemGroup.with_listen l (new_ElemGroup o members id).
Proof. destruct o. reflexivity. Qed.

Lemma updateCharUniqueDelays_with_listen l fe g :
  updateCharUniqueDelays parseCharDelays (withListen l fe) (ElemGroup.with_listen l g)
  = (ElemGroup.with_listen l (fst (updateCharUniqueDelays parseCharDelays fe g)),
     snd (updateCharUniqueDelays parseCharDelays fe g)).
Proof.
  unfold updateCharUniqueDelays, withListen. simpl.
  destruct (fe_charDelays fe) as [spec|]; [|reflexivity].
  destruct (String.eqb spec ""); [reflexivity|].
  destruct (parseCharDelays spec) as [delays|]; [|reflexivity].
  replace (ElemGroup.elems (ElemGroup.with_listen l g)) with (ElemGroup.elems g)
    by (destruct g; reflexivity).
  destruct (setCharDelays delays (ElemGroup.elems g)) as [elems ok].
  destruct g; reflexivity.
Qed.

Lemma reverseElems_with_listen l g :
  reverseElems (ElemGroup.with_listen l g) = ElemGroup.with_listen l (reverseElems g).
Proof. destruct g; reflexivity. Qed.

(** the group built from a first element whose listener attribute
    does not parse, against the group built without the attribute *)
Lemma readyGroup_malformed id fe spec :
  ecaListen (fe_options fe) = Some spec -> spec <> "" -> parseJSON spec = None ->
  let r := readyGroup parseJSON parseCharDelays id fe in
  let r0 := readyGroup parseJSON parseCharDelays id (withListen None fe) in
  fst (fst r) = ElemGroup.with_listen (Some spec) (fst (fst r0))
  /\ ElemGroup.groupId (fst (fst r0)) = id
  /\ snd (fst r) = [] /\ snd (fst r0) = []
  /\ snd r = snd r0 ++ listenDiagnostic id.
Proof.
  intros Hl Hne Hp.
  assert (Hfe : fe = withListen (Some spec) (withListen None fe)).
  { destruct fe as [c t o m d]. destruct o. simpl in Hl. subst. reflexivity. }
  set (fe0 := withListen None fe) in *.
  intros r r0. subst r r0. rewrite Hfe. clear Hfe.
  unfold readyGroup.
  change (fe_options (withListen (Some spec) fe0))
    with (withListenOption (Some spec) (fe_options fe0)).
  change (fe_members (withListen (Some spec) fe0)) with (fe_members fe0).
  change (fe_isText (withListen (Some spec) fe0)) with (fe_isText fe0).
  rewrite new_ElemGroup_withListen.
  set (g00 := new_ElemGroup (fe_options fe0) (fe_members fe0) id).
  assert (Hl0 : ElemGroup.listen g00 = None).
  { subst g00 fe0. destruct fe as [c t o m d]. destruct o. reflexivity. }
  assert (Hid0 : ElemGroup.groupId g00 = id) by reflexivity.
  clearbody g00.
  set (r1 := if fe_isText fe0 then updateCharUniqueDelays parseCharDelays fe0 g00
             else (g00, [])).
  assert (Hr1 : (if fe_isText fe0
                 then updateCharUniqueDelays parseCharDelays (withListen (Some spec) fe0)
                        (ElemGroup.with_listen (Some spec) g00)
                 else (ElemGroup.with_listen (Some spec) g00, []))
                = (ElemGroup.with_listen (Some spec) (fst r1), snd r1)).
  { subst r1. destruct (fe_isText fe0); [|reflexivity].
    apply updateCharUniqueDelays_with_listen. }
  rewrite Hr1. simpl fst. simpl snd.
  assert (Hg1 : ElemGroup.listen (fst r1) = None /\ ElemGroup.groupId (fst r1) = id).
  { subst r1. destruct (fe_isText fe0); [|auto].
    unfold updateCharUniqueDelays.
    destruct (fe_charDelays fe0) as [sp|]; [|auto].
    destruct (String.eqb sp ""); [auto|].
    destruct (parseCharDelays sp) as [delays|]; [|auto].
    destruct (setCharDelays delays (ElemGroup.elems g00)) as [el ok].
    destruct g00; auto. }
  destruct Hg1 as [Hg1 Hid1]. clearbody r1. destruct r1 as [g1 errs1]. simpl in *.
  rewrite (addListeners_none g1 Hg1).
  rewrite (addListeners_malformed (ElemGroup.with_listen (Some spec) g1) spec)
    by (try assumption; destruct g1; reflexivity).
  replace (ElemGroup.playsReversed (ElemGroup.with_listen (Some spec) g1))
    with (ElemGroup.playsReversed g1) by (destruct g1; reflexivity).
  replace (ElemGroup.groupId (ElemGroup.with_listen (Some spec) g1))
    with id by (destruct g1; simpl in *; congruence).
  simpl. rewrite app_nil_r.
  destruct (ElemGroup.playsReversed g1).
  - rewrite reverseElems_with_listen. repeat split.
    destruct g1; exact Hid1.
  - repeat split. exact Hid1.
Qed.

Lemma readyOne_differByListen i spec acc acc0 ife :
  differByListen i spec acc acc0 ->
  differByListen i spec (readyOne parseJSON parseCharDelays acc ife)
    (readyOne parseJSON parseCharDelays acc0 ife).
Proof.
  destruct acc as [used page], acc0 as [used0 page0], ife as [j fe].
  intros (Hu & (g0 & Hg0 & Hgs & before & after & Hc0 & Hc) & Hls).
  simpl in Hu, Hg0, Hgs, Hc0, Hc, Hls. subst used0.
  unfold readyOne.
  destruct (readyGroup parseJSON parseCharDelays (chooseGroupId used j fe) fe)
    as [[g ls] errs].
  pose proof (lookup_lt_Some _ _ _ Hg0) as Hlt.
  assert (Hlen : length (page_groups page) = length (page_groups page0)).
  { rewrite Hgs. apply length_insert. }
  split; [simpl; rewrite Hlen; reflexivity|]. split.
  - exists g0. simpl. split; [apply lookup_app_l_Some, Hg0|]. split.
    + rewrite Hgs. symmetry. apply insert_app_l, Hlt.
    + exists before, (after ++ errs). rewrite Hc0, Hc, <- !app_assoc. auto.
  - simpl. rewrite Hls. reflexivity.
Qed.

Lemma fold_readyOne_differByListen i spec pairs acc acc0 :
  differByListen i spec acc acc0 ->
  differByListen i spec (fold_left (readyOne parseJSON parseCharDelays) pairs acc)
    (fold_left (readyOne parseJSON parseCharDelays) pairs acc0).
Proof.
  revert acc acc0. induction pairs as [|p pairs IH]; intros acc acc0 H; simpl.
  - exact H.
  - apply IH, readyOne_differByListen, H.
Qed.

Lemma fold_readyOne_groups_length pairs acc :
  length (page_groups (snd (fold_left (readyOne parseJSON parseCharDelays) pairs acc)))
  = (length (page_groups (snd acc)) + length pairs)%nat.
Proof.
  revert acc. induction pairs as [|[j fe] pairs IH]; intros [used page].
  - simpl. lia.
  - cbn [fold_left]. rewrite IH. unfold readyOne.
    destruct (readyGroup parseJSON parseCharDelays (chooseGroupId used j fe) fe)
      as [[g ls] errs].
    cbn [snd page_groups]. rewrite length_app. simpl. lia.
Qed.

(** C9, as the code has it.  When the listener attribute of a first
    element is a non-empty string that [JSON.parse] rejects, bootstrap
    returns as it does without the attribute, with the same listeners
    (none for this group) and the same groups in the same order, the
    group of that element being built with exactly the state it has
    without the attribute (the raw attribute apart); the console holds,
    in addition, the caught error and a line naming the group id. *)
Theorem malformed_listen_isolated (before after : list FirstElem) (fe : FirstElem)
    (spec : string) :
  ecaListen (fe_options fe) = Some spec ->
  spec <> "" ->
  parseJSON spec = None ->
  let page := readyElementsForAnimation parseJSON parseCharDelays
                (before ++ fe :: after) in
  let page0 := readyElementsForAnimation parseJSON parseCharDelays
                 (before ++ withListen None fe :: after) in
  exists g0,
    page_groups page0 !! length before = Some g0
    /\ page_groups page
       = <[length before := ElemGroup.with_listen (Some spec) g0]> (page_groups page0)
    /\ page_listeners page = page_listeners page0
    /\ exists logged logged',
         page_console page0 = logged ++ logged'
         /\ page_console page
            = logged ++ listenDiagnostic (ElemGroup.groupId g0) ++ logged'.
Proof.
  intros Hl Hne Hp page page0. subst page page0.
  unfold readyElementsForAnimation.
  rewrite !imap_app, !fold_left_app. simpl imap. simpl fold_left.
  set (acc := fold_left (readyOne parseJSON parseCharDelays)
                (imap (fun i fe => (i, fe)) before) (∅, mkPage [] [] [])).
  assert (Hlen : length (page_groups (snd acc)) = length before).
  { subst acc. rewrite fold_readyOne_groups_length. simpl. apply length_imap. }
  rewrite Nat.add_0_r.
  assert (Hstep : differByListen (length before) spec
            (readyOne parseJSON parseCharDelays acc (length before, fe))
            (readyOne parseJSON parseCharDelays acc (length before, withListen None fe))).
  { clearbody acc. destruct acc as [used page]. simpl in Hlen.
    unfold readyOne.
    replace (chooseGroupId used (length before) (withListen None fe))
      with (chooseGroupId used (length before) fe) by reflexivity.
    pose proof (readyGroup_malformed (chooseGroupId used (length before) fe) fe spec
                  Hl Hne Hp) as H. cbv zeta in H.
    destruct (readyGroup parseJSON parseCharDelays _ fe) as [[g ls] errs].
    destruct (readyGroup parseJSON parseCharDelays _ (withListen None fe))
      as [[g0 ls0] errs0].
    simpl in H. destruct H as (-> & Hid & -> & -> & ->).
    split; [reflexivity|]. split.
    - exists g0. simpl. split.
      + rewrite lookup_app_r by lia. rewrite Hlen, Nat.sub_diag. reflexivity.
      + split.
        * rewrite <- Hlen. rewrite insert_app_r_alt by lia.
          rewrite Nat.sub_diag. reflexivity.
        * exists (page_console page ++ errs0), []. rewrite !app_nil_r, Hid.
          rewrite <- app_assoc. auto.
    - reflexivity. }
  pose proof (fold_readyOne_differByListen (length before) spec
                (imap (fun n => (fun i fe => (i, fe)) (length before + S n)%nat) after)
                _ _ Hstep)
    as (_ & (g0 & Hg0 & Hgs & logged & logged' & Hc0 & Hc) & Hls).
  exists g0. split; [exact Hg0|]. split; [exact Hgs|]. split; [exact Hls|].
  exists logged, logged'. auto.
Qed.
End MalformedListen.

(** The empty string is not valid JSON either, and for it nothing is
    logged: the group is built and the listener attribute is passed over
    in silence. *)
Lemma malformed_listen_counterexample :
  let fe := withListen (Some "") (plainFirstElem "card" [sampleMember 0]) in
  let page := readyElementsForAnimation rejectAll rejectAll [fe] in
  rejectAll (A := JSObject) "" = None
  /\ map ElemGroup.listen (page_groups page) = [Some ""]
  /\ page_listeners page = []
  /\ page_console page = [].
Proof. vm_compute. repeat split. Qed.

Lemma malformed_listen_isolated_witness :
  let page := readyElementsForAnimation rejectAll rejectAll
                ([plainFirstElem "box" [sampleMember 5]]
                 ++ brokenListenFirstElem :: [plainFirstElem "box" [sampleMember 6]]) in
  map ElemGroup.groupId (page_groups page) = ["box"; "card"; "box2"]
  /\ page_listeners page = []
  /\ page_console page = listenDiagnostic "card".
Proof.
  assert (Hne : "{start: color}" <> "") by discriminate.
  destruct (malformed_listen_isolated rejectAll rejectAll
              [plainFirstElem "box" [sampleMember 5]]
              [plainFirstElem "box" [sampleMember 6]]
              brokenListenFirstElem "{start: color}" eq_refl Hne eq_refl)
    as (g0 & Hg0 & Hgs & Hls & logged & logged' & Hc0 & Hc).
  intros page. subst page. rewrite Hgs, Hls, Hc.
  vm_compute in Hg0. injection Hg0 as <-.
  vm_compute in Hc0. destruct logged; [|discriminate]. simpl in Hc0. subst logged'.
  vm_compute. auto.
Defined.

(** ** The scheduler (C5) *)

Lemma sameScheduling_refl w : sameScheduling w w.
Proof. repeat split. Qed.

Lemma sameScheduling_trans w1 w2 w3 :
  sameScheduling w1 w2 -> sameScheduling w2 w3 -> sameScheduling w1 w3.
Proof.
  unfold sameScheduling. intros (A1&A2&A3&A4&A5&A6) (B1&B2&B3&B4&B5&B6).
  repeat split; congruence.
Qed.

Lemma with_group_sameScheduling gi g w : sameScheduling w (World.with_group gi g w).
Proof.
  unfold World.with_group. destruct w; repeat split. simpl. apply length_insert.
Qed.

Lemma delayGroup_sameScheduling gi w : sameScheduling w (delayGroup gi w).
Proof.
  unfold delayGroup. destruct (World.elemGroups w !! gi) as [g|]; [|apply sameScheduling_refl].
  destruct w; repeat split. simpl. apply length_insert.
Qed.

Lemma updateOne_sameScheduling gi w : sameScheduling w (updateOne gi w).
Proof.
  unfold updateOne. destruct (World.elemGroups w !! gi) as [g|]; [|apply sameScheduling_refl].
  destruct (_ && _); [apply delayGroup_sameScheduling|].
  destruct w; repeat split. simpl. apply length_insert.
Qed.

Lemma fold_sameScheduling {A} (f : World.t -> A -> World.t) (l : list A) w :
  (forall w a, sameScheduling w (f w a)) -> sameScheduling w (fold_left f l w).
Proof.
  intros Hf. revert w. induction l as [|a l IH]; intros w; simpl.
  - apply sameScheduling_refl.
  - eapply sameScheduling_trans; [apply Hf | apply IH].
Qed.

Lemma updateAll_sameScheduling w : sameScheduling w (updateAll w).
Proof.
  unfold updateAll. apply fold_sameScheduling. intros w' gi.
  destruct (World.elemGroups w' !! gi) as [g|]; [|apply sameScheduling_refl].
  destruct (isProcessed g); [apply updateOne_sameScheduling | apply sameScheduling_refl].
Qed.

Lemma updateEntries_sameScheduling subs w : sameScheduling w (updateEntries subs w).
Proof.
  unfold updateEntries. apply fold_sameScheduling. intros w' [gi entries].
  destruct (World.elemGroups w' !! gi) as [g|]; [|apply sameScheduling_refl].
  destruct (ElemGroup.isDelaying g); [apply sameScheduling_refl|].
  destruct (_ && _); [apply delayGroup_sameScheduling|].
  destruct w'; repeat split. simpl. apply length_insert.
Qed.

Lemma runUpdateCb_sameScheduling cb w : sameScheduling w (runUpdateCb cb w).
Proof.
  destruct cb as [|[|p subs]]; unfold runUpdateCb.
  - apply updateAll_sameScheduling.
  - apply sameScheduling_refl.
  - apply updateEntries_sameScheduling.
Qed.

Lemma readAll_sameScheduling w : sameScheduling w (readAll w).
Proof. unfold readAll. destruct w; repeat split. simpl. apply length_map. Qed.

(** a frame empties the queue and releases the lock, if one was held by
    a cycle of the queue *)
Lemma runFrame_cbs (cbs : list FrameCb) (w : World.t) :
  let w' := fold_left (fun w cb => runFrameCb cb w) cbs w in
  World.frameCallbacks w' = World.frameCallbacks w
  /\ World.updating w' = (if existsb isFrameCycle cbs then false else World.updating w).
Proof.
  revert w. induction cbs as [|cb cbs IH]; intros w; simpl.
  - auto.
  - destruct (IH (runFrameCb cb w)) as [Hq Hu]. rewrite Hq, Hu.
    destruct cb as [u|gi]; simpl.
    + destruct (runUpdateCb_sameScheduling u w) as (_ & Hq' & _).
      split; [destruct (runUpdateCb u w); exact Hq'|].
      destruct (existsb isFrameCycle cbs); [reflexivity|].
      destruct (runUpdateCb u w); reflexivity.
    + destruct (updateOne_sameScheduling gi w) as (Hu' & Hq' & _).
      rewrite Hq', Hu'. auto.
Qed.

Lemma runFrame_released (w : World.t) :
  World.updating w = inFlight w ->
  World.frameCallbacks (runFrame w) = [] /\ World.updating (runFrame w) = false.
Proof.
  intros Hinv. unfold runFrame.
  destruct (runFrame_cbs (World.frameCallbacks w) (World.with_frameCallbacks [] w))
    as [Hq Hu].
  rewrite Hq, Hu. split; [destruct w; reflexivity|].
  fold (inFlight w). rewrite <- Hinv. destruct w as [? ? ? [|] ? ? ? ? ? ? ?]; reflexivity.
Qed.

Lemma requestAnimationUpdate_lock (readCb : World.t -> World.t) (u : UpdateCb) w :
  sameScheduling (World.with_updating true w) (readCb (World.with_updating true w)) ->
  World.updating w = inFlight w ->
  World.updating (requestAnimationUpdate readCb u w)
  = inFlight (requestAnimationUpdate readCb u w).
Proof.
  intros Hread Hinv. unfold requestAnimationUpdate.
  destruct (World.updating w) eqn:Hu; simpl; [congruence|].
  destruct Hread as (Hu' & Hq' & _).
  unfold inFlight, requestAnimationFrame.
  destruct (readCb (World.with_updating true w)) eqn:E. simpl in *.
  rewrite existsb_app. simpl. rewrite orb_true_r. 
  destruct w; simpl in *. exact Hu'.
Qed.

Lemma delayElapsed_lock gi w :
  World.updating (delayElapsed gi w) = World.updating w
  /\ inFlight (delayElapsed gi w) = inFlight w.
Proof.
  unfold delayElapsed. destruct (World.elemGroups w !! gi) as [g|]; [|auto].
  unfold inFlight, requestAnimationFrame. destruct w; simpl.
  rewrite existsb_app. simpl. rewrite orb_false_r. auto.
Qed.

(** the lock is held exactly while a cycle waits for its frame *)
Lemma step_lock ev w :
  World.updating w = inFlight w ->
  World.updating (step ev w) = inFlight (step ev w).
Proof.
  intros Hinv. destruct ev as [lay|ch lay|id|]; simpl.
  - assert (H : World.updating (World.with_layout lay w)
                = inFlight (World.with_layout lay w)) by (destruct w; exact Hinv).
    destruct (World.useScroll w); [|exact H].
    apply requestAnimationUpdate_lock; [apply readAll_sameScheduling | exact H].
  - unfold ecaHandleResize.
    match goal with |- context [if World.useScroll ?x then _ else _] => set (w2 := x) end.
    assert (H : World.updating w2 = inFlight w2) by (destruct w; exact Hinv).
    destruct (World.useScroll w2); [|exact H].
    apply requestAnimationUpdate_lock; [apply readAll_sameScheduling | exact H].
  - unfold fireTimer. destruct (find _ _) as [t|]; [|exact Hinv].
    destruct (delayElapsed_lock (timer_group t)
                (World.with_timers (filter (fun t0 => timer_id t0 <> id) (World.timers w))
                   (World.nextTimerId w) w)) as [-> ->].
    destruct w; exact Hinv.
  - destruct (runFrame_released w Hinv) as [Hq Hu].
    rewrite Hu. unfold inFlight. rewrite Hq. reflexivity.
Qed.

Lemma reachable_lock w : reachable w -> World.updating w = inFlight w.
Proof.
  intros (groups & ch & us & lay & evs & ->).
  assert (H0 : World.updating (loadedWorld groups ch us lay)
               = inFlight (loadedWorld groups ch us lay)).
  { unfold loadedWorld, runInitialAnimations. simpl.
    destruct us; [|reflexivity].
    apply requestAnimationUpdate_lock; [apply readAll_sameScheduling | reflexivity]. }
  revert H0. generalize (loadedWorld groups ch us lay).
  induction evs as [|ev evs IH]; intros w H; simpl; [exact H|].
  apply IH, step_lock, H.
Qed.

Lemma reachable_step ev w : reachable w -> reachable (step ev w).
Proof.
  intros (groups & ch & us & lay & evs & ->).
  exists groups, ch, us, lay, (evs ++ [ev]). unfold run. rewrite fold_left_app. reflexivity.
Qed.

Lemma runFrame_single_cycle (u : UpdateCb) (w : World.t) :
  World.frameCallbacks w = [] ->
  runFrame (requestAnimationFrame (FrameCycle u) w)
  = World.with_updating false (runUpdateCb u w).
Proof.
  intros Hq. unfold runFrame, requestAnimationFrame.
  destruct w; simpl in *. subst. reflexivity.
Qed.

(** C5. On a page reached from its load by scroll, resize, timer and
    frame events, [requestAnimationUpdate], whatever callbacks it is
    given, leaves the page exactly as it is while a cycle is in flight
    (registered, its write phase not yet run): nothing is read, nothing is
    updated, nothing is registered.  A frame runs the write phase and
    leaves no cycle in flight; an invocation that finds no cycle in flight
    takes the lock, runs its read callback at once and registers its
    update callback, which the next frame runs before releasing the
    lock. *)
Theorem requestAnimationUpdate_single_flight (w : World.t)
    (readCb : World.t -> World.t) (updateCb : UpdateCb) :
  reachable w ->
  (inFlight w = true -> requestAnimationUpdate readCb updateCb w = w)
  /\ (inFlight w = false ->
      requestAnimationUpdate readCb updateCb w
      = requestAnimationFrame (FrameCycle updateCb)
          (readCb (World.with_updating true w)))
  /\ (let w' := step EvFrame w in
      inFlight w' = false
      /\ ((forall x, sameScheduling x (readCb x)) ->
          step EvFrame (requestAnimationUpdate readCb updateCb w')
          = World.with_updating false
              (runUpdateCb updateCb (readCb (World.with_updating true w'))))).
Proof.
  intros Hr. pose proof (reachable_lock w Hr) as Hinv.
  assert (Hfresh : forall x, World.updating x = inFlight x -> inFlight x = false ->
            requestAnimationUpdate readCb updateCb x
            = requestAnimationFrame (FrameCycle updateCb)
                (readCb (World.with_updating true x))).
  { intros x Hx Hf. unfold requestAnimationUpdate. rewrite Hx, Hf. reflexivity. }
  split; [|split].
  - intros Hf. unfold requestAnimationUpdate. rewrite Hinv, Hf. reflexivity.
  - apply Hfresh, Hinv.
  - intros w'. destruct (runFrame_released w Hinv) as [Hq Hu].
    assert (Hf' : inFlight w' = false).
    { subst w'. unfold inFlight. simpl. rewrite Hq. reflexivity. }
    split; [exact Hf'|]. intros Hread.
    rewrite Hfresh by (try assumption; rewrite Hf'; exact Hu).
    simpl. apply runFrame_single_cycle.
    destruct (Hread (World.with_updating true w')) as (_ & -> & _).
    subst w'. simpl. destruct (runFrame w); simpl in *. exact Hq.
Qed.

Lemma requestAnimationUpdate_single_flight_witness :
  inFlight sampleWorld = true
  /\ requestAnimationUpdate readAll UpdateAllCb sampleWorld = sampleWorld
  /\ inFlight (step EvFrame sampleWorld) = false.
Proof.
  assert (Hr : reachable sampleWorld).
  { exists [sampleGroup], 500%Q, true, (fun _ => mkRect 100 200 100), []. reflexivity. }
  destruct (requestAnimationUpdate_single_flight sampleWorld readAll UpdateAllCb Hr)
    as (Hdrop & _ & Hframe & _).
  split; [reflexivity|]. split; [apply Hdrop; reflexivity | exact Hframe].
Defined.

(** ** Group delay gating (C4) *)

(** *** What [readOne] derives *)

Lemma set_isVisible_transitions v i g :
  ElemGroup.animatesWithTransitions (set_isVisible v i g)
  = ElemGroup.animatesWithTransitions g.
Proof.
  unfold set_isVisible. destruct (ElemGroup.elems g !! i) as [e|]; [|reflexivity].
  destruct (strict_neq_bool v (Elem.isVisible e)); destruct g; reflexivity.
Qed.

Lemma pixelThreshold_transitions g g' e h :
  ElemGroup.animatesWithTransitions g' = ElemGroup.animatesWithTransitions g ->
  pixelThreshold g' e h = pixelThreshold g e h.
Proof. intros H. unfold pixelThreshold. rewrite H. reflexivity. Qed.

Lemma calculateVisibility_elems wh lay i g e :
  ElemGroup.elems g !! i = Some e ->
  ElemGroup.elems (calculateVisibility wh lay i g)
  = <[i := derivedElem wh lay g e]> (ElemGroup.elems g)
  /\ ElemGroup.animatesWithTransitions (calculateVisibility wh lay i g)
     = ElemGroup.animatesWithTransitions g.
Proof.
  intros Hi. pose proof (lookup_lt_Some _ _ _ Hi) as Hlt.
  unfold calculateVisibility. rewrite Hi.
  set (r := lay (Elem.target e)).
  set (e1 := Elem.with_coords (Some (rect_top r)) (Some (rect_bottom r)) e).
  set (g1 := ElemGroup.with_elems (<[i:=e1]> (ElemGroup.elems g)) g).
  assert (H1 : ElemGroup.elems g1 !! i = Some e1).
  { subst g1. destruct g; simpl in *. apply list_lookup_insert_eq, Hlt. }
  split.
  - rewrite (set_isVisible_elems g1 i e1 H1). subst g1. destruct g; simpl.
    rewrite list_insert_insert_eq. reflexivity.
  - rewrite set_isVisible_transitions. subst g1. destruct g; reflexivity.
Qed.

Lemma readOne_prefix wh lay g (i : nat) :
  (i <= length (ElemGroup.elems g))%nat ->
  let g' := fold_left (fun acc j => calculateVisibility wh lay j acc) (seq 0 i) g in
  ElemGroup.elems g'
  = map (derivedElem wh lay g) (take i (ElemGroup.elems g)) ++ drop i (ElemGroup.elems g)
  /\ ElemGroup.animatesWithTransitions g' = ElemGroup.animatesWithTransitions g.
Proof.
  induction i as [|i IH]; intros Hi.
  - simpl. rewrite drop_0. auto.
  - rewrite seq_S, fold_left_app. simpl.
    destruct (IH ltac:(lia)) as [Hel Htr].
    set (g' := fold_left (fun acc j => calculateVisibility wh lay j acc) (seq 0 i) g) in *.
    destruct (lookup_lt_is_Some_2 (ElemGroup.elems g) i ltac:(lia)) as [e He].
    assert (Hlen : length (map (derivedElem wh lay g) (take i (ElemGroup.elems g))) = i).
    { rewrite length_map, length_take. lia. }
    assert (Hi' : ElemGroup.elems g' !! i = Some e).
    { rewrite Hel, lookup_app_r by lia. rewrite Hlen, Nat.sub_diag.
      rewrite lookup_drop, Nat.add_0_r. exact He. }
    destruct (calculateVisibility_elems wh lay i g' e Hi') as [-> ->].
    split; [|exact Htr].
    rewrite Hel. rewrite insert_app_r_alt by lia. rewrite Hlen, Nat.sub_diag.
    rewrite (drop_S _ _ _ He). simpl.
    rewrite (take_S_r _ _ _ He), map_app, <- app_assoc. simpl.
    unfold derivedElem. rewrite (pixelThreshold_transitions g g' _ _ Htr). reflexivity.
Qed.

(** [readOne] re-derives the coordinates and the visibility of every
    member from the layout *)
Lemma readOne_elems wh lay g :
  ElemGroup.elems (readOne wh lay g) = map (derivedElem wh lay g) (ElemGroup.elems g).
Proof.
  unfold readOne, forEach_elem.
  destruct (readOne_prefix wh lay g (length (ElemGroup.elems g)) (le_n _)) as [-> _].
  rewrite firstn_all, drop_all, app_nil_r. reflexivity.
Qed.

(** *** A group held back stays held back *)








Lemma delayGroup_groups gj w g :
  World.elemGroups w !! gj = Some g ->
  World.elemGroups (delayGroup gj w)
  = <[gj := delayedGroup (World.nextTimerId w) g]> (World.elemGroups w)
  /\ World.timers (delayGroup gj w)
     = World.timers w ++ [mkTimer (World.nextTimerId w) (ElemGroup.groupDelay g) gj]
  /\ World.nextTimerId (delayGroup gj w) = S (World.nextTimerId w)
  /\ World.dom (delayGroup gj w) = World.dom w
  /\ World.groupDelayIds (delayGroup gj w)
     = <[ElemGroup.groupId g := Some (World.nextTimerId w)]> (World.groupDelayIds w).
Proof.
  intros Hg. unfold delayGroup. rewrite Hg.
  destruct w, g; simpl in *. auto.
Qed.












Lemma correctThreshold_flags wh h e :
  Elem.isAnimated (correctThreshold wh h e) = Elem.isAnimated e.
Proof.
  unfold correctThreshold.
  repeat (match goal with
          | |- context [if ?b then _ else _] => destruct b
          | |- context [match ?o with Some _ => _ | None => _ end] => destruct o
          end); destruct e; reflexivity.
Qed.




(** *** Deferral, and the timer *)










(** ** Properties of every group, carried through the events *)

Section GroupInvariant.
Variable P : ElemGroup.t -> Prop.
Hypothesis P_readOne : forall wh lay g, P g -> P (readOne wh lay g).
Hypothesis P_pass : forall wh idxs g dom,
  P g ->
  P (updateMutableProps
       (fst (fold_left (fun acc i => updateAnimations wh i acc) idxs (g, dom)))).
Hypothesis P_delayed : forall id g, P g -> P (delayedGroup id g).
Hypothesis P_released : forall g, P g -> P (releasedGroup g).
Hypothesis P_thresholds : forall wh lay g, P g -> P (correctThresholds wh lay g).

Lemma allGroups_with_group gi g w : allGroups P w -> P g -> allGroups P (World.with_group gi g w).
Proof.
  unfold allGroups, World.with_group. intros Hw Hg. destruct w; simpl in *.
  apply Forall_insert; assumption.
Qed.

Lemma allGroups_lookup gi g w : allGroups P w -> World.elemGroups w !! gi = Some g -> P g.
Proof. unfold allGroups. intros Hw Hg. eapply Forall_lookup_1; eassumption. Qed.

Lemma allGroups_delayGroup gi w : allGroups P w -> allGroups P (delayGroup gi w).
Proof.
  intros Hw. destruct (World.elemGroups w !! gi) as [g|] eqn:Hg;
    [|unfold delayGroup; rewrite Hg; exact Hw].
  unfold allGroups. destruct (delayGroup_groups gi w g Hg) as (-> & _).
  apply Forall_insert; [exact Hw|]. apply P_delayed. eapply allGroups_lookup; eassumption.
Qed.

Lemma allGroups_updateOne gi w : allGroups P w -> allGroups P (updateOne gi w).
Proof.
  intros Hw. unfold updateOne.
  destruct (World.elemGroups w !! gi) as [g|] eqn:Hg; [|exact Hw].
  destruct (_ && _); [apply allGroups_delayGroup, Hw|].
  assert (HP : P (fst (memberPass (World.windowHeight w) (g, World.dom w)))).
  { unfold memberPass, forEach_elem. simpl. apply P_pass. eapply allGroups_lookup; eassumption. }
  unfold allGroups in *. destruct w; simpl in *. apply Forall_insert; assumption.
Qed.

Lemma allGroups_fold {A} (f : World.t -> A -> World.t) (l : list A) w :
  (forall w a, allGroups P w -> allGroups P (f w a)) -> allGroups P w -> allGroups P (fold_left f l w).
Proof.
  intros Hf. revert w. induction l as [|a l IH]; intros w Hw; simpl; auto.
Qed.

Lemma allGroups_updateAll w : allGroups P w -> allGroups P (updateAll w).
Proof.
  unfold updateAll. apply allGroups_fold. intros w' gi Hw'.
  destruct (World.elemGroups w' !! gi) as [g|]; [|exact Hw'].
  destruct (isProcessed g); [apply allGroups_updateOne, Hw' | exact Hw'].
Qed.

Lemma allGroups_updateEntries subs w : allGroups P w -> allGroups P (updateEntries subs w).
Proof.
  unfold updateEntries. apply allGroups_fold. intros w' [gi entries] Hw'.
  destruct (World.elemGroups w' !! gi) as [g|] eqn:Hg; [|exact Hw'].
  destruct (ElemGroup.isDelaying g); [exact Hw'|].
  destruct (_ && _); [apply allGroups_delayGroup, Hw'|].
  pose proof (allGroups_lookup gi g w' Hw' Hg) as HPg.
  unfold allGroups in *. destruct w'; simpl in *. apply Forall_insert; [assumption|].
  destruct (ElemGroup.animatesAllOnFirstSight g); [unfold forEach_elem|];
    apply P_pass, HPg.
Qed.

Lemma allGroups_same w w' : World.elemGroups w' = World.elemGroups w -> allGroups P w -> allGroups P w'.
Proof. unfold allGroups. intros ->. auto. Qed.

Lemma allGroups_runFrameCb cb w : allGroups P w -> allGroups P (runFrameCb cb w).
Proof.
  intros Hw. destruct cb as [[|subs]|gi]; unfold runFrameCb, runUpdateCb.
  - apply (allGroups_same (updateAll w)); [destruct (updateAll w); reflexivity|].
    apply allGroups_updateAll, Hw.
  - destruct subs as [|p subs].
    + apply (allGroups_same w); [destruct w; reflexivity | exact Hw].
    + apply (allGroups_same (updateEntries (p :: subs) w));
        [destruct (updateEntries (p :: subs) w); reflexivity|].
      apply allGroups_updateEntries, Hw.
  - apply allGroups_updateOne, Hw.
Qed.

Lemma allGroups_runFrame w : allGroups P w -> allGroups P (runFrame w).
Proof.
  intros Hw. unfold runFrame. apply allGroups_fold.
  - intros w' cb. apply allGroups_runFrameCb.
  - apply (allGroups_same w); [destruct w; reflexivity | exact Hw].
Qed.

Lemma allGroups_readAll w : allGroups P w -> allGroups P (readAll w).
Proof.
  unfold allGroups, readAll. intros Hw. destruct w; simpl in *.
  rewrite Forall_fmap. eapply Forall_impl; [exact Hw|].
  intros g Hg. simpl. destruct (isProcessed g); [apply P_readOne, Hg | exact Hg].
Qed.

Lemma allGroups_requestAnimationUpdate u w :
  allGroups P w -> allGroups P (requestAnimationUpdate readAll u w).
Proof.
  intros Hw. unfold requestAnimationUpdate.
  destruct (negb (World.updating w)); [|exact Hw].
  apply (allGroups_same (readAll (World.with_updating true w))).
  - unfold requestAnimationFrame. destruct (readAll _); reflexivity.
  - apply allGroups_readAll. apply (allGroups_same w); [destruct w; reflexivity | exact Hw].
Qed.

Lemma allGroups_step ev w : allGroups P w -> allGroups P (step ev w).
Proof.
  intros Hw. destruct ev as [lay|ch lay|id|]; simpl.
  - assert (H : allGroups P (World.with_layout lay w))
      by (apply (allGroups_same w); [destruct w; reflexivity | exact Hw]).
    destruct (World.useScroll w); [apply allGroups_requestAnimationUpdate, H | exact H].
  - unfold ecaHandleResize.
    set (w1 := World.with_windowHeights _ ch (World.with_layout lay w)).
    assert (H1 : allGroups P w1) by (apply (allGroups_same w); [destruct w; reflexivity | exact Hw]).
    set (w2 := World.with_elemGroups _ w1).
    assert (H2 : allGroups P w2).
    { unfold allGroups in *. subst w2. destruct w1; simpl in *.
      rewrite Forall_fmap. eapply Forall_impl; [exact H1|].
      intros g Hg. apply P_thresholds, Hg. }
    destruct (World.useScroll w2); [apply allGroups_requestAnimationUpdate, H2 | exact H2].
  - unfold fireTimer. destruct (find _ (World.timers w)) as [t|]; [|exact Hw].
    set (w1 := World.with_timers _ _ w).
    assert (H1 : allGroups P w1) by (apply (allGroups_same w); [destruct w; reflexivity | exact Hw]).
    unfold delayElapsed.
    destruct (World.elemGroups w1 !! timer_group t) as [g|] eqn:Hg; [|exact H1].
    pose proof (allGroups_lookup _ _ _ H1 Hg) as HPg.
    unfold allGroups in *. unfold requestAnimationFrame. destruct w1; simpl in *.
    apply Forall_insert; [exact H1|].
    destruct useScroll; [apply P_readOne|]; apply P_released, HPg.
  - apply allGroups_runFrame, Hw.
Qed.

Lemma allGroups_run evs w : allGroups P w -> allGroups P (run evs w).
Proof.
  revert w. induction evs as [|ev evs IH]; intros w Hw; simpl; [exact Hw|].
  apply IH, allGroups_step, Hw.
Qed.

Lemma allGroups_loadedWorld groups ch us lay :
  Forall P groups -> allGroups P (loadedWorld groups ch us lay).
Proof.
  intros H. unfold loadedWorld, runInitialAnimations. simpl.
  destruct us; [apply allGroups_requestAnimationUpdate|]; exact H.
Qed.

(** a property the constructor establishes and the operations on a group
    keep holds of every group of every page the events reach *)
Lemma groups_invariant (w : World.t) (evs : list Event) :
  (forall o members id, P (new_ElemGroup o members id)) ->
  freshlyLoaded w ->
  Forall P (World.elemGroups (run evs w)).
Proof.
  intros Hnew (specs & ch & us & lay & ->).
  apply allGroups_run, allGroups_loadedWorld. rewrite Forall_fmap.
  apply Forall_forall. intros [[o members] id] _. apply Hnew.
Qed.
End GroupInvariant.

(** *** The aggregate counters on every reachable page *)

Lemma countElems_map (f : Elem.t -> bool) (l l' : list Elem.t) :
  map f l' = map f l -> countElems f l' = countElems f l.
Proof.
  revert l'. induction l as [|e l IH]; intros [|e' l'] H; simpl in *; try discriminate.
  - reflexivity.
  - injection H as -> H. rewrite (IH l' H). reflexivity.
Qed.

Lemma aggregateInv_sameAnimation g g' :
  sameAnimation g g' -> aggregateInv g -> aggregateInv g'.
Proof.
  intros (Hm & Hn & Hf) [Hc Hfin].
  assert (Hlen : length (ElemGroup.elems g') = length (ElemGroup.elems g)).
  { rewrite <- (length_map Elem.isAnimated), Hm. apply length_map. }
  unfold aggregateInv, countConsistent, finishedConsistent in *.
  rewrite Hn, Hf, Hlen, (countElems_map _ _ _ Hm). split; [exact Hc|].
  intros Hne. apply Hfin. intros E. apply Hne. apply length_zero_iff_nil.
  rewrite Hlen, E. reflexivity.
Qed.

(** [readOne] changes the members and the visibility counters only *)
Lemma calculateVisibility_shape wh lay i g :
  exists n v els,
    calculateVisibility wh lay i g
    = ElemGroup.with_visibility n v (ElemGroup.with_elems els g).
Proof.
  unfold calculateVisibility.
  destruct (ElemGroup.elems g !! i) as [e|].
  - unfold set_isVisible.
    match goal with |- context [ElemGroup.elems ?g1 !! i] =>
      destruct (ElemGroup.elems g1 !! i) as [e1|] end.
    + match goal with |- context [if ?b then _ else _] => destruct b end;
        destruct g; simpl; eexists _, _, _; reflexivity.
    + destruct g; simpl; eexists _, _, _; reflexivity.
  - destruct g; simpl; eexists _, _, _; reflexivity.
Qed.

Lemma readOne_shape wh lay g :
  exists n v,
    readOne wh lay g
    = ElemGroup.with_visibility n v
        (ElemGroup.with_elems (map (derivedElem wh lay g) (ElemGroup.elems g)) g).
Proof.
  assert (H : forall l g0, exists n v els,
            fold_left (fun acc j => calculateVisibility wh lay j acc) l g0
            = ElemGroup.with_visibility n v (ElemGroup.with_elems els g0)).
  { induction l as [|i l IH]; intros g0; simpl.
    - destruct g0; eexists _, _, _; reflexivity.
    - destruct (calculateVisibility_shape wh lay i g0) as (n & v & els & ->).
      destruct (IH (ElemGroup.with_visibility n v (ElemGroup.with_elems els g0)))
        as (n' & v' & els' & ->).
      destruct g0; eexists _, _, _; reflexivity. }
  pose proof (readOne_elems wh lay g) as Hel.
  unfold readOne, forEach_elem in *.
  destruct (H (seq 0 (length (ElemGroup.elems g))) g) as (n & v & els & E).
  rewrite E in *. exists n, v. destruct g; simpl in *. subst els. reflexivity.
Qed.

Lemma derivedElem_isAnimated wh lay g e :
  Elem.isAnimated (derivedElem wh lay g e) = Elem.isAnimated e.
Proof. destruct e; reflexivity. Qed.

Lemma readOne_sameAnimation wh lay g : sameAnimation g (readOne wh lay g).
Proof.
  destruct (readOne_shape wh lay g) as (n & v & ->).
  destruct g; unfold sameAnimation; simpl. repeat split.
  rewrite map_map. apply map_ext. intros e. apply derivedElem_isAnimated.
Qed.

Lemma correctThresholds_sameAnimation wh lay g :
  sameAnimation g (correctThresholds wh lay g).
Proof.
  unfold correctThresholds. destruct g; unfold sameAnimation; simpl. repeat split.
  rewrite map_map. apply map_ext. intros e. apply correctThreshold_flags.
Qed.

Lemma updateMutableProps_sameAnimation g : sameAnimation g (updateMutableProps g).
Proof.
  unfold updateMutableProps. destruct g; simpl.
  destruct (_ =? 0); repeat split.
Qed.

Lemma updateAnimations_aggregateInv wh i (s : Written) :
  aggregateInv (fst s) -> aggregateInv (fst (updateAnimations wh i s)).
Proof.
  intros H. unfold updateAnimations.
  destruct (ElemGroup.elems (fst s) !! i) as [e|]; [|exact H].
  destruct (isReadyToAnimate (fst s) e); [exact (applyOp_inv (OpAnimate i) s eq_refl H)|].
  destruct (isReadyToDeanimate wh (fst s) e);
    [exact (applyOp_inv (OpDeAnimate i) s eq_refl H) | exact H].
Qed.

(** On every page the events reach from a load, every group has an exact
    animated count, and a finished flag that says "all animated" as soon
    as it has a member. *)
Lemma reachable_aggregateInv (w : World.t) (evs : list Event) :
  freshlyLoaded w -> allGroups aggregateInv (run evs w).
Proof.
  apply groups_invariant.
  - intros wh lay g. apply aggregateInv_sameAnimation, readOne_sameAnimation.
  - intros wh idxs g dom Hg.
    apply (aggregateInv_sameAnimation _ _ (updateMutableProps_sameAnimation _)).
    change g with (fst (g, dom)) in Hg. revert Hg. generalize (g, dom).
    induction idxs as [|i idxs IH]; intros s Hs; simpl; [exact Hs|].
    apply IH, updateAnimations_aggregateInv, Hs.
  - intros id g. apply aggregateInv_sameAnimation. destruct g; repeat split.
  - intros g. apply aggregateInv_sameAnimation. destruct g; repeat split.
  - intros wh lay g. apply aggregateInv_sameAnimation, correctThresholds_sameAnimation.
  - apply new_ElemGroup_inv.
Qed.

(** *** Every cycle starts with the stagger counter unset *)

Lemma reachable_stagger_unset (w : World.t) (evs : list Event) :
  freshlyLoaded w ->
  allGroups (fun g => ElemGroup.nextStaggeredDelay g = None) (run evs w).
Proof.
  apply groups_invariant.
  - intros wh lay g Hg. destruct (readOne_shape wh lay g) as (n & v & ->).
    destruct g; exact Hg.
  - intros wh idxs g dom _. apply updateMutableProps_nextStaggeredDelay.
  - intros id g Hg. destruct g; exact Hg.
  - intros g Hg. destruct g; exact Hg.
  - intros wh lay g Hg. destruct g; exact Hg.
  - reflexivity.
Qed.

Section ThrottleFacts.
Context {E St : Type}.
Variable truthyE : E -> bool.

(** the throttled function sees the invocations and nothing else: whatever
    it is, its state is the state the recorded invocations lead to *)
Lemma throttleRun_recorded (fn : E -> St -> St) evs (t : Throttle.t E St) (r : Throttle.t E (list E)) s0 :
  Throttle.inThrottle t = Throttle.inThrottle r ->
  Throttle.event t = Throttle.event r ->
  Throttle.timeouts t = Throttle.timeouts r ->
  Throttle.nextId t = Throttle.nextId r ->
  Throttle.state t = fold_left (fun s e => fn e s) (Throttle.state r) s0 ->
  Throttle.state (throttleRun truthyE fn evs t)
  = fold_left (fun s e => fn e s)
      (Throttle.state (throttleRun truthyE recordCall evs r)) s0.
Proof.
  revert t r. induction evs as [|ev evs IH]; intros t r H1 H2 H3 H4 H5; simpl; [exact H5|].
  apply IH; destruct t as [it et tt nt st], r as [ir er tr nr sr]; simpl in *; subst;
    destruct ev as [e|id]; simpl; try reflexivity.
  all: unfold throttledHandler, throttleExpire, throttleElapsed; simpl.
  all: repeat match goal with
       | |- context [match ?x with _ => _ end] => destruct x eqn:?; simpl
       end; try reflexivity.
  all: unfold recordCall; rewrite ?fold_left_app; reflexivity.
Qed.
End ThrottleFacts.

Section ThrottleInv.
Context {E : Type}.
Variable truthyE : E -> bool.

Lemma thReceived_snoc (evs : list (ThrottleEvent E)) ev :
  thReceived (evs ++ [ev])
  = thReceived evs ++ match ev with ThCall e => [e] | ThExpire _ => [] end.
Proof. unfold thReceived. rewrite omap_app. destruct ev; reflexivity. Qed.

Lemma thExpirations_snoc (evs : list (ThrottleEvent E)) ev :
  thExpirations (evs ++ [ev])
  = (thExpirations evs + match ev with ThCall _ => 0 | ThExpire _ => 1 end)%nat.
Proof.
  unfold thExpirations. rewrite List.filter_app, length_app. destruct ev; reflexivity.
Qed.

Lemma throttleInv_init : throttleInv truthyE [] (throttle (E:=E) []).
Proof. split; simpl; try reflexivity; try lia; try discriminate. Qed.

Lemma throttledHandler_inv evs e r :
  throttleInv truthyE evs r ->
  throttleInv truthyE (evs ++ [ThCall e]) (throttledHandler recordCall e r).
Proof.
  intros [Ht Hc Hs Hp Hw Hl]. destruct r as [it et tt nt st]; simpl in *.
  unfold throttledHandler; simpl. destruct it as [id|]; simpl.
  - split; simpl; rewrite ?thReceived_snoc, ?thExpirations_snoc; simpl.
    + exact Ht.
    + lia.
    + apply sublist_inserts_r, Hs.
    + intros e' [= <-]. eexists; split; [reflexivity | exact Hs].
    + discriminate.
    + discriminate.
  - split; simpl; rewrite ?thReceived_snoc, ?thExpirations_snoc; simpl.
    + subst tt. reflexivity.
    + unfold recordCall. rewrite length_app. simpl. lia.
    + unfold recordCall. apply sublist_app; [exact Hs | reflexivity].
    + discriminate.
    + discriminate.
    + intros _. unfold recordCall. rewrite !last_snoc. reflexivity.
Qed.

Lemma throttleExpire_inv evs id r :
  throttleInv truthyE evs r ->
  throttleInv truthyE (evs ++ [ThExpire id]) (throttleExpire truthyE recordCall id r).
Proof.
  intros [Ht Hc Hs Hp Hw Hl]. destruct r as [it et tt nt st]; simpl in *.
  unfold throttleExpire; simpl. case_bool_decide as Hin.
  - destruct it as [id0|]; subst tt; [|inversion Hin].
    apply list_elem_of_singleton in Hin. subst id0.
    assert (Hf : filter (fun i => i <> id) [id] = []).
    { rewrite filter_cons_False by (intros H; apply H; reflexivity). reflexivity. }
    rewrite Hf. unfold throttleElapsed; simpl.
    destruct et as [e|]; simpl.
    + destruct (truthyE e) eqn:He.
      * unfold throttledHandler; simpl.
        destruct (Hp e eq_refl) as (pre & Hr & Hpre).
        split; simpl; rewrite ?thReceived_snoc, ?thExpirations_snoc, ?app_nil_r; simpl.
        -- reflexivity.
        -- unfold recordCall. rewrite length_app. simpl. lia.
        -- rewrite Hr. unfold recordCall. apply sublist_app; [exact Hpre | reflexivity].
        -- discriminate.
        -- discriminate.
        -- intros _. rewrite Hr. unfold recordCall. rewrite !last_snoc. reflexivity.
      * split; simpl; rewrite ?thReceived_snoc, ?thExpirations_snoc, ?app_nil_r; simpl.
        -- reflexivity.
        -- lia.
        -- exact Hs.
        -- exact Hp.
        -- intros e' [= <-] _. exact He.
        -- discriminate.
    + split; simpl; rewrite ?thReceived_snoc, ?thExpirations_snoc, ?app_nil_r; simpl.
      * reflexivity.
      * lia.
      * exact Hs.
      * discriminate.
      * discriminate.
      * exact Hl.
  - split; simpl; rewrite ?thReceived_snoc, ?thExpirations_snoc, ?app_nil_r; simpl.
    + exact Ht.
    + lia.
    + exact Hs.
    + exact Hp.
    + exact Hw.
    + exact Hl.
Qed.

Lemma throttleRun_snoc {St} (fn : E -> St -> St) evs ev t :
  throttleRun truthyE fn (evs ++ [ev]) t
  = throttleStep truthyE fn ev (throttleRun truthyE fn evs t).
Proof. unfold throttleRun. rewrite fold_left_app. reflexivity. Qed.

Lemma throttleRun_inv evs :
  throttleInv truthyE evs (throttleRun truthyE recordCall evs (throttle [])).
Proof.
  induction evs as [|ev evs IH] using rev_ind; [apply throttleInv_init|].
  rewrite throttleRun_snoc. destruct ev as [e|id]; simpl.
  - apply throttledHandler_inv, IH.
  - apply throttleExpire_inv, IH.
Qed.

Lemma throttleDrain_inv evs r :
  throttleInv truthyE evs r ->
  (forall e, Throttle.event r = Some e -> truthyE e = true) ->
  exists exps,
    thReceived (evs ++ exps) = thReceived evs
    /\ throttleInv truthyE (evs ++ exps) (throttleDrain truthyE recordCall r)
    /\ Throttle.event (throttleDrain truthyE recordCall r) = None
    /\ (Throttle.event r = None ->
        Throttle.inThrottle (throttleDrain truthyE recordCall r) = None).
Proof.
  intros Hinv Htr. pose proof (thi_timeouts _ _ _ Hinv) as Ht.
  unfold throttleDrain. rewrite Ht.
  destruct (Throttle.inThrottle r) as [id|] eqn:Hin; simpl.
  - exists [ThExpire id]. split; [rewrite thReceived_snoc, app_nil_r; reflexivity|].
    split; [apply throttleExpire_inv, Hinv|].
    unfold throttleExpire. rewrite Ht.
    rewrite bool_decide_eq_true_2 by (apply list_elem_of_singleton; reflexivity).
    unfold throttleElapsed; simpl.
    destruct (Throttle.event r) as [e|] eqn:He; simpl.
    + rewrite (Htr e eq_refl). unfold throttledHandler; simpl.
      split; [reflexivity | discriminate].
    + split; [reflexivity | reflexivity].
  - exists []. rewrite app_nil_r. split; [reflexivity|]. split; [exact Hinv|].
    destruct (Throttle.event r) as [e|] eqn:He.
    + pose proof (thi_waiting _ _ _ Hinv e He Hin) as Hf.
      rewrite (Htr e eq_refl) in Hf. discriminate.
    + split; [reflexivity | intros _; exact Hin].
Qed.
End ThrottleInv.

(** X1 ([throttle]): whatever the throttled function is, it has been
    applied to the recorded invocations, one after the other, and there
    is at most one invocation more than timeouts that came due: after an
    invocation the function does not run again before the timeout set at
    that invocation is over. *)
Theorem throttle_rate_limit {E St : Type} (truthyE : E -> bool) (fn : E -> St -> St)
    (s0 : St) (evs : list (ThrottleEvent E)) :
  Throttle.state (throttleRun truthyE fn evs (throttle s0))
  = fold_left (fun s e => fn e s) (thInvoked truthyE evs) s0
  /\ (length (thInvoked truthyE evs) <= 1 + thExpirations evs)%nat.
Proof.
  split.
  - apply throttleRun_recorded; reflexivity.
  - pose proof (thi_count _ _ _ (throttleRun_inv truthyE evs)) as H.
    unfold thInvoked. lia.
Qed.

(** X2 ([throttle]): the throttled function is only ever invoked with
    events the handler received, each at most once and in the order they
    came in. *)
Theorem throttle_invokes_received {E : Type} (truthyE : E -> bool)
    (evs : list (ThrottleEvent E)) :
  thInvoked truthyE evs `sublist_of` thReceived evs.
Proof. exact (thi_sub _ _ _ (throttleRun_inv truthyE evs)). Qed.

(** X3 ([throttle]): when the events are truthy, the last one is not
    lost: once the pending timeout, and the one it may set in turn, have
    come due, the handler is idle again and the last invocation of the
    throttled function was made with the last event received. *)
Theorem throttle_trailing_event {E : Type} (truthyE : E -> bool)
    (evs : list (ThrottleEvent E)) :
  Forall (fun e => truthyE e = true) (thReceived evs) ->
  let r := throttleDrain truthyE recordCall
             (throttleDrain truthyE recordCall
                (throttleRun truthyE recordCall evs (throttle []))) in
  Throttle.inThrottle r = None
  /\ Throttle.event r = None
  /\ Throttle.timeouts r = []
  /\ last (Throttle.state r) = last (thReceived evs).
Proof.
  intros Htr.
  pose proof (throttleRun_inv truthyE evs) as H0.
  destruct (throttleDrain_inv truthyE evs _ H0) as (x1 & R1 & H1 & E1 & _).
  { intros e He. destruct (thi_pending _ _ _ H0 e He) as (pre & Hr & _).
    rewrite Hr, Forall_app, Forall_singleton in Htr. apply Htr. }
  destruct (throttleDrain_inv truthyE _ _ H1) as (x2 & R2 & H2 & E2 & I2).
  { intros e He. rewrite E1 in He. discriminate. }
  simpl. specialize (I2 E1).
  split; [exact I2|]. split; [exact E2|].
  split; [rewrite (thi_timeouts _ _ _ H2), I2; reflexivity|].
  rewrite (thi_last _ _ _ H2 E2), R2, R1. reflexivity.
Qed.

(** a burst of three scroll events with one timeout in between *)
Lemma throttle_trailing_event_witness :
  let evs := [ThCall 1%nat; ThCall 2%nat; ThCall 3%nat] in
  let r := throttleDrain (fun _ => true) recordCall
             (throttleDrain (fun _ => true) recordCall
                (throttleRun (fun _ => true) recordCall evs (throttle []))) in
  Throttle.state r = [1%nat; 3%nat]
  /\ Throttle.inThrottle r = None
  /\ last (Throttle.state r) = Some 3%nat.
Proof.
  pose proof (throttle_trailing_event (fun _ : nat => true)
                [ThCall 1%nat; ThCall 2%nat; ThCall 3%nat]) as H.
  simpl in H. destruct H as (H1 & _ & _ & H4).
  - repeat constructor.
  - split; [reflexivity|]. split; [exact H1 | exact H4].
Defined.

Lemma string_prefix_app (s t : string) : String.prefix s (s +:+ t) = true.
Proof.
  induction s as [|a s IH]; simpl; [destruct t; reflexivity|].
  destruct (Ascii.ascii_dec a a) as [_|N]; [exact IH | contradiction].
Qed.

Lemma string_prefix_refl (s : string) : String.prefix s s = true.
Proof.
  induction s as [|a s IH]; [reflexivity|].
  simpl. destruct (Ascii.ascii_dec a a); [exact IH | contradiction].
Qed.

Lemma includes_prefix (s sub : string) : String.prefix sub s = true -> includes s sub = true.
Proof. intros H. destruct s; cbn [includes]; rewrite H; reflexivity. Qed.

Lemma string_append_assoc (s t u : string) : (s +:+ t) +:+ u = s +:+ (t +:+ u).
Proof.
  induction s as [|a s IH]; [reflexivity|].
  change (String a ((s +:+ t) +:+ u) = String a (s +:+ (t +:+ u))).
  rewrite IH. reflexivity.
Qed.

Lemma includes_app (s t u : string) : includes ((s +:+ t) +:+ u) s = true.
Proof. apply includes_prefix. rewrite string_append_assoc. apply string_prefix_app. Qed.

Section ReadyElements.
Variable parseJSON : string -> option JSObject.
Variable parseCharDelays : string -> option (list CharDelay).


Lemma chooseGroupId_cases used i fe :
  chooseGroupId used i fe = groupName fe
  \/ chooseGroupId used i fe = groupName fe +:+ pretty i.
Proof. unfold chooseGroupId, groupName. destruct (negb _); auto. Qed.

Lemma chooseGroupId_fresh used i fe :
  used !! groupName fe = None ->
  groupName fe ∉ objectPrototypeKeys ->
  chooseGroupId used i fe = groupName fe.
Proof.
  intros Hu Hp. unfold chooseGroupId. fold (groupName fe).
  assert (H : isDefinedKey used (groupName fe) = false); [|rewrite H; reflexivity].
  unfold isDefinedKey. apply orb_false_intro.
  - apply bool_decide_eq_false. rewrite Hu. intros [x Hx]. discriminate.
  - apply not_true_is_false. intros H. apply existsb_exists in H as (k & Hk & E).
    apply String.eqb_eq in E. subst k. apply Hp. apply list_elem_of_In. exact Hk.
Qed.


Lemma readyState_snoc fes fe :
  readyState parseJSON parseCharDelays (fes ++ [fe])
  = readyOne parseJSON parseCharDelays (readyState parseJSON parseCharDelays fes) (length fes, fe).
Proof.
  unfold readyState. rewrite imap_app, fold_left_app. simpl.
  rewrite Nat.add_0_r. reflexivity.
Qed.

Lemma ready_readyState fes : readyElementsForAnimation parseJSON parseCharDelays fes = snd (readyState parseJSON parseCharDelays fes).
Proof. reflexivity. Qed.

(** one group per first element, each built by [readyGroup] under the id
    chosen for it *)
Lemma readyState_groups fes :
  length (page_groups (snd (readyState parseJSON parseCharDelays fes))) = length fes
  /\ forall i fe, fes !! i = Some fe ->
       exists used,
         page_groups (snd (readyState parseJSON parseCharDelays fes)) !! i
         = Some (builtGroup parseJSON parseCharDelays (chooseGroupId used i fe) fe).
Proof.
  induction fes as [|fe0 fes [IHl IH]] using rev_ind.
  - split; [reflexivity|]. intros i fe H. discriminate.
  - rewrite readyState_snoc. destruct (readyState parseJSON parseCharDelays fes) as [used page] eqn:E.
    unfold readyOne.
    destruct (readyGroup parseJSON parseCharDelays (chooseGroupId used (length fes) fe0) fe0)
      as [[g ls] errs] eqn:Eg.
    cbn [snd page_groups] in *. split.
    + rewrite !length_app, IHl. reflexivity.
    + intros i fe Hi. destruct (decide (i < length fes)%nat) as [Hlt|Hge].
      * rewrite lookup_app_l in Hi by exact Hlt.
        rewrite lookup_app_l by (rewrite IHl; exact Hlt). apply IH, Hi.
      * rewrite lookup_app_r in Hi by lia. rewrite lookup_app_r by lia.
        rewrite IHl. destruct (i - length fes)%nat as [|k] eqn:Ek; [|destruct k; discriminate].
        injection Hi as <-. assert (i = length fes) as -> by lia.
        exists used. unfold builtGroup. rewrite Eg. reflexivity.
Qed.

(** the loop of [updateCharUniqueDelays] writes [uniqueDelay] and nothing
    else *)
Lemma setCharDelaysFrom_targets delaysObj delays elems :
  map Elem.target (fst (setCharDelaysFrom delaysObj delays elems)) = map Elem.target elems
  /\ length (fst (setCharDelaysFrom delaysObj delays elems)) = length elems.
Proof.
  revert elems. induction delays as [|d delays IH]; intros elems; [split; reflexivity|].
  cbn [setCharDelaysFrom].
  destruct (delays_hasOwnProperty delaysObj) as [own|]; [|split; reflexivity].
  destruct (cd_key d) as [k| |name]; [|destruct own; [split; reflexivity | apply IH]|apply IH].
  destruct (own && Qle_bool _ _); [|apply IH].
  destruct (index_of_key k ≫= _) as [[i e]|] eqn:Hi; [|split; reflexivity].
  destruct (cd_ms d) as [ms|]; [|split; reflexivity].
  destruct (IH (<[i := Elem.with_uniqueDelay ms e]> elems)) as [IH1 IH2].
  rewrite IH1, IH2, length_insert. split; [|reflexivity].
  destruct (index_of_key k) as [i'|]; [|discriminate]. simpl in Hi.
  destruct (elems !! i') as [e'|] eqn:He; [|discriminate]. injection Hi as <- <-.
  rewrite list_fmap_insert. apply list_insert_id.
  rewrite list_lookup_fmap, He. destruct e'; reflexivity.
Qed.

Lemma setCharDelays_targets delays elems :
  map Elem.target (fst (setCharDelays delays elems)) = map Elem.target elems
  /\ length (fst (setCharDelays delays elems)) = length elems.
Proof. apply setCharDelaysFrom_targets. Qed.

Lemma updateCharUniqueDelays_shape fe g :
  exists els,
    map Elem.target els = map Elem.target (ElemGroup.elems g)
    /\ fst (updateCharUniqueDelays parseCharDelays fe g) = ElemGroup.with_elems els g.
Proof.
  assert (Hid : ElemGroup.with_elems (ElemGroup.elems g) g = g) by (destruct g; reflexivity).
  unfold updateCharUniqueDelays.
  destruct (fe_charDelays fe) as [spec|]; cbn [fst];
    [|eexists; split; [reflexivity | rewrite Hid; reflexivity]].
  destruct (String.eqb spec ""); cbn [fst];
    [eexists; split; [reflexivity | rewrite Hid; reflexivity]|].
  destruct (parseCharDelays spec) as [delays|]; cbn [fst];
    [|eexists; split; [reflexivity | rewrite Hid; reflexivity]].
  pose proof (setCharDelays_targets delays (ElemGroup.elems g)) as [Ht _].
  destruct (setCharDelays delays _) as [els ok]. cbn [fst] in *.
  exists els. split; [exact Ht | reflexivity].
Qed.

(** the group before [elems.reverse()] *)
Lemma builtGroup_shape id fe :
  exists els,
    map Elem.target els = map es_target (fe_members fe)
    /\ builtGroup parseJSON parseCharDelays id fe
       = if ecaReverse (fe_options fe)
         then reverseElems (ElemGroup.with_elems els
                              (new_ElemGroup (fe_options fe) (fe_members fe) id))
         else ElemGroup.with_elems els
                (new_ElemGroup (fe_options fe) (fe_members fe) id).
Proof.
  assert (Hnew : map Elem.target
                   (ElemGroup.elems (new_ElemGroup (fe_options fe) (fe_members fe) id))
                 = map es_target (fe_members fe)).
  { simpl. rewrite map_map. reflexivity. }
  assert (H1 : exists els,
             map Elem.target els = map es_target (fe_members fe)
             /\ fst (if fe_isText fe
                     then updateCharUniqueDelays parseCharDelays fe
                            (new_ElemGroup (fe_options fe) (fe_members fe) id)
                     else (new_ElemGroup (fe_options fe) (fe_members fe) id, []))
                = ElemGroup.with_elems els
                    (new_ElemGroup (fe_options fe) (fe_members fe) id)).
  { destruct (fe_isText fe).
    - destruct (updateCharUniqueDelays_shape fe
                  (new_ElemGroup (fe_options fe) (fe_members fe) id)) as (els & Ht & E).
      exists els. split; [rewrite Ht; exact Hnew | exact E].
    - eexists. split; [exact Hnew | reflexivity]. }
  destruct H1 as (els & Ht & E). exists els. split; [exact Ht|].
  unfold builtGroup, readyGroup. cbn [fst snd]. rewrite E. reflexivity.
Qed.

Lemma builtGroup_groupId id fe :
  ElemGroup.groupId (builtGroup parseJSON parseCharDelays id fe) = id.
Proof.
  destruct (builtGroup_shape id fe) as (els & _ & ->).
  destruct (ecaReverse (fe_options fe)); reflexivity.
Qed.

(** with names that are distinct and that no object inherits, every first
    element finds its name free *)
Lemma readyState_distinct fes :
  NoDup (map groupName fes) ->
  Forall (fun fe => groupName fe ∉ objectPrototypeKeys) fes ->
  (forall k, fst (readyState parseJSON parseCharDelays fes) !! k = None
             <-> k ∉ map groupName fes)
  /\ page_groups (snd (readyState parseJSON parseCharDelays fes))
     = map (fun fe => builtGroup parseJSON parseCharDelays (groupName fe) fe) fes.
Proof.
  induction fes as [|fe0 fes IH] using rev_ind; intros Hnd Hpk.
  - split; [|reflexivity]. intros k. simpl. rewrite lookup_empty. split; [|reflexivity].
    intros _ H. inversion H.
  - rewrite map_app in Hnd. apply NoDup_app in Hnd as (Hnd & Hfresh & _).
    rewrite Forall_app, Forall_singleton in Hpk. destruct Hpk as [Hpk Hpk0].
    destruct (IH Hnd Hpk) as [IHu IHg]. clear IH.
    rewrite readyState_snoc. destruct (readyState parseJSON parseCharDelays fes) as [used page].
    cbn [fst snd] in *.
    assert (Hfree : used !! groupName fe0 = None).
    { apply IHu. intros Hin. apply (Hfresh _ Hin). simpl. left. }
    unfold readyOne. rewrite (chooseGroupId_fresh used _ fe0 Hfree Hpk0).
    destruct (readyGroup parseJSON parseCharDelays (groupName fe0) fe0) as [[g ls] errs] eqn:Eg.
    cbn [fst snd page_groups]. split.
    + intros k. rewrite map_app. simpl. rewrite not_elem_of_app.
      destruct (decide (k = groupName fe0)) as [->|Hne].
      * rewrite lookup_insert_eq. split; [discriminate|].
        intros [_ H]. exfalso. apply H. left.
      * rewrite lookup_insert_ne by congruence. rewrite IHu. split.
        -- intros H. split; [exact H|]. intros H1. apply list_elem_of_singleton in H1. contradiction.
        -- intros [H _]. exact H.
    + rewrite IHg, map_app. cbn [map]. do 2 f_equal.
      unfold builtGroup. rewrite Eg. reflexivity.
Qed.
End ReadyElements.

(** X4 ([readyElementsForAnimation], the constructors): bootstrap tracks
    one group per first element, in document order; the group of the
    [i]-th first element has the name of that element as its id, or the
    name followed by [i], and its members are the elements the query
    returned, in document order, or in the opposite order when the
    reverse option is set. *)
Theorem readyElementsForAnimation_groups (parseJSON : string -> option JSObject)
    (parseCharDelays : string -> option (list CharDelay)) (fes : list FirstElem)
    (i : nat) (fe : FirstElem) :
  fes !! i = Some fe ->
  let groups := page_groups (readyElementsForAnimation parseJSON parseCharDelays fes) in
  length groups = length fes
  /\ exists g,
       groups !! i = Some g
       /\ (ElemGroup.groupId g = groupName fe
           \/ ElemGroup.groupId g = groupName fe +:+ pretty i)
       /\ memberTargets g
          = if ecaReverse (fe_options fe)
            then reverse (map es_target (fe_members fe))
            else map es_target (fe_members fe).
Proof.
  intros Hi groups. subst groups. rewrite ready_readyState.
  destruct (readyState_groups parseJSON parseCharDelays fes) as [Hlen Hg].
  split; [exact Hlen|]. destruct (Hg i fe Hi) as (used & Hlk).
  eexists. split; [exact Hlk|]. split.
  - rewrite builtGroup_groupId. apply chooseGroupId_cases.
  - destruct (builtGroup_shape parseJSON parseCharDelays (chooseGroupId used i fe) fe)
      as (els & Ht & ->).
    unfold memberTargets.
    destruct (ecaReverse (fe_options fe)).
    + unfold reverseElems. simpl. rewrite <- Ht. apply fmap_reverse.
    + simpl. exact Ht.
Qed.


(** two card groups under one class, the second one reversed *)
Lemma readyElementsForAnimation_groups_witness :
  let fes := [plainFirstElem "card" [sampleMember 1; sampleMember 2];
              mkFirstElem "card" false
                (mkGroupOptions ThrFalse 0 false 0 0 false true false None false false OptFalse)
                [sampleMember 3; sampleMember 4; sampleMember 5] None] in
  let groups := page_groups (readyElementsForAnimation rejectAll rejectAll fes) in
  length groups = 2%nat
  /\ exists g, groups !! 1%nat = Some g
       /\ ElemGroup.groupId g = "card1"
       /\ memberTargets g = [5; 4; 3]%nat.
Proof.
  intros fes groups.
  destruct (readyElementsForAnimation_groups rejectAll rejectAll fes 1 _ eq_refl)
    as (Hlen & g & Hg & _ & Ht).
  split; [exact Hlen|]. exists g. split; [exact Hg|]. split; [|exact Ht].
  vm_compute in Hg. injection Hg as <-. reflexivity.
Defined.

(** X5 (the constructor of [ElemGroup], [elems.reverse()]): the member a
    group keeps as up to date is the one made for the first element the
    query returned; in a group with the reverse option it therefore is
    the last entry of [elems], not the first. *)
Theorem upToDateELem_first_member (parseJSON : string -> option JSObject)
    (parseCharDelays : string -> option (list CharDelay)) (fes : list FirstElem)
    (i : nat) (fe : FirstElem) (m : ElemSpec) (ms : list ElemSpec) :
  fes !! i = Some fe ->
  fe_members fe = m :: ms ->
  exists g e,
    page_groups (readyElementsForAnimation parseJSON parseCharDelays fes) !! i = Some g
    /\ ElemGroup.upToDateELem g
       = Some (if ecaReverse (fe_options fe) then length ms else 0%nat)
    /\ upToDateElem g = Some e
    /\ Elem.target e = es_target m.
Proof.
  intros Hi Hm. rewrite ready_readyState.
  destruct (readyState_groups parseJSON parseCharDelays fes) as [_ Hg].
  destruct (Hg i fe Hi) as (used & Hlk).
  destruct (builtGroup_shape parseJSON parseCharDelays (chooseGroupId used i fe) fe)
    as (els & Ht & E).
  rewrite Hm in Ht. destruct els as [|e0 els]; [discriminate|].
  simpl in Ht. injection Ht as Ht0 Ht.
  assert (Hlen : length els = length ms).
  { rewrite <- (length_map Elem.target els), Ht. apply length_map. }
  exists (builtGroup parseJSON parseCharDelays (chooseGroupId used i fe) fe), e0.
  split; [exact Hlk|]. rewrite E, Hm.
  destruct (ecaReverse (fe_options fe)).
  - unfold upToDateElem, reverseElems. simpl. rewrite Hlen, Nat.sub_0_r, Nat.sub_0_r.
    split; [reflexivity|]. split; [|exact Ht0].
    rewrite reverse_lookup by (simpl; lia). simpl. rewrite Hlen, Nat.sub_diag. reflexivity.
  - unfold upToDateElem. simpl. split; [reflexivity|]. split; [reflexivity | exact Ht0].
Qed.

Lemma upToDateELem_first_member_witness :
  exists g e,
    page_groups
      (readyElementsForAnimation rejectAll rejectAll
         [mkFirstElem "card" false
            (mkGroupOptions ThrFalse 0 false 0 0 false true false None false false OptFalse)
            [sampleMember 3; sampleMember 4; sampleMember 5] None]) !! 0%nat = Some g
    /\ ElemGroup.upToDateELem g = Some 2%nat
    /\ upToDateElem g = Some e
    /\ Elem.target e = 3%nat.
Proof.
  exact (upToDateELem_first_member rejectAll rejectAll
           [mkFirstElem "card" false
              (mkGroupOptions ThrFalse 0 false 0 0 false true false None false false OptFalse)
              [sampleMember 3; sampleMember 4; sampleMember 5] None]
           0
           (mkFirstElem "card" false
              (mkGroupOptions ThrFalse 0 false 0 0 false true false None false false OptFalse)
              [sampleMember 3; sampleMember 4; sampleMember 5] None)
           (sampleMember 3) [sampleMember 4; sampleMember 5] eq_refl eq_refl).
Defined.

(** X6 ([getElemGroup] after [readyElementsForAnimation]): when the names
    of the first elements are distinct and none is a property every object
    inherits, each group is tracked under its name, and looking the name
    up returns that very group, at the position of its first element. *)
Theorem getElemGroup_finds_group (parseJSON : string -> option JSObject)
    (parseCharDelays : string -> option (list CharDelay)) (fes : list FirstElem)
    (i : nat) (fe : FirstElem) :
  NoDup (map groupName fes) ->
  Forall (fun fe => groupName fe ∉ objectPrototypeKeys) fes ->
  fes !! i = Some fe ->
  getElemGroup (groupName fe)
    (page_groups (readyElementsForAnimation parseJSON parseCharDelays fes))
  = Some (i, builtGroup parseJSON parseCharDelays (groupName fe) fe)
  /\ ElemGroup.groupId (builtGroup parseJSON parseCharDelays (groupName fe) fe)
     = groupName fe.
Proof.
  intros Hnd Hpk Hi. split; [|apply builtGroup_groupId].
  rewrite ready_readyState.
  destruct (readyState_distinct parseJSON parseCharDelays fes Hnd Hpk) as [_ ->].
  unfold getElemGroup. apply list_find_Some. split; [|split].
  - rewrite list_lookup_fmap, Hi. reflexivity.
  - apply builtGroup_groupId.
  - intros j g Hj Hlt Hid. rewrite list_lookup_fmap in Hj.
    destruct (fes !! j) as [fej|] eqn:Hfj; [|discriminate]. injection Hj as <-.
    rewrite builtGroup_groupId in Hid.
    assert (j = i); [|lia].
    eapply NoDup_lookup; [exact Hnd| |].
    + rewrite list_lookup_fmap, Hfj. reflexivity.
    + rewrite list_lookup_fmap, Hi. simpl. rewrite Hid. reflexivity.
Qed.

Lemma getElemGroup_finds_group_witness :
  let fes := [plainFirstElem "hero" [sampleMember 1];
              plainFirstElem "card" [sampleMember 2; sampleMember 3]] in
  exists g,
    getElemGroup "card" (page_groups (readyElementsForAnimation rejectAll rejectAll fes))
    = Some (1%nat, g)
    /\ ElemGroup.groupId g = "card"
    /\ memberTargets g = [2; 3]%nat.
Proof.
  intros fes.
  destruct (getElemGroup_finds_group rejectAll rejectAll fes 1
              (plainFirstElem "card" [sampleMember 2; sampleMember 3])) as [H1 H2].
  - apply (bool_decide_unpack _). vm_compute. exact I.
  - apply (bool_decide_unpack _). vm_compute. exact I.
  - reflexivity.
  - eexists. split; [exact H1|]. split; [exact H2 | reflexivity].
Defined.

(** X7 ([getAllElemGroups] after [readyElementsForAnimation]): every
    group is found under the first class of its first element (and under
    its name), whether or not its id was given a numeric suffix. *)
Theorem getAllElemGroups_finds_class (parseJSON : string -> option JSObject)
    (parseCharDelays : string -> option (list CharDelay)) (fes : list FirstElem)
    (i : nat) (fe : FirstElem) :
  fes !! i = Some fe ->
  let groups := page_groups (readyElementsForAnimation parseJSON parseCharDelays fes) in
  exists g,
    groups !! i = Some g
    /\ (i, g) ∈ getAllElemGroups (fe_class fe) groups
    /\ (i, g) ∈ getAllElemGroups (groupName fe) groups.
Proof.
  intros Hi groups. subst groups. rewrite ready_readyState.
  destruct (readyState_groups parseJSON parseCharDelays fes) as [_ Hg].
  destruct (Hg i fe Hi) as (used & Hlk).
  eexists. split; [exact Hlk|].
  assert (Hin : forall sub,
            includes (chooseGroupId used i fe) sub = true ->
            (i, builtGroup parseJSON parseCharDelays (chooseGroupId used i fe) fe)
            ∈ getAllElemGroups sub
                (page_groups (snd (readyState parseJSON parseCharDelays fes)))).
  { intros sub Hs. unfold getAllElemGroups. apply list_elem_of_filter. split.
    - simpl. rewrite builtGroup_groupId. exact Hs.
    - apply (elem_of_lookup_imap_2 (fun i g => (i, g))). exact Hlk. }
  split; apply Hin.
  - destruct (chooseGroupId_cases used i fe) as [-> | ->]; unfold groupName.
    + apply includes_prefix, string_prefix_app.
    + apply includes_app.
  - destruct (chooseGroupId_cases used i fe) as [-> | ->].
    + apply includes_prefix, string_prefix_refl.
    + apply includes_prefix, string_prefix_app.
Qed.

Lemma getAllElemGroups_finds_class_witness :
  let fes := [plainFirstElem "card" [sampleMember 1];
              plainFirstElem "card" [sampleMember 2]] in
  let groups := page_groups (readyElementsForAnimation rejectAll rejectAll fes) in
  exists g,
    groups !! 1%nat = Some g
    /\ ElemGroup.groupId g = "card1"
    /\ (1%nat, g) ∈ getAllElemGroups "card" groups.
Proof.
  intros fes groups.
  destruct (getAllElemGroups_finds_class rejectAll rejectAll fes 1 _ eq_refl)
    as (g & Hg & Hin & _).
  exists g. split; [exact Hg|]. split; [|exact Hin].
  vm_compute in Hg. injection Hg as <-. reflexivity.
Defined.

(** *** Listeners *)

Lemma js_set_fresh (o : JSObject) (k v : string) :
  k ∉ map fst o -> js_set o k v = o ++ [(k, v)].
Proof.
  induction o as [|[k' v'] o IH]; intros Hk; [reflexivity|].
  simpl in *. apply not_elem_of_cons in Hk as [Hne Hk].
  destruct (String.eqb_spec k' k) as [->|_]; [contradiction|].
  rewrite IH by exact Hk. reflexivity.
Qed.

Lemma js_get_NoDup (o : JSObject) (k v : string) :
  NoDup (map fst o) -> (k, v) ∈ o -> js_get o k = Some v.
Proof.
  unfold js_get. induction o as [|[k' v'] o IH]; intros Hnd Hin; [inversion Hin|].
  simpl in *. apply NoDup_cons in Hnd as [Hfresh Hnd].
  destruct (String.eqb_spec k' k) as [->|Hne].
  - apply elem_of_cons in Hin as [[= ->]|Hin]; [reflexivity|].
    exfalso. apply Hfresh. apply (list_elem_of_fmap_2 fst _ (k, v)) in Hin. exact Hin.
  - apply elem_of_cons in Hin as [[= -> ->]|Hin]; [contradiction|]. apply IH; assumption.
Qed.

Lemma hasOwnProperty_elem (o : JSObject) (k : string) :
  hasOwnProperty o k = true <-> k ∈ map fst o.
Proof.
  unfold hasOwnProperty. rewrite existsb_exists. split.
  - intros ([k' v'] & Hin & E). simpl in E. apply String.eqb_eq in E. subst k'.
    apply list_elem_of_In in Hin. apply (list_elem_of_fmap_2 fst _ (k, v')) in Hin. exact Hin.
  - intros Hin. apply list_elem_of_fmap_1 in Hin as ([k' v'] & -> & Hin).
    exists (k', v'). split; [apply list_elem_of_In, Hin | apply String.eqb_refl].
Qed.

Lemma eventName_inj g : Inj (=) (=) (eventName g).
Proof. intros k1 k2 H. unfold eventName in H. eapply String.app_inj, H. Qed.

(** [getEventStyles] on an object with distinct keys, none of them empty
    or [hasOwnProperty]: the abbreviations other than "run" and
    "iteration", each under its full event name, in the order of the
    object *)
Lemma getEventStyles_translated (o : JSObject) (g : ElemGroup.t) :
  NoDup (map fst o) ->
  hasOwnProperty o "" = false ->
  hasOwnProperty o "hasOwnProperty" = false ->
  getEventStyles o g
  = Some (map (fun p => (eventName g (fst p), snd p))
            (List.filter (fun p => negb (isReservedAbbrv (fst p))) o)).
Proof.
  intros Hnd Hempty Hshadow. unfold getEventStyles.
  match goal with |- context [fold_left ?f _ _] => set (F := f) end.
  assert (HF : forall (acc : JSObject) k v, (k, v) ∈ o ->
            F (Some acc) k
            = Some (if isReservedAbbrv k then acc else js_set acc (eventName g k) v)).
  { intros acc k v Hin. subst F. cbv beta zeta. unfold call_hasOwnProperty.
    assert (Hown : hasOwnProperty o k = true).
    { apply hasOwnProperty_elem. apply (list_elem_of_fmap_2 fst _ (k, v)) in Hin. exact Hin. }
    rewrite Hshadow, Hown, Hempty, (js_get_NoDup o k v Hnd Hin).
    cbn [default andb mbind option_bind].
    rewrite <- negb_orb. fold (isReservedAbbrv k). fold (eventName g k).
    destruct (isReservedAbbrv k); reflexivity. }
  clearbody F.
  assert (H : forall l (acc : JSObject),
            (forall p, p ∈ l -> p ∈ o) ->
            NoDup (map fst l) ->
            (forall p, p ∈ l -> eventName g (fst p) ∉ map fst acc) ->
            fold_left F (map fst l) (Some acc)
            = Some (acc ++ map (fun p => (eventName g (fst p), snd p))
                             (List.filter (fun p => negb (isReservedAbbrv (fst p))) l))).
  { induction l as [|[k v] l IH]; intros acc Hsub Hndl Hfresh.
    - simpl. rewrite app_nil_r. reflexivity.
    - cbn [map fold_left fst]. simpl in Hndl. apply NoDup_cons in Hndl as [Hk Hndl].
      assert (Hin : (k, v) ∈ o) by (apply Hsub; left).
      rewrite (HF acc k v Hin). cbn [List.filter fst].
      destruct (isReservedAbbrv k) eqn:Hres; cbn [negb].
      + apply IH.
        * intros p Hp. apply Hsub. right. exact Hp.
        * exact Hndl.
        * intros p Hp. apply Hfresh. right. exact Hp.
      + rewrite js_set_fresh by (apply (Hfresh (k, v)); left).
        rewrite IH.
        * rewrite <- app_assoc. reflexivity.
        * intros p Hp. apply Hsub. right. exact Hp.
        * exact Hndl.
        * intros p Hp. rewrite map_app. simpl. rewrite not_elem_of_app. split.
          -- apply Hfresh. right. exact Hp.
          -- intros H1. apply list_elem_of_singleton in H1.
             apply eventName_inj in H1. apply Hk. rewrite <- H1.
             apply (list_elem_of_fmap_2 fst _ p). exact Hp. }
  refine (H o [] _ Hnd _); [auto|].
  intros p _ Hp. inversion Hp.
Qed.

(** an own property named [hasOwnProperty] makes the first test of
    [getEventStyles] throw *)
Lemma getEventStyles_shadowed (o : JSObject) (g : ElemGroup.t) :
  hasOwnProperty o "hasOwnProperty" = true -> getEventStyles o g = None.
Proof.
  intros Hshadow. unfold getEventStyles.
  match goal with |- context [fold_left ?f _ _] => set (F := f) end.
  assert (HF : forall acc k, F acc k = None).
  { intros acc k. subst F. cbv beta zeta. unfold call_hasOwnProperty. rewrite Hshadow.
    destruct acc; reflexivity. }
  assert (Hne : map fst o <> []) by (destruct o; [discriminate | simpl; congruence]).
  clearbody F. clear Hshadow.
  assert (Hnone : forall l, fold_left F l None = None).
  { induction l as [|k l IH]; [reflexivity|].
    change (fold_left F l (F None k) = None). rewrite HF. exact IH. }
  destruct (map fst o) as [|k l]; [contradiction|].
  change (fold_left F l (F (Some []) k) = None). rewrite HF. apply Hnone.
Qed.

(** X8 ([addListeners], [getEventStyles], [listenAll]): for a listener
    attribute that parses to an object with distinct keys, none of them
    the empty string or [hasOwnProperty], every abbreviation other than
    "run" and "iteration" gets one listener per member of the group, under
    the full event name ("transition" or "animation" followed by the
    abbreviation), with the style given for it and the group's once flag;
    abbreviations are taken in the order of the object, members in the
    order of [elems]; nothing is logged. *)
Theorem addListeners_attaches (parseJSON : string -> option JSObject)
    (g : ElemGroup.t) (spec : string) (o : JSObject) :
  ElemGroup.listen g = Some spec ->
  spec <> "" ->
  parseJSON spec = Some o ->
  NoDup (map fst o) ->
  hasOwnProperty o "" = false ->
  hasOwnProperty o "hasOwnProperty" = false ->
  addListeners parseJSON g
  = (flat_map (fun p => listenersFor g (eventName g (fst p)) (snd p))
       (List.filter (fun p => negb (isReservedAbbrv (fst p))) o),
     []).
Proof.
  intros Hl Hne Hp Hnd Hempty Hshadow. unfold addListeners. rewrite Hl.
  destruct (String.eqb_spec spec ""); [contradiction|]. rewrite Hp. cbv zeta.
  rewrite (getEventStyles_translated o g Hnd Hempty Hshadow). f_equal.
  induction (List.filter _ o) as [|[k v] l IH]; [reflexivity|].
  simpl. rewrite IH. reflexivity.
Qed.

(** a group of two members that restyles on start and end *)
Lemma addListeners_attaches_witness :
  let g := ElemGroup.with_listen (Some "{...}")
             (new_ElemGroup sampleOptions [sampleMember 4; sampleMember 5] "card") in
  let o := [("start", "opacity: 1"); ("run", "color: red"); ("end", "opacity: 0")] in
  addListeners (fun _ => Some o) g
  = ([mkListener 4 "animationstart" "opacity: 1" false;
      mkListener 5 "animationstart" "opacity: 1" false;
      mkListener 4 "animationend" "opacity: 0" false;
      mkListener 5 "animationend" "opacity: 0" false], []).
Proof.
  intros g o.
  rewrite (addListeners_attaches (fun _ => Some o) g "{...}" o).
  - reflexivity.
  - reflexivity.
  - discriminate.
  - reflexivity.
  - apply (bool_decide_unpack _). vm_compute. exact I.
  - reflexivity.
  - reflexivity.
Defined.

(** *** Char delays *)

Lemma index_of_key_spec (k : Q) (i : nat) :
  index_of_key k = Some i -> (k - 1 == inject_Z (Z.of_nat i))%Q.
Proof.
  unfold index_of_key. intros H.
  destruct (Z.pos (Qden (Qred (k - 1))) =? 1) eqn:Hd; [|discriminate].
  destruct (0 <=? Qnum (Qred (k - 1))) eqn:Hn; [|discriminate].
  simpl in H. injection H as <-.
  apply Z.eqb_eq in Hd. apply Z.leb_le in Hn.
  rewrite Z2Nat.id by exact Hn.
  transitivity (Qred (k - 1)); [symmetry; apply Qred_correct|].
  destruct (Qred (k - 1)) as [n d]. simpl in *. injection Hd as ->.
  unfold inject_Z. reflexivity.
Qed.

(** the call [delaysObj.hasOwnProperty(k)] either throws or finds the key *)
Lemma delays_hasOwnProperty_cases (delaysObj : list CharDelay) :
  delays_hasOwnProperty delaysObj = None \/ delays_hasOwnProperty delaysObj = Some true.
Proof. unfold delays_hasOwnProperty. destruct (existsb _ _); auto. Qed.

Lemma delays_hasOwnProperty_app (pre rest : list CharDelay) :
  delays_hasOwnProperty (pre ++ rest) = Some true ->
  delays_hasOwnProperty pre = Some true /\ delays_hasOwnProperty rest = Some true.
Proof.
  unfold delays_hasOwnProperty. rewrite existsb_app.
  destruct (existsb _ pre); [discriminate|]. destruct (existsb _ rest); [discriminate|].
  auto.
Qed.

(** entries that address members have numbers for keys *)
Lemma delays_hasOwnProperty_fits (n : nat) (delays : list CharDelay) :
  Forall (charDelayFits n) delays -> delays_hasOwnProperty delays = Some true.
Proof.
  intros Hfit. unfold delays_hasOwnProperty.
  replace (existsb _ delays) with false; [reflexivity|].
  induction Hfit as [|d delays (i & ms & Hi & _) _ IH]; [reflexivity|].
  cbn [existsb]. rewrite <- IH. unfold charDelayIndex in Hi.
  destruct (cd_key d); [reflexivity | discriminate | discriminate].
Qed.

(** the loop reads the object only through the call of [hasOwnProperty] *)
Lemma setCharDelaysFrom_object (delaysObj delaysObj' delays : list CharDelay)
    (elems : list Elem.t) :
  delays_hasOwnProperty delaysObj = delays_hasOwnProperty delaysObj' ->
  setCharDelaysFrom delaysObj delays elems = setCharDelaysFrom delaysObj' delays elems.
Proof.
  intros Hobj. revert elems. induction delays as [|d delays IH]; intros elems; [reflexivity|].
  cbn [setCharDelaysFrom]. rewrite Hobj.
  destruct (delays_hasOwnProperty delaysObj') as [own|]; [|reflexivity].
  destruct (cd_key d) as [k| |name]; [|destruct own; [reflexivity | apply IH]|apply IH].
  destruct (own && Qle_bool _ _); [|apply IH].
  destruct (index_of_key k ≫= _) as [[i e]|]; [|reflexivity].
  destruct (cd_ms d) as [ms|]; [apply IH | reflexivity].
Qed.

Lemma charDelayFits_run (delaysObj : list CharDelay) (n : nat) (d : CharDelay)
    (elems : list Elem.t) :
  delays_hasOwnProperty delaysObj = Some true ->
  length elems = n ->
  charDelayFits n d ->
  forall rest,
  exists i ms e,
    charDelayIndex d = Some i /\ cd_ms d = Some ms /\ elems !! i = Some e
    /\ setCharDelaysFrom delaysObj (d :: rest) elems
       = setCharDelaysFrom delaysObj rest (<[i := Elem.with_uniqueDelay ms e]> elems).
Proof.
  intros Hobj Hlen (i & ms & Hi & Hlt & Hms) rest.
  destruct (lookup_lt_is_Some_2 elems i) as [e He]; [lia|].
  exists i, ms, e. split; [exact Hi|]. split; [exact Hms|]. split; [exact He|].
  unfold charDelayIndex in Hi. cbn [setCharDelaysFrom]. rewrite Hobj.
  destruct (cd_key d) as [k| |name]; [|discriminate|discriminate].
  assert (Hle : Qle_bool (k - 1) (inject_Z (Z.of_nat (length elems))) = true).
  { apply Qle_bool_iff. rewrite (index_of_key_spec k i Hi).
    rewrite <- Zle_Qle. lia. }
  rewrite Hle, Hi. simpl. rewrite He. simpl. rewrite Hms. reflexivity.
Qed.

Lemma setCharDelaysFrom_applies (delaysObj delays : list CharDelay) (elems : list Elem.t) :
  delays_hasOwnProperty delaysObj = Some true ->
  Forall (charDelayFits (length elems)) delays ->
  NoDup (omap charDelayIndex delays) ->
  snd (setCharDelaysFrom delaysObj delays elems) = true
  /\ length (fst (setCharDelaysFrom delaysObj delays elems)) = length elems
  /\ (forall d i ms e,
        d ∈ delays -> charDelayIndex d = Some i -> cd_ms d = Some ms ->
        elems !! i = Some e ->
        fst (setCharDelaysFrom delaysObj delays elems) !! i
        = Some (Elem.with_uniqueDelay ms e))
  /\ (forall j,
        (forall d, d ∈ delays -> charDelayIndex d <> Some j) ->
        fst (setCharDelaysFrom delaysObj delays elems) !! j = elems !! j).
Proof.
  intros Hobj. revert elems. induction delays as [|d delays IH]; intros elems Hfit Hnd.
  - simpl. repeat split.
    + intros d i ms e Hin. inversion Hin.
  - apply Forall_cons in Hfit as [Hd Hfit].
    destruct (charDelayFits_run delaysObj (length elems) d elems Hobj eq_refl Hd delays)
      as (i & ms & e & Hi & Hms & He & ->).
    change (omap charDelayIndex (d :: delays))
      with (match charDelayIndex d with
            | Some y => y :: omap charDelayIndex delays
            | None => omap charDelayIndex delays
            end) in Hnd.
    rewrite Hi in Hnd. apply NoDup_cons in Hnd as [Hfresh Hnd].
    assert (Hlen : length (<[i := Elem.with_uniqueDelay ms e]> elems) = length elems)
      by apply length_insert.
    destruct (IH (<[i := Elem.with_uniqueDelay ms e]> elems)) as (IH1 & IH2 & IH3 & IH4).
    { rewrite Hlen. exact Hfit. }
    { exact Hnd. }
    assert (Hrest : forall d', d' ∈ delays -> charDelayIndex d' <> Some i).
    { intros d' Hin E. apply Hfresh. apply list_elem_of_omap. exists d'. split; assumption. }
    split; [exact IH1|]. split; [rewrite IH2; exact Hlen|]. split.
    + intros d' i' ms' e' Hin Hi' Hms' He'.
      apply elem_of_cons in Hin as [->|Hin].
      * rewrite Hi in Hi'. injection Hi' as <-. rewrite Hms in Hms'. injection Hms' as <-.
        rewrite He in He'. injection He' as <-.
        rewrite (IH4 i Hrest). apply list_lookup_insert_eq.
        eapply lookup_lt_Some, He.
      * apply (IH3 d' i' ms' e' Hin Hi' Hms').
        rewrite list_lookup_insert_ne; [exact He'|].
        intros ->. exact (Hrest d' Hin Hi').
    + intros j Hj. rewrite (IH4 j).
      * apply list_lookup_insert_ne. intros ->. apply (Hj d); [left | exact Hi].
      * intros d' Hin. apply Hj. right. exact Hin.
Qed.

(** X9 ([updateCharUniqueDelays]): when every entry of the parsed object
    addresses a member (its key [k] is a whole number from 1 to the number
    of members) with a value [convertToMS] accepts, and no two entries
    address the same member, the loop ends without an error, the member
    [k - 1] of each entry carries the converted delay and is otherwise
    unchanged, and the members no entry addresses are untouched. *)
Theorem setCharDelays_applies (delays : list CharDelay) (elems : list Elem.t) :
  Forall (charDelayFits (length elems)) delays ->
  NoDup (omap charDelayIndex delays) ->
  snd (setCharDelays delays elems) = true
  /\ length (fst (setCharDelays delays elems)) = length elems
  /\ (forall d i ms e,
        d ∈ delays -> charDelayIndex d = Some i -> cd_ms d = Some ms ->
        elems !! i = Some e ->
        fst (setCharDelays delays elems) !! i = Some (Elem.with_uniqueDelay ms e))
  /\ (forall j,
        (forall d, d ∈ delays -> charDelayIndex d <> Some j) ->
        fst (setCharDelays delays elems) !! j = elems !! j).
Proof.
  intros Hfit Hnd. unfold setCharDelays.
  apply setCharDelaysFrom_applies; [|exact Hfit | exact Hnd].
  apply (delays_hasOwnProperty_fits (length elems)), Hfit.
Qed.

(** delays for the first and the third of three letters *)
Lemma setCharDelays_applies_witness :
  let elems := ElemGroup.elems
                 (new_ElemGroup sampleOptions
                    [sampleMember 0; sampleMember 1; sampleMember 2] "title-letters") in
  let delays := [mkCharDelay (KeyNumber 1%Q) (Some (Some 250%Q));
                 mkCharDelay (KeyNumber 3%Q) (Some (Some 500%Q))] in
  snd (setCharDelays delays elems) = true
  /\ map Elem.uniqueDelay (fst (setCharDelays delays elems))
     = [Some 250%Q; None; Some 500%Q].
Proof.
  intros elems delays.
  destruct (setCharDelays_applies delays elems) as (H1 & _).
  - repeat constructor.
    + exists 0%nat, (Some 250%Q). repeat split. simpl. lia.
    + exists 2%nat, (Some 500%Q). repeat split. simpl. lia.
  - apply (bool_decide_unpack _). vm_compute. exact I.
  - split; [exact H1 | reflexivity].
Defined.

Lemma setCharDelaysFrom_app (delaysObj pre rest : list CharDelay) (elems : list Elem.t) :
  setCharDelaysFrom delaysObj (pre ++ rest) elems
  = if snd (setCharDelaysFrom delaysObj pre elems)
    then setCharDelaysFrom delaysObj rest (fst (setCharDelaysFrom delaysObj pre elems))
    else setCharDelaysFrom delaysObj pre elems.
Proof.
  revert elems. induction pre as [|d pre IH]; intros elems; [reflexivity|].
  cbn [app setCharDelaysFrom].
  destruct (delays_hasOwnProperty delaysObj) as [own|]; [|reflexivity].
  destruct (cd_key d) as [k| |name]; [|destruct own; [reflexivity | apply IH]|apply IH].
  destruct (own && Qle_bool _ _); [|apply IH].
  destruct (index_of_key k ≫= _) as [[i e]|]; [|reflexivity].
  destruct (cd_ms d) as [ms|]; [apply IH | reflexivity].
Qed.

(** X10 ([updateCharUniqueDelays], the bound [k - 1 <= elems.length]): in
    an object with no key named [hasOwnProperty], an entry whose key
    passes the bound but addresses no member (the key one past the last
    member, the key 0, a fraction) makes the assignment throw: the delays
    set before it stay, the entries after it are not looked at, and the two
    lines that ask for properly formatted JSON are logged although the
    attribute parsed. *)
Theorem updateCharUniqueDelays_bound
    (parseCharDelays : string -> option (list CharDelay)) (fe : FirstElem)
    (g : ElemGroup.t) (spec : string) (pre post : list CharDelay) (d : CharDelay)
    (k : Q) :
  fe_charDelays fe = Some spec ->
  spec <> "" ->
  parseCharDelays spec = Some (pre ++ d :: post) ->
  delays_hasOwnProperty (pre ++ d :: post) = Some true ->
  snd (setCharDelays pre (ElemGroup.elems g)) = true ->
  cd_key d = KeyNumber k ->
  (k - 1 <= inject_Z (Z.of_nat (length (ElemGroup.elems g))))%Q ->
  (forall i, index_of_key k = Some i -> (length (ElemGroup.elems g) <= i)%nat) ->
  updateCharUniqueDelays parseCharDelays fe g
  = (ElemGroup.with_elems (fst (setCharDelays pre (ElemGroup.elems g))) g,
     [ErrorObject;
      ErrorText ("Please make sure the data-eca-char-delays object on "
                 +:+ fe_class fe +:+ " is properly formatted JSON.")]).
Proof.
  intros Hspec Hne Hparse Hobj Hpre Hk Hle Hcase.
  unfold updateCharUniqueDelays. rewrite Hspec.
  destruct (String.eqb_spec spec ""); [contradiction|]. rewrite Hparse.
  destruct (delays_hasOwnProperty_app pre (d :: post) Hobj) as [Hobjpre _].
  unfold setCharDelays in *.
  rewrite (setCharDelaysFrom_object pre (pre ++ d :: post) pre) in *
    by (rewrite Hobj, Hobjpre; reflexivity).
  set (delaysObj := pre ++ d :: post) in *.
  rewrite (setCharDelaysFrom_app delaysObj pre (d :: post)), Hpre.
  destruct (setCharDelaysFrom_targets delaysObj pre (ElemGroup.elems g)) as [_ Hlen].
  cbn [setCharDelaysFrom]. rewrite Hobj, Hk, Hlen.
  apply Qle_bool_iff in Hle. rewrite Hle. cbn [andb].
  assert (Hno : index_of_key k
                ≫= (fun i => (fun e => (i, e))
                             <$> fst (setCharDelaysFrom delaysObj pre (ElemGroup.elems g)) !! i)
                = None).
  { destruct (index_of_key k) as [i|] eqn:Hi; [|reflexivity]. simpl.
    rewrite lookup_ge_None_2; [reflexivity|]. rewrite Hlen. apply Hcase. reflexivity. }
  rewrite Hno. reflexivity.
Qed.

(** three letters; delays for letter 1, for "letter 4" and for letter 2 *)
Lemma updateCharUniqueDelays_bound_witness :
  let g := new_ElemGroup sampleOptions
             [sampleMember 0; sampleMember 1; sampleMember 2] "title-letters" in
  let fe := mkFirstElem "title" true sampleOptions
              [sampleMember 0; sampleMember 1; sampleMember 2] (Some "{...}") in
  let delays := [mkCharDelay (KeyNumber 1%Q) (Some (Some 250%Q));
                 mkCharDelay (KeyNumber 4%Q) (Some (Some 500%Q));
                 mkCharDelay (KeyNumber 2%Q) (Some (Some 750%Q))] in
  let r := updateCharUniqueDelays (fun _ => Some delays) fe g in
  map Elem.uniqueDelay (ElemGroup.elems (fst r)) = [Some 250%Q; None; None]
  /\ snd r
     = [ErrorObject;
        ErrorText "Please make sure the data-eca-char-delays object on title is properly formatted JSON."].
Proof.
  intros g fe delays r. subst r.
  rewrite (updateCharUniqueDelays_bound (fun _ => Some delays) fe g "{...}"
             [mkCharDelay (KeyNumber 1%Q) (Some (Some 250%Q))]
             [mkCharDelay (KeyNumber 2%Q) (Some (Some 750%Q))]
             (mkCharDelay (KeyNumber 4%Q) (Some (Some 500%Q))) 4%Q).
  - split; reflexivity.
  - reflexivity.
  - discriminate.
  - reflexivity.
  - reflexivity.
  - reflexivity.
  - reflexivity.
  - vm_compute. discriminate.
  - intros i Hi. vm_compute in Hi. injection Hi as <-. simpl. lia.
Defined.

(** *** An attribute with a key named hasOwnProperty *)

(** X26 ([addListeners], [getEventStyles]): a listener attribute that
    parses to an object with an own property named [hasOwnProperty]
    attaches no listener.  The first test of [getEventStyles] calls that
    property, which is no function, and throws; [addListeners] catches the
    error and logs it with the line that asks for properly formatted
    JSON, although the attribute parsed. *)
Theorem addListeners_shadowed (parseJSON : string -> option JSObject)
    (g : ElemGroup.t) (spec : string) (o : JSObject) :
  ElemGroup.listen g = Some spec ->
  spec <> "" ->
  parseJSON spec = Some o ->
  hasOwnProperty o "hasOwnProperty" = true ->
  getEventStyles o g = None
  /\ addListeners parseJSON g = ([], listenDiagnostic (ElemGroup.groupId g)).
Proof.
  intros Hl Hne Hp Hshadow.
  pose proof (getEventStyles_shadowed o g Hshadow) as Hnone.
  split; [exact Hnone|]. unfold addListeners. rewrite Hl.
  destruct (String.eqb_spec spec ""); [contradiction|]. rewrite Hp. cbv zeta.
  rewrite Hnone. reflexivity.
Qed.

(** a group that restyles on start, with a stray key *)
Lemma addListeners_shadowed_witness :
  let g := ElemGroup.with_listen (Some "{...}")
             (new_ElemGroup sampleOptions [sampleMember 4; sampleMember 5] "card") in
  let o := [("start", "opacity: 1"); ("hasOwnProperty", "x")] in
  addListeners (fun _ => Some o) g
  = ([], [ErrorObject;
          ErrorText "Please make sure the data-eca-listen object on card is properly formatted JSON."]).
Proof.
  intros g o.
  destruct (addListeners_shadowed (fun _ => Some o) g "{...}" o) as [_ H].
  - reflexivity.
  - discriminate.
  - reflexivity.
  - reflexivity.
  - rewrite H. reflexivity.
Defined.

(** X27 ([updateCharUniqueDelays]): a char-delays attribute that parses to
    an object with an own property named [hasOwnProperty] sets no delay.
    The test of the first key calls that property and throws, whatever the
    keys are: the members are as they were, and the error is logged with
    the line that asks for properly formatted JSON. *)
Theorem updateCharUniqueDelays_shadowed
    (parseCharDelays : string -> option (list CharDelay)) (fe : FirstElem)
    (g : ElemGroup.t) (spec : string) (delays : list CharDelay) (d : CharDelay) :
  fe_charDelays fe = Some spec ->
  spec <> "" ->
  parseCharDelays spec = Some delays ->
  d ∈ delays ->
  cd_key d = KeyOther "hasOwnProperty" ->
  updateCharUniqueDelays parseCharDelays fe g
  = (g,
     [ErrorObject;
      ErrorText ("Please make sure the data-eca-char-delays object on "
                 +:+ fe_class fe +:+ " is properly formatted JSON.")]).
Proof.
  intros Hspec Hne Hparse Hin Hkey.
  assert (Hobj : delays_hasOwnProperty delays = None).
  { unfold delays_hasOwnProperty.
    replace (existsb _ delays) with true; [reflexivity|].
    symmetry. apply existsb_exists. exists d. split; [apply list_elem_of_In, Hin|].
    rewrite Hkey. reflexivity. }
  unfold updateCharUniqueDelays. rewrite Hspec.
  destruct (String.eqb_spec spec ""); [contradiction|]. rewrite Hparse.
  unfold setCharDelays.
  destruct delays as [|d0 rest]; [inversion Hin|].
  cbn [setCharDelaysFrom]. rewrite Hobj. destruct g; reflexivity.
Qed.

(** three letters; a delay for the first letter, and a stray key *)
Lemma updateCharUniqueDelays_shadowed_witness :
  let g := new_ElemGroup sampleOptions
             [sampleMember 0; sampleMember 1; sampleMember 2] "title-letters" in
  let fe := mkFirstElem "title" true sampleOptions
              [sampleMember 0; sampleMember 1; sampleMember 2] (Some "{...}") in
  let delays := [mkCharDelay (KeyNumber 1%Q) (Some (Some 250%Q));
                 mkCharDelay (KeyOther "hasOwnProperty") (Some (Some 500%Q))] in
  let r := updateCharUniqueDelays (fun _ => Some delays) fe g in
  map Elem.uniqueDelay (ElemGroup.elems (fst r)) = [None; None; None]
  /\ snd r
     = [ErrorObject;
        ErrorText "Please make sure the data-eca-char-delays object on title is properly formatted JSON."].
Proof.
  intros g fe delays r. subst r.
  rewrite (updateCharUniqueDelays_shadowed (fun _ => Some delays) fe g "{...}" delays
             (mkCharDelay (KeyOther "hasOwnProperty") (Some (Some 500%Q)))).
  - split; reflexivity.
  - reflexivity.
  - discriminate.
  - reflexivity.
  - right. left.
  - reflexivity.
Defined.

(** *** The pass over the members *)

Lemma sameReadiness_refl g : sameReadiness g g.
Proof. split; [apply sameDecision_refl|]. split; reflexivity. Qed.

Lemma sameReadiness_ready wh g g' e :
  sameReadiness g g' ->
  isReadyToAnimate g' e = isReadyToAnimate g e
  /\ isReadyToDeanimate wh g' e = isReadyToDeanimate wh g e.
Proof.
  intros (Hd & Hr & Hu). split; [apply sameDecision_ready, Hd|].
  destruct Hd as (H1 & H2 & H3 & H4 & _). unfold isReadyToDeanimate.
  rewrite Hr, H2, H3, H4. unfold upToDateCoords in Hu.
  destruct (upToDateElem g') as [u'|], (upToDateElem g) as [u|]; simpl in Hu;
    try discriminate; [injection Hu as -> ->|]; reflexivity.
Qed.

Lemma decided_lookup wh g e :
  Elem.top (decided wh g e) = Elem.top e
  /\ Elem.bottom (decided wh g e) = Elem.bottom e
  /\ Elem.isVisible (decided wh g e) = Elem.isVisible e
  /\ Elem.target (decided wh g e) = Elem.target e.
Proof.
  unfold decided. destruct (isReadyToAnimate g e); [destruct e; repeat split|].
  destruct (isReadyToDeanimate wh g e); destruct e; repeat split.
Qed.

(** one member decided: only its animated flag may change, and what the
    group is asked by the readiness accessors stays the same *)
Lemma updateAnimations_decides wh i (g0 g : ElemGroup.t) dom e :
  sameReadiness g0 g ->
  ElemGroup.elems g !! i = Some e ->
  let s := updateAnimations wh i (g, dom) in
  ElemGroup.elems (fst s) = <[i := decided wh g0 e]> (ElemGroup.elems g)
  /\ sameReadiness g0 (fst s)
  /\ exists written,
       snd s = dom ++ written /\ classWrites written = decidedWrites wh g0 e.
Proof.
  intros Hsame He. destruct (sameReadiness_ready wh g0 g e Hsame) as [Ha Hd].
  unfold updateAnimations, decided, decidedWrites. cbn [fst]. rewrite He, Ha, Hd.
  assert (Hkeep : forall (g1 : ElemGroup.t) (b : bool),
            ElemGroup.elems g1 = ElemGroup.elems g ->
            sameDecision g g1 ->
            ElemGroup.removesAnimationWhenNotInView g1
            = ElemGroup.removesAnimationWhenNotInView g ->
            ElemGroup.upToDateELem g1 = ElemGroup.upToDateELem g ->
            ElemGroup.elems (set_isAnimated (JBool b) i g1)
            = <[i := Elem.with_isAnimated b e]> (ElemGroup.elems g)
            /\ sameReadiness g0 (set_isAnimated (JBool b) i g1)).
  { intros g1 b Hel Hdec Hrem Hut.
    assert (He1 : ElemGroup.elems g1 !! i = Some e) by (rewrite Hel; exact He).
    pose proof (set_isAnimated_elems g1 i e He1 (JBool b)) as Hset. simpl in Hset.
    split; [rewrite Hset, Hel; reflexivity|].
    destruct Hsame as (Hd0 & Hr0 & Hu0). split; [|split].
    - eapply sameDecision_trans; [exact Hd0|].
      eapply sameDecision_trans; [exact Hdec | apply set_isAnimated_sameDecision].
    - rewrite <- Hr0, <- Hrem. unfold set_isAnimated. rewrite He1.
      destruct (strict_neq_bool _ _); destruct g1; reflexivity.
    - rewrite <- Hu0. unfold upToDateCoords, upToDateElem.
      assert (Hu1 : ElemGroup.upToDateELem (set_isAnimated (JBool b) i g1)
                    = ElemGroup.upToDateELem g).
      { rewrite <- Hut. unfold set_isAnimated. rewrite He1.
        destruct (strict_neq_bool _ _); destruct g1; reflexivity. }
      rewrite Hu1, Hset, Hel. destruct (ElemGroup.upToDateELem g) as [u|]; [|reflexivity].
      simpl. destruct (decide (u = i)) as [->|Hne].
      + rewrite list_lookup_insert_eq by (eapply lookup_lt_Some, He).
        rewrite He. destruct e; reflexivity.
      + rewrite list_lookup_insert_ne by congruence. reflexivity. }
  destruct (isReadyToAnimate g0 e).
  - unfold animate. rewrite He. cbn [fst snd].
    set (g1 := match Elem.uniqueDelay e with
               | Some d => if Qeq_bool d 0 then updateNextStaggeredDelay g else g
               | None => updateNextStaggeredDelay g
               end).
    assert (H1 : ElemGroup.elems g1 = ElemGroup.elems g
                 /\ sameDecision g g1
                 /\ ElemGroup.removesAnimationWhenNotInView g1
                    = ElemGroup.removesAnimationWhenNotInView g
                 /\ ElemGroup.upToDateELem g1 = ElemGroup.upToDateELem g).
    { assert (Hn : ElemGroup.elems (updateNextStaggeredDelay g) = ElemGroup.elems g
                   /\ sameDecision g (updateNextStaggeredDelay g)
                   /\ ElemGroup.removesAnimationWhenNotInView (updateNextStaggeredDelay g)
                      = ElemGroup.removesAnimationWhenNotInView g
                   /\ ElemGroup.upToDateELem (updateNextStaggeredDelay g)
                      = ElemGroup.upToDateELem g).
      { split; [apply updateNextStaggeredDelay_agg|].
        split; [apply updateNextStaggeredDelay_sameDecision|].
        unfold updateNextStaggeredDelay.
        destruct (ElemGroup.nextStaggeredDelay g) as [d|];
          [destruct (negb (d =? 0)) | destruct (negb (ElemGroup.delayMultiplier g =? 0))];
          destruct g; split; reflexivity. }
      subst g1. destruct (Elem.uniqueDelay e) as [d|]; [destruct (Qeq_bool d 0)|];
        try exact Hn. repeat split. }
    destruct H1 as (Hel & Hdec & Hrem & Hut).
    destruct (Hkeep g1 true Hel Hdec Hrem Hut) as [Hk1 Hk2].
    split; [exact Hk1|]. split; [exact Hk2|].
    destruct (delay g e) as [d|].
    + eexists. rewrite <- app_assoc. split; reflexivity.
    + eexists. split; reflexivity.
  - destruct (isReadyToDeanimate wh g0 e).
    + unfold deAnimate. rewrite He. cbn [fst snd].
      destruct (Hkeep g false eq_refl (sameDecision_refl g) eq_refl eq_refl) as [Hk1 Hk2].
      split; [exact Hk1|]. split; [exact Hk2|]. eexists. split; reflexivity.
    + cbn [fst snd]. split; [symmetry; apply list_insert_id, He|].
      split; [exact Hsame|]. exists []. rewrite app_nil_r. split; reflexivity.
Qed.

(** the state after the first [i] members of a pass *)
Lemma pass_decided_prefix wh g dom (i : nat) :
  (i <= length (ElemGroup.elems g))%nat ->
  let s := fold_left (fun acc j => updateAnimations wh j acc) (seq 0 i) (g, dom) in
  ElemGroup.elems (fst s)
  = map (decided wh g) (take i (ElemGroup.elems g)) ++ drop i (ElemGroup.elems g)
  /\ sameReadiness g (fst s)
  /\ exists written,
       snd s = dom ++ written
       /\ classWrites written = flat_map (decidedWrites wh g) (take i (ElemGroup.elems g)).
Proof.
  induction i as [|i IH]; intros Hi.
  - simpl. rewrite drop_0. split; [reflexivity|]. split; [apply sameReadiness_refl|].
    exists []. rewrite app_nil_r. split; reflexivity.
  - rewrite seq_S, fold_left_app. simpl.
    specialize (IH ltac:(lia)). cbv zeta in IH.
    set (s := fold_left (fun acc j => updateAnimations wh j acc) (seq 0 i) (g, dom)) in *.
    destruct IH as (Hel & Hsame & written & Hdom & Hwr).
    destruct (lookup_lt_is_Some_2 (ElemGroup.elems g) i ltac:(lia)) as [e He].
    assert (Hlen : length (map (decided wh g) (take i (ElemGroup.elems g))) = i).
    { rewrite length_map, length_take. lia. }
    assert (Hsi : ElemGroup.elems (fst s) !! i = Some e).
    { rewrite Hel, lookup_app_r by lia. rewrite Hlen, Nat.sub_diag, lookup_drop, Nat.add_0_r.
      exact He. }
    destruct s as [gs ds]. cbn [fst snd] in *.
    destruct (updateAnimations_decides wh i g gs ds e Hsame Hsi)
      as (Hel' & Hsame' & written' & Hdom' & Hwr').
    split; [|split; [exact Hsame'|]].
    + rewrite Hel', Hel, (take_S_r _ _ _ He), map_app. simpl.
      rewrite insert_app_r_alt by lia. rewrite Hlen, Nat.sub_diag.
      rewrite (drop_S _ _ _ He). simpl. rewrite <- app_assoc. reflexivity.
    + exists (written ++ written'). rewrite Hdom', Hdom, app_assoc. split; [reflexivity|].
      unfold classWrites in *. rewrite List.filter_app, Hwr, Hwr'.
      rewrite (take_S_r _ _ _ He), flat_map_app. simpl. rewrite app_nil_r. reflexivity.
Qed.

(** X11 ([updateOne], [updateAnimations], [animate], [deAnimate]): in one
    pass over the members of a group every member is decided on the state
    the pass started in: it is animated when it was ready to animate,
    de-animated when it was ready to de-animate, and left alone
    otherwise, whatever was done to the members before it; apart from the
    delays, the pass writes the class (and, on removal, the saved inline
    style) of exactly these members, in the order of [elems]. *)
Theorem pass_decides_on_start (wh : Q) (g : ElemGroup.t) (dom : list DomWrite) :
  let s := forEach_elem (updateAnimations wh) (length (ElemGroup.elems g)) (g, dom) in
  ElemGroup.elems (fst s) = map (decided wh g) (ElemGroup.elems g)
  /\ exists written,
       snd s = dom ++ written
       /\ classWrites written = flat_map (decidedWrites wh g) (ElemGroup.elems g).
Proof.
  destruct (pass_decided_prefix wh g dom (length (ElemGroup.elems g)) (le_n _))
    as (Hel & _ & written & Hdom & Hwr).
  rewrite firstn_all, drop_all, app_nil_r in Hel. rewrite firstn_all in Hwr.
  unfold forEach_elem. split; [exact Hel|]. exists written. split; assumption.
Qed.

(** a member the pass has decided is ready for nothing *)
Lemma decided_settled wh g e :
  (Elem.isVisible e = true -> ElemGroup.isVisible g = true) ->
  isReadyToAnimate g (decided wh g e) = false
  /\ isReadyToDeanimate wh g (decided wh g e) = false.
Proof.
  intros Hvis. unfold decided.
  destruct (isReadyToAnimate g e) eqn:Ha.
  - split.
    + unfold isReadyToAnimate. destruct e; reflexivity.
    + unfold isReadyToAnimate in Ha. unfold isReadyToDeanimate.
      destruct e as [tp bt v a th oth ud tg st]; simpl in *.
      destruct a; [discriminate|]. simpl in Ha.
      destruct (ElemGroup.isDelaying g); [discriminate|].
      destruct (StrOpt_truthy (ElemGroup.removesAnimationWhenNotInView g)); [|reflexivity].
      destruct (ElemGroup.playsOnLoad g); [reflexivity|]. simpl.
      destruct v.
      * rewrite (Hvis eq_refl).
        destruct (ElemGroup.removesAnimationWhenNotInView g) as [| |s]; try reflexivity;
          [destruct (ElemGroup.animatesAllOnFirstSight g); reflexivity|].
        destruct (String.eqb s "below");
          [destruct (ElemGroup.animatesAllOnFirstSight g); reflexivity|].
        destruct (String.eqb s "above");
          [destruct (ElemGroup.animatesAllOnFirstSight g); reflexivity | reflexivity].
      * simpl in Ha. apply andb_prop in Ha as [-> ->].
        destruct (ElemGroup.removesAnimationWhenNotInView g) as [| |s]; try reflexivity.
        destruct (String.eqb s "below"); [reflexivity|].
        destruct (String.eqb s "above"); reflexivity.
  - destruct (isReadyToDeanimate wh g e) eqn:Hd.
    + split.
      * unfold isReadyToAnimate in *. unfold isReadyToDeanimate in Hd.
        destruct e as [tp bt v a th oth ud tg st]; simpl in *.
        destruct (ElemGroup.isDelaying g); [reflexivity|].
        destruct (StrOpt_truthy (ElemGroup.removesAnimationWhenNotInView g));
          [|discriminate].
        destruct (ElemGroup.playsOnLoad g); [discriminate|].
        destruct a; [|discriminate]. simpl in *.
        assert (Hnot : (if ElemGroup.animatesAllOnFirstSight g
                        then negb (ElemGroup.isVisible g) else negb v) = true).
        { destruct (ElemGroup.removesAnimationWhenNotInView g) as [| |s];
            [discriminate | exact Hd |].
          destruct (String.eqb s "below").
          - destruct (ElemGroup.animatesAllOnFirstSight g);
              apply andb_prop in Hd as [Hd _]; exact Hd.
          - destruct (String.eqb s "above"); [|discriminate].
            destruct (ElemGroup.animatesAllOnFirstSight g);
              apply andb_prop in Hd as [Hd _]; exact Hd. }
        destruct (ElemGroup.animatesAllOnFirstSight g).
        -- apply negb_true_iff in Hnot. rewrite Hnot.
           destruct v; [rewrite (Hvis eq_refl) in Hnot; discriminate | reflexivity].
        -- apply negb_true_iff in Hnot. subst v. reflexivity.
      * unfold isReadyToDeanimate. destruct e; simpl.
        rewrite orb_true_r. reflexivity.
    + split; assumption.
Qed.

(** a pass over members that are ready for nothing changes nothing *)
Lemma pass_settled wh (s : Written) (idxs : list nat) :
  (forall e, e ∈ ElemGroup.elems (fst s) ->
     isReadyToAnimate (fst s) e = false /\ isReadyToDeanimate wh (fst s) e = false) ->
  fold_left (fun acc j => updateAnimations wh j acc) idxs s = s.
Proof.
  intros Hs. induction idxs as [|i idxs IH]; [reflexivity|].
  simpl. assert (E : updateAnimations wh i s = s); [|rewrite E; exact IH].
  unfold updateAnimations. destruct (ElemGroup.elems (fst s) !! i) as [e|] eqn:He; [|reflexivity].
  destruct (Hs e (list_elem_of_lookup_2 _ _ _ He)) as [-> ->]. reflexivity.
Qed.

Lemma updateMutableProps_sameReadiness g : sameReadiness g (updateMutableProps g).
Proof.
  unfold updateMutableProps. destruct g; simpl.
  destruct (_ =? 0); repeat split.
Qed.

Lemma sameReadiness_trans g1 g2 g3 :
  sameReadiness g1 g2 -> sameReadiness g2 g3 -> sameReadiness g1 g3.
Proof.
  intros (Hd & Hr & Hu) (Hd' & Hr' & Hu'). split; [|split].
  - eapply sameDecision_trans; eassumption.
  - congruence.
  - congruence.
Qed.

Lemma updateMutableProps_idem g :
  updateMutableProps (updateMutableProps g) = updateMutableProps g.
Proof.
  unfold updateMutableProps. destruct g as [? ? ? ? ? ? gd ogd ? ? ? na ? ? ? ? ? ? ? ? ? ?].
  simpl. destruct (na =? 0) eqn:Hna; simpl; rewrite ?Hna; [|reflexivity].
  destruct (gd =? 0) eqn:Hgd; simpl; [|rewrite Hgd; reflexivity].
  destruct (ogd =? 0); reflexivity.
Qed.

(** X12 ([updateOne], [updateMutableProps]): on a group that is visible
    whenever one of its members is, the pass is idempotent: run again
    without new readings, it animates and de-animates no member, writes
    nothing to the document and leaves the group as the first run left
    it. *)
Theorem memberPass_idempotent (wh : Q) (g : ElemGroup.t) (dom : list DomWrite) :
  visibleWithMember g ->
  memberPass wh (memberPass wh (g, dom)) = memberPass wh (g, dom).
Proof.
  intros Hvis. unfold memberPass at 2. unfold forEach_elem. cbn [fst snd].
  destruct (pass_decided_prefix wh g dom (length (ElemGroup.elems g)) (le_n _))
    as (Hel & Hsame & _).
  rewrite firstn_all, drop_all, app_nil_r in Hel.
  set (s1 := fold_left (fun acc j => updateAnimations wh j acc)
               (seq 0 (length (ElemGroup.elems g))) (g, dom)) in *.
  assert (Hel1 : ElemGroup.elems (updateMutableProps (fst s1))
                 = map (decided wh g) (ElemGroup.elems g)).
  { rewrite <- Hel. unfold updateMutableProps. destruct (fst s1); simpl.
    destruct (_ =? 0); reflexivity. }
  unfold memberPass, forEach_elem. cbn [fst snd].
  rewrite pass_settled.
  - cbn [fst snd]. rewrite updateMutableProps_idem. reflexivity.
  - cbn [fst]. intros e' He'. rewrite Hel1 in He'.
    apply list_elem_of_fmap_1 in He' as (e & -> & He).
    pose proof (sameReadiness_trans _ _ _ Hsame (updateMutableProps_sameReadiness (fst s1)))
      as Hs2.
    destruct (sameReadiness_ready wh g _ (decided wh g e) Hs2) as [-> ->].
    apply decided_settled. intros Hv. exact (Hvis e He Hv).
Qed.

(** three cards in view, two of them staggered in the first pass *)
Lemma memberPass_idempotent_witness :
  visibleWithMember sampleGroupInView
  /\ memberPass 500 (memberPass 500 (sampleGroupInView, []))
     = memberPass 500 (sampleGroupInView, [])
  /\ length (snd (memberPass 500 (sampleGroupInView, []))) = 6%nat.
Proof.
  assert (Hvis : visibleWithMember sampleGroupInView).
  { intros e _ _. reflexivity. }
  split; [exact Hvis|].
  split; [exact (memberPass_idempotent 500 sampleGroupInView [] Hvis) | reflexivity].
Defined.

(** *** Invariants of the page, carried through the events *)

Section WorldInvariant.
Variable I : World.t -> Prop.
Hypothesis I_layout : forall lay w, I w -> I (World.with_layout lay w).
Hypothesis I_heights : forall p c w, I w -> I (World.with_windowHeights p c w).
Hypothesis I_updating : forall b w, I w -> I (World.with_updating b w).
Hypothesis I_frames : forall cbs w, I w -> I (World.with_frameCallbacks cbs w).
Hypothesis I_thresholds : forall w, I w ->
  I (World.with_elemGroups
       (map (correctThresholds (World.windowHeight w) (World.layout w))
            (World.elemGroups w)) w).
Hypothesis I_readAll : forall w, I w -> I (readAll w).
Hypothesis I_delayGroup : forall gi w, I w -> I (delayGroup gi w).
Hypothesis I_pass : forall gi g idxs w,
  I w -> World.elemGroups w !! gi = Some g ->
  I (World.with_dom
       (snd (fold_left (fun acc i => updateAnimations (World.windowHeight w) i acc)
               idxs (g, World.dom w)))
       (World.with_group gi
          (updateMutableProps
             (fst (fold_left (fun acc i => updateAnimations (World.windowHeight w) i acc)
                     idxs (g, World.dom w))))
          w)).
Hypothesis I_fireTimer : forall id w, I w -> I (fireTimer id w).

Lemma worldInv_updateOne gi w : I w -> I (updateOne gi w).
Proof.
  intros Hw. unfold updateOne.
  destruct (World.elemGroups w !! gi) as [g|] eqn:Hg; [|exact Hw].
  destruct (_ && _); [apply I_delayGroup, Hw|].
  unfold memberPass, forEach_elem. cbn [fst snd]. apply I_pass; assumption.
Qed.

Lemma worldInv_fold {A} (f : World.t -> A -> World.t) (l : list A) w :
  (forall w a, I w -> I (f w a)) -> I w -> I (fold_left f l w).
Proof.
  intros Hf. revert w. induction l as [|a l IH]; intros w Hw; simpl; auto.
Qed.

Lemma worldInv_updateAll w : I w -> I (updateAll w).
Proof.
  unfold updateAll. apply worldInv_fold. intros w' gi Hw'.
  destruct (World.elemGroups w' !! gi) as [g|]; [|exact Hw'].
  destruct (isProcessed g); [apply worldInv_updateOne, Hw' | exact Hw'].
Qed.

Lemma worldInv_updateEntries subs w : I w -> I (updateEntries subs w).
Proof.
  unfold updateEntries. apply worldInv_fold. intros w' [gi entries] Hw'.
  destruct (World.elemGroups w' !! gi) as [g|] eqn:Hg; [|exact Hw'].
  destruct (ElemGroup.isDelaying g); [exact Hw'|].
  destruct (_ && _); [apply I_delayGroup, Hw'|].
  destruct (ElemGroup.animatesAllOnFirstSight g); [unfold forEach_elem|];
    apply I_pass; assumption.
Qed.

Lemma worldInv_runFrameCb cb w : I w -> I (runFrameCb cb w).
Proof.
  intros Hw. destruct cb as [[|subs]|gi]; unfold runFrameCb, runUpdateCb.
  - apply I_updating, worldInv_updateAll, Hw.
  - apply I_updating. destruct subs as [|p subs]; [exact Hw|].
    apply worldInv_updateEntries, Hw.
  - apply worldInv_updateOne, Hw.
Qed.

Lemma worldInv_requestAnimationUpdate u w :
  I w -> I (requestAnimationUpdate readAll u w).
Proof.
  intros Hw. unfold requestAnimationUpdate.
  destruct (negb (World.updating w)); [|exact Hw].
  unfold requestAnimationFrame. apply I_frames, I_readAll, I_updating, Hw.
Qed.

Lemma worldInv_step ev w : I w -> I (step ev w).
Proof.
  intros Hw. destruct ev as [lay|ch lay|id|]; simpl.
  - destruct (World.useScroll w);
      [apply worldInv_requestAnimationUpdate|]; apply I_layout, Hw.
  - unfold ecaHandleResize.
    match goal with |- context [World.with_elemGroups ?l ?w1] =>
      assert (H2 : I (World.with_elemGroups l w1)) end.
    { apply (I_thresholds (World.with_windowHeights _ ch (World.with_layout lay w))).
      apply I_heights, I_layout, Hw. }
    destruct (World.useScroll _); [apply worldInv_requestAnimationUpdate, H2 | exact H2].
  - apply I_fireTimer, Hw.
  - unfold runFrame. apply worldInv_fold.
    + intros w' cb. apply worldInv_runFrameCb.
    + apply I_frames, Hw.
Qed.

Lemma worldInv_run evs w : I w -> I (run evs w).
Proof.
  revert w. induction evs as [|ev evs IH]; intros w Hw; simpl; [exact Hw|].
  apply IH, worldInv_step, Hw.
Qed.

Lemma worldInv_loadedWorld groups ch us lay :
  I (initialWorld groups ch us lay) -> I (loadedWorld groups ch us lay).
Proof.
  intros H. unfold loadedWorld, runInitialAnimations.
  destruct (World.useScroll _); [apply worldInv_requestAnimationUpdate|]; exact H.
Qed.
End WorldInvariant.

(** *** The groups bootstrap builds *)

Lemma setCharDelaysFrom_sameButDelay delaysObj delays elems :
  Forall2 sameButDelay elems (fst (setCharDelaysFrom delaysObj delays elems)).
Proof.
  assert (Hrefl : forall l, Forall2 sameButDelay l l).
  { intros l. apply Forall2_same_length_lookup_2; [reflexivity|].
    intros i e e' H1 H2. rewrite H1 in H2. injection H2 as <-.
    unfold sameButDelay. destruct e; reflexivity. }
  assert (Htrans : forall l1 l2 l3,
            Forall2 sameButDelay l1 l2 -> Forall2 sameButDelay l2 l3 ->
            Forall2 sameButDelay l1 l3).
  { intros l1 l2 l3. apply Forall2_trans. intros e1 e2 e3 H12 H23.
    unfold sameButDelay in *. rewrite H23, H12. destruct e1, e3; reflexivity. }
  revert elems. induction delays as [|d delays IH]; intros elems; [apply Hrefl|].
  cbn [setCharDelaysFrom].
  destruct (delays_hasOwnProperty delaysObj) as [own|]; [|apply Hrefl].
  destruct (cd_key d) as [k| |name]; [|destruct own; [apply Hrefl | apply IH]|apply IH].
  destruct (own && Qle_bool _ _); [|apply IH].
  destruct (index_of_key k ≫= _) as [[i e]|] eqn:Hi; [|apply Hrefl].
  destruct (cd_ms d) as [ms|]; [|apply Hrefl].
  eapply Htrans; [|apply IH].
  destruct (index_of_key k) as [i'|]; [|discriminate]. simpl in Hi.
  destruct (elems !! i') as [e'|] eqn:He; [|discriminate]. injection Hi as <- <-.
  rewrite <- (list_insert_id elems i' e' He) at 1.
  apply Forall2_insert; [apply Hrefl|]. unfold sameButDelay. destruct e'; reflexivity.
Qed.

Lemma setCharDelays_sameButDelay delays elems :
  Forall2 sameButDelay elems (fst (setCharDelays delays elems)).
Proof. apply setCharDelaysFrom_sameButDelay. Qed.

(** the group of a first element: the group its constructor made, the
    unique delays of a text group set, the members possibly reversed *)
Lemma builtGroup_members parseJSON parseCharDelays id fe :
  exists els,
    Forall2 sameButDelay
      (ElemGroup.elems (new_ElemGroup (fe_options fe) (fe_members fe) id)) els
    /\ builtGroup parseJSON parseCharDelays id fe
       = if ecaReverse (fe_options fe)
         then reverseElems (ElemGroup.with_elems els
                              (new_ElemGroup (fe_options fe) (fe_members fe) id))
         else ElemGroup.with_elems els
                (new_ElemGroup (fe_options fe) (fe_members fe) id).
Proof.
  set (g0 := new_ElemGroup (fe_options fe) (fe_members fe) id).
  assert (Hrefl : Forall2 sameButDelay (ElemGroup.elems g0) (ElemGroup.elems g0)).
  { apply (setCharDelays_sameButDelay [] (ElemGroup.elems g0)). }
  assert (H1 : exists els,
             Forall2 sameButDelay (ElemGroup.elems g0) els
             /\ fst (if fe_isText fe
                     then updateCharUniqueDelays parseCharDelays fe g0
                     else (g0, []))
                = ElemGroup.with_elems els g0).
  { destruct (fe_isText fe); [|exists (ElemGroup.elems g0); split; [exact Hrefl | reflexivity]].
    unfold updateCharUniqueDelays.
    destruct (fe_charDelays fe) as [spec|];
      [|exists (ElemGroup.elems g0); split; [exact Hrefl | reflexivity]].
    destruct (String.eqb spec "");
      [exists (ElemGroup.elems g0); split; [exact Hrefl | reflexivity]|].
    destruct (parseCharDelays spec) as [delays|];
      [|exists (ElemGroup.elems g0); split; [exact Hrefl | reflexivity]].
    pose proof (setCharDelays_sameButDelay delays (ElemGroup.elems g0)) as Hs.
    destruct (setCharDelays delays _) as [els ok]. exists els. split; [exact Hs | reflexivity]. }
  destruct H1 as (els & Hs & E). exists els. split; [exact Hs|].
  unfold builtGroup, readyGroup. cbn [fst snd]. fold g0. rewrite E. reflexivity.
Qed.

Lemma Forall_builtGroups_in parseJSON parseCharDelays (P : ElemGroup.t -> Prop) fes :
  (forall id fe, fe ∈ fes -> P (builtGroup parseJSON parseCharDelays id fe)) ->
  Forall P (page_groups (readyElementsForAnimation parseJSON parseCharDelays fes)).
Proof.
  intros HP. rewrite ready_readyState.
  destruct (readyState_groups parseJSON parseCharDelays fes) as [Hlen Hg].
  apply Forall_lookup_2. intros i g Hi.
  destruct (lookup_lt_is_Some_2 fes i) as [fe Hfe].
  { rewrite <- Hlen. eapply lookup_lt_Some, Hi. }
  destruct (Hg i fe Hfe) as (used & Hlk). rewrite Hlk in Hi. injection Hi as <-.
  apply HP. eapply list_elem_of_lookup_2, Hfe.
Qed.

Lemma Forall_builtGroups parseJSON parseCharDelays (P : ElemGroup.t -> Prop) fes :
  (forall id fe, P (builtGroup parseJSON parseCharDelays id fe)) ->
  Forall P (page_groups (readyElementsForAnimation parseJSON parseCharDelays fes)).
Proof. intros HP. apply Forall_builtGroups_in. intros id fe _. apply HP. Qed.

(** *** The visibility counters *)

Lemma countElems_reverse (f : Elem.t -> bool) (l : list Elem.t) :
  countElems f (reverse l) = countElems f l.
Proof.
  assert (Happ : forall l1 l2, countElems f (l1 ++ l2) = countElems f l1 + countElems f l2).
  { induction l1 as [|x l1 IH]; intros l2; simpl; [reflexivity|]. rewrite IH. lia. }
  induction l as [|x l IH]; [reflexivity|].
  rewrite reverse_cons, Happ, IH. simpl. lia.
Qed.

Lemma set_isVisible_bool_inv (b : bool) (i : nat) (g : ElemGroup.t) :
  visibilityInv g -> visibilityInv (set_isVisible (JBool b) i g).
Proof.
  intros [Hc Hv].
  destruct (ElemGroup.elems g !! i) as [e|] eqn:Hi;
    [| unfold set_isVisible; rewrite Hi; split; assumption].
  assert (Hcount : ElemGroup.numElemsVisible (set_isVisible (JBool b) i g)
                   = countElems Elem.isVisible
                       (ElemGroup.elems (set_isVisible (JBool b) i g))).
  { rewrite (set_isVisible_elems g i e Hi), (set_isVisible_count g i e Hi).
    rewrite (countElems_insert _ _ _ e _ Hi), Hc.
    destruct e as [? ? v ? ? ? ? ? ?]; simpl. destruct b, v; simpl; lia. }
  split; [exact Hcount|].
  unfold set_isVisible. rewrite Hi.
  destruct (strict_neq_bool (JBool b) (Elem.isVisible e)) eqn:Hs.
  - left. unfold updateVisibility. destruct g; reflexivity.
  - destruct g; simpl in *. exact Hv.
Qed.

Lemma calculateVisibility_visibilityInv wh lay i g :
  visibilityInv g -> visibilityInv (calculateVisibility wh lay i g).
Proof.
  intros Hg. unfold calculateVisibility.
  destruct (ElemGroup.elems g !! i) as [e|] eqn:Hi; [|exact Hg].
  apply set_isVisible_bool_inv. destruct Hg as [Hc Hv].
  split; [|destruct g; exact Hv].
  destruct g; simpl in *. rewrite (countElems_insert _ _ _ e _ Hi), Hc.
  destruct e as [? ? v ? ? ? ? ? ?]; simpl. destruct v; lia.
Qed.

(** what is the same of two groups whose members differ in nothing the
    visibility counters look at *)
Lemma visibilityInv_same g g' :
  map Elem.isVisible (ElemGroup.elems g') = map Elem.isVisible (ElemGroup.elems g) ->
  ElemGroup.numElemsVisible g' = ElemGroup.numElemsVisible g ->
  ElemGroup.isVisible g' = ElemGroup.isVisible g ->
  ElemGroup.playsOnLoad g' = ElemGroup.playsOnLoad g ->
  visibilityInv g -> visibilityInv g'.
Proof.
  intros Hm Hn Hv Hp [Hc Hd]. unfold visibilityInv.
  rewrite Hn, Hv, Hp, (countElems_map _ _ _ Hm). split; assumption.
Qed.

Lemma updateAnimations_visibility wh i (s : Written) :
  map Elem.isVisible (ElemGroup.elems (fst (updateAnimations wh i s)))
  = map Elem.isVisible (ElemGroup.elems (fst s))
  /\ ElemGroup.numElemsVisible (fst (updateAnimations wh i s))
     = ElemGroup.numElemsVisible (fst s)
  /\ ElemGroup.isVisible (fst (updateAnimations wh i s)) = ElemGroup.isVisible (fst s)
  /\ ElemGroup.playsOnLoad (fst (updateAnimations wh i s)) = ElemGroup.playsOnLoad (fst s).
Proof.
  destruct s as [g dom].
  destruct (ElemGroup.elems g !! i) as [e|] eqn:He;
    [|unfold updateAnimations; cbn [fst]; rewrite He; repeat split].
  destruct (updateAnimations_decides wh i g g dom e (sameReadiness_refl g) He)
    as (Hel & ((_ & Hp & _ & Hv & _) & _) & _).
  cbn [fst] in *. split; [|split; [|split; assumption]].
  - rewrite Hel, list_fmap_insert. apply list_insert_id.
    rewrite list_lookup_fmap, He. simpl. f_equal. symmetry. apply decided_lookup.
  - unfold updateAnimations. cbn [fst]. rewrite He.
    destruct (isReadyToAnimate g e).
    + unfold animate. rewrite He. cbn [fst].
      match goal with |- context [set_isAnimated _ _ ?g1] =>
        assert (H1 : ElemGroup.numElemsVisible g1 = ElemGroup.numElemsVisible g
                     /\ ElemGroup.elems g1 = ElemGroup.elems g);
        [|destruct H1 as [H1 H2]; unfold set_isAnimated; rewrite H2, He;
          destruct (strict_neq_bool _ _); destruct g1; exact H1]
      end.
      assert (Hn : ElemGroup.numElemsVisible (updateNextStaggeredDelay g)
                   = ElemGroup.numElemsVisible g
                   /\ ElemGroup.elems (updateNextStaggeredDelay g) = ElemGroup.elems g).
      { unfold updateNextStaggeredDelay.
        destruct (ElemGroup.nextStaggeredDelay g) as [d|];
          [destruct (negb (d =? 0)) | destruct (negb (ElemGroup.delayMultiplier g =? 0))];
          destruct g; split; reflexivity. }
      destruct (Elem.uniqueDelay e) as [d|]; [destruct (Qeq_bool d 0)|];
        try exact Hn; split; reflexivity.
    + destruct (isReadyToDeanimate wh g e); [|reflexivity].
      unfold deAnimate. rewrite He. cbn [fst]. unfold set_isAnimated. rewrite He.
      destruct (strict_neq_bool _ _); destruct g; reflexivity.
Qed.

Lemma pass_visibilityInv wh idxs g dom :
  visibilityInv g ->
  visibilityInv
    (updateMutableProps
       (fst (fold_left (fun acc i => updateAnimations wh i acc) idxs (g, dom)))).
Proof.
  intros Hg.
  assert (H : visibilityInv
                (fst (fold_left (fun acc i => updateAnimations wh i acc) idxs (g, dom)))).
  { change g with (fst (g, dom)) in Hg. revert Hg. generalize (g, dom).
    induction idxs as [|i idxs IH]; intros s Hs; simpl; [exact Hs|].
    apply IH. destruct (updateAnimations_visibility wh i s) as (H1 & H2 & H3 & H4).
    exact (visibilityInv_same _ _ H1 H2 H3 H4 Hs). }
  revert H. apply visibilityInv_same;
    unfold updateMutableProps; destruct (fst _); simpl; destruct (_ =? 0); reflexivity.
Qed.

Lemma builtGroup_visibilityInv parseJSON parseCharDelays id fe :
  visibilityInv (builtGroup parseJSON parseCharDelays id fe).
Proof.
  destruct (builtGroup_members parseJSON parseCharDelays id fe) as (els & Hs & ->).
  assert (Hfalse : Forall (fun e => Elem.isVisible e = false) els).
  { apply Forall_lookup_2. intros i e' He'.
    destruct (Forall2_lookup_r _ _ _ _ _ Hs He') as (e & He & Hsame).
    simpl in He. rewrite list_lookup_fmap in He.
    destruct (fe_members fe !! i) as [m|]; [|discriminate]. injection He as <-.
    rewrite Hsame. reflexivity. }
  assert (H0 : countElems Elem.isVisible els = 0) by (apply countElems_all_false, Hfalse).
  destruct (ecaReverse (fe_options fe)); unfold visibilityInv, reverseElems; simpl;
    rewrite ?countElems_reverse, H0; (split; [reflexivity|]);
    destruct (ecaPlayOnLoad (fe_options fe)); auto.
Qed.

(** X13 ([Elem.isVisible] setter, [updateVisibility], through every
    event): on every page the events reach from bootstrap, each group's
    [numElemsVisible] is the number of its members whose visible flag is
    set, and the group is visible exactly when that number is positive,
    but for a group that plays on load, which starts out visible and
    stays so until the first reading changes a member. *)
Theorem visibility_aggregate (parseJSON : string -> option JSObject)
    (parseCharDelays : string -> option (list CharDelay)) (fes : list FirstElem)
    (clientHeight : Q) (useScroll : bool) (lay : Layout) (evs : list Event) :
  allGroups visibilityInv
    (run evs (bootedWorld parseJSON parseCharDelays fes clientHeight useScroll lay)).
Proof.
  assert (Hread : forall wh lay' g, visibilityInv g -> visibilityInv (readOne wh lay' g)).
  { intros wh lay' g Hg. unfold readOne, forEach_elem.
    generalize (seq 0 (length (ElemGroup.elems g))). intros l. revert g Hg.
    induction l as [|i l IH]; intros g Hg; simpl; [exact Hg|].
    apply IH, calculateVisibility_visibilityInv, Hg. }
  apply allGroups_run.
  - exact Hread.
  - intros wh idxs g dom. apply pass_visibilityInv.
  - intros id g. apply visibilityInv_same; destruct g; reflexivity.
  - intros g. apply visibilityInv_same; destruct g; reflexivity.
  - intros wh lay' g. apply visibilityInv_same; try (destruct g; reflexivity).
    unfold correctThresholds. destruct g; simpl. rewrite map_map. apply map_ext.
    intros e. unfold correctThreshold.
    repeat match goal with |- context [if ?b then _ else _] => destruct b end;
      try destruct (nextSmallestIndex _ _); destruct e; reflexivity.
  - apply allGroups_loadedWorld; [exact Hread|].
    apply Forall_builtGroups. apply builtGroup_visibilityInv.
Qed.

(** *** Relations between the groups of a page and the groups it had *)

Lemma fireTimer_cases id w :
  fireTimer id w = w
  \/ (exists t,
        find (fun t => Nat.eqb (timer_id t) id) (World.timers w) = Some t
        /\ World.timers (fireTimer id w)
           = filter (fun t => timer_id t <> id) (World.timers w)
        /\ World.nextTimerId (fireTimer id w) = World.nextTimerId w
        /\ World.dom (fireTimer id w) = World.dom w
        /\ ((World.elemGroups w !! timer_group t = None
             /\ World.elemGroups (fireTimer id w) = World.elemGroups w
             /\ World.groupDelayIds (fireTimer id w) = World.groupDelayIds w)
            \/ (exists g,
                  World.elemGroups w !! timer_group t = Some g
                  /\ World.elemGroups (fireTimer id w)
                     = <[timer_group t :=
                           if World.useScroll w
                           then readOne (World.windowHeight w) (World.layout w)
                                  (releasedGroup g)
                           else releasedGroup g]> (World.elemGroups w)
                  /\ World.groupDelayIds (fireTimer id w)
                     = <[ElemGroup.groupId g := None]> (World.groupDelayIds w)))).
Proof.
  unfold fireTimer.
  destruct (find _ (World.timers w)) as [t|] eqn:Hf; [right | left; reflexivity].
  exists t. split; [reflexivity|]. unfold delayElapsed.
  destruct w as [gs wh pw up ids us ly tm nt fc dm]; simpl in *.
  destruct (gs !! timer_group t) as [g|] eqn:Hg; simpl.
  - repeat split. right. exists g. repeat split.
  - repeat split. left. repeat split.
Qed.

Section GroupRelation.
Variable P : ElemGroup.t -> Prop.
Variable R : ElemGroup.t -> ElemGroup.t -> Prop.
Variable Qd : list DomWrite -> Prop.
Hypothesis R_refl : forall g, R g g.
Hypothesis R_trans : forall g1 g2 g3, R g1 g2 -> R g2 g3 -> R g1 g3.
Hypothesis PR_readOne : forall wh lay g, P g -> P (readOne wh lay g) /\ R g (readOne wh lay g).
Hypothesis PR_pass : forall wh idxs g dom,
  P g ->
  P (updateMutableProps
       (fst (fold_left (fun acc i => updateAnimations wh i acc) idxs (g, dom))))
  /\ R g (updateMutableProps
            (fst (fold_left (fun acc i => updateAnimations wh i acc) idxs (g, dom)))).
Hypothesis Qd_pass : forall wh idxs g dom,
  P g -> Qd dom ->
  Qd (snd (fold_left (fun acc i => updateAnimations wh i acc) idxs (g, dom))).
Hypothesis PR_delayed : forall id g, P g -> P (delayedGroup id g) /\ R g (delayedGroup id g).
Hypothesis PR_released : forall g, P g -> P (releasedGroup g) /\ R g (releasedGroup g).
Hypothesis PR_thresholds : forall wh lay g,
  P g -> P (correctThresholds wh lay g) /\ R g (correctThresholds wh lay g).

Lemma related_insert (l0 l : list ElemGroup.t) gi g g' :
  Forall P l -> Forall2 R l0 l -> l !! gi = Some g -> P g' -> R g g' ->
  Forall P (<[gi := g']> l) /\ Forall2 R l0 (<[gi := g']> l).
Proof.
  intros HP HR Hg HPg HRg. split; [apply Forall_insert; assumption|].
  apply Forall2_same_length_lookup. split.
  - rewrite length_insert. eapply Forall2_length, HR.
  - intros i x y Hx Hy. destruct (decide (i = gi)) as [->|Hne].
    + rewrite list_lookup_insert_eq in Hy by (eapply lookup_lt_Some, Hg).
      injection Hy as <-. eapply R_trans; [|exact HRg].
      eapply Forall2_lookup_lr; eassumption.
    + rewrite list_lookup_insert_ne in Hy by congruence.
      eapply Forall2_lookup_lr; eassumption.
Qed.

Lemma related_map (l0 l : list ElemGroup.t) (f : ElemGroup.t -> ElemGroup.t) :
  (forall g, P g -> P (f g) /\ R g (f g)) ->
  Forall P l -> Forall2 R l0 l ->
  Forall P (map f l) /\ Forall2 R l0 (map f l).
Proof.
  intros Hf HP HR. split.
  - rewrite Forall_fmap. eapply Forall_impl; [exact HP|]. intros g Hg. apply Hf, Hg.
  - apply Forall2_fmap_r. apply Forall2_same_length_lookup. split.
    + eapply Forall2_length, HR.
    + intros i x y Hx Hy. eapply R_trans.
      * eapply Forall2_lookup_lr; eassumption.
      * apply Hf. eapply Forall_lookup_1; eassumption.
Qed.

(** every group keeps [P] and stays related to what it was, and the
    log of writes keeps [Qd] *)
Lemma related_run (w : World.t) (evs : list Event) :
  allGroups P w -> Qd (World.dom w) ->
  allGroups P (run evs w)
  /\ Forall2 R (World.elemGroups w) (World.elemGroups (run evs w))
  /\ Qd (World.dom (run evs w)).
Proof.
  intros Hw Hdom.
  assert (Hsplit : forall (A B C : Prop), A /\ B -> C -> A /\ B /\ C) by tauto.
  apply (worldInv_run
           (fun w' => allGroups P w'
                      /\ Forall2 R (World.elemGroups w) (World.elemGroups w')
                      /\ Qd (World.dom w'))).
  - intros lay [gs ? ? ? ? ? ? ? ? ? ?] H. exact H.
  - intros p c [gs ? ? ? ? ? ? ? ? ? ?] H. exact H.
  - intros b [gs ? ? ? ? ? ? ? ? ? ?] H. exact H.
  - intros cbs [gs ? ? ? ? ? ? ? ? ? ?] H. exact H.
  - intros w' (H1 & H2 & H3). unfold allGroups in *. destruct w'; simpl in *.
    apply Hsplit; [|exact H3].
    apply related_map; [|assumption|assumption]. intros g Hg. apply PR_thresholds, Hg.
  - intros w' (H1 & H2 & H3). unfold allGroups, readAll in *. destruct w'; simpl in *.
    apply Hsplit; [|exact H3].
    apply related_map; [|assumption|assumption]. intros g Hg.
    destruct (isProcessed g); [apply PR_readOne, Hg | split; [exact Hg | apply R_refl]].
  - intros gi w' (H1 & H2 & H3).
    destruct (World.elemGroups w' !! gi) as [g|] eqn:Hg;
      [|unfold delayGroup; rewrite Hg; repeat split; assumption].
    unfold allGroups in *. destruct (delayGroup_groups gi w' g Hg) as (-> & _ & _ & -> & _).
    pose proof (Forall_lookup_1 _ _ _ _ H1 Hg) as HPg.
    apply Hsplit; [|exact H3].
    apply (related_insert _ _ gi g); try assumption; apply PR_delayed, HPg.
  - intros gi g idxs w' (H1 & H2 & H3) Hg. unfold allGroups in *.
    pose proof (Forall_lookup_1 _ _ _ _ H1 Hg) as HPg.
    destruct w'; simpl in *. apply Hsplit; [|apply Qd_pass; assumption].
    apply (related_insert _ _ gi g); try assumption; apply PR_pass, HPg.
  - intros id w' (H1 & H2 & H3).
    destruct (fireTimer_cases id w') as [->|(t & _ & _ & _ & Hd & Hc)];
      [repeat split; assumption|].
    unfold allGroups in *. rewrite Hd. apply Hsplit; [|exact H3].
    destruct Hc as [(_ & -> & _)|(g & Hg & -> & _)]; [split; assumption|].
    pose proof (Forall_lookup_1 _ _ _ _ H1 Hg) as HPg.
    destruct (PR_released g HPg) as [HP1 HR1].
    apply (related_insert _ _ (timer_group t) g); try assumption.
    + destruct (World.useScroll w'); [apply PR_readOne, HP1 | exact HP1].
    + destruct (World.useScroll w'); [|exact HR1].
      eapply R_trans; [exact HR1 | apply PR_readOne, HP1].
  - split; [exact Hw|]. split; [|exact Hdom]. apply Forall2_same_length_lookup.
    split; [reflexivity|].
    intros i x y Hx Hy. rewrite Hx in Hy. injection Hy as <-. apply R_refl.
Qed.

Lemma related_loadedWorld groups ch us lay :
  Forall P groups ->
  allGroups P (loadedWorld groups ch us lay)
  /\ Forall2 R groups (World.elemGroups (loadedWorld groups ch us lay))
  /\ World.dom (loadedWorld groups ch us lay) = [].
Proof.
  intros HP. unfold loadedWorld, runInitialAnimations, initialWorld.
  cbn [World.useScroll]. unfold allGroups.
  assert (H0 : Forall2 R groups groups).
  { apply Forall2_same_length_lookup. split; [reflexivity|].
    intros i x y Hx Hy. rewrite Hx in Hy. injection Hy as <-. apply R_refl. }
  destruct us; [|repeat split; assumption].
  unfold requestAnimationUpdate, requestAnimationFrame, readAll. simpl.
  assert (Hsplit : forall (A B C : Prop), A /\ B -> C -> A /\ B /\ C) by tauto.
  apply Hsplit; [|reflexivity].
  apply related_map; [|assumption|assumption]. intros g Hg.
  destruct (isProcessed g); [apply PR_readOne, Hg | split; [exact Hg | apply R_refl]].
Qed.

(** ... and so from bootstrap on *)
Lemma related_booted parseJSON parseCharDelays fes ch us lay evs :
  Forall P (page_groups (readyElementsForAnimation parseJSON parseCharDelays fes)) ->
  Qd [] ->
  allGroups P (run evs (bootedWorld parseJSON parseCharDelays fes ch us lay))
  /\ Forall2 R
       (page_groups (readyElementsForAnimation parseJSON parseCharDelays fes))
       (World.elemGroups
          (run evs (bootedWorld parseJSON parseCharDelays fes ch us lay)))
  /\ Qd (World.dom (run evs (bootedWorld parseJSON parseCharDelays fes ch us lay))).
Proof.
  intros Hbuilt Hnil. unfold bootedWorld.
  destruct (related_loadedWorld
              (page_groups (readyElementsForAnimation parseJSON parseCharDelays fes))
              ch us lay) as (H1 & H2 & H3).
  { exact Hbuilt. }
  destruct (related_run (loadedWorld
              (page_groups (readyElementsForAnimation parseJSON parseCharDelays fes))
              ch us lay) evs H1) as (H4 & H5 & H6).
  { rewrite H3. exact Hnil. }
  split; [exact H4|]. split; [|exact H6].
  eapply Forall2_trans; [|exact H2|exact H5]. intros x y z. apply R_trans.
Qed.
End GroupRelation.

(** *** The shape of a pass *)

Lemma animationStep_trans r e1 e2 e3 :
  animationStep r e1 e2 -> animationStep r e2 e3 -> animationStep r e1 e3.
Proof.
  unfold animationStep.
  intros [->|[->|[Hr ->]]] [->|[->|[Hr' ->]]]; destruct e1; simpl; auto.
Qed.

(** one member handled: the group changes in its members, its animation
    counters and its next staggered delay, and in nothing else *)
Lemma updateAnimations_shape wh i g dom :
  exists n f nsd e' written,
    updateAnimations wh i (g, dom)
    = (ElemGroup.with_nextStaggeredDelay nsd
         (ElemGroup.with_animationStatus n f
            (ElemGroup.with_elems
               (match ElemGroup.elems g !! i with
                | Some _ => <[i := e']> (ElemGroup.elems g)
                | None => ElemGroup.elems g
                end) g)),
       dom ++ written)
    /\ (forall e, ElemGroup.elems g !! i = Some e ->
          animationStep (StrOpt_truthy (ElemGroup.removesAnimationWhenNotInView g)) e e')
    /\ (neverRemoves g -> Forall (fun d => isAnimateWrite d = true) written)
    /\ Forall (memberWrite (ElemGroup.elems g)) written.
Proof.
  assert (Hid : forall els,
            els = ElemGroup.elems g ->
            g = ElemGroup.with_nextStaggeredDelay (ElemGroup.nextStaggeredDelay g)
                  (ElemGroup.with_animationStatus (ElemGroup.numElemsAnimated g)
                     (ElemGroup.isFinishedAnimating g) (ElemGroup.with_elems els g))).
  { intros els ->. destruct g; reflexivity. }
  unfold updateAnimations. cbn [fst].
  destruct (ElemGroup.elems g !! i) as [e|] eqn:He.
  2:{ exists (ElemGroup.numElemsAnimated g), (ElemGroup.isFinishedAnimating g),
        (ElemGroup.nextStaggeredDelay g),
        (Elem.mk None None false false 0%Q 0%Q None 0%nat ""), [].
      rewrite app_nil_r, <- (Hid _ eq_refl). split; [reflexivity|].
      split; [intros e0 H0; discriminate|]. split; [intros _; constructor | constructor]. }
  assert (Hmem : e ∈ ElemGroup.elems g) by (eapply list_elem_of_lookup_2, He).
  destruct (isReadyToAnimate g e) eqn:Ha.
  - unfold animate. rewrite He.
    set (g1 := match Elem.uniqueDelay e with
               | Some d => if Qeq_bool d 0 then updateNextStaggeredDelay g else g
               | None => updateNextStaggeredDelay g
               end).
    assert (H1 : exists nsd, g1 = ElemGroup.with_nextStaggeredDelay nsd g).
    { assert (Hn : exists nsd, updateNextStaggeredDelay g
                               = ElemGroup.with_nextStaggeredDelay nsd g).
      { unfold updateNextStaggeredDelay.
        destruct (ElemGroup.nextStaggeredDelay g) as [d|] eqn:Hd;
          [destruct (negb (d =? 0)) | destruct (negb (ElemGroup.delayMultiplier g =? 0))];
          try (eexists; reflexivity);
          exists (ElemGroup.nextStaggeredDelay g); destruct g; simpl in *; subst; reflexivity. }
      assert (H0 : exists nsd, g = ElemGroup.with_nextStaggeredDelay nsd g)
        by (exists (ElemGroup.nextStaggeredDelay g); destruct g; reflexivity).
      subst g1. destruct (Elem.uniqueDelay e) as [d|]; [destruct (Qeq_bool d 0)|]; assumption. }
    destruct H1 as (nsd & ->).
    assert (He1 : ElemGroup.elems (ElemGroup.with_nextStaggeredDelay nsd g) !! i = Some e)
      by (destruct g; exact He).
    unfold set_isAnimated. rewrite He1.
    destruct (delay g e) as [d|];
      (destruct (strict_neq_bool (JBool true) (Elem.isAnimated e));
       [unfold updateAnimationStatus;
        eexists _, _, nsd, (Elem.with_isAnimated true e), _
       |eexists (ElemGroup.numElemsAnimated g), (ElemGroup.isFinishedAnimating g), nsd,
          (Elem.with_isAnimated true e), _];
       (split; [rewrite <- ?app_assoc; destruct g; reflexivity|];
        split; [intros e0 [= <-]; right; left; reflexivity|];
        split; [intros _; repeat constructor
               |cbn [app];
                repeat (apply List.Forall_cons;
                        [exists e; split; [exact Hmem | reflexivity]|]);
                apply List.Forall_nil])).
  - destruct (isReadyToDeanimate wh g e) eqn:Hd.
    + unfold deAnimate. rewrite He. unfold set_isAnimated. rewrite He.
      assert (Hr : StrOpt_truthy (ElemGroup.removesAnimationWhenNotInView g) = true).
      { unfold isReadyToDeanimate in Hd.
        destruct (StrOpt_truthy _); [reflexivity | discriminate]. }
      destruct (strict_neq_bool (JBool false) (Elem.isAnimated e)).
      * unfold updateAnimationStatus.
        eexists _, _, (ElemGroup.nextStaggeredDelay g), (Elem.with_isAnimated false e), _.
        split; [destruct g; reflexivity|]. split; [|split].
        -- intros e0 [= <-]. right. right. split; [exact Hr | reflexivity].
        -- intros Hn. unfold neverRemoves in Hn. congruence.
        -- apply List.Forall_cons; [exists e; split; [exact Hmem | reflexivity]|].
           apply List.Forall_cons; [exists e; split; [exact Hmem | split; reflexivity]|].
           apply List.Forall_nil.
      * eexists (ElemGroup.numElemsAnimated g), (ElemGroup.isFinishedAnimating g),
          (ElemGroup.nextStaggeredDelay g), (Elem.with_isAnimated false e), _.
        split; [destruct g; reflexivity|]. split; [|split].
        -- intros e0 [= <-]. right. right. split; [exact Hr | reflexivity].
        -- intros Hn. unfold neverRemoves in Hn. congruence.
        -- apply List.Forall_cons; [exists e; split; [exact Hmem | reflexivity]|].
           apply List.Forall_cons; [exists e; split; [exact Hmem | split; reflexivity]|].
           apply List.Forall_nil.
    + exists (ElemGroup.numElemsAnimated g), (ElemGroup.isFinishedAnimating g),
        (ElemGroup.nextStaggeredDelay g), e, [].
      rewrite app_nil_r, list_insert_id by exact He. rewrite <- (Hid _ eq_refl).
      split; [reflexivity|]. split; [intros e0 [= <-]; left; reflexivity|].
      split; constructor.
Qed.

Lemma memberWrite_step r els els1 d :
  Forall2 (animationStep r) els els1 -> memberWrite els1 d -> memberWrite els d.
Proof.
  intros Hs (e1 & Hin & Hd). apply list_elem_of_lookup_1 in Hin as [i Hi].
  destruct (Forall2_lookup_r _ _ _ _ _ Hs Hi) as (e & He & Hstep).
  exists e. split; [eapply list_elem_of_lookup_2, He|].
  assert (E : Elem.target e1 = Elem.target e
              /\ Elem.originalInlineStyles e1 = Elem.originalInlineStyles e).
  { destruct Hstep as [->|[->|[_ ->]]]; destruct e; split; reflexivity. }
  destruct E as [<- <-]. exact Hd.
Qed.

(** a pass over any members of a group, then [updateMutableProps]: the
    group changes in its members' animated flags, its animation
    counters, its next staggered delay and its group delay, and in
    nothing else *)
Lemma pass_shape wh idxs g dom :
  exists n f gd els written,
    fold_left (fun acc i => updateAnimations wh i acc) idxs (g, dom)
    = (ElemGroup.with_nextStaggeredDelay
         (ElemGroup.nextStaggeredDelay
            (fst (fold_left (fun acc i => updateAnimations wh i acc) idxs (g, dom))))
         (ElemGroup.with_animationStatus n f (ElemGroup.with_elems els g)),
       dom ++ written)
    /\ updateMutableProps
         (fst (fold_left (fun acc i => updateAnimations wh i acc) idxs (g, dom)))
       = ElemGroup.with_groupDelay gd
           (ElemGroup.with_nextStaggeredDelay None
              (ElemGroup.with_animationStatus n f (ElemGroup.with_elems els g)))
    /\ Forall2 (animationStep (StrOpt_truthy (ElemGroup.removesAnimationWhenNotInView g)))
         (ElemGroup.elems g) els
    /\ (neverRemoves g -> Forall (fun d => isAnimateWrite d = true) written)
    /\ Forall (memberWrite (ElemGroup.elems g)) written.
Proof.
  assert (Hrefl : forall r l, Forall2 (animationStep r) l l).
  { intros r l. apply Forall2_same_length_lookup. split; [reflexivity|].
    intros i x y Hx Hy. rewrite Hx in Hy. injection Hy as <-. left. reflexivity. }
  assert (H : forall idxs g dom, exists n f nsd els written,
            fold_left (fun acc i => updateAnimations wh i acc) idxs (g, dom)
            = (ElemGroup.with_nextStaggeredDelay nsd
                 (ElemGroup.with_animationStatus n f (ElemGroup.with_elems els g)),
               dom ++ written)
            /\ Forall2 (animationStep
                          (StrOpt_truthy (ElemGroup.removesAnimationWhenNotInView g)))
                 (ElemGroup.elems g) els
            /\ (neverRemoves g -> Forall (fun d => isAnimateWrite d = true) written)
            /\ Forall (memberWrite (ElemGroup.elems g)) written).
  { clear idxs g dom. induction idxs as [|i idxs IH]; intros g dom.
    - exists (ElemGroup.numElemsAnimated g), (ElemGroup.isFinishedAnimating g),
        (ElemGroup.nextStaggeredDelay g), (ElemGroup.elems g), [].
      simpl. rewrite app_nil_r. split; [destruct g; reflexivity|].
      split; [apply Hrefl|]. split; constructor.
    - cbn [fold_left].
      destruct (updateAnimations_shape wh i g dom)
        as (n1 & f1 & nsd1 & e' & wr1 & -> & Hstep1 & Hwr1 & Hmw1).
      match goal with |- context [fold_left _ idxs (?g1, _)] =>
        destruct (IH g1 (dom ++ wr1))
          as (n2 & f2 & nsd2 & els2 & wr2 & -> & Hstep2 & Hwr2 & Hmw2)
      end.
      assert (Hels : forall x y z els,
                ElemGroup.elems
                  (ElemGroup.with_nextStaggeredDelay x
                     (ElemGroup.with_animationStatus y z (ElemGroup.with_elems els g)))
                = els) by (intros; destruct g; reflexivity).
      assert (Hfirst : Forall2 (animationStep
                                  (StrOpt_truthy (ElemGroup.removesAnimationWhenNotInView g)))
                         (ElemGroup.elems g)
                         (match ElemGroup.elems g !! i with
                          | Some _ => <[i := e']> (ElemGroup.elems g)
                          | None => ElemGroup.elems g
                          end)).
      { destruct (ElemGroup.elems g !! i) as [e|] eqn:He; [|apply Hrefl].
        rewrite <- (list_insert_id (ElemGroup.elems g) i e He) at 1.
        apply Forall2_insert; [apply Hrefl | apply Hstep1; reflexivity]. }
      exists n2, f2, nsd2, els2, (wr1 ++ wr2). split; [|split; [|split]].
      + rewrite app_assoc. destruct g; reflexivity.
      + assert (Hrem : forall x y z els,
                  ElemGroup.removesAnimationWhenNotInView
                    (ElemGroup.with_nextStaggeredDelay x
                       (ElemGroup.with_animationStatus y z (ElemGroup.with_elems els g)))
                  = ElemGroup.removesAnimationWhenNotInView g)
          by (intros; destruct g; reflexivity).
        rewrite Hrem in Hstep2. rewrite Hels in Hstep2.
        eapply Forall2_trans; [|exact Hfirst|exact Hstep2].
        intros x y z. apply animationStep_trans.
      + intros Hn. apply Forall_app. split; [apply Hwr1, Hn|]. apply Hwr2.
        unfold neverRemoves in *. destruct g; exact Hn.
      + apply Forall_app. split; [exact Hmw1|]. rewrite Hels in Hmw2.
        eapply Forall_impl; [exact Hmw2|]. intros d. apply memberWrite_step with (r := StrOpt_truthy (ElemGroup.removesAnimationWhenNotInView g)).
        exact Hfirst. }
  destruct (H idxs g dom) as (n & f & nsd & els & written & E & Hstep & Hwr).
  rewrite E. cbn [fst].
  exists n, f,
    (if ElemGroup.numElemsAnimated
          (ElemGroup.with_nextStaggeredDelay None
             (ElemGroup.with_nextStaggeredDelay nsd
                (ElemGroup.with_animationStatus n f (ElemGroup.with_elems els g)))) =? 0
     then (if negb (ElemGroup.groupDelay g =? 0) then ElemGroup.groupDelay g
           else ElemGroup.originalGroupDelay g)
     else ElemGroup.groupDelay g),
    els, written.
  split; [destruct g; reflexivity|]. split; [|split; assumption].
  unfold updateMutableProps. destruct g; simpl. destruct (n =? 0); reflexivity.
Qed.

(** *** Pages that never remove an animation *)

Lemma keepsAnimated_members g g' :
  Forall2 (fun e e' => Elem.target e' = Elem.target e
                       /\ Elem.isAnimated e' = Elem.isAnimated e)
          (ElemGroup.elems g) (ElemGroup.elems g') ->
  keepsAnimated g g'.
Proof.
  unfold keepsAnimated. intros H. eapply Forall2_impl; [exact H|].
  intros e e' [Ht Ha]. split; [exact Ht|]. rewrite Ha. auto.
Qed.

Lemma keepsAnimated_map g g' (f : Elem.t -> Elem.t) :
  ElemGroup.elems g' = map f (ElemGroup.elems g) ->
  (forall e, Elem.target (f e) = Elem.target e /\ Elem.isAnimated (f e) = Elem.isAnimated e) ->
  keepsAnimated g g'.
Proof.
  intros Hel Hf. apply keepsAnimated_members. rewrite Hel.
  apply Forall2_fmap_r. apply Forall2_same_length_lookup. split; [reflexivity|].
  intros i x y Hx Hy. rewrite Hx in Hy. injection Hy as <-. apply Hf.
Qed.

Lemma derivedElem_target wh lay g e :
  Elem.target (derivedElem wh lay g e) = Elem.target e.
Proof. destruct e; reflexivity. Qed.

Lemma correctThreshold_target wh h e :
  Elem.target (correctThreshold wh h e) = Elem.target e.
Proof.
  unfold correctThreshold.
  repeat (match goal with
          | |- context [if ?b then _ else _] => destruct b
          | |- context [match ?o with Some _ => _ | None => _ end] => destruct o
          end); destruct e; reflexivity.
Qed.

(** a page on which the removal option is off: it stays off, every
    member that is animated stays animated, and only [animate] writes *)
Lemma neverRemoves_run (w : World.t) (evs : list Event) :
  allGroups neverRemoves w ->
  Forall (fun d => isAnimateWrite d = true) (World.dom w) ->
  allGroups neverRemoves (run evs w)
  /\ Forall2 keepsAnimated (World.elemGroups w) (World.elemGroups (run evs w))
  /\ Forall (fun d => isAnimateWrite d = true) (World.dom (run evs w)).
Proof.
  apply related_run.
  - intros g. apply keepsAnimated_map with (f := fun e => e);
      [symmetry; apply map_id | auto].
  - intros g1 g2 g3. unfold keepsAnimated. apply Forall2_trans.
    intros e1 e2 e3 [Ht1 Ha1] [Ht2 Ha2]. split; [congruence | auto].
  - intros wh lay g Hg. destruct (readOne_shape wh lay g) as (n & v & E).
    split; [rewrite E; destruct g; exact Hg|].
    apply keepsAnimated_map with (f := derivedElem wh lay g); [apply readOne_elems|].
    intros e. split; [apply derivedElem_target | apply derivedElem_isAnimated].
  - intros wh idxs g dom Hg.
    destruct (pass_shape wh idxs g dom) as (n & f & gd & els & wr & _ & -> & Hstep & _).
    split; [destruct g; exact Hg|].
    unfold keepsAnimated.
    match goal with |- Forall2 _ _ (ElemGroup.elems ?x) =>
      replace (ElemGroup.elems x) with els by (destruct g; reflexivity) end.
    unfold neverRemoves in Hg. rewrite Hg in Hstep.
    eapply Forall2_impl; [exact Hstep|].
    intros e e' [->|[->|[Hr _]]]; [auto | destruct e; auto | discriminate].
  - intros wh idxs g dom Hg Hdom.
    destruct (pass_shape wh idxs g dom) as (n & f & gd & els & wr & -> & _ & _ & Hwr & _).
    cbn [snd]. apply Forall_app. split; [exact Hdom | apply Hwr, Hg].
  - intros id g Hg. split; [destruct g; exact Hg|].
    apply keepsAnimated_map with (f := fun e => e);
      [destruct g; symmetry; apply map_id | auto].
  - intros g Hg. split; [destruct g; exact Hg|].
    apply keepsAnimated_map with (f := fun e => e);
      [destruct g; symmetry; apply map_id | auto].
  - intros wh lay g Hg. split; [destruct g; exact Hg|].
    apply keepsAnimated_map
      with (f := fun e => correctThreshold wh (rect_height (lay (Elem.target e))) e);
      [destruct g; reflexivity|].
    intros e. split; [apply correctThreshold_target | apply correctThreshold_flags].
Qed.

Lemma builtGroup_removes parseJSON parseCharDelays id fe :
  ElemGroup.removesAnimationWhenNotInView (builtGroup parseJSON parseCharDelays id fe)
  = ecaRemoveAnimationWhenNotInView (fe_options fe).
Proof.
  destruct (builtGroup_members parseJSON parseCharDelays id fe) as (els & _ & ->).
  destruct (ecaReverse (fe_options fe)); reflexivity.
Qed.

Lemma booted_neverRemoves parseJSON parseCharDelays fes ch us lay :
  Forall (fun fe => StrOpt_truthy (ecaRemoveAnimationWhenNotInView (fe_options fe)) = false)
         fes ->
  allGroups neverRemoves (bootedWorld parseJSON parseCharDelays fes ch us lay)
  /\ World.dom (bootedWorld parseJSON parseCharDelays fes ch us lay) = [].
Proof.
  intros Hoff. unfold bootedWorld.
  assert (H0 : Forall neverRemoves
                 (page_groups (readyElementsForAnimation parseJSON parseCharDelays fes))).
  { apply Forall_builtGroups_in. intros id fe Hin. unfold neverRemoves.
    rewrite builtGroup_removes. rewrite Forall_forall in Hoff. apply Hoff, Hin. }
  split.
  - apply allGroups_loadedWorld; [|exact H0].
    intros wh lay' g Hg. destruct (readOne_shape wh lay' g) as (n & v & ->).
    destruct g; exact Hg.
  - unfold loadedWorld, runInitialAnimations, initialWorld. cbn [World.useScroll].
    destruct us; reflexivity.
Qed.

(** X14 (the removal option, [updateAnimations], [deAnimate]): on a page
    whose removal option is off, whatever happens after bootstrap, the
    engine never removes the animated class and never resets an inline
    style: every write it makes to the document sets a delay or adds the
    class. *)
Theorem no_removal_without_option (parseJSON : string -> option JSObject)
    (parseCharDelays : string -> option (list CharDelay)) (fes : list FirstElem)
    (clientHeight : Q) (useScroll : bool) (lay : Layout) (evs : list Event) :
  Forall (fun fe => StrOpt_truthy (ecaRemoveAnimationWhenNotInView (fe_options fe)) = false)
         fes ->
  Forall (fun d => isAnimateWrite d = true)
    (World.dom
       (run evs (bootedWorld parseJSON parseCharDelays fes clientHeight useScroll lay))).
Proof.
  intros Hoff.
  destruct (booted_neverRemoves parseJSON parseCharDelays fes clientHeight useScroll lay Hoff)
    as [H1 H2].
  apply neverRemoves_run; [exact H1|]. rewrite H2. constructor.
Qed.

(** X15 (the removal option, [isReadyToDeanimate]): on a page whose
    removal option is off, a member that is animated at some point is
    animated at every later point: the groups keep their members, each
    member its element, and no animated flag is ever cleared. *)
Theorem animated_stays_animated (parseJSON : string -> option JSObject)
    (parseCharDelays : string -> option (list CharDelay)) (fes : list FirstElem)
    (clientHeight : Q) (useScroll : bool) (lay : Layout) (evs later : list Event) :
  Forall (fun fe => StrOpt_truthy (ecaRemoveAnimationWhenNotInView (fe_options fe)) = false)
         fes ->
  let w0 := bootedWorld parseJSON parseCharDelays fes clientHeight useScroll lay in
  Forall2 keepsAnimated
    (World.elemGroups (run evs w0)) (World.elemGroups (run (evs ++ later) w0)).
Proof.
  intros Hoff w0. subst w0.
  destruct (booted_neverRemoves parseJSON parseCharDelays fes clientHeight useScroll lay Hoff)
    as [H1 H2].
  unfold run at 2. rewrite fold_left_app. fold (run evs) (run later).
  apply neverRemoves_run.
  - apply neverRemoves_run; [exact H1|]. rewrite H2. constructor.
  - apply neverRemoves_run; [exact H1|]. rewrite H2. constructor.
Qed.

(** two cards in view at load, animated by the first frame *)
Lemma no_removal_without_option_witness :
  let w := run [EvFrame; EvScroll cardsScrolledAway; EvFrame]
             (bootedWorld rejectAll rejectAll
                [plainFirstElem "card" [sampleMember 1; sampleMember 2]]
                500 true (fun _ => mkRect 100 200 100)) in
  World.dom w
  = [SetDelay 1 false 100; AddAnimatedClass 1; SetDelay 2 false 200; AddAnimatedClass 2]
  /\ Forall (fun d => isAnimateWrite d = true) (World.dom w).
Proof.
  split; [reflexivity|].
  apply (no_removal_without_option rejectAll rejectAll
           [plainFirstElem "card" [sampleMember 1; sampleMember 2]]).
  repeat constructor.
Defined.

Lemma animated_stays_animated_witness :
  let w0 := bootedWorld rejectAll rejectAll
              [plainFirstElem "card" [sampleMember 1; sampleMember 2]]
              500 true (fun _ => mkRect 100 200 100) in
  map (fun g => map Elem.isAnimated (ElemGroup.elems g))
      (World.elemGroups (run [EvFrame] w0)) = [[true; true]]
  /\ Forall2 keepsAnimated
       (World.elemGroups (run [EvFrame] w0))
       (World.elemGroups (run ([EvFrame] ++ [EvScroll cardsScrolledAway; EvFrame]) w0)).
Proof.
  split; [reflexivity|].
  apply (animated_stays_animated rejectAll rejectAll
           [plainFirstElem "card" [sampleMember 1; sampleMember 2]]).
  repeat constructor.
Defined.

(** *** What is written to the document *)

Lemma bootMember_same fes e e' :
  Elem.target e' = Elem.target e ->
  Elem.originalInlineStyles e' = Elem.originalInlineStyles e ->
  bootMember fes e -> bootMember fes e'.
Proof. unfold bootMember. intros -> ->. auto. Qed.

Lemma bootMembers_map fes (f : Elem.t -> Elem.t) (l : list Elem.t) :
  (forall e, Elem.target (f e) = Elem.target e
             /\ Elem.originalInlineStyles (f e) = Elem.originalInlineStyles e) ->
  Forall (bootMember fes) l -> Forall (bootMember fes) (map f l).
Proof.
  intros Hf Hl. rewrite Forall_fmap. eapply Forall_impl; [exact Hl|].
  intros e He. simpl. destruct (Hf e) as [H1 H2]. exact (bootMember_same _ _ _ H1 H2 He).
Qed.

(** every write is to an element bootstrap made a member, and a style
    reset restores the style the element had then *)
Lemma bootMembers_run fes (w : World.t) (evs : list Event) :
  allGroups (fun g => Forall (bootMember fes) (ElemGroup.elems g)) w ->
  Forall (restoresBootStyle fes) (World.dom w) ->
  Forall (restoresBootStyle fes) (World.dom (run evs w)).
Proof.
  intros Hw Hdom.
  apply (related_run (fun g => Forall (bootMember fes) (ElemGroup.elems g))
           (fun _ _ => True) (Forall (restoresBootStyle fes))); auto.
  - intros wh lay g Hg. split; [|exact I]. rewrite readOne_elems.
    apply bootMembers_map; [|exact Hg]. intros e. destruct e; split; reflexivity.
  - intros wh idxs g dom Hg. split; [|exact I].
    destruct (pass_shape wh idxs g dom) as (n & f & gd & els & wr & _ & -> & Hstep & _).
    replace (ElemGroup.elems _) with els by (destruct g; reflexivity).
    apply Forall_lookup_2. intros i e' He'.
    destruct (Forall2_lookup_r _ _ _ _ _ Hstep He') as (e & He & Hs).
    pose proof (Forall_lookup_1 _ _ _ _ Hg He) as Hb.
    destruct Hs as [->|[->|[_ ->]]]; [exact Hb| |];
      (eapply bootMember_same; [| |exact Hb]); destruct e; reflexivity.
  - intros wh idxs g dom Hg Hd.
    destruct (pass_shape wh idxs g dom) as (n & f & gd & els & wr & -> & _ & _ & _ & Hmw).
    cbn [snd]. apply Forall_app. split; [exact Hd|].
    eapply Forall_impl; [exact Hmw|]. intros d (e & Hin & Hwrite).
    rewrite Forall_forall in Hg. pose proof (Hg e Hin) as Hb. unfold bootMember in Hb.
    assert (Ht : Elem.target e ∈ map fst (bootMembers fes)).
    { apply (list_elem_of_fmap_2 fst _ _ Hb). }
    destruct d as [t tr ms|t|t|t css]; simpl; try (rewrite Hwrite; exact Ht).
    destruct Hwrite as [-> ->]. exact Hb.
  - intros id g Hg. split; [destruct g; exact Hg | exact I].
  - intros g Hg. split; [destruct g; exact Hg | exact I].
  - intros wh lay g Hg. split; [|exact I]. unfold correctThresholds.
    replace (ElemGroup.elems _)
      with (map (fun e => correctThreshold wh (rect_height (lay (Elem.target e))) e)
                (ElemGroup.elems g)) by (destruct g; reflexivity).
    apply bootMembers_map; [|exact Hg]. intros e. split; [apply correctThreshold_target|].
    unfold correctThreshold.
    repeat (match goal with
            | |- context [if ?b then _ else _] => destruct b
            | |- context [match ?o with Some _ => _ | None => _ end] => destruct o
            end); destruct e; reflexivity.
Qed.

Lemma builtGroup_bootMembers parseJSON parseCharDelays fes id fe :
  fe ∈ fes ->
  Forall (bootMember fes) (ElemGroup.elems (builtGroup parseJSON parseCharDelays id fe)).
Proof.
  intros Hin. destruct (builtGroup_members parseJSON parseCharDelays id fe) as (els & Hs & ->).
  assert (Hels : Forall (bootMember fes) els).
  { apply Forall_lookup_2. intros i e' He'.
    destruct (Forall2_lookup_r _ _ _ _ _ Hs He') as (e & He & Hsame).
    simpl in He. rewrite list_lookup_fmap in He.
    destruct (fe_members fe !! i) as [m|] eqn:Hm; [|discriminate]. injection He as <-.
    unfold bootMember, bootMembers. rewrite Hsame. simpl.
    apply list_elem_of_In, in_flat_map. exists fe. split; [apply list_elem_of_In, Hin|].
    apply in_map_iff. exists m. split; [reflexivity|].
    apply list_elem_of_In. eapply list_elem_of_lookup_2, Hm. }
  destruct (ecaReverse (fe_options fe)); unfold reverseElems; simpl.
  - apply Forall_reverse. exact Hels.
  - exact Hels.
Qed.

(** X16 ([animate], [deAnimate], the constructor of [Elem]): whatever
    happens after bootstrap, every write the engine makes to the
    document is to an element bootstrap made a member of a group, and
    every reset of an inline style restores exactly the inline style
    that element had when bootstrap ran. *)
Theorem writes_restore_boot_style (parseJSON : string -> option JSObject)
    (parseCharDelays : string -> option (list CharDelay)) (fes : list FirstElem)
    (clientHeight : Q) (useScroll : bool) (lay : Layout) (evs : list Event) :
  Forall (restoresBootStyle fes)
    (World.dom
       (run evs (bootedWorld parseJSON parseCharDelays fes clientHeight useScroll lay))).
Proof.
  apply bootMembers_run.
  - unfold bootedWorld. apply allGroups_loadedWorld.
    + intros wh lay' g Hg. rewrite readOne_elems.
      apply bootMembers_map; [|exact Hg]. intros e. destruct e; split; reflexivity.
    + apply Forall_builtGroups_in. intros id fe Hin. apply builtGroup_bootMembers, Hin.
  - unfold bootedWorld, loadedWorld, runInitialAnimations, initialWorld.
    cbn [World.useScroll]. destruct useScroll; constructor.
Qed.

(** *** Group delays and their timeouts *)

(** what [delayInv] reads of a group *)
Lemma delayInv_map ids (f : ElemGroup.t -> ElemGroup.t) w w' :
  (forall g, ElemGroup.groupId (f g) = ElemGroup.groupId g
             /\ ElemGroup.isDelaying (f g) = ElemGroup.isDelaying g
             /\ ElemGroup.delayId (f g) = ElemGroup.delayId g) ->
  World.elemGroups w' = map f (World.elemGroups w) ->
  World.timers w' = World.timers w ->
  World.nextTimerId w' = World.nextTimerId w ->
  World.groupDelayIds w' = World.groupDelayIds w ->
  delayInv ids w -> delayInv ids w'.
Proof.
  intros Hf Hg Ht Hn Hd (Hids & Hfresh & Hpend). split; [|split].
  - rewrite Hg, map_map, <- Hids. apply map_ext. intros g. apply Hf.
  - unfold timersFresh. rewrite Ht, Hn. exact Hfresh.
  - intros gi g' Hlk Hdel. rewrite Hg, list_lookup_fmap in Hlk.
    destruct (World.elemGroups w !! gi) as [g|] eqn:Hgi; [|discriminate].
    injection Hlk as <-. destruct (Hf g) as (H1 & H2 & H3).
    rewrite H2 in Hdel. destruct (Hpend gi g Hgi Hdel) as (id & ms & Hid & Hin & Hpub).
    exists id, ms. rewrite H1, H3, Ht, Hd. auto.
Qed.

Lemma delayInv_same ids w w' :
  World.elemGroups w' = World.elemGroups w ->
  World.timers w' = World.timers w ->
  World.nextTimerId w' = World.nextTimerId w ->
  World.groupDelayIds w' = World.groupDelayIds w ->
  delayInv ids w -> delayInv ids w'.
Proof.
  intros Hg. apply (delayInv_map ids (fun g => g)); [auto|].
  rewrite Hg. symmetry. apply map_id.
Qed.

(** a group replaced by one with the same id that is not delaying, or
    delays as before *)
Lemma delayInv_insert ids gi g g' w w' :
  World.elemGroups w !! gi = Some g ->
  ElemGroup.groupId g' = ElemGroup.groupId g ->
  (ElemGroup.isDelaying g' = false
   \/ (ElemGroup.isDelaying g' = ElemGroup.isDelaying g
       /\ ElemGroup.delayId g' = ElemGroup.delayId g)) ->
  World.elemGroups w' = <[gi := g']> (World.elemGroups w) ->
  World.timers w' = World.timers w ->
  World.nextTimerId w' = World.nextTimerId w ->
  World.groupDelayIds w' = World.groupDelayIds w ->
  delayInv ids w -> delayInv ids w'.
Proof.
  intros Hgi Hid Hdel Hg Ht Hn Hd (Hids & Hfresh & Hpend). split; [|split].
  - rewrite Hg, list_fmap_insert, <- Hids. apply list_insert_id.
    rewrite list_lookup_fmap, Hgi. simpl. rewrite Hid. reflexivity.
  - unfold timersFresh. rewrite Ht, Hn. exact Hfresh.
  - intros gj gx Hlk Hdx. rewrite Hg in Hlk. rewrite Ht, Hd.
    destruct (decide (gj = gi)) as [->|Hne].
    + rewrite list_lookup_insert_eq in Hlk by (eapply lookup_lt_Some, Hgi).
      injection Hlk as <-. destruct Hdel as [Hoff|[H1 H2]]; [congruence|].
      rewrite H1 in Hdx. rewrite Hid, H2. apply (Hpend gi g Hgi Hdx).
    + rewrite list_lookup_insert_ne in Hlk by congruence. apply (Hpend gj gx Hlk Hdx).
Qed.

Lemma delayInv_delayGroup ids gi w : delayInv ids w -> delayInv ids (delayGroup gi w).
Proof.
  intros (Hids & [Hlt Hnd] & Hpend).
  destruct (World.elemGroups w !! gi) as [g|] eqn:Hgi;
    [|unfold delayGroup; rewrite Hgi; repeat split; assumption].
  destruct (delayGroup_groups gi w g Hgi) as (Hg & Ht & Hn & _ & Hd).
  split; [|split].
  - rewrite Hg, list_fmap_insert, <- Hids. apply list_insert_id.
    rewrite list_lookup_fmap, Hgi. destruct g; reflexivity.
  - unfold timersFresh. rewrite Ht, Hn. split.
    + apply Forall_app. split.
      * eapply Forall_impl; [exact Hlt|]. intros t Htl. simpl in Htl. lia.
      * apply Forall_singleton. simpl. lia.
    + rewrite map_app. apply NoDup_app. split; [exact Hnd|]. split.
      * intros x Hx Hx'. simpl in Hx'. apply list_elem_of_singleton in Hx'. subst x.
        apply list_elem_of_fmap_1 in Hx as (t & Ht1 & Ht2).
        rewrite Forall_forall in Hlt. specialize (Hlt t Ht2). lia.
      * simpl. apply NoDup_singleton.
  - intros gj gx Hlk Hdx. rewrite Hg in Hlk. rewrite Ht, Hd.
    destruct (decide (gj = gi)) as [->|Hne].
    + rewrite list_lookup_insert_eq in Hlk by (eapply lookup_lt_Some, Hgi).
      injection Hlk as <-.
      exists (World.nextTimerId w), (ElemGroup.groupDelay g).
      split; [destruct g; reflexivity|]. split.
      * apply elem_of_app. right. apply list_elem_of_singleton. reflexivity.
      * intros _. replace (ElemGroup.groupId (delayedGroup _ g)) with (ElemGroup.groupId g)
          by (destruct g; reflexivity).
        apply lookup_insert_eq.
    + rewrite list_lookup_insert_ne in Hlk by congruence.
      destruct (Hpend gj gx Hlk Hdx) as (id & ms & H1 & H2 & H3).
      exists id, ms. split; [exact H1|]. split; [apply elem_of_app; left; exact H2|].
      intros Hnodup. rewrite lookup_insert_ne; [apply H3, Hnodup|].
      intros E. apply Hne. symmetry.
      eapply NoDup_lookup; [exact Hnodup| |].
      * rewrite <- Hids, list_lookup_fmap, Hgi. reflexivity.
      * rewrite <- Hids, list_lookup_fmap, Hlk. simpl. rewrite E. reflexivity.
Qed.

Lemma find_timer id (l : list Timer) t :
  find (fun t => Nat.eqb (timer_id t) id) l = Some t ->
  NoDup (map timer_id l) ->
  t ∈ l /\ timer_id t = id /\ (forall t', t' ∈ l -> timer_id t' = id -> t' = t).
Proof.
  intros Hf Hnd. apply find_some in Hf as [Hin Hid]. apply Nat.eqb_eq in Hid.
  apply list_elem_of_In in Hin. split; [exact Hin|]. split; [exact Hid|].
  intros t' Hin' Hid'.
  apply list_elem_of_lookup_1 in Hin as [i Hi]. apply list_elem_of_lookup_1 in Hin' as [j Hj].
  assert (i = j).
  { eapply NoDup_lookup; [exact Hnd| |].
    - rewrite list_lookup_fmap, Hi. reflexivity.
    - rewrite list_lookup_fmap, Hj. simpl. congruence. }
  subst j. congruence.
Qed.

Lemma delayInv_fireTimer ids id w : delayInv ids w -> delayInv ids (fireTimer id w).
Proof.
  intros (Hids & [Hlt Hnd] & Hpend).
  destruct (fireTimer_cases id w) as [->|(t & Hf & Ht & Hn & _ & Hc)];
    [repeat split; assumption|].
  destruct (find_timer id _ t Hf Hnd) as (Hin & Hid & Huniq).
  assert (Hfresh' : timersFresh (fireTimer id w)).
  { unfold timersFresh. rewrite Ht, Hn. split.
    - apply Forall_forall. intros x Hx. apply list_elem_of_filter in Hx as [_ Hx].
      rewrite Forall_forall in Hlt. apply Hlt, Hx.
    - apply NoDup_fmap_2_strong; [|apply NoDup_filter; eapply NoDup_fmap_1, Hnd].
      intros x y Hx Hy E. apply list_elem_of_filter in Hx as [_ Hx].
      apply list_elem_of_filter in Hy as [_ Hy].
      apply list_elem_of_lookup_1 in Hx as [i Hi]. apply list_elem_of_lookup_1 in Hy as [j Hj].
      assert (i = j).
      { eapply NoDup_lookup; [exact Hnd| |].
        - rewrite list_lookup_fmap, Hi. reflexivity.
        - rewrite list_lookup_fmap, Hj. simpl. congruence. }
      subst j. congruence. }
  assert (Hkeep : forall gj (gx : ElemGroup.t) idx ms,
            gj <> timer_group t ->
            mkTimer idx ms gj ∈ World.timers w ->
            mkTimer idx ms gj ∈ World.timers (fireTimer id w)).
  { intros gj gx idx ms Hne Hin'. rewrite Ht. apply list_elem_of_filter. split; [|exact Hin'].
    simpl. intros E. apply Hne. rewrite <- (Huniq _ Hin' E). reflexivity. }
  destruct Hc as [(Hnone & Hg & Hd)|(g & Hgi & Hg & Hd)].
  - split; [rewrite Hg; exact Hids|]. split; [exact Hfresh'|].
    intros gj gx Hlk Hdx. rewrite Hg in Hlk. rewrite Hd.
    destruct (Hpend gj gx Hlk Hdx) as (idx & ms & H1 & H2 & H3).
    exists idx, ms. split; [exact H1|]. split; [|exact H3].
    apply (Hkeep gj gx); [|exact H2]. intros ->. rewrite Hlk in Hnone. discriminate.
  - set (g' := if World.useScroll w
               then readOne (World.windowHeight w) (World.layout w) (releasedGroup g)
               else releasedGroup g) in *.
    assert (Hg' : ElemGroup.groupId g' = ElemGroup.groupId g
                  /\ ElemGroup.isDelaying g' = false).
    { subst g'. destruct (World.useScroll w).
      - destruct (readOne_shape (World.windowHeight w) (World.layout w) (releasedGroup g))
          as (n & v & ->). destruct g; split; reflexivity.
      - destruct g; split; reflexivity. }
    destruct Hg' as [Hgid Hoff].
    split; [|split; [exact Hfresh'|]].
    + rewrite Hg, list_fmap_insert, <- Hids. apply list_insert_id.
      rewrite list_lookup_fmap, Hgi. simpl. rewrite Hgid. reflexivity.
    + intros gj gx Hlk Hdx. rewrite Hg in Hlk. rewrite Hd.
      destruct (decide (gj = timer_group t)) as [->|Hne].
      * rewrite list_lookup_insert_eq in Hlk by (eapply lookup_lt_Some, Hgi).
        injection Hlk as <-. congruence.
      * rewrite list_lookup_insert_ne in Hlk by congruence.
        destruct (Hpend gj gx Hlk Hdx) as (idx & ms & H1 & H2 & H3).
        exists idx, ms. split; [exact H1|]. split; [apply (Hkeep gj gx); assumption|].
        intros Hnodup. rewrite lookup_insert_ne; [apply H3, Hnodup|].
        intros E. apply Hne.
        eapply NoDup_lookup; [exact Hnodup| |].
        -- rewrite <- Hids, list_lookup_fmap, Hlk. reflexivity.
        -- rewrite <- Hids, list_lookup_fmap, Hgi. simpl. rewrite E. reflexivity.
Qed.

Lemma delayInv_run ids (w : World.t) (evs : list Event) :
  delayInv ids w -> delayInv ids (run evs w).
Proof.
  apply worldInv_run.
  - intros lay w'. apply delayInv_same; destruct w'; reflexivity.
  - intros p c w'. apply delayInv_same; destruct w'; reflexivity.
  - intros b w'. apply delayInv_same; destruct w'; reflexivity.
  - intros cbs w'. apply delayInv_same; destruct w'; reflexivity.
  - intros w'. apply (delayInv_map ids
                        (correctThresholds (World.windowHeight w') (World.layout w')));
      try (destruct w'; reflexivity).
    intros g. destruct g; repeat split.
  - intros w'. apply (delayInv_map ids
                        (fun g => if isProcessed g
                                  then readOne (World.windowHeight w') (World.layout w') g
                                  else g));
      try (destruct w'; reflexivity).
    intros g. destruct (isProcessed g); [|repeat split].
    destruct (readOne_shape (World.windowHeight w') (World.layout w') g) as (n & v & ->).
    destruct g; repeat split.
  - intros gi w'. apply delayInv_delayGroup.
  - intros gi g idxs w' Hw' Hg.
    destruct (pass_shape (World.windowHeight w') idxs g (World.dom w'))
      as (n & f & gd & els & wr & _ & E & _).
    match goal with |- delayInv _ (World.with_dom _ (World.with_group _ ?g' _)) =>
      apply (delayInv_insert ids gi g g' w'); [exact Hg| | | | | | |exact Hw']
    end; try (destruct w'; reflexivity).
    + rewrite E. destruct g; reflexivity.
    + right. rewrite E. destruct g; split; reflexivity.
  - intros id w'. apply delayInv_fireTimer.
Qed.

Lemma builtGroup_notDelaying parseJSON parseCharDelays id fe :
  ElemGroup.isDelaying (builtGroup parseJSON parseCharDelays id fe) = false.
Proof.
  destruct (builtGroup_members parseJSON parseCharDelays id fe) as (els & _ & ->).
  destruct (ecaReverse (fe_options fe)); reflexivity.
Qed.

Lemma delayInv_booted parseJSON parseCharDelays fes ch us lay :
  delayInv
    (map ElemGroup.groupId
       (page_groups (readyElementsForAnimation parseJSON parseCharDelays fes)))
    (bootedWorld parseJSON parseCharDelays fes ch us lay).
Proof.
  unfold bootedWorld.
  apply (worldInv_loadedWorld
           (delayInv (map ElemGroup.groupId
              (page_groups (readyElementsForAnimation parseJSON parseCharDelays fes))))).
  - intros b w'. apply delayInv_same; destruct w'; reflexivity.
  - intros cbs w'. apply delayInv_same; destruct w'; reflexivity.
  - intros w'. apply (delayInv_map _
                        (fun g => if isProcessed g
                                  then readOne (World.windowHeight w') (World.layout w') g
                                  else g));
      try (destruct w'; reflexivity).
    intros g. destruct (isProcessed g); [|repeat split].
    destruct (readOne_shape (World.windowHeight w') (World.layout w') g) as (n & v & ->).
    destruct g; repeat split.
  - split; [reflexivity|]. split.
    + split; [constructor | constructor].
    + intros gi g Hg Hd. exfalso. simpl in Hg.
      pose proof (Forall_builtGroups parseJSON parseCharDelays
                    (fun g => ElemGroup.isDelaying g = false) fes
                    (builtGroup_notDelaying parseJSON parseCharDelays)) as Hall.
      rewrite (Forall_lookup_1 _ _ _ _ Hall Hg) in Hd. discriminate.
Qed.

(** X17 ([delayGroup], its timeout, [groupDelayIds]): on every page the
    events reach from bootstrap, a group that is delaying waits for a
    timeout that is still pending and whose id it keeps in [delayId]: no
    group is left delaying with nothing to release it.  When the ids of
    the groups are distinct, the id of that timeout is what
    [groupDelayIds] holds under the id of the group. *)
Theorem delaying_group_has_timeout (parseJSON : string -> option JSObject)
    (parseCharDelays : string -> option (list CharDelay)) (fes : list FirstElem)
    (clientHeight : Q) (useScroll : bool) (lay : Layout) (evs : list Event)
    (gi : nat) (g : ElemGroup.t) :
  let w := run evs (bootedWorld parseJSON parseCharDelays fes clientHeight useScroll lay) in
  World.elemGroups w !! gi = Some g ->
  ElemGroup.isDelaying g = true ->
  exists id ms,
    ElemGroup.delayId g = Some id
    /\ mkTimer id ms gi ∈ World.timers w
    /\ (NoDup (map ElemGroup.groupId (World.elemGroups w)) ->
        World.groupDelayIds w !! ElemGroup.groupId g = Some (Some id)).
Proof.
  intros w Hg Hd.
  destruct (delayInv_run _ _ evs
              (delayInv_booted parseJSON parseCharDelays fes clientHeight useScroll lay))
    as (Hids & _ & Hpend).
  fold w in Hids, Hpend.
  destruct (Hpend gi g Hg Hd) as (id & ms & H1 & H2 & H3).
  exists id, ms. split; [exact H1|]. split; [exact H2|].
  intros Hnd. apply H3. rewrite <- Hids. exact Hnd.
Qed.

(** two cards in view that wait a second: after the first frame the
    group is delaying, and timeout 1 is pending for it *)
Lemma delaying_group_has_timeout_witness :
  let w := run [EvFrame]
             (bootedWorld rejectAll rejectAll [waitingCards] 500 true
                (fun _ => mkRect 100 200 100)) in
  exists g id ms,
    World.elemGroups w !! 0%nat = Some g
    /\ ElemGroup.isDelaying g = true
    /\ ElemGroup.delayId g = Some id
    /\ mkTimer id ms 0 ∈ World.timers w
    /\ World.groupDelayIds w !! "card" = Some (Some id).
Proof.
  intros w.
  assert (Hg : exists g, World.elemGroups w !! 0%nat = Some g
                         /\ ElemGroup.isDelaying g = true
                         /\ ElemGroup.groupId g = "card"
                         /\ map ElemGroup.groupId (World.elemGroups w) = ["card"]).
  { eexists. split; [reflexivity|]. repeat split. }
  destruct Hg as (g & Hg & Hd & Hn & Hids).
  destruct (delaying_group_has_timeout rejectAll rejectAll [waitingCards] 500 true
              (fun _ => mkRect 100 200 100) [EvFrame] 0 g Hg Hd)
    as (id & ms & H1 & H2 & H3).
  exists g, id, ms. split; [exact Hg|]. split; [exact Hd|]. split; [exact H1|].
  split; [exact H2|]. rewrite <- Hn. apply H3. fold w. rewrite Hids.
  apply NoDup_singleton.
Defined.

(** *** Thresholds *)

Lemma nextSmallestIndex_le (p : Q) (n i : nat) :
  nextSmallestIndex p n = Some i -> (i <= n)%nat.
Proof.
  revert i. induction n as [|n IH]; intros i; simpl.
  - destruct (Qlt_bool p _); [discriminate|]. intros [= <-]. lia.
  - destruct (Qlt_bool p _); [intros H; apply IH in H; lia|]. intros [= <-]. lia.
Qed.

Lemma correctThreshold_thresholdInv wh h e :
  thresholdInv e -> thresholdInv (correctThreshold wh h e).
Proof.
  intros (Ho & Ht & Hle). unfold correctThreshold.
  destruct (Qeq_bool 0 (Elem.originalThreshold e)); [repeat split; assumption|].
  assert (Horig : thresholdInv (Elem.with_threshold (Elem.originalThreshold e) e)).
  { destruct e; unfold thresholdInv; simpl in *. repeat split; try assumption. apply Qle_refl. }
  destruct (Qlt_bool wh h); [|exact Horig].
  destruct (nextSmallestIndex (wh / h) (length thresholds - 1)) as [i|] eqn:Hi; [|exact Horig].
  apply nextSmallestIndex_le in Hi. simpl in Hi.
  destruct (Qle_bool (nth i thresholds 0%Q) (Elem.originalThreshold e)) eqn:Hq; [|exact Horig].
  apply Qle_bool_iff in Hq.
  destruct e; unfold thresholdInv; simpl in *. repeat split; try assumption.
  apply validThreshold_nth, Hi.
Qed.

Lemma thresholdInv_same e e' :
  Elem.threshold e' = Elem.threshold e ->
  Elem.originalThreshold e' = Elem.originalThreshold e ->
  thresholdInv e -> thresholdInv e'.
Proof. unfold thresholdInv. intros -> ->. auto. Qed.

(** X18 ([convertThreshold], the constructor of [Elem],
    [correctThreshold], through every event): on every page the events
    reach from bootstrap, the threshold of every member and its original
    threshold are among the five values 0, 0.25, 0.5, 0.75 and 1, and the
    threshold is never above the original one. *)
Theorem thresholds_stay_valid (parseJSON : string -> option JSObject)
    (parseCharDelays : string -> option (list CharDelay)) (fes : list FirstElem)
    (clientHeight : Q) (useScroll : bool) (lay : Layout) (evs : list Event) :
  allGroups (fun g => Forall thresholdInv (ElemGroup.elems g))
    (run evs (bootedWorld parseJSON parseCharDelays fes clientHeight useScroll lay)).
Proof.
  assert (Hread : forall wh lay' g,
            Forall thresholdInv (ElemGroup.elems g) ->
            Forall thresholdInv (ElemGroup.elems (readOne wh lay' g))).
  { intros wh lay' g Hg. rewrite readOne_elems, Forall_fmap.
    eapply Forall_impl; [exact Hg|]. intros e. simpl.
    apply thresholdInv_same; destruct e; reflexivity. }
  apply allGroups_run.
  - exact Hread.
  - intros wh idxs g dom Hg.
    destruct (pass_shape wh idxs g dom) as (n & f & gd & els & wr & _ & -> & Hstep & _).
    replace (ElemGroup.elems _) with els by (destruct g; reflexivity).
    apply Forall_lookup_2. intros i e' He'.
    destruct (Forall2_lookup_r _ _ _ _ _ Hstep He') as (e & He & Hs).
    pose proof (Forall_lookup_1 _ _ _ _ Hg He) as Hb.
    destruct Hs as [->|[->|[_ ->]]]; [exact Hb| |];
      (eapply thresholdInv_same; [| |exact Hb]); destruct e; reflexivity.
  - intros id g Hg. destruct g; exact Hg.
  - intros g Hg. destruct g; exact Hg.
  - intros wh lay' g Hg. unfold correctThresholds.
    replace (ElemGroup.elems _)
      with (map (fun e => correctThreshold wh (rect_height (lay' (Elem.target e))) e)
                (ElemGroup.elems g)) by (destruct g; reflexivity).
    rewrite Forall_fmap. eapply Forall_impl; [exact Hg|]. intros e. simpl.
    apply correctThreshold_thresholdInv.
  - unfold bootedWorld. apply allGroups_loadedWorld; [exact Hread|].
    apply Forall_builtGroups. intros id fe.
    destruct (builtGroup_members parseJSON parseCharDelays id fe) as (els & Hs & ->).
    assert (Hels : Forall thresholdInv els).
    { apply Forall_lookup_2. intros i e' He'.
      destruct (Forall2_lookup_r _ _ _ _ _ Hs He') as (e & He & Hsame).
      simpl in He. rewrite list_lookup_fmap in He.
      destruct (fe_members fe !! i) as [m|] eqn:Hm; [|discriminate]. injection He as <-.
      rewrite Hsame. apply (thresholdInv_same (new_Elem m (ecaThresholdAll (fe_options fe))));
        [reflexivity | reflexivity | apply new_Elem_thresholdInv]. }
    destruct (ecaReverse (fe_options fe)); unfold reverseElems; simpl.
    + apply Forall_reverse. exact Hels.
    + exact Hels.
Qed.

(** *** The observer strategy *)

Lemma updatedAt_set y v m : updatedAt y (setUpdatedAt y v m) = Some v.
Proof.
  unfold updatedAt. induction m as [|[y' v'] m IH]; simpl.
  - rewrite Qeq_bool_refl. reflexivity.
  - destruct (Qeq_bool y' y) eqn:E; simpl; rewrite E; [reflexivity | exact IH].
Qed.

Lemma World_groups_with_group gi g w :
  World.elemGroups (World.with_group gi g w) = <[gi := g]> (World.elemGroups w).
Proof. destruct w; reflexivity. Qed.

Lemma World_with_group_twice gi g1 g2 w :
  World.with_group gi g2 (World.with_group gi g1 w) = World.with_group gi g2 w.
Proof. destruct w; unfold World.with_group; simpl. rewrite list_insert_insert_eq. reflexivity. Qed.

Lemma refElem_Some r w g e :
  refElem r w = Some (g, e)
  <-> World.elemGroups w !! fst r = Some g /\ ElemGroup.elems g !! snd r = Some e.
Proof.
  unfold refElem. split.
  - destruct (World.elemGroups w !! fst r) as [g'|]; simpl; [|discriminate].
    destruct (ElemGroup.elems g' !! snd r) as [e'|] eqn:He; simpl; [|discriminate].
    intros [= <- <-]. split; [reflexivity | exact He].
  - intros [-> He]. simpl. rewrite He. reflexivity.
Qed.

(** what one turn of [readEntries] does *)
Lemma readEntry_cases en s subs s' subs' :
  readEntry en (s, subs) = Some (s', subs') ->
  exists g e,
    refElem (en_elem en) (Observer.world s) = Some (g, e)
    /\ let gi := fst (en_elem en) in
       let i := snd (en_elem en) in
       let w := Observer.world s in
       let saved (s0 : Observer.t) (updated : list ElemRef) :=
         Observer.with_elemsUpdatedAtY
           (setUpdatedAt (Observer.scrollY s) (updated ++ [en_elem en])
              (Observer.elemsUpdatedAtY s))
           (Observer.with_world
              (World.with_group gi
                 (ElemGroup.with_upToDateELem (Some i)
                    (calculateVisibilityIO (World.windowHeight w) en i g)) w) s0) in
       (ElemGroup.playsOnLoad g = true
        /\ exists updated,
             updatedAt (Observer.scrollY s) (Observer.elemsUpdatedAtY s) = Some updated
             /\ s' = saved (unobserve (Elem.target e) s) updated
             /\ subs' = pushSubset (en_elem en) subs)
       \/ (neverRemoves g /\ Elem.isAnimated e = true
           /\ s' = unobserve (Elem.target e) s /\ subs' = subs)
       \/ (is_Some (updatedAt (Observer.scrollY s) (Observer.elemsUpdatedAtY s))
           /\ s' = Observer.with_world
                     (World.with_group gi (ElemGroup.with_upToDateELem (Some i) g) w)
                     (Observer.with_unobservedElems
                        (Observer.unobservedElems s ++ [en_elem en])
                        (unobserve (Elem.target e) s))
           /\ subs' = subs)
       \/ (is_Some (updatedAt (Observer.scrollY s) (Observer.elemsUpdatedAtY s))
           /\ s' = s /\ subs' = subs)
       \/ (exists updated,
             updatedAt (Observer.scrollY s) (Observer.elemsUpdatedAtY s) = Some updated
             /\ s' = saved s updated
             /\ subs' = pushSubset (en_elem en) subs).
Proof.
  unfold readEntry, shouldSkipUpdate.
  destruct (refElem (en_elem en) (Observer.world s)) as [[g e]|] eqn:Href;
    cbn [mbind option_bind]; [|discriminate].
  intros H. exists g, e. split; [reflexivity|].
  apply refElem_Some in Href as [Hg He].
  assert (Hlt : (fst (en_elem en) < length (World.elemGroups (Observer.world s)))%nat)
    by (eapply lookup_lt_Some, Hg).
  destruct s as [w y p m u o]. cbn [Observer.world Observer.scrollY Observer.elemsUpdatedAtY
    Observer.unobservedElems Observer.prevScrollY] in *.
  assert (Hsave : forall o' g1,
            saveElemRefForUpdate (en_elem en)
              (Observer.mk (World.with_group (fst (en_elem en)) g1 w) y p m u o', subs)
            = match updatedAt y m with
              | Some updated =>
                  Some (Observer.mk
                          (World.with_group (fst (en_elem en))
                             (ElemGroup.with_upToDateELem (Some (snd (en_elem en))) g1) w)
                          y p (setUpdatedAt y (updated ++ [en_elem en]) m) u o',
                        pushSubset (en_elem en) subs)
              | None => None
              end).
  { intros o' g1. unfold saveElemRefForUpdate. cbn [Observer.world Observer.scrollY
      Observer.elemsUpdatedAtY]. rewrite World_groups_with_group.
    rewrite list_lookup_insert_eq by exact Hlt. cbn [mbind option_bind].
    rewrite World_with_group_twice. destruct (updatedAt y m); reflexivity. }
  destruct (ElemGroup.playsOnLoad g) eqn:Hp.
  { left. split; [reflexivity|]. cbn [unobserve Observer.with_observed Observer.world
      Observer.observed Observer.with_world] in H. rewrite Hg in H. rewrite Hsave in H.
    destruct (updatedAt y m) as [updated|]; [|discriminate]. injection H as <- <-.
    exists updated. repeat split. }
  destruct (negb (StrOpt_truthy (ElemGroup.removesAnimationWhenNotInView g))
            && Elem.isAnimated e) eqn:Hdone.
  { right. left. apply andb_true_iff in Hdone as [Hr Ha]. apply negb_true_iff in Hr.
    injection H as <- <-. repeat split; assumption. }
  destruct (updatedAt y m) as [updated|] eqn:Hu; cbn [mbind option_bind] in H; [|discriminate].
  destruct (sameScrollY p y && Qeq_bool (World.prevWindowHeight w) (World.windowHeight w)
            && bool_decide (en_elem en ∈ updated)).
  { right. right. left. injection H as <- <-. split; [eexists; reflexivity|].
    split; reflexivity. }
  destruct (Elem.isVisible e && Qlt_bool (Elem.threshold e) (en_intersectionRatio en)
            || negb (Elem.isVisible e)
               && Qlt_bool (en_intersectionRatio en) (Elem.threshold e)).
  { right. right. right. left. injection H as <- <-. split; [eexists; reflexivity|].
    split; reflexivity. }
  right. right. right. right. cbn [Observer.world Observer.with_world] in H.
  rewrite Hg in H.
  rewrite Hsave in H. injection H as <- <-. exists updated. repeat split.
Qed.

Section ObserverRelation.
Variable P : ElemGroup.t -> Prop.
Variable R : ElemGroup.t -> ElemGroup.t -> Prop.
Variable Qd : list DomWrite -> Prop.
Hypothesis R_refl : forall g, R g g.
Hypothesis R_trans : forall g1 g2 g3, R g1 g2 -> R g2 g3 -> R g1 g3.
Hypothesis PR_readOne : forall wh lay g, P g -> P (readOne wh lay g) /\ R g (readOne wh lay g).
Hypothesis PR_pass : forall wh idxs g dom,
  P g ->
  P (updateMutableProps
       (fst (fold_left (fun acc i => updateAnimations wh i acc) idxs (g, dom))))
  /\ R g (updateMutableProps
            (fst (fold_left (fun acc i => updateAnimations wh i acc) idxs (g, dom)))).
Hypothesis Qd_pass : forall wh idxs g dom,
  P g -> Qd dom ->
  Qd (snd (fold_left (fun acc i => updateAnimations wh i acc) idxs (g, dom))).
Hypothesis PR_delayed : forall id g, P g -> P (delayedGroup id g) /\ R g (delayedGroup id g).
Hypothesis PR_released : forall g, P g -> P (releasedGroup g) /\ R g (releasedGroup g).
Hypothesis PR_thresholds : forall wh lay g,
  P g -> P (correctThresholds wh lay g) /\ R g (correctThresholds wh lay g).
Hypothesis PR_visibilityIO : forall wh en i g,
  P g -> P (calculateVisibilityIO wh en i g) /\ R g (calculateVisibilityIO wh en i g).
Hypothesis PR_upToDate : forall x g,
  P g -> P (ElemGroup.with_upToDateELem x g) /\ R g (ElemGroup.with_upToDateELem x g).

Lemma keptSince_refl w : allGroups P w -> Qd (World.dom w) ->
  keptSince P R Qd (World.elemGroups w) w.
Proof.
  intros H1 H2. split; [exact H1|]. split; [|exact H2].
  apply Forall2_same_length_lookup. split; [reflexivity|].
  intros i x y Hx Hy. rewrite Hx in Hy. injection Hy as <-. apply R_refl.
Qed.

Lemma keptSince_same gs0 w w' :
  World.elemGroups w' = World.elemGroups w -> World.dom w' = World.dom w ->
  keptSince P R Qd gs0 w -> keptSince P R Qd gs0 w'.
Proof. unfold keptSince, allGroups. intros -> ->. auto. Qed.

Lemma keptSince_step gs0 ev w :
  keptSince P R Qd gs0 w -> keptSince P R Qd gs0 (step ev w).
Proof.
  intros (H1 & H2 & H3).
  destruct (related_run P R Qd R_refl R_trans PR_readOne PR_pass Qd_pass PR_delayed
              PR_released PR_thresholds w [ev] H1 H3) as (A & B & C).
  split; [exact A|]. split; [|exact C].
  eapply Forall2_trans; [|exact H2|exact B]. intros x y z. apply R_trans.
Qed.

Lemma keptSince_with_group gs0 gi g g' w :
  keptSince P R Qd gs0 w -> World.elemGroups w !! gi = Some g ->
  P g' -> R g g' ->
  keptSince P R Qd gs0 (World.with_group gi g' w).
Proof.
  intros (H1 & H2 & H3) Hg HP HR. unfold keptSince, allGroups in *.
  rewrite World_groups_with_group.
  destruct (related_insert P R R_trans gs0 (World.elemGroups w) gi g g' H1 H2 Hg HP HR)
    as [A B].
  split; [exact A|]. split; [exact B|]. destruct w; exact H3.
Qed.

Lemma keptSince_readEntry gs0 en s subs s' subs' :
  readEntry en (s, subs) = Some (s', subs') ->
  keptSince P R Qd gs0 (Observer.world s) -> keptSince P R Qd gs0 (Observer.world s').
Proof.
  intros H Hs. destruct (readEntry_cases en s subs s' subs' H) as (g & e & Href & Hc).
  apply refElem_Some in Href as [Hg He].
  pose proof (Forall_lookup_1 _ _ _ _ (proj1 Hs) Hg) as HPg.
  destruct (PR_visibilityIO (World.windowHeight (Observer.world s)) en (snd (en_elem en)) g HPg)
    as [HP1 HR1].
  destruct (PR_upToDate (Some (snd (en_elem en))) _ HP1) as [HP2 HR2].
  destruct (PR_upToDate (Some (snd (en_elem en))) g HPg) as [HP3 HR3].
  cbv zeta in Hc.
  destruct Hc as [(_ & upd & _ & -> & _)|[(_ & _ & -> & _)|[(_ & -> & _)|[(_ & -> & _)
                 |(upd & _ & -> & _)]]]];
    destruct s as [w y p m u o]; cbn [Observer.world Observer.with_world unobserve
      Observer.with_observed Observer.with_elemsUpdatedAtY Observer.with_unobservedElems] in *;
    try exact Hs;
    try (apply (keptSince_with_group gs0 _ g); [exact Hs | exact Hg | assumption|];
         first [exact HR3 | exact (R_trans _ _ _ HR1 HR2)]).
Qed.

Lemma keptSince_readEntries gs0 entries s subs s' subs' :
  readEntries entries (s, subs) = Some (s', subs') ->
  keptSince P R Qd gs0 (Observer.world s) -> keptSince P R Qd gs0 (Observer.world s').
Proof.
  revert s subs. induction entries as [|en entries IH]; intros s subs H Hs.
  - injection H as <- <-. exact Hs.
  - cbn [readEntries] in H.
    destruct (readEntry en (s, subs)) as [[s1 subs1]|] eqn:E; [|discriminate].
    cbn [mbind option_bind] in H.
    eapply IH; [exact H|]. eapply keptSince_readEntry; eassumption.
Qed.

Lemma keptSince_handleIntersect gs0 entries s s' :
  handleIntersect entries s = Some s' ->
  keptSince P R Qd gs0 (Observer.world s) -> keptSince P R Qd gs0 (Observer.world s').
Proof.
  unfold handleIntersect. intros H Hs.
  assert (H1 : forall (b : bool) m0,
            keptSince P R Qd gs0
              (Observer.world (if b then Observer.with_elemsUpdatedAtY m0 s else s))).
  { intros [] m0; [destruct s|]; exact Hs. }
  specialize (H1 (negb (sameScrollY (Observer.prevScrollY s) (Observer.scrollY s)))
                 (setUpdatedAt (Observer.scrollY s) [] (Observer.elemsUpdatedAtY s))).
  set (s1 := if negb (sameScrollY (Observer.prevScrollY s) (Observer.scrollY s))
             then Observer.with_elemsUpdatedAtY
                    (setUpdatedAt (Observer.scrollY s) [] (Observer.elemsUpdatedAtY s)) s
             else s) in *.
  clearbody s1.
  destruct (negb (World.updating (Observer.world s1))).
  - destruct (readEntries entries _) as [[s3 subs]|] eqn:E; [|discriminate].
    injection H as <-.
    apply keptSince_readEntries with (gs0 := gs0) in E.
    + revert E. destruct s3 as [w3 ? ? ? ? ?]. cbn [Observer.world Observer.with_world
        Observer.with_scroll]. apply keptSince_same; destruct w3; reflexivity.
    + revert H1. destruct s1 as [w1 ? ? ? ? ?]. cbn [Observer.world Observer.with_world].
      apply keptSince_same; destruct w1; reflexivity.
  - injection H as <-. revert H1. destruct s1 as [w1 ? ? ? ? ?].
    cbn [Observer.world Observer.with_world Observer.with_scroll].
    apply keptSince_same; destruct w1; reflexivity.
Qed.

Lemma keptSince_observerStep gs0 ev s s' :
  observerStep ev s = Some s' ->
  keptSince P R Qd gs0 (Observer.world s) -> keptSince P R Qd gs0 (Observer.world s').
Proof.
  destruct ev as [y lay|ch lay|entries|id|]; cbn [observerStep]; intros H Hs.
  - injection H as <-. revert Hs. destruct s as [w ? ? ? ? ?].
    unfold ecaHandleNewScrollY, reobserveElems, updateScrollY.
    cbn [Observer.world Observer.with_world Observer.scrollY].
    destruct (Qeq_bool _ _); cbn; apply keptSince_same; destruct w; reflexivity.
  - injection H as <-. destruct s as [w ? ? ? ? ?].
    unfold reobserveElems. cbn [Observer.world Observer.with_world Observer.with_observed
      Observer.with_unobservedElems].
    apply (keptSince_step gs0 (EvResize ch lay) w Hs).
  - eapply keptSince_handleIntersect; eassumption.
  - injection H as <-. destruct s as [w ? ? ? ? ?]. cbn [Observer.world Observer.with_world].
    apply (keptSince_step gs0 (EvTimer id) w Hs).
  - injection H as <-. destruct s as [w ? ? ? ? ?]. cbn [Observer.world Observer.with_world].
    apply (keptSince_step gs0 EvFrame w Hs).
Qed.

(** every group keeps [P] and stays related to what it was, and the log
    of writes keeps [Qd], under the observer strategy too *)
Lemma keptSince_observerRun gs0 evs s s' :
  observerRun evs s = Some s' ->
  keptSince P R Qd gs0 (Observer.world s) -> keptSince P R Qd gs0 (Observer.world s').
Proof.
  revert s. induction evs as [|ev evs IH]; intros s H Hs.
  - injection H as <-. exact Hs.
  - cbn [observerRun] in H. destruct (observerStep ev s) as [s1|] eqn:E; [|discriminate].
    cbn [mbind option_bind] in H. eapply IH; [exact H|].
    eapply keptSince_observerStep; eassumption.
Qed.
End ObserverRelation.

(** the observer's reading changes the member it reads, in its
    coordinates and its visible flag, and the visibility counters *)
Lemma calculateVisibilityIO_shape wh en i g :
  exists n v e',
    calculateVisibilityIO wh en i g
    = ElemGroup.with_visibility n v
        (ElemGroup.with_elems (<[i := e']> (ElemGroup.elems g)) g)
    /\ forall e, ElemGroup.elems g !! i = Some e ->
         exists tp bt vis, e' = Elem.with_isVisible vis (Elem.with_coords tp bt e).
Proof.
  unfold calculateVisibilityIO.
  destruct (ElemGroup.elems g !! i) as [e|] eqn:He.
  2:{ exists (ElemGroup.numElemsVisible g), (ElemGroup.isVisible g),
        (Elem.mk None None false false 0%Q 0%Q None 0%nat "").
      split; [|intros e0 H0; discriminate].
      rewrite list_insert_ge by (apply lookup_ge_None, He). destruct g; reflexivity. }
  set (e1 := Elem.with_coords (Some (en_top en)) (Some (en_bottom en)) e).
  set (g1 := ElemGroup.with_elems (<[i := e1]> (ElemGroup.elems g)) g).
  assert (H1 : ElemGroup.elems g1 !! i = Some e1).
  { subst g1. destruct g; simpl in *. apply list_lookup_insert_eq.
    eapply lookup_lt_Some, He. }
  assert (Hkeep : exists n v e',
            g1 = ElemGroup.with_visibility n v
                   (ElemGroup.with_elems (<[i := e']> (ElemGroup.elems g)) g)
            /\ forall e0, Some e = Some e0 ->
                 exists tp bt vis, e' = Elem.with_isVisible vis (Elem.with_coords tp bt e0)).
  { exists (ElemGroup.numElemsVisible g), (ElemGroup.isVisible g), e1.
    split; [subst g1; destruct g; reflexivity|].
    intros e0 [= <-]. exists (Some (en_top en)), (Some (en_bottom en)), (Elem.isVisible e).
    subst e1. destruct e; reflexivity. }
  assert (Hset : forall b, exists n v e',
            set_isVisible (JBool b) i g1
            = ElemGroup.with_visibility n v
                (ElemGroup.with_elems (<[i := e']> (ElemGroup.elems g)) g)
            /\ forall e0, Some e = Some e0 ->
                 exists tp bt vis, e' = Elem.with_isVisible vis (Elem.with_coords tp bt e0)).
  { intros b. unfold set_isVisible. rewrite H1.
    destruct (strict_neq_bool (JBool b) (Elem.isVisible e1));
      [unfold updateVisibility;
       exists (ElemGroup.numElemsVisible g + (if b then 1 else -1)),
         (0 <? ElemGroup.numElemsVisible g + (if b then 1 else -1)),
         (Elem.with_isVisible b e1)
      |exists (ElemGroup.numElemsVisible g), (ElemGroup.isVisible g),
         (Elem.with_isVisible b e1)];
      (split; [subst g1; destruct g; simpl; rewrite list_insert_insert_eq; reflexivity|];
       intros e0 [= <-]; exists (Some (en_top en)), (Some (en_bottom en)), b; reflexivity). }
  repeat match goal with |- context [if ?b then _ else _] => destruct b end;
    first [exact Hkeep | apply Hset].
Qed.

Lemma calculateVisibilityIO_visibilityInv wh en i g :
  visibilityInv g -> visibilityInv (calculateVisibilityIO wh en i g).
Proof.
  intros Hg. unfold calculateVisibilityIO.
  destruct (ElemGroup.elems g !! i) as [e|] eqn:Hi; [|exact Hg].
  match goal with |- context [ElemGroup.with_elems ?l g] =>
    assert (H1 : visibilityInv (ElemGroup.with_elems l g)) end.
  { destruct Hg as [Hc Hv]. split; [|destruct g; exact Hv].
    destruct g; simpl in *. rewrite (countElems_insert _ _ _ e _ Hi), Hc.
    destruct e as [? ? v ? ? ? ? ? ?]; simpl. destruct v; lia. }
  repeat match goal with |- context [if ?b then _ else _] => destruct b end;
    first [exact H1 | apply set_isVisible_bool_inv, H1].
Qed.

Lemma readOne_visibilityInv wh lay g : visibilityInv g -> visibilityInv (readOne wh lay g).
Proof.
  unfold readOne, forEach_elem.
  generalize (seq 0 (length (ElemGroup.elems g))). intros l. revert g.
  induction l as [|i l IH]; intros g Hg; simpl; [exact Hg|].
  apply IH, calculateVisibility_visibilityInv, Hg.
Qed.

Lemma correctThresholds_visibilityInv wh lay g :
  visibilityInv g -> visibilityInv (correctThresholds wh lay g).
Proof.
  apply visibilityInv_same; try (destruct g; reflexivity).
  unfold correctThresholds. destruct g; simpl. rewrite map_map. apply map_ext.
  intros e. unfold correctThreshold.
  repeat match goal with |- context [if ?b then _ else _] => destruct b end;
    try destruct (nextSmallestIndex _ _); destruct e; reflexivity.
Qed.

Lemma visibilityInv_observerRun evs s s' :
  observerRun evs s = Some s' ->
  allGroups visibilityInv (Observer.world s) ->
  allGroups visibilityInv (Observer.world s').
Proof.
  intros H Hs.
  apply (keptSince_observerRun visibilityInv (fun _ _ => True) (fun _ => True))
    with (gs0 := World.elemGroups (Observer.world s)) (evs := evs) (s := s); auto.
  - intros wh lay g Hg. split; [apply readOne_visibilityInv, Hg | exact I].
  - intros wh idxs g dom Hg. split; [apply pass_visibilityInv, Hg | exact I].
  - intros id g Hg. split; [|exact I]. revert Hg.
    apply visibilityInv_same; destruct g; reflexivity.
  - intros g Hg. split; [|exact I]. revert Hg.
    apply visibilityInv_same; destruct g; reflexivity.
  - intros wh lay g Hg. split; [apply correctThresholds_visibilityInv, Hg | exact I].
  - intros wh en i g Hg. split; [apply calculateVisibilityIO_visibilityInv, Hg | exact I].
  - intros x g Hg. split; [|exact I]. revert Hg.
    apply visibilityInv_same; destruct g; reflexivity.
  - apply keptSince_refl; auto.
Qed.

(** *** The members of a page under the observer strategy *)

Lemma sameMembers_members g g' :
  ElemGroup.playsOnLoad g' = ElemGroup.playsOnLoad g ->
  ElemGroup.removesAnimationWhenNotInView g' = ElemGroup.removesAnimationWhenNotInView g ->
  Forall2 (fun e e' => Elem.target e' = Elem.target e
                       /\ Elem.isAnimated e' = Elem.isAnimated e)
          (ElemGroup.elems g) (ElemGroup.elems g') ->
  sameMembers g g'.
Proof.
  intros Hp Hr H. split; [exact Hp|]. split; [exact Hr|].
  eapply Forall2_impl; [exact H|]. intros e e' [Ht Ha]. split; [exact Ht|].
  rewrite Ha. auto.
Qed.

Lemma sameMembers_map g g' (f : Elem.t -> Elem.t) :
  ElemGroup.playsOnLoad g' = ElemGroup.playsOnLoad g ->
  ElemGroup.removesAnimationWhenNotInView g' = ElemGroup.removesAnimationWhenNotInView g ->
  ElemGroup.elems g' = map f (ElemGroup.elems g) ->
  (forall e, Elem.target (f e) = Elem.target e /\ Elem.isAnimated (f e) = Elem.isAnimated e) ->
  sameMembers g g'.
Proof.
  intros Hp Hr Hel Hf. apply sameMembers_members; [exact Hp | exact Hr|]. rewrite Hel.
  apply Forall2_fmap_r. apply Forall2_same_length_lookup. split; [reflexivity|].
  intros i x y Hx Hy. rewrite Hx in Hy. injection Hy as <-. apply Hf.
Qed.

Lemma sameMembers_refl g : sameMembers g g.
Proof.
  apply sameMembers_map with (f := fun e => e); auto. symmetry. apply map_id.
Qed.

Lemma sameMembers_trans g1 g2 g3 :
  sameMembers g1 g2 -> sameMembers g2 g3 -> sameMembers g1 g3.
Proof.
  intros (Hp1 & Hr1 & H1) (Hp2 & Hr2 & H2).
  split; [congruence|]. split; [congruence|].
  eapply Forall2_trans; [|exact H1|exact H2].
  intros e1 e2 e3 [Ht1 Ha1] [Ht2 Ha2]. split; [congruence|].
  intros Hn Ha. apply Ha2; [|apply Ha1; assumption].
  unfold neverRemoves in *. rewrite Hr1. exact Hn.
Qed.

Lemma sameMembers_readOne wh lay g : sameMembers g (readOne wh lay g).
Proof.
  destruct (readOne_shape wh lay g) as (n & v & E).
  apply sameMembers_map with (f := derivedElem wh lay g);
    [rewrite E; destruct g; reflexivity | rewrite E; destruct g; reflexivity
    |apply readOne_elems|].
  intros e. split; [apply derivedElem_target | apply derivedElem_isAnimated].
Qed.

Lemma sameMembers_pass wh idxs g dom :
  sameMembers g
    (updateMutableProps
       (fst (fold_left (fun acc i => updateAnimations wh i acc) idxs (g, dom)))).
Proof.
  destruct (pass_shape wh idxs g dom) as (n & f & gd & els & wr & _ & -> & Hstep & _).
  split; [destruct g; reflexivity|]. split; [destruct g; reflexivity|].
  match goal with |- Forall2 _ _ (ElemGroup.elems ?x) =>
    replace (ElemGroup.elems x) with els by (destruct g; reflexivity) end.
  eapply Forall2_impl; [exact Hstep|].
  intros e e' [->|[->|[Hr ->]]].
  - auto.
  - destruct e; auto.
  - split; [destruct e; reflexivity|]. intros Hn. unfold neverRemoves in Hn. congruence.
Qed.

Lemma sameMembers_delayed id g : sameMembers g (delayedGroup id g).
Proof.
  apply sameMembers_map with (f := fun e => e); try (destruct g; reflexivity); auto.
  destruct g; symmetry; apply map_id.
Qed.

Lemma sameMembers_released g : sameMembers g (releasedGroup g).
Proof.
  apply sameMembers_map with (f := fun e => e); try (destruct g; reflexivity); auto.
  destruct g; symmetry; apply map_id.
Qed.

Lemma sameMembers_thresholds wh lay g : sameMembers g (correctThresholds wh lay g).
Proof.
  apply sameMembers_map
    with (f := fun e => correctThreshold wh (rect_height (lay (Elem.target e))) e);
    try (destruct g; reflexivity).
  intros e. split; [apply correctThreshold_target | apply correctThreshold_flags].
Qed.

Lemma sameMembers_visibilityIO wh en i g : sameMembers g (calculateVisibilityIO wh en i g).
Proof.
  destruct (calculateVisibilityIO_shape wh en i g) as (n & v & e' & -> & He').
  apply sameMembers_members; try (destruct g; reflexivity).
  replace (ElemGroup.elems
             (ElemGroup.with_visibility n v
                (ElemGroup.with_elems (<[i := e']> (ElemGroup.elems g)) g)))
    with (<[i := e']> (ElemGroup.elems g)) by (destruct g; reflexivity).
  apply Forall2_same_length_lookup. split; [rewrite length_insert; reflexivity|].
  intros j x y Hx Hy. destruct (decide (j = i)) as [->|Hne].
  - rewrite list_lookup_insert_eq in Hy by (eapply lookup_lt_Some, Hx).
    injection Hy as <-. destruct (He' x Hx) as (tp & bt & vis & ->).
    destruct x; split; reflexivity.
  - rewrite list_lookup_insert_ne in Hy by congruence.
    rewrite Hx in Hy. injection Hy as <-. auto.
Qed.

Lemma sameMembers_upToDate x g : sameMembers g (ElemGroup.with_upToDateELem x g).
Proof.
  apply sameMembers_map with (f := fun e => e); try (destruct g; reflexivity); auto.
  destruct g; symmetry; apply map_id.
Qed.

(** the groups keep their members under the observer strategy *)
Lemma sameMembers_observerRun gs0 evs s s' :
  observerRun evs s = Some s' ->
  Forall2 sameMembers gs0 (World.elemGroups (Observer.world s)) ->
  Forall2 sameMembers gs0 (World.elemGroups (Observer.world s')).
Proof.
  intros H Hs.
  apply (keptSince_observerRun (fun _ => True) sameMembers (fun _ => True))
    with (gs0 := gs0) (evs := evs) (s := s); auto using sameMembers_refl,
      sameMembers_readOne, sameMembers_pass, sameMembers_delayed, sameMembers_released,
      sameMembers_thresholds, sameMembers_visibilityIO, sameMembers_upToDate.
  - apply sameMembers_trans.
  - split; [|split; [exact Hs | exact I]]. apply Forall_forall. auto.
Qed.

Lemma sameMembers_observerStep gs0 ev s s' :
  observerStep ev s = Some s' ->
  Forall2 sameMembers gs0 (World.elemGroups (Observer.world s)) ->
  Forall2 sameMembers gs0 (World.elemGroups (Observer.world s')).
Proof.
  intros H. apply (sameMembers_observerRun gs0 [ev] s s').
  cbn [observerRun]. rewrite H. reflexivity.
Qed.

Lemma sameMembers_readEntry gs0 en s subs s' subs' :
  readEntry en (s, subs) = Some (s', subs') ->
  Forall2 sameMembers gs0 (World.elemGroups (Observer.world s)) ->
  Forall2 sameMembers gs0 (World.elemGroups (Observer.world s')).
Proof.
  intros H Hs.
  apply (keptSince_readEntry (fun _ => True) sameMembers (fun _ => True))
    with (gs0 := gs0) (en := en) (s := s) (subs := subs) (subs' := subs');
    auto using sameMembers_visibilityIO, sameMembers_upToDate.
  - apply sameMembers_trans.
  - split; [|split; [exact Hs | exact I]]. apply Forall_forall. auto.
Qed.

Lemma sameMembers_validRef gs gs' r :
  Forall2 sameMembers gs gs' ->
  validRef gs r = true ->
  exists g e, gs' !! fst r = Some g /\ ElemGroup.elems g !! snd r = Some e.
Proof.
  intros H Hv. unfold validRef in Hv.
  destruct (gs !! fst r) as [g0|] eqn:Hg0; [|discriminate].
  apply bool_decide_eq_true in Hv.
  destruct (Forall2_lookup_l _ _ _ _ _ H Hg0) as (g & Hg & _ & _ & Hm).
  exists g. apply Forall2_length in Hm. rewrite Hm in Hv.
  destruct (lookup_lt_is_Some_2 _ _ Hv) as [e He]. exists e. split; assumption.
Qed.

(** *** The table of the members updated at this scroll position *)

Lemma readEntry_progress en s subs g e :
  refElem (en_elem en) (Observer.world s) = Some (g, e) ->
  is_Some (updatedAt (Observer.scrollY s) (Observer.elemsUpdatedAtY s)) ->
  is_Some (readEntry en (s, subs)).
Proof.
  intros Href [updated Hu]. unfold readEntry, shouldSkipUpdate. rewrite Href.
  cbn [mbind option_bind]. apply refElem_Some in Href as [Hg He].
  assert (Hlt : (fst (en_elem en) < length (World.elemGroups (Observer.world s)))%nat)
    by (eapply lookup_lt_Some, Hg).
  assert (Hsave : forall s1 g1,
            Observer.scrollY s1 = Observer.scrollY s ->
            Observer.elemsUpdatedAtY s1 = Observer.elemsUpdatedAtY s ->
            is_Some (saveElemRefForUpdate (en_elem en)
                       (Observer.with_world
                          (World.with_group (fst (en_elem en)) g1 (Observer.world s)) s1,
                        subs))).
  { intros s1 g1 Hy Hm. unfold saveElemRefForUpdate.
    replace (Observer.world (Observer.with_world
               (World.with_group (fst (en_elem en)) g1 (Observer.world s)) s1))
      with (World.with_group (fst (en_elem en)) g1 (Observer.world s))
      by (destruct s1; reflexivity).
    replace (Observer.scrollY (Observer.with_world
               (World.with_group (fst (en_elem en)) g1 (Observer.world s)) s1))
      with (Observer.scrollY s) by (destruct s1; simpl in *; congruence).
    replace (Observer.elemsUpdatedAtY (Observer.with_world
               (World.with_group (fst (en_elem en)) g1 (Observer.world s)) s1))
      with (Observer.elemsUpdatedAtY s) by (destruct s1; simpl in *; congruence).
    rewrite World_groups_with_group, list_lookup_insert_eq by exact Hlt.
    cbn [mbind option_bind]. rewrite Hu. cbn [mbind option_bind]. eexists. reflexivity. }
  destruct (ElemGroup.playsOnLoad g).
  { replace (Observer.world (unobserve (Elem.target e) s)) with (Observer.world s)
      by (destruct s; reflexivity).
    rewrite Hg. apply Hsave; destruct s; reflexivity. }
  destruct (_ && Elem.isAnimated e); [eexists; reflexivity|].
  rewrite Hu. cbn [mbind option_bind].
  destruct (_ && _ && _); [eexists; reflexivity|].
  destruct (_ || _); [eexists; reflexivity|].
  rewrite Hg. apply Hsave; reflexivity.
Qed.

Lemma readEntry_key en s subs s' subs' :
  readEntry en (s, subs) = Some (s', subs') ->
  Observer.scrollY s' = Observer.scrollY s
  /\ Observer.prevScrollY s' = Observer.prevScrollY s
  /\ (is_Some (updatedAt (Observer.scrollY s) (Observer.elemsUpdatedAtY s)) ->
      is_Some (updatedAt (Observer.scrollY s') (Observer.elemsUpdatedAtY s'))).
Proof.
  intros H. destruct (readEntry_cases en s subs s' subs' H) as (g & e & _ & Hc).
  cbv zeta in Hc.
  destruct Hc as [(_ & upd & _ & -> & _)|[(_ & _ & -> & _)|[(_ & -> & _)|[(_ & -> & _)
                 |(upd & _ & -> & _)]]]];
    destruct s as [w y p m u o];
    cbn [Observer.world Observer.scrollY Observer.prevScrollY Observer.elemsUpdatedAtY
         Observer.with_world Observer.with_elemsUpdatedAtY Observer.with_unobservedElems
         Observer.with_observed unobserve];
    repeat split; auto;
    intros _; rewrite updatedAt_set; eexists; reflexivity.
Qed.

Lemma readEntries_progress gs0 entries s subs :
  is_Some (updatedAt (Observer.scrollY s) (Observer.elemsUpdatedAtY s)) ->
  Forall2 sameMembers gs0 (World.elemGroups (Observer.world s)) ->
  forallb (fun en => validRef gs0 (en_elem en)) entries = true ->
  exists s' subs',
    readEntries entries (s, subs) = Some (s', subs')
    /\ Observer.scrollY s' = Observer.scrollY s
    /\ is_Some (updatedAt (Observer.scrollY s') (Observer.elemsUpdatedAtY s')).
Proof.
  revert s subs. induction entries as [|en entries IH]; intros s subs Hu Hs Hv.
  - exists s, subs. repeat split. exact Hu.
  - cbn [forallb] in Hv. apply andb_true_iff in Hv as [Hv1 Hv2].
    destruct (sameMembers_validRef _ _ _ Hs Hv1) as (g & e & Hg & He).
    destruct (readEntry_progress en s subs g e) as [[s1 subs1] E];
      [apply refElem_Some; split; assumption | exact Hu|].
    destruct (readEntry_key en s subs s1 subs1 E) as (Hy & _ & Hk).
    destruct (IH s1 subs1 (Hk Hu) (sameMembers_readEntry gs0 _ _ _ _ _ E Hs) Hv2)
      as (s' & subs' & E' & Hy' & Hu').
    exists s', subs'. cbn [readEntries]. rewrite E. cbn [mbind option_bind].
    split; [exact E'|]. split; [congruence | exact Hu'].
Qed.

Lemma handleIntersect_progress gs0 entries s :
  (sameScrollY (Observer.prevScrollY s) (Observer.scrollY s) = true ->
   is_Some (updatedAt (Observer.scrollY s) (Observer.elemsUpdatedAtY s))) ->
  Forall2 sameMembers gs0 (World.elemGroups (Observer.world s)) ->
  forallb (fun en => validRef gs0 (en_elem en)) entries = true ->
  exists s',
    handleIntersect entries s = Some s'
    /\ is_Some (updatedAt (Observer.scrollY s') (Observer.elemsUpdatedAtY s'))
    /\ Observer.prevScrollY s' = Some (Observer.scrollY s').
Proof.
  intros Hkey Hs Hv. unfold handleIntersect.
  assert (H1 : exists s1,
            s1 = (if negb (sameScrollY (Observer.prevScrollY s) (Observer.scrollY s))
                  then Observer.with_elemsUpdatedAtY
                         (setUpdatedAt (Observer.scrollY s) [] (Observer.elemsUpdatedAtY s)) s
                  else s)
            /\ Observer.world s1 = Observer.world s
            /\ Observer.scrollY s1 = Observer.scrollY s
            /\ is_Some (updatedAt (Observer.scrollY s1) (Observer.elemsUpdatedAtY s1))).
  { eexists. split; [reflexivity|].
    destruct (sameScrollY _ _); cbn [negb].
    - repeat split. apply Hkey. reflexivity.
    - destruct s; cbn [Observer.world Observer.scrollY Observer.elemsUpdatedAtY
        Observer.with_elemsUpdatedAtY].
      repeat split. rewrite updatedAt_set. eexists; reflexivity. }
  destruct H1 as (s1 & <- & Hw1 & Hy1 & Hu1).
  destruct (negb (World.updating (Observer.world s1))).
  - destruct (readEntries_progress gs0 entries
                (Observer.with_world (World.with_updating true (Observer.world s1)) s1) [])
      as (s3 & subs & -> & Hy3 & Hu3).
    + destruct s1; exact Hu1.
    + rewrite Hw1. destruct s as [w ? ? ? ? ?], s1 as [w1 ? ? ? ? ?]. cbn in *.
      destruct w; exact Hs.
    + exact Hv.
    + eexists. split; [reflexivity|].
      assert (Hy3' : Observer.scrollY s3 = Observer.scrollY s).
      { rewrite Hy3. destruct s1; cbn in *. exact Hy1. }
      rewrite <- Hy3'. destruct s3; cbn in *. split; [exact Hu3 | reflexivity].
  - eexists. split; [reflexivity|]. rewrite <- Hy1. destruct s1; cbn in *.
    split; [exact Hu1 | reflexivity].
Qed.

Lemma Qeq_bool_sym_false x y : Qeq_bool x y = false -> Qeq_bool y x = false.
Proof.
  intros H. destruct (Qeq_bool y x) eqn:E; [|reflexivity].
  apply Qeq_bool_iff in E. symmetry in E. apply Qeq_bool_iff in E. congruence.
Qed.

Lemma observerStep_progress gs0 ev s :
  (sameScrollY (Observer.prevScrollY s) (Observer.scrollY s) = true ->
   is_Some (updatedAt (Observer.scrollY s) (Observer.elemsUpdatedAtY s))) ->
  Forall2 sameMembers gs0 (World.elemGroups (Observer.world s)) ->
  namesMembers gs0 ev = true ->
  exists s',
    observerStep ev s = Some s'
    /\ (sameScrollY (Observer.prevScrollY s') (Observer.scrollY s') = true ->
        is_Some (updatedAt (Observer.scrollY s') (Observer.elemsUpdatedAtY s'))).
Proof.
  intros Hkey Hs Hv. destruct ev as [y lay|ch lay|entries|id|]; cbn [observerStep].
  - eexists. split; [reflexivity|].
    unfold ecaHandleNewScrollY, reobserveElems, updateScrollY.
    destruct s as [w y0 p m u o]. cbn in *.
    destruct (Qeq_bool y y0) eqn:E; cbn; [exact Hkey|].
    destruct p as [p|]; cbn; [|discriminate].
    rewrite (Qeq_bool_sym_false _ _ E). discriminate.
  - eexists. split; [reflexivity|]. destruct s; exact Hkey.
  - destruct (handleIntersect_progress gs0 entries s Hkey Hs Hv) as (s' & E & Hu & _).
    exists s'. split; [exact E | intros _; exact Hu].
  - eexists. split; [reflexivity|]. destruct s; exact Hkey.
  - eexists. split; [reflexivity|]. destruct s; exact Hkey.
Qed.

Lemma observerRun_progress gs0 evs s :
  (sameScrollY (Observer.prevScrollY s) (Observer.scrollY s) = true ->
   is_Some (updatedAt (Observer.scrollY s) (Observer.elemsUpdatedAtY s))) ->
  Forall2 sameMembers gs0 (World.elemGroups (Observer.world s)) ->
  forallb (namesMembers gs0) evs = true ->
  is_Some (observerRun evs s).
Proof.
  revert s. induction evs as [|ev evs IH]; intros s Hkey Hs Hv; [eexists; reflexivity|].
  cbn [forallb] in Hv. apply andb_true_iff in Hv as [Hv1 Hv2].
  destruct (observerStep_progress gs0 ev s Hkey Hs Hv1) as (s1 & E & Hkey1).
  cbn [observerRun]. rewrite E. cbn [mbind option_bind].
  apply IH; [exact Hkey1 | exact (sameMembers_observerStep gs0 ev s s1 E Hs) | exact Hv2].
Qed.

Lemma Forall2_sameMembers_refl gs : Forall2 sameMembers gs gs.
Proof.
  apply Forall2_same_length_lookup. split; [reflexivity|].
  intros i x y Hx Hy. rewrite Hx in Hy. injection Hy as <-. apply sameMembers_refl.
Qed.

(** X19 ([handleIntersect], [shouldSkipUpdate], [saveElemRefForUpdate],
    [updateScrollY]): under the observer strategy the callback never
    fails on the table of the members updated at the current scroll
    position.  Whatever scrolls, resizes, timeouts, frames and observer
    callbacks follow one another, as long as the entries name members of
    the page, [elemsUpdatedAtY[scrollY]] is there whenever its [has] or
    [set] is called: no event of the run ends in [None]. *)
Theorem observer_never_throws (groups : list ElemGroup.t) (clientHeight : Q)
    (lay : Layout) (evs : list ObserverEvent) :
  forallb (namesMembers groups) evs = true ->
  is_Some (observerRun evs (observerPage groups clientHeight lay)).
Proof.
  intros Hv. apply (observerRun_progress groups); [discriminate| |exact Hv].
  apply Forall2_sameMembers_refl.
Qed.

(** *** No member is lost by the observer *)

Lemma memberTargets_elem_of gs gi i g e :
  gs !! gi = Some g -> ElemGroup.elems g !! i = Some e ->
  Elem.target e ∈ flat_map memberTargets gs.
Proof.
  intros Hg He. apply list_elem_of_In, in_flat_map. exists g. split.
  - apply list_elem_of_In. eapply list_elem_of_lookup_2, Hg.
  - apply list_elem_of_In. unfold memberTargets. apply list_elem_of_fmap_2.
    eapply list_elem_of_lookup_2, He.
Qed.

(** when no element is a member twice, a member is known by its element *)
Lemma NoDup_targets_inj gs gi i gj j g e g' e' :
  NoDup (flat_map memberTargets gs) ->
  gs !! gi = Some g -> ElemGroup.elems g !! i = Some e ->
  gs !! gj = Some g' -> ElemGroup.elems g' !! j = Some e' ->
  Elem.target e = Elem.target e' ->
  gi = gj /\ i = j.
Proof.
  revert gi gj. induction gs as [|g0 gs IH]; intros gi gj Hnd Hg He Hg' He' Ht;
    [discriminate|].
  cbn [flat_map] in Hnd. apply NoDup_app in Hnd as (Hnd0 & Hdisj & Hnd1).
  destruct gi as [|gi], gj as [|gj]; cbn in Hg, Hg'.
  - injection Hg as <-. injection Hg' as <-. split; [reflexivity|].
    unfold memberTargets in Hnd0.
    eapply (NoDup_lookup _ i j (Elem.target e) Hnd0);
      rewrite list_lookup_fmap; [rewrite He | rewrite He', Ht]; reflexivity.
  - injection Hg as <-. exfalso. apply (Hdisj (Elem.target e)).
    + apply (memberTargets_elem_of [g0] 0 i g0 e eq_refl) in He.
      cbn [flat_map] in He. rewrite app_nil_r in He. exact He.
    + rewrite Ht. eapply memberTargets_elem_of; eassumption.
  - injection Hg' as <-. exfalso. apply (Hdisj (Elem.target e')).
    + apply (memberTargets_elem_of [g0] 0 j g0 e' eq_refl) in He'.
      cbn [flat_map] in He'. rewrite app_nil_r in He'. exact He'.
    + rewrite <- Ht. eapply memberTargets_elem_of; eassumption.
  - destruct (IH gi gj Hnd1 Hg He Hg' He' Ht) as [-> ->]. split; reflexivity.
Qed.

Lemma sameMembers_targets gs gs' :
  Forall2 sameMembers gs gs' ->
  flat_map memberTargets gs' = flat_map memberTargets gs.
Proof.
  induction 1 as [|g g' gs gs' (_ & _ & Hm) _ IH]; [reflexivity|].
  cbn [flat_map]. rewrite IH. f_equal. unfold memberTargets.
  clear -Hm. induction Hm as [|e e' l l' [Ht _] _ IHm]; [reflexivity|].
  cbn [map]. rewrite Ht, IHm. reflexivity.
Qed.

Lemma tracked_change s s' :
  tracked s ->
  Forall2 sameMembers (World.elemGroups (Observer.world s))
                      (World.elemGroups (Observer.world s')) ->
  Observer.observed s' = Observer.observed s ->
  Observer.unobservedElems s' = Observer.unobservedElems s ->
  tracked s'.
Proof.
  intros Ht Hs Ho Hu gi i g' e' Hg' He'. rewrite Ho, Hu.
  destruct (Forall2_lookup_r _ _ _ _ _ Hs Hg') as (g & Hg & Hp & Hr & Hm).
  destruct (Forall2_lookup_r _ _ _ _ _ Hm He') as (e & He & Htg & Ha).
  rewrite Htg, Hp. unfold neverRemoves in *. rewrite Hr.
  destruct (Ht gi i g e Hg He) as [H|[H|[H|[H1 H2]]]]; auto.
  right. right. right. split; [exact H1 | apply Ha; assumption].
Qed.

Lemma tracked_unobserve s r g e u' :
  tracked s ->
  NoDup (flat_map memberTargets (World.elemGroups (Observer.world s))) ->
  refElem r (Observer.world s) = Some (g, e) ->
  (forall x, x ∈ Observer.unobservedElems s -> x ∈ u') ->
  r ∈ u' \/ ElemGroup.playsOnLoad g = true
  \/ (neverRemoves g /\ Elem.isAnimated e = true) ->
  tracked (Observer.with_unobservedElems u' (unobserve (Elem.target e) s)).
Proof.
  intros Ht Hnd Href Hu Hex gi i g1 e1 Hg1 He1.
  apply refElem_Some in Href as [Hg He].
  destruct s as [w y p m u o].
  cbn [Observer.world Observer.observed Observer.unobservedElems unobserve
       Observer.with_observed Observer.with_unobservedElems] in *.
  destruct (decide (Elem.target e1 = Elem.target e)) as [E|Hne].
  - destruct (NoDup_targets_inj _ _ _ _ _ _ _ _ _ Hnd Hg1 He1 Hg He E) as [-> ->].
    rewrite Hg in Hg1. injection Hg1 as <-. rewrite He in He1. injection He1 as <-.
    destruct r as [ri rj]. cbn [fst snd] in *. tauto.
  - destruct (Ht gi i g1 e1 Hg1 He1) as [H|[H|H]]; [|right; left; apply Hu, H|tauto].
    left. apply elem_of_difference. split; [exact H|]. rewrite elem_of_singleton. exact Hne.
Qed.

Lemma tracked_reobserveElems s : tracked s -> tracked (reobserveElems s).
Proof.
  intros Ht gi i g e Hg He. unfold reobserveElems in *.
  destruct s as [w y p m u o].
  cbn [Observer.world Observer.observed Observer.unobservedElems
       Observer.with_observed Observer.with_unobservedElems] in *.
  destruct (Ht gi i g e Hg He) as [H|[H|H]]; [left|left|tauto].
  - apply elem_of_union. left. exact H.
  - apply elem_of_union. right. apply elem_of_list_to_set, list_elem_of_omap.
    exists (gi, i). split; [exact H|].
    rewrite (proj2 (refElem_Some (gi, i) w g e) (conj Hg He)). reflexivity.
Qed.

Lemma tracked_readEntry gs0 en s subs s' subs' :
  NoDup (flat_map memberTargets gs0) ->
  Forall2 sameMembers gs0 (World.elemGroups (Observer.world s)) ->
  readEntry en (s, subs) = Some (s', subs') ->
  tracked s -> tracked s'.
Proof.
  intros Hnd0 Hs H Ht.
  assert (Hnd : NoDup (flat_map memberTargets (World.elemGroups (Observer.world s))))
    by (rewrite (sameMembers_targets _ _ Hs); exact Hnd0).
  pose proof (sameMembers_readEntry (World.elemGroups (Observer.world s)) en s subs s' subs'
                H (Forall2_sameMembers_refl _)) as Hrel.
  destruct (readEntry_cases en s subs s' subs' H) as (g & e & Href & Hc).
  cbv zeta in Hc.
  destruct Hc as [(Hp & upd & _ & E & _)|[(Hn & Ha & E & _)|[(_ & E & _)|[(_ & E & _)
                 |(upd & _ & E & _)]]]].
  - apply (tracked_change
             (Observer.with_unobservedElems (Observer.unobservedElems s)
                (unobserve (Elem.target e) s))).
    + apply (tracked_unobserve s (en_elem en) g e); auto.
    + destruct s; exact Hrel.
    + rewrite E. destruct s; reflexivity.
    + rewrite E. destruct s; reflexivity.
  - apply (tracked_change
             (Observer.with_unobservedElems (Observer.unobservedElems s)
                (unobserve (Elem.target e) s))).
    + apply (tracked_unobserve s (en_elem en) g e); auto.
    + destruct s; exact Hrel.
    + rewrite E. destruct s; reflexivity.
    + rewrite E. destruct s; reflexivity.
  - apply (tracked_change
             (Observer.with_unobservedElems (Observer.unobservedElems s ++ [en_elem en])
                (unobserve (Elem.target e) s))).
    + apply (tracked_unobserve s (en_elem en) g e); auto.
      * intros x Hx. apply elem_of_app. left. exact Hx.
      * left. apply elem_of_app. right. apply list_elem_of_singleton. reflexivity.
    + destruct s; exact Hrel.
    + rewrite E. destruct s; reflexivity.
    + rewrite E. destruct s; reflexivity.
  - rewrite E. exact Ht.
  - apply (tracked_change s); [exact Ht | exact Hrel | |]; rewrite E; destruct s; reflexivity.
Qed.

Lemma tracked_readEntries gs0 entries s subs s' subs' :
  NoDup (flat_map memberTargets gs0) ->
  Forall2 sameMembers gs0 (World.elemGroups (Observer.world s)) ->
  readEntries entries (s, subs) = Some (s', subs') ->
  tracked s -> tracked s'.
Proof.
  intros Hnd. revert s subs. induction entries as [|en entries IH]; intros s subs Hs H Ht.
  - injection H as <- <-. exact Ht.
  - cbn [readEntries] in H.
    destruct (readEntry en (s, subs)) as [[s1 subs1]|] eqn:E; [|discriminate].
    cbn [mbind option_bind] in H.
    apply (IH s1 subs1); [|exact H|].
    + eapply sameMembers_readEntry; eassumption.
    + eapply tracked_readEntry; eassumption.
Qed.

Lemma tracked_handleIntersect gs0 entries s s' :
  NoDup (flat_map memberTargets gs0) ->
  Forall2 sameMembers gs0 (World.elemGroups (Observer.world s)) ->
  handleIntersect entries s = Some s' ->
  tracked s -> tracked s'.
Proof.
  intros Hnd Hs H Ht. unfold handleIntersect in H.
  assert (H1 : forall (b : bool) m0,
            let s1 := if b then Observer.with_elemsUpdatedAtY m0 s else s in
            Observer.world s1 = Observer.world s /\ tracked s1).
  { intros [] m0; cbn zeta; [|auto]. split; [destruct s; reflexivity|].
    apply (tracked_change s); [exact Ht | | |]; try (destruct s; reflexivity).
    destruct s; apply Forall2_sameMembers_refl. }
  specialize (H1 (negb (sameScrollY (Observer.prevScrollY s) (Observer.scrollY s)))
                 (setUpdatedAt (Observer.scrollY s) [] (Observer.elemsUpdatedAtY s))).
  cbv zeta in H1.
  set (s1 := if negb (sameScrollY (Observer.prevScrollY s) (Observer.scrollY s))
             then Observer.with_elemsUpdatedAtY
                    (setUpdatedAt (Observer.scrollY s) [] (Observer.elemsUpdatedAtY s)) s
             else s) in *.
  destruct H1 as [Hw1 Ht1]. clearbody s1.
  destruct (negb (World.updating (Observer.world s1))).
  - destruct (readEntries entries _) as [[s3 subs]|] eqn:E; [|discriminate].
    injection H as <-.
    apply tracked_readEntries with (gs0 := gs0) in E; [|exact Hnd| |].
    + apply (tracked_change s3); [exact E | | |]; try (destruct s3; reflexivity).
      destruct s3 as [w3 ? ? ? ? ?]. cbn [Observer.world Observer.with_world
        Observer.with_scroll].
      replace (World.elemGroups
                 (World.with_windowHeights (World.windowHeight (Observer.world s))
                    (World.windowHeight
                       (requestAnimationFrame (FrameCycle (UpdateEntriesCb subs)) w3))
                    (requestAnimationFrame (FrameCycle (UpdateEntriesCb subs)) w3)))
        with (World.elemGroups w3) by (destruct w3; reflexivity).
      apply Forall2_sameMembers_refl.
    + rewrite <- Hw1 in Hs. destruct s1 as [w1 ? ? ? ? ?]. cbn in *. destruct w1; exact Hs.
    + apply (tracked_change s1); [exact Ht1 | | |]; try (destruct s1; reflexivity).
      destruct s1 as [w1 ? ? ? ? ?]. cbn. destruct w1; apply Forall2_sameMembers_refl.
  - injection H as <-.
    apply (tracked_change s1); [exact Ht1 | | |]; try (destruct s1; reflexivity).
    destruct s1 as [w1 ? ? ? ? ?]. cbn. destruct w1; apply Forall2_sameMembers_refl.
Qed.

Lemma tracked_observerStep gs0 ev s s' :
  NoDup (flat_map memberTargets gs0) ->
  Forall2 sameMembers gs0 (World.elemGroups (Observer.world s)) ->
  observerStep ev s = Some s' ->
  tracked s -> tracked s'.
Proof.
  intros Hnd Hs H Ht.
  pose proof (sameMembers_observerStep (World.elemGroups (Observer.world s)) ev s s' H
                (Forall2_sameMembers_refl _)) as Hrel.
  destruct ev as [y lay|ch lay|entries|id|]; cbn [observerStep] in H.
  - injection H as <-. unfold ecaHandleNewScrollY. apply tracked_reobserveElems.
    apply (tracked_change s); [exact Ht | | |].
    + unfold updateScrollY. destruct s as [w ? ? ? ? ?]. cbn.
      destruct (Qeq_bool _ _); cbn; destruct w; apply Forall2_sameMembers_refl.
    + unfold updateScrollY. destruct s as [w ? ? ? ? ?]. cbn.
      destruct (Qeq_bool _ _); reflexivity.
    + unfold updateScrollY. destruct s as [w ? ? ? ? ?]. cbn.
      destruct (Qeq_bool _ _); reflexivity.
  - injection H as E.
    apply (tracked_change
             (reobserveElems
                (Observer.with_world (World.with_layout lay (Observer.world s)) s))).
    + apply tracked_reobserveElems.
      apply (tracked_change s); [exact Ht | | |]; try (destruct s; reflexivity).
      destruct s as [w ? ? ? ? ?]. cbn. destruct w; apply Forall2_sameMembers_refl.
    + replace (World.elemGroups (Observer.world (reobserveElems
                 (Observer.with_world (World.with_layout lay (Observer.world s)) s))))
        with (World.elemGroups (Observer.world s))
        by (destruct s as [w ? ? ? ? ?]; destruct w; reflexivity).
      exact Hrel.
    + rewrite <- E. destruct s; reflexivity.
    + rewrite <- E. destruct s; reflexivity.
  - eapply tracked_handleIntersect; eassumption.
  - injection H as E.
    apply (tracked_change s); [exact Ht | exact Hrel | |]; rewrite <- E; destruct s; reflexivity.
  - injection H as E.
    apply (tracked_change s); [exact Ht | exact Hrel | |]; rewrite <- E; destruct s; reflexivity.
Qed.

Lemma tracked_observerRun gs0 evs s s' :
  NoDup (flat_map memberTargets gs0) ->
  Forall2 sameMembers gs0 (World.elemGroups (Observer.world s)) ->
  observerRun evs s = Some s' ->
  tracked s -> tracked s'.
Proof.
  intros Hnd. revert s. induction evs as [|ev evs IH]; intros s Hs H Ht.
  - injection H as <-. exact Ht.
  - cbn [observerRun] in H. destruct (observerStep ev s) as [s1|] eqn:E; [|discriminate].
    cbn [mbind option_bind] in H. apply (IH s1); [|exact H|].
    + eapply sameMembers_observerStep; eassumption.
    + eapply tracked_observerStep; eassumption.
Qed.

(** X20 ([shouldSkipUpdate], [reobserveElems]): under the observer
    strategy no member is lost.  On a page where no element is a member
    twice, whatever happens, every member either has its element under
    observation, or is listed in [unobservedElems], or needs the
    observer no more: its group plays on load, or it is animated and the
    animation is never removed. *)
Theorem observer_keeps_track (groups : list ElemGroup.t) (clientHeight : Q)
    (lay : Layout) (evs : list ObserverEvent) (s : Observer.t) :
  NoDup (flat_map memberTargets groups) ->
  observerRun evs (observerPage groups clientHeight lay) = Some s ->
  tracked s.
Proof.
  intros Hnd H. apply (tracked_observerRun groups evs _ s Hnd) in H; [exact H| |].
  - apply Forall2_sameMembers_refl.
  - intros gi i g e Hg He. left. unfold observerPage, observerWorld, allTargets.
    cbn [Observer.observed]. apply elem_of_list_to_set.
    eapply memberTargets_elem_of; eassumption.
Qed.

(** a scroll, then the observer reports the second card out of view three
    times at that scroll position *)
Lemma observer_never_throws_witness :
  let evs := [ObScroll 50 cardsScrolledAway;
              ObIntersect [mkEntry (0, 1)%nat false 0 (-300) (-200)];
              ObIntersect [mkEntry (0, 1)%nat false 0 (-300) (-200)];
              ObFrame;
              ObIntersect [mkEntry (0, 1)%nat false 0 (-300) (-200)]] in
  forallb (namesMembers [sampleGroup]) evs = true
  /\ is_Some (observerRun evs (observerPage [sampleGroup] 500 (fun _ => mkRect 100 200 100))).
Proof.
  split; [reflexivity|].
  apply (observer_never_throws [sampleGroup] 500 (fun _ => mkRect 100 200 100)).
  reflexivity.
Defined.

(** the second card is reported in view and animated, and reported again
    at the same scroll position: the observer drops it for good; a card
    reported out of view twice waits in [unobservedElems] *)
Lemma observer_keeps_track_witness :
  exists s,
    observerRun [ObIntersect [mkEntry (0, 1)%nat true 1 100 200;
                              mkEntry (0, 2)%nat false 0 600 700];
                 ObFrame;
                 ObIntersect [mkEntry (0, 1)%nat true 1 100 200;
                              mkEntry (0, 2)%nat false 0 600 700]]
      (observerPage [sampleGroup] 500 (fun _ => mkRect 100 200 100)) = Some s
    /\ elements (Observer.observed s) = [0%nat]
    /\ Observer.unobservedElems s = [(0, 2)%nat]
    /\ tracked s.
Proof.
  eexists. split; [vm_compute; reflexivity|].
  split; [vm_compute; reflexivity|]. split; [reflexivity|].
  apply (observer_keeps_track [sampleGroup] 500 (fun _ => mkRect 100 200 100)
           [ObIntersect [mkEntry (0, 1)%nat true 1 100 200;
                         mkEntry (0, 2)%nat false 0 600 700];
            ObFrame;
            ObIntersect [mkEntry (0, 1)%nat true 1 100 200;
                         mkEntry (0, 2)%nat false 0 600 700]]).
  - apply (bool_decide_unpack _). vm_compute. exact I.
  - vm_compute. reflexivity.
Defined.

(** *** The aggregates and the writes under the observer strategy *)

Lemma booted_visibilityInv parseJSON parseCharDelays fes ch us lay :
  allGroups visibilityInv (bootedWorld parseJSON parseCharDelays fes ch us lay).
Proof.
  unfold bootedWorld. apply allGroups_loadedWorld.
  - apply readOne_visibilityInv.
  - apply Forall_builtGroups. apply builtGroup_visibilityInv.
Qed.

(** X21 ([calculateVisibilityIO], [readEntries], [updateEntries]): under
    the observer strategy too, on every page the events reach from
    bootstrap, each group's [numElemsVisible] is the number of its
    members whose visible flag is set, and the group is visible exactly
    when that number is positive, but for a group that plays on load,
    which starts out visible and stays so until a report changes a
    member. *)
Theorem observer_visibility_aggregate (parseJSON : string -> option JSObject)
    (parseCharDelays : string -> option (list CharDelay)) (fes : list FirstElem)
    (clientHeight : Q) (lay : Layout) (evs : list ObserverEvent) (s : Observer.t) :
  observerRun evs
    (observerWorld (bootedWorld parseJSON parseCharDelays fes clientHeight false lay))
  = Some s ->
  allGroups visibilityInv (Observer.world s).
Proof.
  intros H. apply (visibilityInv_observerRun evs _ s H).
  apply booted_visibilityInv.
Qed.

Lemma observer_visibility_aggregate_witness :
  exists s,
    observerRun [ObIntersect [mkEntry (0, 1)%nat true 1 100 200;
                              mkEntry (0, 0)%nat true (1 # 2) (-50) 50];
                 ObFrame;
                 ObScroll 300 cardsScrolledAway;
                 ObIntersect [mkEntry (0, 1)%nat false 0 (-200) (-100)]]
      (observerWorld
         (bootedWorld rejectAll rejectAll
            [plainFirstElem "card" [sampleMember 1; sampleMember 2]]
            500 false (fun _ => mkRect 100 200 100))) = Some s
    /\ map (fun g => (ElemGroup.numElemsVisible g, ElemGroup.isVisible g))
           (World.elemGroups (Observer.world s)) = [(2, true)]
    /\ allGroups visibilityInv (Observer.world s).
Proof.
  eexists. split; [vm_compute; reflexivity|]. split; [vm_compute; reflexivity|].
  apply (observer_visibility_aggregate rejectAll rejectAll
           [plainFirstElem "card" [sampleMember 1; sampleMember 2]]
           500 (fun _ => mkRect 100 200 100)
           [ObIntersect [mkEntry (0, 1)%nat true 1 100 200;
                         mkEntry (0, 0)%nat true (1 # 2) (-50) 50];
            ObFrame;
            ObScroll 300 cardsScrolledAway;
            ObIntersect [mkEntry (0, 1)%nat false 0 (-200) (-100)]]).
  vm_compute. reflexivity.
Defined.

Lemma neverRemoves_observerRun evs s s' :
  observerRun evs s = Some s' ->
  allGroups neverRemoves (Observer.world s) ->
  Forall (fun d => isAnimateWrite d = true) (World.dom (Observer.world s)) ->
  Forall (fun d => isAnimateWrite d = true) (World.dom (Observer.world s')).
Proof.
  intros H Hs Hd.
  apply (keptSince_observerRun neverRemoves (fun _ _ => True)
           (Forall (fun d => isAnimateWrite d = true)))
    with (gs0 := World.elemGroups (Observer.world s)) (evs := evs) (s := s); auto.
  - intros wh lay g Hg. split; [|exact I].
    destruct (readOne_shape wh lay g) as (n & v & ->). destruct g; exact Hg.
  - intros wh idxs g dom Hg. split; [|exact I].
    destruct (pass_shape wh idxs g dom) as (n & f & gd & els & wr & _ & -> & _).
    destruct g; exact Hg.
  - intros wh idxs g dom Hg Hdom.
    destruct (pass_shape wh idxs g dom) as (n & f & gd & els & wr & -> & _ & _ & Hwr & _).
    cbn [snd]. apply Forall_app. split; [exact Hdom | apply Hwr, Hg].
  - intros id g Hg. split; [destruct g; exact Hg | exact I].
  - intros g Hg. split; [destruct g; exact Hg | exact I].
  - intros wh lay g Hg. split; [destruct g; exact Hg | exact I].
  - intros wh en i g Hg. split; [|exact I].
    destruct (calculateVisibilityIO_shape wh en i g) as (n & v & e' & -> & _).
    destruct g; exact Hg.
  - intros x g Hg. split; [destruct g; exact Hg | exact I].
  - apply keptSince_refl; auto.
Qed.

(** X22 (the removal option under the observer strategy,
    [shouldSkipUpdate], [updateEntries]): on a page whose removal option
    is off, whatever the observer reports after bootstrap, the engine
    never removes the animated class and never resets an inline style:
    every write it makes to the document sets a delay or adds the
    class. *)
Theorem observer_no_removal_without_option (parseJSON : string -> option JSObject)
    (parseCharDelays : string -> option (list CharDelay)) (fes : list FirstElem)
    (clientHeight : Q) (lay : Layout) (evs : list ObserverEvent) (s : Observer.t) :
  Forall (fun fe => StrOpt_truthy (ecaRemoveAnimationWhenNotInView (fe_options fe)) = false)
         fes ->
  observerRun evs
    (observerWorld (bootedWorld parseJSON parseCharDelays fes clientHeight false lay))
  = Some s ->
  Forall (fun d => isAnimateWrite d = true) (World.dom (Observer.world s)).
Proof.
  intros Hoff H.
  destruct (booted_neverRemoves parseJSON parseCharDelays fes clientHeight false lay Hoff)
    as [H1 H2].
  apply (neverRemoves_observerRun evs _ s H); [exact H1|].
  cbn [observerWorld Observer.world]. rewrite H2. constructor.
Qed.

(** a card reported in view and animated, then reported out of view *)
Lemma observer_no_removal_without_option_witness :
  exists s,
    observerRun [ObIntersect [mkEntry (0, 1)%nat true 1 100 200];
                 ObFrame;
                 ObScroll 300 cardsScrolledAway;
                 ObIntersect [mkEntry (0, 1)%nat false 0 (-200) (-100)];
                 ObFrame]
      (observerWorld
         (bootedWorld rejectAll rejectAll
            [plainFirstElem "card" [sampleMember 1; sampleMember 2]]
            500 false (fun _ => mkRect 100 200 100))) = Some s
    /\ World.dom (Observer.world s) = [SetDelay 2 false 100; AddAnimatedClass 2]
    /\ Forall (fun d => isAnimateWrite d = true) (World.dom (Observer.world s)).
Proof.
  eexists. split; [vm_compute; reflexivity|]. split; [vm_compute; reflexivity|].
  apply (observer_no_removal_without_option rejectAll rejectAll
           [plainFirstElem "card" [sampleMember 1; sampleMember 2]]
           500 (fun _ => mkRect 100 200 100)
           [ObIntersect [mkEntry (0, 1)%nat true 1 100 200];
            ObFrame;
            ObScroll 300 cardsScrolledAway;
            ObIntersect [mkEntry (0, 1)%nat false 0 (-200) (-100)];
            ObFrame]).
  - repeat constructor.
  - vm_compute. reflexivity.
Defined.

(** *** Groups that play on load *)

Lemma memberPass_decided wh g dom :
  ElemGroup.elems (fst (memberPass wh (g, dom))) = map (decided wh g) (ElemGroup.elems g)
  /\ exists written,
       snd (memberPass wh (g, dom)) = dom ++ written
       /\ classWrites written = flat_map (decidedWrites wh g) (ElemGroup.elems g).
Proof.
  destruct (pass_decided_prefix wh g dom (length (ElemGroup.elems g)) (le_n _))
    as (Hel & _ & written & Hdom & Hwr).
  rewrite firstn_all, drop_all, app_nil_r in Hel. rewrite firstn_all in Hwr.
  unfold memberPass, forEach_elem. cbn [fst snd]. split.
  - rewrite <- Hel. unfold updateMutableProps. destruct (fst _); simpl.
    destruct (_ =? 0); reflexivity.
  - exists written. split; assumption.
Qed.

(** [updateOne] on a group touches no other group and no window height,
    and only adds to the log of writes *)
Lemma updateOne_frame gj w :
  (forall gi, gi <> gj ->
     World.elemGroups (updateOne gj w) !! gi = World.elemGroups w !! gi)
  /\ World.windowHeight (updateOne gj w) = World.windowHeight w
  /\ exists more, World.dom (updateOne gj w) = World.dom w ++ more.
Proof.
  unfold updateOne.
  destruct (World.elemGroups w !! gj) as [g|] eqn:Hg;
    [|repeat split; exists []; rewrite app_nil_r; reflexivity].
  destruct (_ && _).
  - destruct (delayGroup_groups gj w g Hg) as (Hgs & _ & _ & Hdom & _).
    split; [|split].
    + intros gi Hne. rewrite Hgs. apply list_lookup_insert_ne. congruence.
    + unfold delayGroup. rewrite Hg. destruct w; reflexivity.
    + exists []. rewrite Hdom, app_nil_r. reflexivity.
  - destruct (memberPass_decided (World.windowHeight w) g (World.dom w))
      as (_ & written & Hdom & _).
    split; [|split].
    + intros gi Hne. destruct w; simpl. apply list_lookup_insert_ne. congruence.
    + destruct w; reflexivity.
    + exists written. rewrite <- Hdom. destruct w; reflexivity.
Qed.

Lemma updateAll_fold_frame (l : list nat) w :
  let F := fun w gi =>
             match World.elemGroups w !! gi with
             | None => w
             | Some g => if isProcessed g then updateOne gi w else w
             end in
  (forall gi, gi ∉ l ->
     World.elemGroups (fold_left F l w) !! gi = World.elemGroups w !! gi)
  /\ World.windowHeight (fold_left F l w) = World.windowHeight w
  /\ exists more, World.dom (fold_left F l w) = World.dom w ++ more.
Proof.
  intros F. revert w. induction l as [|gj l IH]; intros w.
  - repeat split. exists []. rewrite app_nil_r. reflexivity.
  - cbn [fold_left]. destruct (IH (F w gj)) as (H1 & H2 & more & H3).
    assert (HF : (forall gi, gi <> gj ->
                    World.elemGroups (F w gj) !! gi = World.elemGroups w !! gi)
                 /\ World.windowHeight (F w gj) = World.windowHeight w
                 /\ exists more, World.dom (F w gj) = World.dom w ++ more).
    { subst F. cbv beta.
      destruct (World.elemGroups w !! gj) as [g|];
        [destruct (isProcessed g); [apply updateOne_frame|]|];
        repeat split; exists []; rewrite app_nil_r; reflexivity. }
    destruct HF as (F1 & F2 & more0 & F3). split; [|split].
    + intros gi Hgi. apply not_elem_of_cons in Hgi as [Hne Hgi].
      rewrite (H1 gi Hgi). apply F1, Hne.
    + congruence.
    + exists (more0 ++ more). rewrite H3, F3, app_assoc. reflexivity.
Qed.

(** the group [updateAll] leaves at [gi] is the one its turn of the loop
    made, out of the group that was there when [updateAll] began *)
Lemma updateAll_at gi g w :
  World.elemGroups w !! gi = Some g ->
  exists w1 more,
    World.elemGroups w1 !! gi = Some g
    /\ World.windowHeight w1 = World.windowHeight w
    /\ World.elemGroups (updateAll w) !! gi
       = World.elemGroups (if isProcessed g then updateOne gi w1 else w1) !! gi
    /\ World.dom (updateAll w)
       = World.dom (if isProcessed g then updateOne gi w1 else w1) ++ more.
Proof.
  intros Hg. unfold updateAll.
  assert (Hlt : (gi < length (World.elemGroups w))%nat) by (eapply lookup_lt_Some, Hg).
  replace (seq 0 (length (World.elemGroups w)))
    with (seq 0 gi ++ gi :: seq (S gi) (length (World.elemGroups w) - S gi)).
  2:{ change (gi :: seq (S gi) (length (World.elemGroups w) - S gi))
        with (seq gi (S (length (World.elemGroups w) - S gi))).
      rewrite <- seq_app. f_equal. lia. }
  rewrite fold_left_app. cbn [fold_left].
  match goal with |- context [fold_left ?f (seq 0 gi) w] =>
    set (F := f); set (w1 := fold_left F (seq 0 gi) w) end.
  destruct (updateAll_fold_frame (seq 0 gi) w) as (A1 & A2 & _).
  fold F in A1, A2. fold w1 in A1, A2.
  assert (Hg1 : World.elemGroups w1 !! gi = Some g).
  { rewrite A1; [exact Hg|]. rewrite elem_of_seq. lia. }
  assert (HF : F w1 gi = if isProcessed g then updateOne gi w1 else w1).
  { subst F. cbv beta. rewrite Hg1. reflexivity. }
  destruct (updateAll_fold_frame (seq (S gi) (length (World.elemGroups w) - S gi)) (F w1 gi))
    as (B1 & _ & more & B3).
  fold F in B1, B3.
  exists w1, more. split; [exact Hg1|]. split; [exact A2|]. rewrite <- HF. split.
  - apply B1. rewrite elem_of_seq. lia.
  - exact B3.
Qed.

Lemma decided_playsOnLoad wh g e :
  ElemGroup.playsOnLoad g = true -> ElemGroup.isDelaying g = false ->
  Elem.isAnimated (decided wh g e) = true
  /\ (Elem.isAnimated e = false -> decidedWrites wh g e = [AddAnimatedClass (Elem.target e)]).
Proof.
  intros Hp Hd. unfold decided, decidedWrites, isReadyToAnimate, isReadyToDeanimate.
  rewrite Hp, Hd. destruct e as [tp bt v a th oth ud tg st]; simpl.
  destruct a; simpl.
  - rewrite !orb_true_r. simpl. split; [reflexivity | discriminate].
  - rewrite orb_true_r. simpl. split; reflexivity.
Qed.

(** the first frame of a page under the polling strategy *)
Lemma first_frame groups ch lay :
  run [EvFrame] (loadedWorld groups ch true lay)
  = World.with_updating false
      (updateAll
         (World.mk
            (map (fun g => if isProcessed g then readOne ch lay g else g) groups)
            ch ch true ∅ true lay [] 1 [] [])).
Proof. reflexivity. Qed.

Lemma play_on_load_first_frame groups ch lay gi g :
  groups !! gi = Some g ->
  ElemGroup.playsOnLoad g = true ->
  ElemGroup.isDelaying g = false ->
  ElemGroup.isFinishedAnimating g = false ->
  ElemGroup.groupDelay g <= 0 ->
  exists g',
    World.elemGroups (run [EvFrame] (loadedWorld groups ch true lay)) !! gi = Some g'
    /\ Forall (fun e => Elem.isAnimated e = true) (ElemGroup.elems g')
    /\ map Elem.target (ElemGroup.elems g') = map Elem.target (ElemGroup.elems g)
    /\ forall e, e ∈ ElemGroup.elems g -> Elem.isAnimated e = false ->
         AddAnimatedClass (Elem.target e)
         ∈ World.dom (run [EvFrame] (loadedWorld groups ch true lay)).
Proof.
  intros Hg Hp Hd Hf Hgd. rewrite first_frame.
  set (wR := World.mk _ ch ch true ∅ true lay [] 1%nat [] []).
  assert (Hproc : isProcessed g = true).
  { unfold isProcessed. rewrite Hf, Hd. simpl. rewrite orb_true_r. reflexivity. }
  destruct (readOne_shape ch lay g) as (n & v & Eread).
  set (g1 := readOne ch lay g) in *.
  assert (Hg1 : World.elemGroups wR !! gi = Some g1).
  { subst wR. cbn [World.elemGroups]. rewrite list_lookup_fmap, Hg. simpl.
    rewrite Hproc. reflexivity. }
  assert (Hsame : ElemGroup.playsOnLoad g1 = true /\ ElemGroup.isDelaying g1 = false
                  /\ isProcessed g1 = true
                  /\ ((0 <? ElemGroup.groupDelay g1) && ElemGroup.isVisible g1 = false)
                  /\ ElemGroup.elems g1 = map (derivedElem ch lay g) (ElemGroup.elems g)).
  { rewrite Eread. unfold isProcessed. destruct g; simpl in *. subst.
    repeat split; try (rewrite orb_true_r; reflexivity).
    destruct (0 <? groupDelay) eqn:E; [apply Z.ltb_lt in E; lia | reflexivity]. }
  destruct Hsame as (Hp1 & Hd1 & Hproc1 & Hgate & Hel1).
  destruct (updateAll_at gi g1 wR Hg1) as (w1 & more & Hw1 & Hwh & Hgs & Hdom).
  rewrite Hproc1 in Hgs, Hdom.
  destruct (memberPass_decided (World.windowHeight w1) g1 (World.dom w1))
    as (Hdec & written & Hwr & Hcls).
  assert (Hone : World.elemGroups (updateOne gi w1) !! gi
                 = Some (fst (memberPass (World.windowHeight w1) (g1, World.dom w1)))
                 /\ World.dom (updateOne gi w1) = World.dom w1 ++ written).
  { unfold updateOne. rewrite Hw1, Hgate. rewrite <- Hwr. split; [|destruct w1; reflexivity].
    destruct w1; simpl in *. apply list_lookup_insert_eq. eapply lookup_lt_Some, Hw1. }
  destruct Hone as [Hone Hdom1].
  exists (fst (memberPass (World.windowHeight w1) (g1, World.dom w1))).
  split; [|split; [|split]].
  - rewrite <- Hone, <- Hgs. destruct (updateAll wR); reflexivity.
  - rewrite Hdec. apply Forall_fmap, Forall_forall. intros e _.
    apply decided_playsOnLoad; assumption.
  - rewrite Hdec, Hel1, !map_map. apply map_ext. intros e.
    destruct (decided_lookup (World.windowHeight w1) g1 (derivedElem ch lay g e))
      as (_ & _ & _ & ->).
    apply derivedElem_target.
  - intros e He Ha.
    replace (World.dom (World.with_updating false (updateAll wR)))
      with (World.dom (updateAll wR)) by (destruct (updateAll wR); reflexivity).
    rewrite Hdom, Hdom1. apply elem_of_app. left. apply elem_of_app. right.
    assert (Hin : AddAnimatedClass (Elem.target e) ∈ classWrites written).
    { rewrite Hcls, Hel1. apply list_elem_of_In, in_flat_map.
      exists (derivedElem ch lay g e). split.
      - apply list_elem_of_In, list_elem_of_fmap_2, He.
      - destruct (decided_playsOnLoad (World.windowHeight w1) g1 (derivedElem ch lay g e)
                    Hp1 Hd1) as [_ Hw].
        rewrite Hw by (rewrite derivedElem_isAnimated; exact Ha).
        rewrite derivedElem_target. left. reflexivity. }
    unfold classWrites in Hin. apply list_elem_of_In in Hin.
    apply filter_In in Hin as [Hin _]. apply list_elem_of_In, Hin.
Qed.

(** what bootstrap leaves of the options [updateOne] and the readiness
    accessors look at, and of the members *)
Lemma builtGroup_fresh parseJSON parseCharDelays id fe :
  let g := builtGroup parseJSON parseCharDelays id fe in
  ElemGroup.playsOnLoad g = ecaPlayOnLoad (fe_options fe)
  /\ ElemGroup.isDelaying g = false
  /\ ElemGroup.isFinishedAnimating g = false
  /\ ElemGroup.groupDelay g = ecaGroupDelay (fe_options fe)
  /\ Forall (fun e => Elem.isAnimated e = false) (ElemGroup.elems g)
  /\ forall m, m ∈ fe_members fe ->
       exists e, e ∈ ElemGroup.elems g /\ Elem.target e = es_target m.
Proof.
  cbv zeta. destruct (builtGroup_members parseJSON parseCharDelays id fe) as (els & Hs & ->).
  assert (Hels : Forall (fun e => Elem.isAnimated e = false) els
                 /\ forall m, m ∈ fe_members fe ->
                      exists e, e ∈ els /\ Elem.target e = es_target m).
  { cbn [new_ElemGroup ElemGroup.elems] in Hs. split.
    - apply Forall_lookup_2. intros i e' He'.
      destruct (Forall2_lookup_r _ _ _ _ _ Hs He') as (e & He & Hsame).
      rewrite list_lookup_fmap in He.
      destruct (fe_members fe !! i) as [m|]; [|discriminate]. injection He as <-.
      rewrite Hsame. reflexivity.
    - intros m Hm. apply list_elem_of_lookup_1 in Hm as [i Hi].
      assert (Hx : map (fun s => new_Elem s (ecaThresholdAll (fe_options fe)))
                       (fe_members fe) !! i
                   = Some (new_Elem m (ecaThresholdAll (fe_options fe))))
        by (rewrite list_lookup_fmap, Hi; reflexivity).
      destruct (Forall2_lookup_l _ _ _ _ _ Hs Hx) as (e' & He' & Hsame).
      exists e'. split; [eapply list_elem_of_lookup_2, He'|].
      rewrite Hsame. reflexivity. }
  destruct Hels as [Ha Ht].
  destruct (ecaReverse (fe_options fe)); unfold reverseElems; cbn;
    repeat split; try assumption.
  - apply Forall_reverse, Ha.
  - intros m Hm. destruct (Ht m Hm) as (e & He & E). exists e.
    split; [apply elem_of_reverse, He | exact E].
Qed.

(** X23 (the play-on-load option: [runInitialAnimations], [readAll],
    [updateAll], [isReadyToAnimate]): on a page under the polling
    strategy, a group that plays on load and has no group delay is
    animated by the first animation frame after load, wherever its
    members are on the page: every member has its animated flag set and
    the animated class added to its element. *)
Theorem play_on_load_animates (parseJSON : string -> option JSObject)
    (parseCharDelays : string -> option (list CharDelay)) (fes : list FirstElem)
    (clientHeight : Q) (lay : Layout) (gi : nat) (fe : FirstElem) :
  fes !! gi = Some fe ->
  ecaPlayOnLoad (fe_options fe) = true ->
  ecaGroupDelay (fe_options fe) <= 0 ->
  let w := run [EvFrame]
             (bootedWorld parseJSON parseCharDelays fes clientHeight true lay) in
  (exists g,
     World.elemGroups w !! gi = Some g
     /\ length (ElemGroup.elems g) = length (fe_members fe)
     /\ Forall (fun e => Elem.isAnimated e = true) (ElemGroup.elems g))
  /\ forall m, m ∈ fe_members fe -> AddAnimatedClass (es_target m) ∈ World.dom w.
Proof.
  intros Hfe Hp Hgd w. subst w. unfold bootedWorld. rewrite ready_readyState.
  destruct (readyState_groups parseJSON parseCharDelays fes) as [_ Hgs].
  destruct (Hgs gi fe Hfe) as (used & Hg).
  pose proof (builtGroup_fresh parseJSON parseCharDelays (chooseGroupId used gi fe) fe)
    as HB.
  cbv zeta in HB. destruct HB as (B1 & B2 & B3 & B4 & B5 & B6).
  destruct (play_on_load_first_frame _ clientHeight lay gi _ Hg) as (g' & G1 & G2 & G3 & G4);
    [rewrite B1; exact Hp | exact B2 | exact B3 | rewrite B4; exact Hgd|].
  split.
  - exists g'. split; [exact G1|]. split; [|exact G2].
    rewrite <- (length_map Elem.target), G3, length_map.
    destruct (builtGroup_members parseJSON parseCharDelays (chooseGroupId used gi fe) fe)
      as (els & Hs & ->).
    apply Forall2_length in Hs. cbn [new_ElemGroup ElemGroup.elems] in Hs.
    rewrite length_map in Hs.
    destruct (ecaReverse (fe_options fe)); unfold reverseElems; cbn;
      try change (rev_append els []) with (reverse els);
      rewrite ?length_reverse; congruence.
  - intros m Hm. destruct (B6 m Hm) as (e & He & <-). apply G4; [exact He|].
    rewrite Forall_forall in B5. apply B5, He.
Qed.

(** two cards that play on load, far below the window *)
Lemma play_on_load_animates_witness :
  let fes := [mkFirstElem "card" false
                (mkGroupOptions ThrFalse 100 false 0 0 true false false None false false
                   OptFalse)
                [sampleMember 1; sampleMember 2] None] in
  let w := run [EvFrame] (bootedWorld rejectAll rejectAll fes 500 true cardsScrolledAway) in
  World.dom w
  = [SetDelay 1 false 100; AddAnimatedClass 1; SetDelay 2 false 200; AddAnimatedClass 2]
  /\ (exists g,
        World.elemGroups w !! 0%nat = Some g
        /\ length (ElemGroup.elems g) = 2%nat
        /\ Forall (fun e => Elem.isAnimated e = true) (ElemGroup.elems g))
  /\ forall m, m ∈ [sampleMember 1; sampleMember 2] ->
       AddAnimatedClass (es_target m) ∈ World.dom w.
Proof.
  split; [reflexivity|].
  apply (play_on_load_animates rejectAll rejectAll
           [mkFirstElem "card" false
              (mkGroupOptions ThrFalse 100 false 0 0 true false false None false false
                 OptFalse)
              [sampleMember 1; sampleMember 2] None]
           500 cardsScrolledAway 0
           (mkFirstElem "card" false
              (mkGroupOptions ThrFalse 100 false 0 0 true false false None false false
                 OptFalse)
              [sampleMember 1; sampleMember 2] None));
    [reflexivity | reflexivity | cbn; lia].
Defined.

(** *** The animated flag and the animated class *)

Lemma classWrite_classWrites t wr b :
  fold_left (classWrite t) (classWrites wr) b = fold_left (classWrite t) wr b.
Proof.
  unfold classWrites. revert b. induction wr as [|d wr IH]; intros b; [reflexivity|].
  destruct d; cbn [List.filter fold_left classWrite]; apply IH.
Qed.

Lemma hasAnimatedClass_app dom wr t :
  hasAnimatedClass (dom ++ wr) t
  = fold_left (classWrite t) (classWrites wr) (hasAnimatedClass dom t).
Proof.
  unfold hasAnimatedClass. rewrite fold_left_app. symmetry. apply classWrite_classWrites.
Qed.

Lemma memberFlags_lookup g g' i e' :
  memberFlags g' = memberFlags g -> ElemGroup.elems g' !! i = Some e' ->
  exists e, ElemGroup.elems g !! i = Some e
            /\ Elem.target e' = Elem.target e /\ Elem.isAnimated e' = Elem.isAnimated e.
Proof.
  unfold memberFlags. intros Hm He'.
  assert (H : map (fun e => (Elem.target e, Elem.isAnimated e)) (ElemGroup.elems g) !! i
              = Some (Elem.target e', Elem.isAnimated e')).
  { rewrite <- Hm, list_lookup_fmap, He'. reflexivity. }
  rewrite list_lookup_fmap in H.
  destruct (ElemGroup.elems g !! i) as [e|]; [|discriminate].
  injection H as H1 H2. exists e. auto.
Qed.

Lemma memberFlags_targets g : memberTargets g = map fst (memberFlags g).
Proof. unfold memberTargets, memberFlags. rewrite map_map. reflexivity. Qed.

Lemma memberFlags_targets_all gs gs' :
  map memberFlags gs' = map memberFlags gs ->
  flat_map memberTargets gs' = flat_map memberTargets gs.
Proof.
  revert gs'. induction gs as [|g gs IH]; intros [|g' gs'] H; try discriminate; [reflexivity|].
  injection H as H1 H2. cbn [flat_map]. rewrite (IH gs' H2), !memberFlags_targets, H1.
  reflexivity.
Qed.

(** both halves of the invariant look at the elements and the animated
    flags of the members only *)
Lemma flagsMirrorClasses_ext gs gs' dom :
  map memberFlags gs' = map memberFlags gs ->
  NoDup (flat_map memberTargets gs) /\ flagsMirrorClasses gs dom ->
  NoDup (flat_map memberTargets gs') /\ flagsMirrorClasses gs' dom.
Proof.
  intros Hm [Hnd Hmir]. split; [rewrite (memberFlags_targets_all _ _ Hm); exact Hnd|].
  intros gi i g' e' Hg' He'.
  assert (H : map memberFlags gs !! gi = Some (memberFlags g'))
    by (rewrite <- Hm, list_lookup_fmap, Hg'; reflexivity).
  rewrite list_lookup_fmap in H. destruct (gs !! gi) as [g|] eqn:Hg; [|discriminate].
  injection H as H.
  destruct (memberFlags_lookup g g' i e' (eq_sym H) He') as (e & He & -> & ->).
  exact (Hmir gi i g e Hg He).
Qed.

Lemma memberFlags_insert gs gi g g' :
  gs !! gi = Some g -> memberFlags g' = memberFlags g ->
  map memberFlags (<[gi := g']> gs) = map memberFlags gs.
Proof.
  intros Hg Hm. rewrite list_fmap_insert, Hm. apply list_insert_id.
  rewrite list_lookup_fmap, Hg. reflexivity.
Qed.

Lemma memberFlags_map g g' (f : Elem.t -> Elem.t) :
  ElemGroup.elems g' = map f (ElemGroup.elems g) ->
  (forall e, Elem.target (f e) = Elem.target e /\ Elem.isAnimated (f e) = Elem.isAnimated e) ->
  memberFlags g' = memberFlags g.
Proof.
  intros Hel Hf. unfold memberFlags. rewrite Hel, map_map. apply map_ext.
  intros e. destruct (Hf e) as [-> ->]. reflexivity.
Qed.

Lemma memberFlags_readOne wh lay g : memberFlags (readOne wh lay g) = memberFlags g.
Proof.
  apply memberFlags_map with (f := derivedElem wh lay g); [apply readOne_elems|].
  intros e. split; [apply derivedElem_target | apply derivedElem_isAnimated].
Qed.

Lemma memberFlags_correctThresholds wh lay g :
  memberFlags (correctThresholds wh lay g) = memberFlags g.
Proof.
  apply memberFlags_map
    with (f := fun e => correctThreshold wh (rect_height (lay (Elem.target e))) e);
    [destruct g; reflexivity|].
  intros e. split; [apply correctThreshold_target | apply correctThreshold_flags].
Qed.

(** one member handled: its flag and the class of its element change
    together, and nothing changes for the others *)
Lemma updateAnimations_mirrors wh i gs gi g dom :
  gs !! gi = Some g ->
  NoDup (flat_map memberTargets gs) /\ flagsMirrorClasses gs dom ->
  let s := updateAnimations wh i (g, dom) in
  NoDup (flat_map memberTargets (<[gi := fst s]> gs))
  /\ flagsMirrorClasses (<[gi := fst s]> gs) (snd s).
Proof.
  intros Hg [Hnd Hmir]. cbv zeta.
  assert (Hlt : (gi < length gs)%nat) by (eapply lookup_lt_Some, Hg).
  destruct (ElemGroup.elems g !! i) as [e|] eqn:He.
  2:{ unfold updateAnimations. cbn [fst snd]. rewrite He. cbn [fst snd].
      rewrite list_insert_id by exact Hg. split; assumption. }
  destruct (updateAnimations_decides wh i g g dom e (sameReadiness_refl g) He)
    as (Hel & _ & written & Hdom & Hcls).
  set (s := updateAnimations wh i (g, dom)) in *.
  assert (Hdt : Elem.target (decided wh g e) = Elem.target e)
    by apply decided_lookup.
  assert (Htargets : flat_map memberTargets (<[gi := fst s]> gs)
                     = flat_map memberTargets gs).
  { rewrite <- (list_insert_id gs gi g Hg) at 2.
    assert (Hmt : memberTargets (fst s) = memberTargets g).
    { unfold memberTargets. rewrite Hel, list_fmap_insert, Hdt.
      apply list_insert_id. rewrite list_lookup_fmap, He. reflexivity. }
    clear -Hmt. unfold memberTargets in *.
    revert gi. induction gs as [|g0 gs IH]; intros gi; [reflexivity|].
    destruct gi as [|gi]; simpl; [rewrite Hmt | rewrite IH]; reflexivity. }
  split; [rewrite Htargets; exact Hnd|].
  intros gj j g2 e2 Hg2 He2. rewrite Hdom, hasAnimatedClass_app, Hcls.
  (* the member of the page before that [e2] was *)
  assert (Hold : exists g1 e1,
             gs !! gj = Some g1 /\ ElemGroup.elems g1 !! j = Some e1
             /\ Elem.target e2 = Elem.target e1
             /\ ((gj = gi /\ j = i /\ e1 = e /\ e2 = decided wh g e)
                 \/ ((gj <> gi \/ j <> i) /\ e2 = e1))).
  { destruct (decide (gj = gi)) as [->|Hne].
    - rewrite list_lookup_insert_eq in Hg2 by exact Hlt. injection Hg2 as <-.
      rewrite Hel in He2. destruct (decide (j = i)) as [->|Hne].
      + rewrite list_lookup_insert_eq in He2 by (eapply lookup_lt_Some, He).
        injection He2 as <-. exists g, e. repeat split; auto.
      + rewrite list_lookup_insert_ne in He2 by congruence.
        exists g, e2. repeat split; auto.
    - rewrite list_lookup_insert_ne in Hg2 by congruence.
      exists g2, e2. repeat split; auto. }
  destruct Hold as (g1 & e1 & Hg1 & He1 & Ht & [(-> & -> & -> & ->)|[Hne ->]]).
  - rewrite Hdt. unfold decidedWrites, decided.
    destruct (isReadyToAnimate g e);
      [|destruct (isReadyToDeanimate wh g e)]; cbn [fold_left classWrite];
      rewrite ?Nat.eqb_refl; try (destruct e; reflexivity).
    exact (Hmir gi i g e Hg He).
  - assert (Hdiff : Elem.target e <> Elem.target e1).
    { intros E.
      destruct (NoDup_targets_inj gs gi i gj j g e g1 e1 Hnd Hg He Hg1 He1 E) as [-> ->].
      destruct Hne; congruence. }
    apply Nat.eqb_neq in Hdiff.
    unfold decidedWrites.
    destruct (isReadyToAnimate g e);
      [|destruct (isReadyToDeanimate wh g e)]; cbn [fold_left classWrite];
      rewrite ?Hdiff; exact (Hmir gj j g1 e1 Hg1 He1).
Qed.

Lemma pass_mirrors wh idxs gs gi g dom :
  gs !! gi = Some g ->
  NoDup (flat_map memberTargets gs) /\ flagsMirrorClasses gs dom ->
  let s := fold_left (fun acc i => updateAnimations wh i acc) idxs (g, dom) in
  NoDup (flat_map memberTargets (<[gi := updateMutableProps (fst s)]> gs))
  /\ flagsMirrorClasses (<[gi := updateMutableProps (fst s)]> gs) (snd s).
Proof.
  intros Hg H. cbv zeta.
  assert (Hfold : forall idxs gs g dom,
            gs !! gi = Some g ->
            NoDup (flat_map memberTargets gs) /\ flagsMirrorClasses gs dom ->
            let s := fold_left (fun acc i => updateAnimations wh i acc) idxs (g, dom) in
            NoDup (flat_map memberTargets (<[gi := fst s]> gs))
            /\ flagsMirrorClasses (<[gi := fst s]> gs) (snd s)).
  { clear. induction idxs as [|i idxs IH]; intros gs g dom Hg H; cbv zeta.
    - cbn [fold_left fst snd]. rewrite list_insert_id by exact Hg. exact H.
    - cbn [fold_left].
      pose proof (updateAnimations_mirrors wh i gs gi g dom Hg H) as H1. cbv zeta in H1.
      destruct (updateAnimations wh i (g, dom)) as [g1 dom1] eqn:E. cbn [fst snd] in H1.
      assert (Hlt : (gi < length gs)%nat) by (eapply lookup_lt_Some, Hg).
      pose proof (IH (<[gi := g1]> gs) g1 dom1
                    (list_lookup_insert_eq gs gi g1 Hlt) H1) as H2.
      cbv zeta in H2. rewrite list_insert_insert_eq in H2. exact H2. }
  pose proof (Hfold idxs gs g dom Hg H) as H1. cbv zeta in H1.
  set (s := fold_left (fun acc i => updateAnimations wh i acc) idxs (g, dom)) in *.
  revert H1. apply flagsMirrorClasses_ext.
  rewrite !list_fmap_insert. f_equal.
  unfold memberFlags, updateMutableProps. destruct (fst s); simpl.
  destruct (_ =? 0); reflexivity.
Qed.

Lemma mirrors_groups_map (f : ElemGroup.t -> ElemGroup.t) gs dom :
  (forall g, memberFlags (f g) = memberFlags g) ->
  NoDup (flat_map memberTargets gs) /\ flagsMirrorClasses gs dom ->
  NoDup (flat_map memberTargets (map f gs)) /\ flagsMirrorClasses (map f gs) dom.
Proof.
  intros Hf. apply flagsMirrorClasses_ext. rewrite map_map. apply map_ext. exact Hf.
Qed.

Lemma mirrors_insert gs gi g g' dom :
  gs !! gi = Some g -> memberFlags g' = memberFlags g ->
  NoDup (flat_map memberTargets gs) /\ flagsMirrorClasses gs dom ->
  NoDup (flat_map memberTargets (<[gi := g']> gs))
  /\ flagsMirrorClasses (<[gi := g']> gs) dom.
Proof.
  intros Hg Hm. apply flagsMirrorClasses_ext. eapply memberFlags_insert; eassumption.
Qed.

Lemma classesMirrored_same w w' :
  World.elemGroups w' = World.elemGroups w -> World.dom w' = World.dom w ->
  classesMirrored w -> classesMirrored w'.
Proof. unfold classesMirrored. intros -> ->. auto. Qed.

Lemma classesMirrored_thresholds w :
  classesMirrored w ->
  classesMirrored
    (World.with_elemGroups
       (map (correctThresholds (World.windowHeight w) (World.layout w))
            (World.elemGroups w)) w).
Proof.
  unfold classesMirrored. intros H. destruct w as [gs wh ? ? ? ? ly ? ? ? dm]. cbn in *.
  apply mirrors_groups_map; [|exact H]. apply memberFlags_correctThresholds.
Qed.

Lemma classesMirrored_readAll w : classesMirrored w -> classesMirrored (readAll w).
Proof.
  unfold classesMirrored, readAll. intros H.
  destruct w as [gs wh ? ? ? ? ly ? ? ? dm]. cbn in *.
  apply mirrors_groups_map; [|exact H]. intros g.
  destruct (isProcessed g); [apply memberFlags_readOne | reflexivity].
Qed.

Lemma classesMirrored_with_group gi g g' w :
  World.elemGroups w !! gi = Some g -> memberFlags g' = memberFlags g ->
  classesMirrored w -> classesMirrored (World.with_group gi g' w).
Proof.
  unfold classesMirrored. intros Hg Hm H. rewrite World_groups_with_group.
  replace (World.dom (World.with_group gi g' w)) with (World.dom w)
    by (destruct w; reflexivity).
  apply (mirrors_insert _ gi g); assumption.
Qed.

Lemma classesMirrored_delayGroup gi w : classesMirrored w -> classesMirrored (delayGroup gi w).
Proof.
  unfold classesMirrored. intros H.
  destruct (World.elemGroups w !! gi) as [g|] eqn:Hg;
    [|unfold delayGroup; rewrite Hg; exact H].
  destruct (delayGroup_groups gi w g Hg) as (-> & _ & _ & -> & _).
  apply (mirrors_insert _ gi g); [exact Hg | destruct g; reflexivity | exact H].
Qed.

Lemma classesMirrored_pass gi g idxs w :
  classesMirrored w -> World.elemGroups w !! gi = Some g ->
  classesMirrored
    (World.with_dom
       (snd (fold_left (fun acc i => updateAnimations (World.windowHeight w) i acc)
               idxs (g, World.dom w)))
       (World.with_group gi
          (updateMutableProps
             (fst (fold_left (fun acc i => updateAnimations (World.windowHeight w) i acc)
                     idxs (g, World.dom w))))
          w)).
Proof.
  unfold classesMirrored. intros H Hg.
  pose proof (pass_mirrors (World.windowHeight w) idxs _ gi g (World.dom w) Hg H) as H1.
  cbv zeta in H1. destruct w; exact H1.
Qed.

Lemma classesMirrored_fireTimer id w : classesMirrored w -> classesMirrored (fireTimer id w).
Proof.
  unfold classesMirrored. intros H.
  destruct (fireTimer_cases id w) as [->|(t & _ & _ & _ & Hd & Hc)]; [exact H|].
  rewrite Hd. destruct Hc as [(_ & -> & _)|(g & Hg & -> & _)]; [exact H|].
  apply (mirrors_insert _ (timer_group t) g); [exact Hg| |exact H].
  destruct (World.useScroll w);
    [rewrite memberFlags_readOne|]; destruct g; reflexivity.
Qed.

(** on a page where no element is a member twice and the flags mirror
    the classes, they go on doing so *)
Lemma mirrors_run (w : World.t) (evs : list Event) :
  classesMirrored w -> classesMirrored (run evs w).
Proof.
  apply worldInv_run.
  - intros lay' w'. apply classesMirrored_same; destruct w'; reflexivity.
  - intros p c w'. apply classesMirrored_same; destruct w'; reflexivity.
  - intros b w'. apply classesMirrored_same; destruct w'; reflexivity.
  - intros cbs w'. apply classesMirrored_same; destruct w'; reflexivity.
  - apply classesMirrored_thresholds.
  - apply classesMirrored_readAll.
  - apply classesMirrored_delayGroup.
  - apply classesMirrored_pass.
  - apply classesMirrored_fireTimer.
Qed.

Lemma mirrors_loadedWorld groups ch us lay :
  NoDup (flat_map memberTargets groups) /\ flagsMirrorClasses groups [] ->
  classesMirrored (loadedWorld groups ch us lay).
Proof.
  intros H. apply worldInv_loadedWorld.
  - intros b w'. apply classesMirrored_same; destruct w'; reflexivity.
  - intros cbs w'. apply classesMirrored_same; destruct w'; reflexivity.
  - apply classesMirrored_readAll.
  - exact H.
Qed.

(** the elements of the groups bootstrap builds are the elements it made
    members, group by group *)
Lemma built_targets parseJSON parseCharDelays fes :
  flat_map memberTargets
    (page_groups (readyElementsForAnimation parseJSON parseCharDelays fes))
  ≡ₚ map fst (bootMembers fes).
Proof.
  rewrite ready_readyState.
  destruct (readyState_groups parseJSON parseCharDelays fes) as [Hlen Hg].
  assert (H2 : Forall2 (fun g fe => memberTargets g ≡ₚ map es_target (fe_members fe))
                 (page_groups (snd (readyState parseJSON parseCharDelays fes))) fes).
  { apply Forall2_same_length_lookup_2; [exact Hlen|].
    intros i g fe Hi Hfe. destruct (Hg i fe Hfe) as (used & Hlk).
    rewrite Hlk in Hi. injection Hi as <-.
    destruct (builtGroup_members parseJSON parseCharDelays (chooseGroupId used i fe) fe)
      as (els & Hs & ->).
    assert (Hels : map Elem.target els = map es_target (fe_members fe)).
    { cbn [new_ElemGroup ElemGroup.elems] in Hs. clear -Hs.
      remember (fe_members fe) as ms eqn:E. clear E. revert els Hs.
      induction ms as [|m ms IH]; intros els Hs; cbn [map] in Hs.
      - apply Forall2_nil_inv_l in Hs as ->. reflexivity.
      - apply Forall2_cons_inv_l in Hs as (e' & els' & Hsame & Hs & ->).
        cbn [map]. rewrite (IH els' Hs), Hsame. reflexivity. }
    unfold memberTargets.
    destruct (ecaReverse (fe_options fe)); unfold reverseElems;
      cbn [ElemGroup.elems ElemGroup.with_elems ElemGroup.with_upToDateELem new_ElemGroup].
    - rewrite fmap_reverse, reverse_Permutation.
      change (Elem.target <$> els) with (map Elem.target els). rewrite Hels. reflexivity.
    - rewrite Hels. reflexivity. }
  unfold bootMembers. clear -H2.
  induction H2 as [|g fe gs fes Hp _ IH]; [reflexivity|].
  cbn [flat_map]. rewrite map_app, map_map. cbn [fst].
  apply Permutation_app; [exact Hp | exact IH].
Qed.

Lemma booted_classesMirrored parseJSON parseCharDelays fes ch us lay :
  NoDup (map fst (bootMembers fes)) ->
  classesMirrored (bootedWorld parseJSON parseCharDelays fes ch us lay).
Proof.
  intros Hnd. unfold bootedWorld. apply mirrors_loadedWorld. split.
  - rewrite built_targets. exact Hnd.
  - assert (Hfresh : Forall (fun g => Forall (fun e => Elem.isAnimated e = false)
                                        (ElemGroup.elems g))
                       (page_groups
                          (readyElementsForAnimation parseJSON parseCharDelays fes))).
    { apply Forall_builtGroups. intros id fe. apply builtGroup_fresh. }
    intros gi i g e Hg He.
    pose proof (Forall_lookup_1 _ _ _ _ Hfresh Hg) as Hg'. cbv beta in Hg'.
    rewrite (Forall_lookup_1 _ _ _ _ Hg' He). reflexivity.
Qed.

(** X24 ([animate], [deAnimate], the [isAnimated] setter): on a page
    where no element is a member twice, whatever happens after bootstrap,
    the animated flag of every member agrees with the class list of its
    element as the engine's writes leave it: the flag is set exactly when
    the last write of the class to that element added it. *)
Theorem animated_flag_mirrors_class (parseJSON : string -> option JSObject)
    (parseCharDelays : string -> option (list CharDelay)) (fes : list FirstElem)
    (clientHeight : Q) (useScroll : bool) (lay : Layout) (evs : list Event) :
  NoDup (map fst (bootMembers fes)) ->
  let w := run evs
             (bootedWorld parseJSON parseCharDelays fes clientHeight useScroll lay) in
  flagsMirrorClasses (World.elemGroups w) (World.dom w).
Proof.
  intros Hnd w. subst w.
  apply (mirrors_run (bootedWorld parseJSON parseCharDelays fes clientHeight useScroll lay)).
  apply booted_classesMirrored, Hnd.
Qed.

(** two cards with the removal option on: animated in view at load, then
    scrolled away and de-animated *)
Lemma animated_flag_mirrors_class_witness :
  let fes := [mkFirstElem "card" false
                (mkGroupOptions ThrFalse 100 false 0 0 false false false None false false
                   OptTrue)
                [sampleMember 1; sampleMember 2] None] in
  let w := run [EvFrame; EvScroll cardsScrolledAway; EvFrame]
             (bootedWorld rejectAll rejectAll fes 500 true (fun _ => mkRect 100 200 100)) in
  NoDup (map fst (bootMembers fes))
  /\ classWrites (World.dom w)
     = [AddAnimatedClass 1; AddAnimatedClass 2; RemoveAnimatedClass 1;
        ResetInlineStyle 1 ""; RemoveAnimatedClass 2; ResetInlineStyle 2 ""]
  /\ map memberFlags (World.elemGroups w) = [[(1%nat, false); (2%nat, false)]]
  /\ flagsMirrorClasses (World.elemGroups w) (World.dom w).
Proof.
  assert (Hnd : NoDup (map fst (bootMembers
            [mkFirstElem "card" false
               (mkGroupOptions ThrFalse 100 false 0 0 false false false None false false
                  OptTrue)
               [sampleMember 1; sampleMember 2] None]))).
  { apply (bool_decide_unpack _). vm_compute. exact I. }
  split; [exact Hnd|]. split; [reflexivity|]. split; [reflexivity|].
  exact (animated_flag_mirrors_class rejectAll rejectAll
           [mkFirstElem "card" false
              (mkGroupOptions ThrFalse 100 false 0 0 false false false None false false
                 OptTrue)
              [sampleMember 1; sampleMember 2] None]
           500 true (fun _ => mkRect 100 200 100)
           [EvFrame; EvScroll cardsScrolledAway; EvFrame] Hnd).
Defined.

(** *** Invariants of the page under the observer strategy *)

Section ObserverInvariant.
Variable I : World.t -> Prop.
Hypothesis I_layout : forall lay w, I w -> I (World.with_layout lay w).
Hypothesis I_heights : forall p c w, I w -> I (World.with_windowHeights p c w).
Hypothesis I_updating : forall b w, I w -> I (World.with_updating b w).
Hypothesis I_frames : forall cbs w, I w -> I (World.with_frameCallbacks cbs w).
Hypothesis I_thresholds : forall w, I w ->
  I (World.with_elemGroups
       (map (correctThresholds (World.windowHeight w) (World.layout w))
            (World.elemGroups w)) w).
Hypothesis I_readAll : forall w, I w -> I (readAll w).
Hypothesis I_delayGroup : forall gi w, I w -> I (delayGroup gi w).
Hypothesis I_pass : forall gi g idxs w,
  I w -> World.elemGroups w !! gi = Some g ->
  I (World.with_dom
       (snd (fold_left (fun acc i => updateAnimations (World.windowHeight w) i acc)
               idxs (g, World.dom w)))
       (World.with_group gi
          (updateMutableProps
             (fst (fold_left (fun acc i => updateAnimations (World.windowHeight w) i acc)
                     idxs (g, World.dom w))))
          w)).
Hypothesis I_fireTimer : forall id w, I w -> I (fireTimer id w).
Hypothesis I_visibilityIO : forall wh en gi i g w,
  I w -> World.elemGroups w !! gi = Some g ->
  I (World.with_group gi (calculateVisibilityIO wh en i g) w).
Hypothesis I_upToDate : forall x gi g w,
  I w -> World.elemGroups w !! gi = Some g ->
  I (World.with_group gi (ElemGroup.with_upToDateELem x g) w).

Lemma observerInv_readEntry en s subs s' subs' :
  readEntry en (s, subs) = Some (s', subs') ->
  I (Observer.world s) -> I (Observer.world s').
Proof.
  intros H Hs. destruct (readEntry_cases en s subs s' subs' H) as (g & e & Href & Hc).
  apply refElem_Some in Href as [Hg He].
  assert (Hread : I (World.with_group (fst (en_elem en))
                       (ElemGroup.with_upToDateELem (Some (snd (en_elem en)))
                          (calculateVisibilityIO (World.windowHeight (Observer.world s)) en
                             (snd (en_elem en)) g))
                       (Observer.world s))).
  { rewrite <- (World_with_group_twice (fst (en_elem en))
                  (calculateVisibilityIO (World.windowHeight (Observer.world s)) en
                     (snd (en_elem en)) g)).
    apply I_upToDate; [apply I_visibilityIO; assumption|].
    rewrite World_groups_with_group. apply list_lookup_insert_eq.
    eapply lookup_lt_Some, Hg. }
  pose proof (I_upToDate (Some (snd (en_elem en))) _ g _ Hs Hg) as Hskip.
  cbv zeta in Hc.
  destruct Hc as [(_ & upd & _ & -> & _)|[(_ & _ & -> & _)|[(_ & -> & _)|[(_ & -> & _)
                 |(upd & _ & -> & _)]]]];
    destruct s as [w y p m u o]; cbn [Observer.world Observer.with_world unobserve
      Observer.with_observed Observer.with_elemsUpdatedAtY Observer.with_unobservedElems] in *;
    assumption.
Qed.

Lemma observerInv_readEntries entries s subs s' subs' :
  readEntries entries (s, subs) = Some (s', subs') ->
  I (Observer.world s) -> I (Observer.world s').
Proof.
  revert s subs. induction entries as [|en entries IH]; intros s subs H Hs.
  - injection H as <- <-. exact Hs.
  - cbn [readEntries] in H.
    destruct (readEntry en (s, subs)) as [[s1 subs1]|] eqn:E; [|discriminate].
    cbn [mbind option_bind] in H.
    eapply IH; [exact H|]. eapply observerInv_readEntry; eassumption.
Qed.

Lemma observerInv_handleIntersect entries s s' :
  handleIntersect entries s = Some s' ->
  I (Observer.world s) -> I (Observer.world s').
Proof.
  unfold handleIntersect. intros H Hs.
  assert (H1 : forall (b : bool) m0,
            I (Observer.world (if b then Observer.with_elemsUpdatedAtY m0 s else s))).
  { intros [] m0; [destruct s|]; exact Hs. }
  specialize (H1 (negb (sameScrollY (Observer.prevScrollY s) (Observer.scrollY s)))
                 (setUpdatedAt (Observer.scrollY s) [] (Observer.elemsUpdatedAtY s))).
  set (s1 := if negb (sameScrollY (Observer.prevScrollY s) (Observer.scrollY s))
             then Observer.with_elemsUpdatedAtY
                    (setUpdatedAt (Observer.scrollY s) [] (Observer.elemsUpdatedAtY s)) s
             else s) in *.
  clearbody s1.
  destruct (negb (World.updating (Observer.world s1))).
  - destruct (readEntries entries _) as [[s3 subs]|] eqn:E; [|discriminate].
    injection H as <-.
    apply observerInv_readEntries in E.
    + destruct s3 as [w3 ? ? ? ? ?]. cbn [Observer.world Observer.with_world
        Observer.with_scroll] in *.
      apply I_heights. unfold requestAnimationFrame. apply I_frames, E.
    + destruct s1 as [w1 ? ? ? ? ?]. cbn [Observer.world Observer.with_world] in *.
      apply I_updating, H1.
  - injection H as <-. destruct s1 as [w1 ? ? ? ? ?].
    cbn [Observer.world Observer.with_world Observer.with_scroll] in *.
    apply I_heights, H1.
Qed.

Lemma observerInv_observerStep ev s s' :
  observerStep ev s = Some s' ->
  I (Observer.world s) -> I (Observer.world s').
Proof.
  assert (Hstep : forall ev w, I w -> I (step ev w)).
  { intros ev0 w. apply worldInv_step; assumption. }
  destruct ev as [y lay|ch lay|entries|id|]; cbn [observerStep]; intros H Hs.
  - injection H as <-. destruct s as [w ? ? ? ? ?].
    unfold ecaHandleNewScrollY, reobserveElems, updateScrollY.
    cbn [Observer.world Observer.with_world Observer.scrollY].
    destruct (Qeq_bool _ _); cbn; apply I_layout, Hs.
  - injection H as <-. destruct s as [w ? ? ? ? ?].
    unfold reobserveElems. cbn [Observer.world Observer.with_world Observer.with_observed
      Observer.with_unobservedElems].
    apply (Hstep (EvResize ch lay) w Hs).
  - eapply observerInv_handleIntersect; eassumption.
  - injection H as <-. destruct s as [w ? ? ? ? ?]. cbn [Observer.world Observer.with_world].
    apply (Hstep (EvTimer id) w Hs).
  - injection H as <-. destruct s as [w ? ? ? ? ?]. cbn [Observer.world Observer.with_world].
    apply (Hstep EvFrame w Hs).
Qed.

(** what the operations on the page keep, the events of the observer
    strategy keep *)
Lemma observerInv_observerRun evs s s' :
  observerRun evs s = Some s' ->
  I (Observer.world s) -> I (Observer.world s').
Proof.
  revert s. induction evs as [|ev evs IH]; intros s H Hs.
  - injection H as <-. exact Hs.
  - cbn [observerRun] in H. destruct (observerStep ev s) as [s1|] eqn:E; [|discriminate].
    cbn [mbind option_bind] in H. eapply IH; [exact H|].
    eapply observerInv_observerStep; eassumption.
Qed.
End ObserverInvariant.

Lemma memberFlags_visibilityIO wh en i g :
  memberFlags (calculateVisibilityIO wh en i g) = memberFlags g.
Proof.
  destruct (calculateVisibilityIO_shape wh en i g) as (n & v & e' & -> & He').
  unfold memberFlags.
  replace (ElemGroup.elems
             (ElemGroup.with_visibility n v
                (ElemGroup.with_elems (<[i := e']> (ElemGroup.elems g)) g)))
    with (<[i := e']> (ElemGroup.elems g)) by (destruct g; reflexivity).
  destruct (ElemGroup.elems g !! i) as [e|] eqn:He.
  - destruct (He' e eq_refl) as (tp & bt & vis & ->).
    rewrite list_fmap_insert. apply list_insert_id.
    rewrite list_lookup_fmap, He. destruct e; reflexivity.
  - rewrite list_insert_ge by (apply lookup_ge_None, He). reflexivity.
Qed.

Lemma mirrors_observerRun evs s s' :
  observerRun evs s = Some s' ->
  classesMirrored (Observer.world s) -> classesMirrored (Observer.world s').
Proof.
  apply observerInv_observerRun.
  - intros lay' w'. apply classesMirrored_same; destruct w'; reflexivity.
  - intros p c w'. apply classesMirrored_same; destruct w'; reflexivity.
  - intros b w'. apply classesMirrored_same; destruct w'; reflexivity.
  - intros cbs w'. apply classesMirrored_same; destruct w'; reflexivity.
  - apply classesMirrored_thresholds.
  - apply classesMirrored_readAll.
  - apply classesMirrored_delayGroup.
  - apply classesMirrored_pass.
  - apply classesMirrored_fireTimer.
  - intros wh en gi i g w Hw Hg.
    apply (classesMirrored_with_group gi g); [exact Hg | apply memberFlags_visibilityIO | exact Hw].
  - intros x gi g w Hw Hg.
    apply (classesMirrored_with_group gi g); [exact Hg | destruct g; reflexivity | exact Hw].
Qed.

(** X25 ([animate], [deAnimate], [updateEntries] under the observer
    strategy): on a page where no element is a member twice, whatever the
    observer reports after bootstrap, the animated flag of every member
    agrees with the class list of its element as the engine's writes
    leave it: the flag is set exactly when the last write of the class
    to that element added it. *)
Theorem observer_flag_mirrors_class (parseJSON : string -> option JSObject)
    (parseCharDelays : string -> option (list CharDelay)) (fes : list FirstElem)
    (clientHeight : Q) (lay : Layout) (evs : list ObserverEvent) (s : Observer.t) :
  NoDup (map fst (bootMembers fes)) ->
  observerRun evs
    (observerWorld (bootedWorld parseJSON parseCharDelays fes clientHeight false lay))
  = Some s ->
  flagsMirrorClasses (World.elemGroups (Observer.world s)) (World.dom (Observer.world s)).
Proof.
  intros Hnd H. apply (mirrors_observerRun evs _ s H).
  apply booted_classesMirrored, Hnd.
Qed.

(** a card with the removal option on, reported in view and animated,
    then reported out of view and de-animated *)
Lemma observer_flag_mirrors_class_witness :
  let fes := [mkFirstElem "card" false
                (mkGroupOptions ThrFalse 100 false 0 0 false false false None false false
                   OptTrue)
                [sampleMember 1; sampleMember 2] None] in
  exists s,
    observerRun [ObIntersect [mkEntry (0, 0)%nat true 1 100 200];
                 ObFrame;
                 ObScroll 300 cardsScrolledAway;
                 ObIntersect [mkEntry (0, 0)%nat false 0 (-200) (-100)];
                 ObFrame]
      (observerWorld
         (bootedWorld rejectAll rejectAll fes 500 false (fun _ => mkRect 100 200 100)))
    = Some s
    /\ classWrites (World.dom (Observer.world s))
       = [AddAnimatedClass 1; RemoveAnimatedClass 1; ResetInlineStyle 1 ""]
    /\ flagsMirrorClasses (World.elemGroups (Observer.world s))
         (World.dom (Observer.world s)).
Proof.
  cbv zeta. eexists. split; [vm_compute; reflexivity|]. split; [vm_compute; reflexivity|].
  apply (observer_flag_mirrors_class rejectAll rejectAll
           [mkFirstElem "card" false
              (mkGroupOptions ThrFalse 100 false 0 0 false false false None false false
                 OptTrue)
              [sampleMember 1; sampleMember 2] None]
           500 (fun _ => mkRect 100 200 100)
           [ObIntersect [mkEntry (0, 0)%nat true 1 100 200];
            ObFrame;
            ObScroll 300 cardsScrolledAway;
            ObIntersect [mkEntry (0, 0)%nat false 0 (-200) (-100)];
            ObFrame]).
  - apply (bool_decide_unpack _). vm_compute. exact I.
  - vm_compute. reflexivity.
Defined.

(** ** Threshold correction happens at a resize (C6) *)

Section MemberThresholds.
Variable M : Elem.t -> Prop.
Hypothesis M_same : forall e e',
  Elem.threshold e' = Elem.threshold e ->
  Elem.originalThreshold e' = Elem.originalThreshold e ->
  Elem.target e' = Elem.target e ->
  M e -> M e'.











End MemberThresholds.











